(** * acedge-http: disposables, cancellation, events and cancelable promises

    A shallow embedding of the lifecycle core of the package
    ([src/@internals/disposable.ts], [events.ts], [map.ts], [async.ts],
    [errors/exception.ts]) together with the properties its design
    document states about it.

    Conventions of the embedding.
    - A JavaScript object that is mutated in place becomes a record that
      is passed in and returned.  Objects that are shared between the
      caller and the emitter (the [Event] wrappers) live in a store
      indexed by their identity.
    - What the code does to its environment (console output, calls to
      user supplied hooks and handlers, invocations of listeners,
      releases of user supplied disposables) is appended to a trace of
      [Effect]s.
    - A statement that can [throw] returns a [Completion].
    - JavaScript numbers that count things are in [Z]; the leak
      threshold and its countdown, which the code halves, are
      rationals in [Q], as every double is one, and so are the times
      a profile measures; the square of the threshold and the sum of
      the times are rounded to doubles, as the code computes them. *)

From Stdlib Require Import ZArith QArith Qround Qpower Lia Bool.
From stdpp Require Import base option list strings.

#[local] Open Scope Z_scope.
#[local] Open Scope list_scope.

(** ** errors/exception.ts *)

Module Errors.

Inductive ERROR_CODE :=
| ERR_UNKNOWN_ERROR
| ERR_ONCE_WAS_CALLED_AGAIN
| ERR_TOKEN_CANCELLED
| ERR_RESOURCE_DISPOSED
| ERR_LISTENER_LEAK
| ERR_INVALID_ARGUMENT
| ERR_INVALID_TYPE
| ERR_LISTENER_REFUSAL.

(** The numeric value of each member of the enum. *)
Definition code_value (c : ERROR_CODE) : Z :=
  match c with
  | ERR_UNKNOWN_ERROR => 100
  | ERR_ONCE_WAS_CALLED_AGAIN => 101
  | ERR_TOKEN_CANCELLED => 102
  | ERR_RESOURCE_DISPOSED => 103
  | ERR_LISTENER_LEAK => 104
  | ERR_INVALID_ARGUMENT => 105
  | ERR_INVALID_TYPE => 106
  | ERR_LISTENER_REFUSAL => 107
  end.

(** The reverse mapping [ERROR_CODE[n]] of a numeric enum. *)
Definition code_of_value (n : Z) : option ERROR_CODE :=
  if n =? 100 then Some ERR_UNKNOWN_ERROR
  else if n =? 101 then Some ERR_ONCE_WAS_CALLED_AGAIN
  else if n =? 102 then Some ERR_TOKEN_CANCELLED
  else if n =? 103 then Some ERR_RESOURCE_DISPOSED
  else if n =? 104 then Some ERR_LISTENER_LEAK
  else if n =? 105 then Some ERR_INVALID_ARGUMENT
  else if n =? 106 then Some ERR_INVALID_TYPE
  else if n =? 107 then Some ERR_LISTENER_REFUSAL
  else None.

(** Message texts.  A template literal keeps the values it
    interpolates instead of their printed form. *)
Inductive Message :=
| Text (s : string)
| LeakDetected (lc : Z) (tc : Z)
| RefusesListeners (size : Z) (threshold : Q)
| RefusesListenersHint (size : Z) (threshold : Q) (times : Z)
| DisposedListenerCalled (listener : nat)
| DumpDisposed (disposed : bool)
| DumpSize (size : Z)
| DumpEntry (index : nat) (container : nat).

Record Exception := {
  message : Message;
  code : Z;
  overrideStack : option string
}.

(** [new Exception(message, code)] with a code given by name; the
    constructor's default is ["ERR_UNKNOWN_ERROR"]. *)
Definition new_Exception (m : Message) (c : ERROR_CODE) : Exception :=
  {| message := m; code := - code_value c; overrideStack := None |}.

Definition getErrorCode (e : Exception) : ERROR_CODE :=
  match code_of_value (- code e) with
  | Some c => c
  | None => ERR_UNKNOWN_ERROR
  end.

(** [e.is(code)] for a code given by name. *)
Definition Exception_is (e : Exception) (c : ERROR_CODE) : bool :=
  code e =? - code_value c.

(** Anything a [throw] can carry: an [Exception], some other error
    value, or the [AggregateError] built by [dispose]. *)
#[warnings="-register-all"]
Inductive Thrown :=
| ThrownException (e : Exception)
| ThrownError (text : string)
| ThrownAggregate (errors : list Thrown) (text : string).

(** [err instanceof Exception && err.is(c)] *)
Definition thrown_is (t : Thrown) (c : ERROR_CODE) : bool :=
  match t with
  | ThrownException e => Exception_is e c
  | _ => false
  end.

Inductive Completion (A : Type) :=
| Normal (a : A)
| Throw (t : Thrown).
Arguments Normal {A} a.
Arguments Throw {A} t.

(** [new Exception(message, code)] with a numeric code: the sign of
    the number given is dropped. *)
Definition new_Exception_number (m : Message) (n : Z) : Exception :=
  {| message := m; code := - Z.abs n; overrideStack := None |}.

(** [new Exception(message, code)] with a code given as a string;
    [None] stands for a string that names no property of the enum
    object at all.  A string that names a property of it other than a
    member (the number of a member written as a string, or a name
    every object inherits, such as ["toString"]) makes the code [NaN];
    such strings are outside the model. *)
Definition new_Exception_string (m : Message) (c : option ERROR_CODE) : Exception :=
  {| message := m;
     code := - code_value (match c with Some c => c | None => ERR_UNKNOWN_ERROR end);
     overrideStack := None |}.

(** [e.is(code)] for a numeric code. *)
Definition Exception_is_number (e : Exception) (n : Z) : bool :=
  code e =? - Z.abs n.

(** [e.is(code)] for a code given as a string; [None] stands for a
    string that is not the name of a member. *)
Definition Exception_is_string (e : Exception) (c : option ERROR_CODE) : bool :=
  match c with
  | Some c => code e =? - code_value c
  | None => false
  end.

End Errors.
Import Errors.

(** ** cancellation.ts *)

Module Cancellation.

(** Modelled from the spec: [cancellation.ts] is not among the sources
    at hand; only its callers ([events.ts], [async.ts]) and its test
    suite are.  The design document gives a source exactly one token
    with a monotone [requested] flag, the two singleton tokens [None]
    and [Cancelled], a token that is allocated lazily on first access,
    [cancel()] as a no-op on a token that is already requested,
    [dispose()] as the release of the listener storage, and routes a
    registration made after the release to [None].  A registered
    listener is named by a number.  [cancel] hands back, in
    registration order, the listeners it notifies; the test suite of
    the module observes them as notified by the time [cancel()]
    returns.  Propagation from a parent token is not needed by any
    caller modelled here and is left out. *)
Inductive Token :=
| TokenNone
| TokenCancelled
| TokenOwned (requested : bool) (listeners : option (list nat)).

Record CancellationTokenSource := {
  _token : option Token
}.

Definition new_CancellationTokenSource : CancellationTokenSource :=
  {| _token := None |}.

Definition isCancellationRequested (t : Token) : bool :=
  match t with
  | TokenNone => false
  | TokenCancelled => true
  | TokenOwned requested _ => requested
  end.

(** [source.token]: the first access allocates the token. *)
Definition token (s : CancellationTokenSource) : Token * CancellationTokenSource :=
  match _token s with
  | Some t => (t, s)
  | None =>
      let t := TokenOwned false (Some []) in
      (t, {| _token := Some t |})
  end.

(** [source.cancel()]: the listeners to notify and the source afterwards. *)
Definition cancel (s : CancellationTokenSource) : list nat * CancellationTokenSource :=
  match _token s with
  | None => ([], {| _token := Some TokenCancelled |})
  | Some (TokenOwned false ls) =>
      (default [] ls, {| _token := Some (TokenOwned true None) |})
  | Some _ => ([], s)
  end.

(** [source.dispose(alsoCancel)] *)
Definition dispose (alsoCancel : bool) (s : CancellationTokenSource)
  : list nat * CancellationTokenSource :=
  let '(notified, s1) := if alsoCancel then cancel s else ([], s) in
  match _token s1 with
  | None => (notified, {| _token := Some TokenNone |})
  | Some (TokenOwned requested _) =>
      (notified, {| _token := Some (TokenOwned requested None) |})
  | Some _ => (notified, s1)
  end.

(** What [token.onCancellationRequested(l)] does with the listener. *)
Inductive Registration :=
| Registered            (* kept until the token is cancelled *)
| Deferred              (* token already requested: delivered on a later tick *)
| Dropped.              (* [None], or storage released: never delivered *)

Definition onCancellationRequested (l : nat) (s : CancellationTokenSource)
  : Registration * CancellationTokenSource :=
  let '(t, s1) := token s in
  match t with
  | TokenNone => (Dropped, s1)
  | TokenCancelled => (Deferred, s1)
  | TokenOwned true _ => (Deferred, s1)
  | TokenOwned false None => (Dropped, s1)
  | TokenOwned false (Some ls) =>
      (Registered, {| _token := Some (TokenOwned false (Some (ls ++ [l]))) |})
  end.

(** The [dispose()] of the registration handle. *)
Definition unregister (l : nat) (s : CancellationTokenSource) : CancellationTokenSource :=
  match _token s with
  | Some (TokenOwned requested (Some ls)) =>
      {| _token := Some (TokenOwned requested (Some (filter (λ x, negb (x =? l)%nat) ls))) |}
  | _ => s
  end.

End Cancellation.

(** ** Values and effects *)

Inductive Value :=
| VUndefined
| VString (s : string)
| VNumber (n : Z).

(** The argument array a listener is called with. *)
Definition Payload := list Value.

(** An object of the caller that is bound to a listener as its
    [thisArg]: its identity, and whether [JSON.stringify] accepts it
    (it throws a [TypeError] on a circular structure and on a
    BigInt). *)
Record Object := {
  object_id : nat;
  object_prints : bool
}.

Inductive Hook :=
| onWillAddFirstListener
| onDidAddFirstListener
| onDidAddListener
| onDidRemoveLastListener
| onWillRemoveListener.

Inductive Effect :=
| Released (d : nat)                 (* the body of a user supplied [dispose()] ran *)
| ConsoleWarn (m : Message)
| ConsoleLog (m : Message)
| HookFired (h : Hook)               (* a lifecycle hook of the options was called *)
| HandlerCalled (t : Thrown)         (* [options.onListenerError(err)] *)
| Escalated (t : Thrown)             (* [onUnexpected(err)]: rethrown from a later tick *)
| Invoked (cb : nat) (thisArg : option Object) (args : Payload) (tok : Cancellation.Token).

Definition Trace := list Effect.

(** ** disposable.ts *)

Module Disposable.

(** A disposable handed in by a caller ([toDisposable(fn)], a mock
    object, ...).  All the store sees of it is its identity and
    whether its [dispose()] returns or throws; every call of it is
    recorded.  [leaf_prints] tells whether [JSON.stringify] accepts
    the object, which matters to the emitter only: it throws a
    [TypeError] on a circular structure and on a BigInt. *)
Record Leaf := {
  leaf_id : nat;
  leaf_throws : option Thrown;
  leaf_prints : bool
}.

Definition Leaf_dispose (d : Leaf) (tr : Trace) : Trace * Completion unit :=
  (tr ++ [Released (leaf_id d)],
   match leaf_throws d with
   | Some t => Throw t
   | None => Normal tt
   end).

(** The loop of [dispose(iterable)]: every member is disposed, what a
    member throws is collected. *)
Fixpoint dispose_each (ds : list Leaf) (errors : list Thrown) (tr : Trace)
  : Trace * list Thrown :=
  match ds with
  | [] => (tr, errors)
  | d :: rest =>
      match Leaf_dispose d tr with
      | (tr1, Throw e) => dispose_each rest (errors ++ [e]) tr1
      | (tr1, Normal _) => dispose_each rest errors tr1
      end
  end.

(** [dispose(arg)] on an iterable. *)
Definition dispose (ds : list Leaf) (tr : Trace) : Trace * Completion unit :=
  let '(tr1, errors) := dispose_each ds [] tr in
  match errors with
  | [] => (tr1, Normal tt)
  | [e] => (tr1, Throw e)
  | _ => (tr1, Throw (ThrownAggregate errors "Encountered errors while disposing of store"))
  end.

(** A [Set<IDisposable>] in insertion order; membership is identity. *)
Definition Set_has (d : Leaf) (set : list Leaf) : bool :=
  existsb (λ x, (leaf_id x =? leaf_id d)%nat) set.

Definition Set_add (d : Leaf) (set : list Leaf) : list Leaf :=
  if Set_has d set then set else set ++ [d].

Definition Set_delete (d : Leaf) (set : list Leaf) : list Leaf :=
  filter (λ x, negb (leaf_id x =? leaf_id d)%nat) set.

Record DisposableStore := {
  toDispose : list Leaf;
  isDisposed : bool
}.

Definition new_DisposableStore : DisposableStore :=
  {| toDispose := []; isDisposed := false |}.

(** [store.clear()]: the [finally] empties the set also when a member threw. *)
Definition DisposableStore_clear (s : DisposableStore) (tr : Trace)
  : DisposableStore * Trace * Completion unit :=
  if (length (toDispose s) =? 0)%nat then (s, tr, Normal tt)
  else
    let '(tr1, r) := dispose (toDispose s) tr in
    ({| toDispose := []; isDisposed := isDisposed s |}, tr1, r).

Definition DisposableStore_dispose (s : DisposableStore) (tr : Trace)
  : DisposableStore * Trace * Completion unit :=
  if isDisposed s then (s, tr, Normal tt)
  else DisposableStore_clear {| toDispose := toDispose s; isDisposed := true |} tr.

(** What can be passed where an [IDisposable] is expected: the store
    itself, or some other disposable; [None] is a missing argument. *)
Inductive Arg :=
| Self
| Other (d : Leaf).

Definition disposed_store_warning : Message :=
  Text "Trying to add a disposable to a DisposableStore that has already been disposed of. The added object will be leaked!".

(** [store.add(o)]; [disable_warning] is the static
    [DisposableStore.DISABLE_DISPOSED_WARNING]. *)
Definition DisposableStore_add (disable_warning : bool) (o : option Arg)
    (s : DisposableStore) (tr : Trace)
  : DisposableStore * Trace * Completion (option Arg) :=
  match o with
  | None => (s, tr, Normal o)
  | Some Self => (s, tr, Throw (ThrownError "Cannot register a disposable on itself!"))
  | Some (Other d) =>
      if isDisposed s then
        if negb disable_warning
        then (s, tr ++ [ConsoleWarn disposed_store_warning], Normal o)
        else (s, tr, Normal o)
      else
        ({| toDispose := Set_add d (toDispose s); isDisposed := isDisposed s |},
         tr, Normal o)
  end.

(** [store.delete(o)] *)
Definition DisposableStore_delete (o : option Arg) (s : DisposableStore) (tr : Trace)
  : DisposableStore * Trace * Completion unit :=
  match o with
  | None => (s, tr, Normal tt)
  | Some Self => (s, tr, Throw (ThrownError "Cannot dispose a disposable on itself!"))
  | Some (Other d) =>
      let s1 := {| toDispose := Set_delete d (toDispose s); isDisposed := isDisposed s |} in
      let '(tr1, r) := Leaf_dispose d tr in
      (s1, tr1, r)
  end.

(** [store.deleteAndLeak(o)] *)
Definition DisposableStore_deleteAndLeak (o : option Arg) (s : DisposableStore)
  : DisposableStore :=
  match o with
  | Some (Other d) =>
      if Set_has d (toDispose s)
      then {| toDispose := Set_delete d (toDispose s); isDisposed := isDisposed s |}
      else s
  | _ => s
  end.

(** The base class [Disposable.Disposable]. *)
Record DisposableBase := {
  lifecycle : list Leaf;
  base_isDisposed : bool
}.

Definition new_Disposable : DisposableBase :=
  {| lifecycle := []; base_isDisposed := false |}.

(** [lifecycle.forEach(item => item.dispose())]: nothing catches, so
    the first member that throws ends the loop. *)
Fixpoint forEach_dispose (items : list Leaf) (tr : Trace) : Trace * Completion unit :=
  match items with
  | [] => (tr, Normal tt)
  | d :: rest =>
      match Leaf_dispose d tr with
      | (tr1, Throw e) => (tr1, Throw e)
      | (tr1, Normal _) => forEach_dispose rest tr1
      end
  end.

Definition _clear (b : DisposableBase) (tr : Trace)
  : DisposableBase * Trace * Completion unit :=
  match forEach_dispose (lifecycle b) tr with
  | (tr1, Throw e) => (b, tr1, Throw e)
  | (tr1, Normal _) => ({| lifecycle := []; base_isDisposed := base_isDisposed b |}, tr1, Normal tt)
  end.

Definition Disposable_dispose (b : DisposableBase) (tr : Trace)
  : DisposableBase * Trace * Completion unit :=
  if base_isDisposed b then (b, tr, Normal tt)
  else _clear {| lifecycle := lifecycle b; base_isDisposed := true |} tr.

Definition _isDisposed (b : DisposableBase) : bool := base_isDisposed b.

Definition late_register_warning : Message :=
  Text "[Disposable] Registering disposable on object that has already been disposed.".

Definition _register (t : Leaf) (b : DisposableBase) (tr : Trace)
  : DisposableBase * Trace * Completion Leaf :=
  if base_isDisposed b then
    match Leaf_dispose t (tr ++ [ConsoleWarn late_register_warning]) with
    | (tr1, Throw e) => (b, tr1, Throw e)
    | (tr1, Normal _) => (b, tr1, Normal t)
    end
  else
    ({| lifecycle := Set_add t (lifecycle b); base_isDisposed := base_isDisposed b |},
     tr, Normal t).

(** [Disposable.None]: a handle whose [dispose()] does nothing. *)
Definition None_dispose (tr : Trace) : Trace * Completion unit := (tr, Normal tt).

(** What the owner of a store can do with it, one call at a time; a
    call that throws leaves the store as it was at the [throw]. *)
Inductive StoreOp :=
| StoreAdd (o : option Arg)
| StoreDelete (o : option Arg)
| StoreDeleteAndLeak (o : option Arg)
| StoreClear
| StoreDispose.

Definition store_exec (disable_warning : bool) (st : DisposableStore * Trace) (o : StoreOp)
  : DisposableStore * Trace :=
  let '(s, tr) := st in
  match o with
  | StoreAdd a => fst (DisposableStore_add disable_warning a s tr)
  | StoreDelete a => fst (DisposableStore_delete a s tr)
  | StoreDeleteAndLeak a => (DisposableStore_deleteAndLeak a s, tr)
  | StoreClear => fst (DisposableStore_clear s tr)
  | StoreDispose => fst (DisposableStore_dispose s tr)
  end.

Definition store_run (disable_warning : bool) (ops : list StoreOp)
    (st : DisposableStore * Trace) : DisposableStore * Trace :=
  fold_left (store_exec disable_warning) ops st.

(** The errors the members of a list throw when they are disposed. *)
Definition thrown_by (ds : list Leaf) : list Thrown := omap leaf_throws ds.

(** A disposable whose [dispose()] returns. *)
Definition returns (d : Leaf) : bool :=
  match leaf_throws d with
  | None => true
  | Some _ => false
  end.

(** How often the body of the disposable [d] has run. *)
Definition releases (d : nat) (tr : Trace) : nat :=
  length (List.filter (λ e, match e with Released x => (x =? d)%nat | _ => false end) tr).

(** What a store keeps: no member twice, and none once it is disposed. *)
Definition tidy (s : DisposableStore) : Prop :=
  NoDup (map leaf_id (toDispose s)) ∧ (isDisposed s = true → toDispose s = []).

End Disposable.

(** ** map.ts: [SetMap] *)

Module Maps.

(** An event key is a string or a symbol, as the signatures of the
    emitter type it; the [typeof] guard of [on] and [off] lets every
    such key pass. *)
Inductive EventKey :=
| KString (s : string)
| KSymbol (id : nat).

Definition EventKey_eqb (a b : EventKey) : bool :=
  match a, b with
  | KString s, KString s' => String.eqb s s'
  | KSymbol n, KSymbol n' => (n =? n')%nat
  | _, _ => false
  end.

(** [!event] for an optional key: a missing key and the empty string
    are falsy, every other string and every symbol is truthy. *)
Definition falsy (event : option EventKey) : bool :=
  match event with
  | None => true
  | Some (KString s) => String.eqb s EmptyString
  | Some (KSymbol _) => false
  end.

(** An optional key as the condition [if (!event) ... else ...] sees
    it: [None] on the branch for a falsy key. *)
Definition truthy (event : option EventKey) : option EventKey :=
  if falsy event then None else event.

(** [UniqueContainer]: [value] names the wrapped [Event] by its
    identity in the store of events. *)
Record UniqueContainer := {
  stack : option string;
  id : nat;
  value : nat
}.

(** A [Set<UniqueContainer>] in insertion order; membership is the
    identity of the container. *)
Definition Set_has (v : UniqueContainer) (set : list UniqueContainer) : bool :=
  existsb (λ x, (id x =? id v)%nat) set.

Definition Set_add (v : UniqueContainer) (set : list UniqueContainer)
  : list UniqueContainer :=
  if Set_has v set then set else set ++ [v].

Fixpoint Set_delete (v : UniqueContainer) (set : list UniqueContainer)
  : list UniqueContainer :=
  match set with
  | [] => []
  | x :: rest => if (id x =? id v)%nat then rest else x :: Set_delete v rest
  end.

(** A [Map<K, Set<V>>] in insertion order. *)
Definition SetMap := list (EventKey * list UniqueContainer).

Fixpoint Map_get (key : EventKey) (m : SetMap) : option (list UniqueContainer) :=
  match m with
  | [] => None
  | (k, set) :: rest => if EventKey_eqb k key then Some set else Map_get key rest
  end.

Fixpoint Map_set (key : EventKey) (set : list UniqueContainer) (m : SetMap) : SetMap :=
  match m with
  | [] => [(key, set)]
  | (k, set0) :: rest =>
      if EventKey_eqb k key then (k, set) :: rest
      else (k, set0) :: Map_set key set rest
  end.

Fixpoint Map_delete (key : EventKey) (m : SetMap) : SetMap :=
  match m with
  | [] => []
  | (k, set0) :: rest =>
      if EventKey_eqb k key then rest
      else (k, set0) :: Map_delete key rest
  end.

Definition add (key : EventKey) (v : UniqueContainer) (m : SetMap) : SetMap :=
  match Map_get key m with
  | None => Map_set key [v] m
  | Some values => Map_set key (Set_add v values) m
  end.

Definition delete (key : EventKey) (v : UniqueContainer) (m : SetMap) : SetMap * bool :=
  match Map_get key m with
  | None => (m, false)
  | Some values =>
      let r := Set_has v values in
      let values1 := Set_delete v values in
      if (length values1 =? 0)%nat then (Map_delete key m, r)
      else (Map_set key values1 m, r)
  end.

Definition remove (key : EventKey) (m : SetMap) : SetMap := Map_delete key m.

Definition get (key : EventKey) (m : SetMap) : list UniqueContainer :=
  default [] (Map_get key m).

Definition clear (m : SetMap) : SetMap := [].

(** The values [forEach(callback)] visits, in order. *)
Definition forEach_values (m : SetMap) : list UniqueContainer :=
  flat_map snd m.

(** The keys [for (const [k] of map)] visits, in order. *)
Definition keys (m : SetMap) : list EventKey := map fst m.

(** What the owner of a [SetMap] can do with it. *)
Inductive SetMapOp :=
| MapAdd (key : EventKey) (v : UniqueContainer)
| MapDelete (key : EventKey) (v : UniqueContainer)
| MapRemove (key : EventKey)
| MapClear.

Definition setmap_exec (m : SetMap) (o : SetMapOp) : SetMap :=
  match o with
  | MapAdd k v => add k v m
  | MapDelete k v => fst (delete k v m)
  | MapRemove k => remove k m
  | MapClear => clear m
  end.

Definition setmap_run (ops : list SetMapOp) (m : SetMap) : SetMap :=
  fold_left setmap_exec ops m.

(** Every key is stored once, and with at least one value. *)
Definition compact (m : SetMap) : Prop :=
  NoDup (keys m) ∧ ∀ k vs, (k, vs) ∈ m → vs ≠ [] ∧ NoDup (map id vs).

End Maps.

(** ** map.ts: [LinkedMap] *)

Module LinkedMaps.

(** Keys and values are JavaScript values; a [Map] compares keys as
    [SameValueZero] does, which on these values is equality. *)
#[global] Instance Value_eq_dec : EqDecision Value.
Proof. solve_decision. Defined.

(** [!!v] *)
Definition truthy (v : Value) : bool :=
  match v with
  | VUndefined => false
  | VString s => negb (String.eqb s EmptyString)
  | VNumber n => negb (n =? 0)
  end.

(** [const enum Touch] *)
Inductive Touch :=
| TouchNone
| AsOld
| AsNew.

(** A [MapItem] points to its neighbours; an item is named by its
    position in the store of items. *)
Record MapItem := {
  previous : option nat;
  next : option nat;
  key : Value;
  value : Value
}.

(** [_map] is the [Map<K, MapItem>], in insertion order. *)
Record LinkedMap := {
  items : list MapItem;
  _map : list (Value * nat);
  _head : option nat;
  _tail : option nat;
  _size : Z;
  _currentState : Z
}.

Definition new_LinkedMap : LinkedMap :=
  {| items := []; _map := []; _head := None; _tail := None; _size := 0; _currentState := 0 |}.

Fixpoint Map_get (k : Value) (m : list (Value * nat)) : option nat :=
  match m with
  | [] => None
  | (k0, i) :: rest => if decide (k0 = k) then Some i else Map_get k rest
  end.

Fixpoint Map_set (k : Value) (i : nat) (m : list (Value * nat)) : list (Value * nat) :=
  match m with
  | [] => [(k, i)]
  | (k0, i0) :: rest =>
      if decide (k0 = k) then (k0, i) :: rest else (k0, i0) :: Map_set k i rest
  end.

Fixpoint Map_delete (k : Value) (m : list (Value * nat)) : list (Value * nat) :=
  match m with
  | [] => []
  | (k0, i0) :: rest => if decide (k0 = k) then rest else (k0, i0) :: Map_delete k rest
  end.

Definition internal_error : Thrown :=
  ThrownException
    (new_Exception (Text "An internal error was occured with LinkedMap") ERR_UNKNOWN_ERROR).

Definition modified_during_iteration : Thrown :=
  ThrownException
    (new_Exception (Text "LinkedMap got modified during iteration") ERR_UNKNOWN_ERROR).

Definition no_object_entry : Thrown :=
  ThrownException
    (new_Exception (Text "This iterable resource does not return a object entry")
       ERR_INVALID_TYPE).

(** Reading or writing a property of [null]. *)
Definition type_error : Thrown := ThrownError "TypeError".

(** Statements of a [LinkedMap]. *)
Definition M (A : Type) : Type := LinkedMap → LinkedMap * Completion A.

Definition ret {A} (a : A) : M A := λ lm, (lm, Normal a).

Definition bind {A B} (m : M A) (k : A → M B) : M B :=
  λ lm, match m lm with
        | (lm1, Normal a) => k a lm1
        | (lm1, Throw t) => (lm1, Throw t)
        end.

Definition throw {A} (t : Thrown) : M A := λ lm, (lm, Throw t).

Notation "x <- m ;; k" := (bind m (λ x, k))
  (at level 100, m at next level, right associativity).
Notation "m ;; k" := (bind m (λ _, k))
  (at level 100, right associativity).

Definition this : M LinkedMap := λ lm, (lm, Normal lm).

Definition set_items (its : list MapItem) (lm : LinkedMap) : LinkedMap :=
  {| items := its; _map := _map lm; _head := _head lm; _tail := _tail lm;
     _size := _size lm; _currentState := _currentState lm |}.

Definition set_map (m : list (Value * nat)) (lm : LinkedMap) : LinkedMap :=
  {| items := items lm; _map := m; _head := _head lm; _tail := _tail lm;
     _size := _size lm; _currentState := _currentState lm |}.

Definition set_head (h : option nat) (lm : LinkedMap) : LinkedMap :=
  {| items := items lm; _map := _map lm; _head := h; _tail := _tail lm;
     _size := _size lm; _currentState := _currentState lm |}.

Definition set_tail (t : option nat) (lm : LinkedMap) : LinkedMap :=
  {| items := items lm; _map := _map lm; _head := _head lm; _tail := t;
     _size := _size lm; _currentState := _currentState lm |}.

Definition set_size (n : Z) (lm : LinkedMap) : LinkedMap :=
  {| items := items lm; _map := _map lm; _head := _head lm; _tail := _tail lm;
     _size := n; _currentState := _currentState lm |}.

Definition set_currentState (n : Z) (lm : LinkedMap) : LinkedMap :=
  {| items := items lm; _map := _map lm; _head := _head lm; _tail := _tail lm;
     _size := _size lm; _currentState := n |}.

Definition assign (f : LinkedMap → LinkedMap) : M unit := λ lm, (f lm, Normal tt).

Definition with_previous (p : option nat) (it : MapItem) : MapItem :=
  {| previous := p; next := next it; key := key it; value := value it |}.

Definition with_next (n : option nat) (it : MapItem) : MapItem :=
  {| previous := previous it; next := n; key := key it; value := value it |}.

Definition with_value (v : Value) (it : MapItem) : MapItem :=
  {| previous := previous it; next := next it; key := key it; value := v |}.

(** [item.previous = p] and [item.next = n] for an item that may be
    [null]. *)
Definition write_previous (item : option nat) (p : option nat) : M unit :=
  match item with
  | Some i => assign (λ lm, set_items (alter (with_previous p) i (items lm)) lm)
  | None => throw type_error
  end.

Definition write_next (item : option nat) (n : option nat) : M unit :=
  match item with
  | Some i => assign (λ lm, set_items (alter (with_next n) i (items lm)) lm)
  | None => throw type_error
  end.

(** The fields of the item [i], as they are now. *)
Definition read (i : nat) : M MapItem :=
  λ lm, match items lm !! i with
        | Some it => (lm, Normal it)
        | None => (lm, Throw type_error)
        end.

(** [{ key, value, next: null, previous: null }] *)
Definition new_item (k v : Value) : M nat :=
  λ lm, (set_items (items lm ++ [{| previous := None; next := None; key := k; value := v |}]) lm,
         Normal (length (items lm))).

Definition bump : M unit :=
  assign (λ lm, set_currentState (_currentState lm + 1) lm).

Definition _addItemFirst (item : nat) : M unit :=
  lm <- this ;;
  match _head lm, _tail lm with
  | None, None => assign (set_tail (Some item))
  | None, Some _ => throw internal_error
  | Some h, _ =>
      write_next (Some item) (Some h) ;;
      write_previous (Some h) (Some item)
  end ;;
  assign (set_head (Some item)) ;;
  bump.

Definition _addItemLast (item : nat) : M unit :=
  lm <- this ;;
  match _head lm, _tail lm with
  | None, None => assign (set_head (Some item))
  | Some _, None => throw internal_error
  | _, Some t =>
      write_previous (Some item) (Some t) ;;
      write_next (Some t) (Some item)
  end ;;
  assign (set_tail (Some item)) ;;
  bump.

Definition is_item (item : nat) (pointer : option nat) : bool :=
  match pointer with
  | Some i => (i =? item)%nat
  | None => false
  end.

Definition _removeItem (item : nat) : M unit :=
  lm <- this ;;
  it <- read item ;;
  (if is_item item (_head lm) && is_item item (_tail lm) then
     assign (set_head None) ;;
     assign (set_tail None)
   else if is_item item (_head lm) then
     match next it with
     | None => throw internal_error
     | Some n =>
         write_previous (Some n) None ;;
         assign (set_head (Some n))
     end
   else if is_item item (_tail lm) then
     match previous it with
     | None => throw internal_error
     | Some p =>
         write_next (Some p) None ;;
         assign (set_tail (Some p))
     end
   else
     match previous it, next it with
     | Some p, Some n =>
         write_next (Some n) (Some n) ;;
         write_previous (Some n) (Some p)
     | _, _ => throw internal_error
     end) ;;
  write_next (Some item) None ;;
  write_previous (Some item) None ;;
  bump.

Definition _touch (item : nat) (touch : Touch) : M unit :=
  lm <- this ;;
  match _head lm, _tail lm with
  | Some h, Some t =>
      match touch with
      | TouchNone => ret tt
      | AsOld =>
          if (item =? h)%nat then ret tt
          else
            it <- read item ;;
            (if (item =? t)%nat then
               write_next (previous it) None ;;
               assign (set_tail (previous it))
             else
               write_previous (next it) (previous it) ;;
               write_next (previous it) (next it)) ;;
            write_previous (Some item) None ;;
            write_next (Some item) (Some h) ;;
            write_previous (Some h) (Some item) ;;
            assign (set_head (Some item)) ;;
            bump
      | AsNew =>
          if (item =? t)%nat then ret tt
          else
            it <- read item ;;
            (if (item =? h)%nat then
               write_previous (next it) None ;;
               assign (set_head (next it))
             else
               write_previous (next it) (previous it) ;;
               write_next (previous it) (next it)) ;;
            write_next (Some item) None ;;
            write_previous (Some item) (Some t) ;;
            write_next (Some t) (Some item) ;;
            assign (set_tail (Some item)) ;;
            bump
      end
  | _, _ => throw internal_error
  end.

(** [map.has(key)] *)
Definition has (k : Value) (lm : LinkedMap) : bool :=
  match Map_get k (_map lm) with
  | Some _ => true
  | None => false
  end.

(** [map.get(key, touch)] *)
Definition get (k : Value) (touch : Touch) : M Value :=
  lm <- this ;;
  match Map_get k (_map lm) with
  | None => ret VUndefined
  | Some item =>
      match touch with
      | TouchNone => ret tt
      | _ => _touch item touch
      end ;;
      it <- read item ;;
      ret (value it)
  end.

(** [map.set(key, value, touch)] *)
Definition set (k v : Value) (touch : Touch) : M unit :=
  lm <- this ;;
  match Map_get k (_map lm) with
  | None =>
      item <- new_item k v ;;
      match touch with
      | AsOld => _addItemFirst item
      | _ => _addItemLast item
      end ;;
      assign (λ lm, set_map (Map_set k item (_map lm)) lm) ;;
      assign (λ lm, set_size (_size lm + 1) lm)
  | Some item =>
      assign (λ lm, set_items (alter (with_value v) item (items lm)) lm) ;;
      match touch with
      | TouchNone => ret tt
      | _ => _touch item touch
      end
  end.

(** [map.remove(key)] *)
Definition remove (k : Value) : M Value :=
  lm <- this ;;
  match Map_get k (_map lm) with
  | None => ret VUndefined
  | Some item =>
      assign (λ lm, set_map (Map_delete k (_map lm)) lm) ;;
      _removeItem item ;;
      assign (λ lm, set_size (_size lm - 1) lm) ;;
      it <- read item ;;
      ret (value it)
  end.

(** [map.delete(key)] *)
Definition delete (k : Value) : M bool :=
  v <- remove k ;;
  ret (truthy v).

(** [map.shift()] *)
Definition shift : M Value :=
  lm <- this ;;
  match _head lm, _tail lm with
  | None, None => ret VUndefined
  | Some item, Some _ =>
      it <- read item ;;
      assign (λ lm, set_map (Map_delete (key it) (_map lm)) lm) ;;
      _removeItem item ;;
      assign (λ lm, set_size (_size lm - 1) lm) ;;
      it <- read item ;;
      ret (value it)
  | _, _ => throw internal_error
  end.

(** [map.isEmpty()] *)
Definition isEmpty (lm : LinkedMap) : bool :=
  match _head lm, _tail lm with
  | None, None => true
  | _, _ => false
  end.

(** [map.clear()] *)
Definition clear : M unit :=
  assign (set_map []) ;;
  assign (set_head None) ;;
  assign (set_tail None) ;;
  assign (set_size 0) ;;
  bump.

(** [map.first] and [map.last] *)
Definition first (lm : LinkedMap) : Value :=
  default VUndefined (value <$> (_head lm ≫= λ i, items lm !! i)).

Definition last (lm : LinkedMap) : Value :=
  default VUndefined (value <$> (_tail lm ≫= λ i, items lm !! i)).

(** The loop of [forEach]: the items met from [current] on.  The loop
    of the source goes on for as long as it finds a [next]; [None]
    says that it is still going after [fuel] items. *)
Fixpoint walk (fuel : nat) (its : list MapItem) (current : option nat) : option (list nat) :=
  match current with
  | None => Some []
  | Some i =>
      match fuel with
      | O => None
      | S fuel' =>
          match its !! i with
          | Some it => cons i <$> walk fuel' its (next it)
          | None => None
          end
      end
  end.

Definition entry (its : list MapItem) (i : nat) : Value * Value :=
  match its !! i with
  | Some it => (key it, value it)
  | None => (VUndefined, VUndefined)
  end.

(** [map.toJSON()]: the entries [forEach] visits. *)
Definition toJSON (fuel : nat) (lm : LinkedMap) : option (list (Value * Value)) :=
  map (entry (items lm)) <$> walk fuel (items lm) (_head lm).

(** [new LinkedMap(iterable)] *)
Fixpoint set_each (entries : list (Value * Value)) : M unit :=
  match entries with
  | [] => ret tt
  | (k, v) :: rest => set k v TouchNone ;; set_each rest
  end.

Definition construct (entries : list (Value * Value)) : LinkedMap * Completion unit :=
  set_each entries new_LinkedMap.

(** [LinkedMap.from(iterable)] for an iterable of pairs: a pair
    whose key is falsy is refused. *)
Fixpoint from_each (entries : list (Value * Value)) : M unit :=
  match entries with
  | [] => ret tt
  | (k, v) :: rest =>
      if truthy k then set k v TouchNone ;; from_each rest
      else throw no_object_entry
  end.

Definition from (entries : list (Value * Value)) : LinkedMap * Completion unit :=
  from_each entries new_LinkedMap.

(** An iterator made by [keys()], [values()] or [entries()]: the
    state of the map when it was made, and the item it stands at. *)
Record Iterator := {
  state : Z;
  current : option nat
}.

Definition iterator (lm : LinkedMap) : Iterator :=
  {| state := _currentState lm; current := _head lm |}.

(** [iterator.next()] of [entries()]: the entry met, or [None] when
    the iteration is done. *)
Definition iterator_next (lm : LinkedMap) (it : Iterator)
  : Iterator * Completion (option (Value * Value)) :=
  if negb (_currentState lm =? state it) then (it, Throw modified_during_iteration)
  else
    match current it with
    | None => (it, Normal None)
    | Some i =>
        match items lm !! i with
        | Some item =>
            ({| state := state it; current := next item |}, Normal (Some (key item, value item)))
        | None => (it, Throw type_error)
        end
    end.

(** *** The order of the items *)

Definition first_or (l : list nat) (after : option nat) : option nat :=
  match l with
  | [] => after
  | i :: _ => Some i
  end.

Definition last_or (before : option nat) (l : list nat) : option nat :=
  match list.last l with
  | Some i => Some i
  | None => before
  end.

(** The items [l] are linked to one another in this order, the first
    one to [before] and the last one to [after]. *)
Fixpoint linked (its : list MapItem) (before : option nat) (l : list nat)
    (after : option nat) : Prop :=
  match l with
  | [] => True
  | i :: rest =>
      (∃ it, its !! i = Some it ∧ previous it = before ∧ next it = first_or rest after)
      ∧ linked its (Some i) rest after
  end.

(** The list of the map is made of the items [l], in this order. *)
Definition chained (lm : LinkedMap) (l : list nat) : Prop :=
  NoDup l
  ∧ linked (items lm) None l None
  ∧ _head lm = head l
  ∧ _tail lm = list.last l.

(** The map holds the items [l], in this order, and finds each of
    them by its key. *)
Definition represents (lm : LinkedMap) (l : list nat) : Prop :=
  chained lm l
  ∧ _size lm = Z.of_nat (length l)
  ∧ NoDup (map fst (_map lm))
  ∧ ∀ k i, Map_get k (_map lm) = Some i ↔ i ∈ l ∧ (entry (items lm) i).1 = k.

(** A later map in which no key and no value has changed, nor what
    [_map] finds, nor the size; [n] changes of the order were counted. *)
Definition relinked (n : Z) (lm lm1 : LinkedMap) : Prop :=
  _map lm1 = _map lm
  ∧ _size lm1 = _size lm
  ∧ _currentState lm1 = _currentState lm + n
  ∧ length (items lm1) = length (items lm)
  ∧ ∀ i, entry (items lm1) i = entry (items lm) i.

(** *** An ordered dictionary *)

Definition Entries : Type := list (Value * Value).

Fixpoint lookup (k : Value) (es : Entries) : option Value :=
  match es with
  | [] => None
  | (k0, v) :: rest => if decide (k0 = k) then Some v else lookup k rest
  end.

Definition without (k : Value) (es : Entries) : Entries :=
  List.filter (λ e, negb (bool_decide (e.1 = k))) es.

Definition update (k v : Value) (es : Entries) : Entries :=
  map (λ e, if decide (e.1 = k) then (k, v) else e) es.

(** The entry of [k] moved to the front or to the end. *)
Definition touched (touch : Touch) (k v : Value) (es : Entries) : Entries :=
  match touch with
  | TouchNone => es
  | AsOld => (k, v) :: without k es
  | AsNew => without k es ++ [(k, v)]
  end.

(** The map holds the entries [es], in this order. *)
Definition holds (lm : LinkedMap) (es : Entries) : Prop :=
  ∃ l, represents lm l ∧ map (entry (items lm)) l = es.

Inductive MapOp :=
| OpSet (k v : Value) (touch : Touch)
| OpGet (k : Value) (touch : Touch)
| OpRemove (k : Value)
| OpDelete (k : Value)
| OpShift
| OpClear.

Definition exec (op : MapOp) : M unit :=
  match op with
  | OpSet k v touch => set k v touch
  | OpGet k touch => get k touch ;; ret tt
  | OpRemove k => remove k ;; ret tt
  | OpDelete k => delete k ;; ret tt
  | OpShift => shift ;; ret tt
  | OpClear => clear
  end.

Fixpoint run (ops : list MapOp) : M unit :=
  match ops with
  | [] => ret tt
  | op :: rest => exec op ;; run rest
  end.

(** What the operation does to an ordered dictionary. *)
Definition model_op (es : Entries) (op : MapOp) : Entries :=
  match op with
  | OpSet k v touch =>
      match lookup k es with
      | None => match touch with AsOld => (k, v) :: es | _ => es ++ [(k, v)] end
      | Some _ => touched touch k v (update k v es)
      end
  | OpGet k touch =>
      match lookup k es with
      | None => es
      | Some v => touched touch k v es
      end
  | OpRemove k | OpDelete k => without k es
  | OpShift => tail es
  | OpClear => []
  end.

Definition model (ops : list MapOp) : Entries := fold_left model_op ops [].

(** The key is not strictly inside the dictionary: it is the first
    key, the last key, or no key. *)
Definition at_an_end (k : Value) (es : Entries) : bool :=
  match lookup k es with
  | None => true
  | Some _ =>
      bool_decide (fst <$> head es = Some k) || bool_decide (fst <$> list.last es = Some k)
  end.

(** No operation removes a key that is strictly inside. *)
Fixpoint outer_removals (es : Entries) (ops : list MapOp) : bool :=
  match ops with
  | [] => true
  | op :: rest =>
      match op with
      | OpRemove k | OpDelete k => at_an_end k es
      | _ => true
      end && outer_removals (model_op es op) rest
  end.

(** The results of [n] calls of [next()] on an iterator, one after
    the other, with nothing done to the map in between. *)
Fixpoint iterate (n : nat) (lm : LinkedMap) (it : Iterator)
  : list (Completion (option (Value * Value))) :=
  match n with
  | O => []
  | S n' =>
      let '(it1, r) := iterator_next lm it in
      r :: iterate n' lm it1
  end.

End LinkedMaps.

(** ** events.ts *)

Module Events.
Import Cancellation Maps.

(** *** The user's side

    A listener is a function of the emitter's caller.  It is known by
    its identity (what [===] compares) and by what a call of it does:
    return a value or throw.  Listeners, lifecycle hooks, the error
    handler and the disposables tied to a listener are taken not to
    call back into the emitter while they run; hooks and the handler
    are taken to return normally.  A listener may throw, and so may
    a disposable tied to it when it is released. *)
Inductive Outcome :=
| Returns (v : Value)
| Throws (t : Thrown).

Record Callback := {
  cb_id : nat;
  cb_run : Payload → Token → Outcome
}.

(** *** [Event] *)

(** [disposables] lists the disposables to release with the listener
    (the members of the array or of the store that the option
    carries; empty when the option is absent).  The [name] label is
    not modelled. *)
Record EventOptions := {
  cancelable : option bool;
  once : option bool;
  disposables : list Disposable.Leaf;
  thisArg : option Object
}.

(** [#lifecycle] holds the one disposable that the constructor
    registers: the store of the option, or a closure that runs
    [dispose(_options.disposables)].  Either way its [dispose()] is
    the loop of [dispose(iterable)] over the members, so the model
    keeps the members. *)
Record Event := {
  _source : option CancellationTokenSource;
  callCount : nat;
  kListener : Callback;
  _options : option EventOptions;
  isDisposed : bool;                  (* [#isDisposed] of [Disposable.Disposable] *)
  lifecycle : list Disposable.Leaf    (* [#lifecycle] of [Disposable.Disposable] *)
}.

(** [_options?.cancelable !== false] *)
Definition cancelable_not_false (o : option EventOptions) : bool :=
  match o ≫= cancelable with
  | Some false => false
  | _ => true
  end.

(** [_options?.once], as a condition *)
Definition once_set (o : option EventOptions) : bool :=
  match o ≫= once with
  | Some true => true
  | _ => false
  end.

Definition new_Event (_listener : Callback) (o : option EventOptions) : Event :=
  {| _source := if cancelable_not_false o then Some new_CancellationTokenSource else None;
     callCount := 0;
     kListener := _listener;
     _options := o;
     isDisposed := false;
     lifecycle := match o with Some opts => disposables opts | None => [] end |}.

Definition with_source (src : option CancellationTokenSource) (e : Event) : Event :=
  {| _source := src; callCount := callCount e; kListener := kListener e;
     _options := _options e; isDisposed := isDisposed e; lifecycle := lifecycle e |}.

Definition disposed_call : Thrown :=
  ThrownException (new_Exception (Text "Cannot call a disposed event listener") ERR_RESOURCE_DISPOSED).

(** The double quote character. *)
Definition quote : string := String (Ascii.ascii_of_nat 34) EmptyString.

Definition once_called_again : Thrown :=
  ThrownException
  (new_Exception (Text ("Cannot call " +:+ quote +:+ "once" +:+ quote +:+ " event more than once"))
     ERR_ONCE_WAS_CALLED_AGAIN).

(** The source the listener holds once [$call] has looked at its
    token: a requested token of a listener that may still be called
    gets the source disposed and replaced by a new one. *)
Definition refreshed_source (e : Event) : option CancellationTokenSource :=
  match _source e with
  | None => None
  | Some s =>
      let '(t, s1) := token s in
      if isCancellationRequested t
         && cancelable_not_false (_options e)
         && negb (once_set (_options e) && (0 <? callCount e)%nat)
      then
        let '(_, _) := Cancellation.dispose false s1 in
        Some new_CancellationTokenSource
      else Some s1
  end.

(** [event.$call(args)] *)
Definition call (args : Payload) (e : Event) (tr : Trace)
  : Event * Trace * Completion Value :=
  if isDisposed e then (e, tr, Throw disposed_call)
  else if once_set (_options e) && (0 <? callCount e)%nat then (e, tr, Throw once_called_again)
  else
    let '(tok, src) :=
      match refreshed_source e with
      | None => (TokenNone, None)
      | Some s => let '(t, s1) := token s in (t, Some s1)
      end in
    let e1 := {| _source := src; callCount := S (callCount e); kListener := kListener e;
                 _options := _options e; isDisposed := isDisposed e;
                 lifecycle := lifecycle e |} in
    let this := _options e ≫= thisArg in
    (e1, tr ++ [Invoked (cb_id (kListener e)) this args tok],
     match cb_run (kListener e) args tok with
     | Returns v => Normal v
     | Throws t => Throw t
     end).

(** [event.isCancellationRequested()]; reading the token may allocate it. *)
Definition Event_isCancellationRequested (e : Event) : bool * Event :=
  match _source e with
  | None => (false, e)
  | Some s =>
      let '(t, s1) := token s in
      (isCancellationRequested t, with_source (Some s1) e)
  end.

(** [event.cancelable()] *)
Definition Event_cancelable (e : Event) : bool * Event :=
  if cancelable_not_false (_options e) then
    let '(requested, e1) := Event_isCancellationRequested e in
    (negb requested, e1)
  else (false, e).

(** [event.cancel()] *)
Definition Event_cancel (e : Event) : Event :=
  if isDisposed e then e
  else
    match _source e with
    | None => e
    | Some s => let '(_, s1) := Cancellation.cancel s in with_source (Some s1) e
    end.

(** [event.dispose()].  [super.dispose()] sets [#isDisposed] and then
    runs the registered disposable: every member is released, and
    what they threw is thrown again (the one error, or an
    [AggregateError] of them); [#lifecycle.clear()] is not reached
    then. *)
Definition Event_dispose (e : Event) (tr : Trace) : Event * Trace * Completion unit :=
  let e1 := Event_cancel e in
  if isDisposed e1 then (e1, tr, Normal tt)
  else
    let '(tr1, r) := Disposable.dispose (lifecycle e1) tr in
    ({| _source := None; callCount := callCount e1; kListener := kListener e1;
        _options := _options e1; isDisposed := true;
        lifecycle := match r with Normal _ => [] | Throw _ => lifecycle e1 end |},
     tr1, r).

(** Whether [JSON.stringify] accepts the listener: of an [Event] it
    prints [_source], [_state] and [_options], and with the options
    their [thisArg] and their [disposables] ([kListener] is not
    enumerable and [#lifecycle] is private).  The counter and the
    cancellation source as modelled above, a flag and listeners named
    by numbers, print; what the caller handed in may not: a [thisArg]
    or a disposable that refers to itself or holds a [BigInt]. *)
Definition Event_prints (e : Event) : bool :=
  match _options e with
  | Some o => default true (object_prints <$> thisArg o) && forallb Disposable.leaf_prints (disposables o)
  | None => true
  end.

(** What [$call(args)] on a listener adds to the trace: the call of
    its function, or nothing when the listener refuses the call. *)
Definition invocation (args : Payload) (e : Event) : list Effect :=
  snd (fst (call args e [])).

(** Whether [$call] refuses: the listener is disposed, or it is a
    [once] listener that has been called. *)
Definition spent (e : Event) : bool :=
  isDisposed e || (once_set (_options e) && (0 <? callCount e)%nat).

(** What the holder of a listener that is not yet disposed can do
    with it, short of disposing it. *)
Inductive Use :=
| Call (args : Payload)
| Cancel
| AskRequested
| AskCancelable.

Definition use (e : Event) (u : Use) : Event :=
  match u with
  | Call args => fst (fst (call args e []))
  | Cancel => Event_cancel e
  | AskRequested => snd (Event_isCancellationRequested e)
  | AskCancelable => snd (Event_cancelable e)
  end.

(** The source of a listener that is in use has never been disposed
    without being replaced: its token is not the [None] token. *)
Definition in_use (o : option EventOptions) (e : Event) : Prop :=
  isDisposed e = false
  ∧ _options e = o
  ∧ ∃ s, _source e = Some s ∧ _token s ≠ Some TokenNone.

(** A listener with the options [o] that is not disposed and has
    been called. *)
Definition called_once (o : option EventOptions) (e : Event) : Prop :=
  isDisposed e = false ∧ _options e = o ∧ (0 < callCount e)%nat.

(** A listener around [l] with the options [o] that is not disposed
    and owns no cancellation source. *)
Definition without_source (o : option EventOptions) (l : Callback) (e : Event) : Prop :=
  isDisposed e = false ∧ _options e = o ∧ _source e = None ∧ kListener e = l.

(** *** [EventMonitoring] *)

Definition Qlt_bool (x y : Q) : bool := negb (Qle_bool y x).

(** The double nearest to a rational that is not negative, ties to
    the even mantissa; the bounds of the exponent are left out.  With
    [e] such that [q / 2 ^ e] lies between [2 ^ 52] and [2 ^ 53], the
    mantissa is [q / 2 ^ e] rounded to a whole number. *)
Definition round_double (q : Q) : Q :=
  match Qnum q with
  | Zpos n =>
      let n := Zpos n in
      let d := Zpos (Qden q) in
      let scaled e := (n * 2 ^ Z.max 0 (- e), d * 2 ^ Z.max 0 e) in
      let e0 := Z.log2 n - Z.log2 d - 53 in
      let e := if 2 ^ 53 <=? fst (scaled e0) / snd (scaled e0) then e0 + 1 else e0 in
      let '(a, b) := scaled e in
      let f := a / b in
      let r := a mod b in
      let m := if 2 * r <? b then f
               else if b <? 2 * r then f + 1
               else if Z.even f then f else f + 1 in
      (inject_Z m * 2 ^ e)%Q
  | _ => q
  end.

(** [x ** 2] on a double: the square, rounded to a double, as
    [x * x] is. *)
Definition double_square (x : Q) : Q := round_double (x * x).

(** [x + y] on doubles: the sum, rounded to a double. *)
Definition double_plus (x y : Q) : Q :=
  let s := (x + y)%Q in
  if Qle_bool 0 s then round_double s else (- round_double (- s))%Q.

(** [Profiling]: [_stopWatch] records whether a window is open; the
    time a window took is read from the clock when it is closed and
    is an input of the model.  [elapsedOverall += elapsed] adds two
    doubles. *)
Record Profiling := {
  listenerCount : Z;
  invocationCount : Z;
  elapsedOverall : Q;
  durations : list Q;
  _stopWatch : bool
}.

Definition new_Profiling : Profiling :=
  {| listenerCount := 0; invocationCount := 0; elapsedOverall := 0%Q;
     durations := []; _stopWatch := false |}.

Definition Profiling_start (lc : Z) (p : Profiling) : Profiling :=
  {| listenerCount := lc; invocationCount := invocationCount p;
     elapsedOverall := elapsedOverall p; durations := durations p;
     _stopWatch := true |}.

Definition Profiling_stop (elapsed : Q) (p : Profiling) : Profiling :=
  if _stopWatch p then
    {| listenerCount := listenerCount p; invocationCount := invocationCount p + 1;
       elapsedOverall := double_plus (elapsedOverall p) elapsed;
       durations := durations p ++ [elapsed]; _stopWatch := false |}
  else p.

(** [LeakageMonitor]: [_stacks] is a [Map<string, number>] in
    insertion order; [handler] tells whether [_errorHandler] is the
    [onListenerError] of the options or the default [onUnexpected]. *)
Record LeakageMonitor := {
  _stacks : option (list (string * Z));
  _warnCountdown : Q;
  threshold : Q;
  handler : bool
}.

Definition new_LeakageMonitor (handler : bool) (threshold : Q) : LeakageMonitor :=
  {| _stacks := None; _warnCountdown := 0%Q; threshold := threshold; handler := handler |}.

(** What calling an error handler leaves in the trace. *)
Definition handle_error (custom : bool) (t : Thrown) : Effect :=
  if custom then HandlerCalled t else Escalated t.

Fixpoint stacks_get (key : string) (m : list (string * Z)) : option Z :=
  match m with
  | [] => None
  | (k, c) :: rest => if String.eqb k key then Some c else stacks_get key rest
  end.

Fixpoint stacks_set (key : string) (c : Z) (m : list (string * Z)) : list (string * Z) :=
  match m with
  | [] => [(key, c)]
  | (k, c0) :: rest =>
      if String.eqb k key then (k, c) :: rest else (k, c0) :: stacks_set key c rest
  end.

Definition LeakageMonitor_dispose (m : LeakageMonitor) : LeakageMonitor :=
  {| _stacks := match _stacks m with Some _ => Some [] | None => None end;
     _warnCountdown := _warnCountdown m; threshold := threshold m; handler := handler m |}.

(** The loop of [getMostFrequentStack]: [ts] is the entry kept so far,
    [tc] its count. *)
Fixpoint most_frequent (entries : list (string * Z)) (ts : option (string * Z)) (tc : Z)
  : option (string * Z) :=
  match entries with
  | [] => ts
  | (s, c) :: rest =>
      if match ts with None => true | Some _ => tc <? c end
      then most_frequent rest (Some (s, c)) c
      else most_frequent rest ts tc
  end.

Definition getMostFrequentStack (m : LeakageMonitor) : option (string * Z) :=
  match _stacks m with
  | None => None
  | Some entries => most_frequent entries None 0
  end.

(** [monitor.check(stack, lc)]: the monitor afterwards, the trace, and
    the stack whose count the returned cleanup decrements ([None] for
    a [null] result). *)
Definition check (stack : string) (lc : Z) (m : LeakageMonitor) (tr : Trace)
  : LeakageMonitor * Trace * option string :=
  let t := threshold m in
  if Qle_bool t 0 || Qlt_bool (inject_Z lc) t then (m, tr, None)
  else
    let stacks := default [] (_stacks m) in
    let c := default 0 (stacks_get stack stacks) in
    let stacks1 := stacks_set stack (c + 1) stacks in
    let countdown := (_warnCountdown m - 1)%Q in
    if Qle_bool countdown 0 then
      let m1 := {| _stacks := Some stacks1; _warnCountdown := (t / 2)%Q;
                   threshold := t; handler := handler m |} in
      let '(ts, tc) := default (EmptyString, 0) (getMostFrequentStack m1) in
      let message := LeakDetected lc tc in
      (m1,
       tr ++ [ConsoleWarn message; ConsoleWarn (Text ts);
              handle_error (handler m) (ThrownException (new_Exception message ERR_LISTENER_LEAK))],
       Some stack)
    else
      ({| _stacks := Some stacks1; _warnCountdown := countdown;
          threshold := t; handler := handler m |},
       tr, Some stack).

(** The cleanup that [check] returns. *)
Definition check_cleanup (stack : string) (m : LeakageMonitor) : LeakageMonitor :=
  let stacks := default [] (_stacks m) in
  let c := default 0 (stacks_get stack stacks) in
  {| _stacks := Some (stacks_set stack (c - 1) stacks);
     _warnCountdown := _warnCountdown m; threshold := threshold m; handler := handler m |}.

End Events.

Module Emitter.
Import Cancellation Maps Events.

(** [hooks h] tells whether the options carry the lifecycle hook [h],
    [onListenerError] whether they carry an error handler. *)
Record EmitterOptions := {
  _profName : option string;
  noDebug : bool;
  leakWarningThreshold : option Q;
  hooks : Hook → bool;
  onListenerError : bool
}.

Record Emitter := {
  _perfMonitor : option Profiling;
  _leakageMonitor : option LeakageMonitor;
  disposed : bool;                         (* [_state.disposed] *)
  size : Z;                                (* [_state.size] *)
  _options : option EmitterOptions;
  _disposables : Disposable.DisposableStore;
  _listeners : SetMap
}.

(** [_options?.onListenerError], as a condition *)
Definition custom_handler (o : option EmitterOptions) : bool :=
  match o with
  | Some opts => onListenerError opts
  | None => false
  end.

(** [_options?.noDebug], as a condition *)
Definition no_debug (o : option EmitterOptions) : bool :=
  match o with
  | Some opts => noDebug opts
  | None => false
  end.

Definition has_hook (o : option EmitterOptions) (h : Hook) : bool :=
  match o with
  | Some opts => hooks opts h
  | None => false
  end.

Definition new_Emitter (o : option EmitterOptions) : Emitter :=
  {| _perfMonitor :=
       match o ≫= _profName with
       | Some name => if String.eqb name EmptyString then None else Some new_Profiling
       | None => None
       end;
     _leakageMonitor :=
       match o ≫= leakWarningThreshold with
       | Some t => if Qlt_bool 0 t then Some (new_LeakageMonitor (custom_handler o) t) else None
       | None => None
       end;
     disposed := false;
     size := 0;
     _options := o;
     _disposables := Disposable.new_DisposableStore;
     _listeners := [] |}.

(** The emitter together with what it shares with its caller: the
    [Event] objects (an [Event] is named by its position in
    [events]), the module level counter [uci], and the trace. *)
Record World := {
  events : list Event;
  uci : nat;
  emitter : Emitter;
  trace : Trace
}.

Definition new_World (o : option EmitterOptions) : World :=
  {| events := []; uci := 3; emitter := new_Emitter o; trace := [] |}.

(** Statements of the emitter: they read and change the world and
    complete normally or by a [throw]. *)
Definition M (A : Type) : Type := World → World * Completion A.

Definition ret {A} (a : A) : M A := λ w, (w, Normal a).

Definition bind {A B} (m : M A) (k : A → M B) : M B :=
  λ w, match m w with
       | (w1, Normal a) => k a w1
       | (w1, Throw t) => (w1, Throw t)
       end.

Definition throw {A} (t : Thrown) : M A := λ w, (w, Throw t).

(** [try { m } catch (err) { h err }] *)
Definition try_catch {A} (m : M A) (h : Thrown → M A) : M A :=
  λ w, match m w with
       | (w1, Normal a) => (w1, Normal a)
       | (w1, Throw t) => h t w1
       end.

Notation "x <- m ;; k" := (bind m (λ x, k))
  (at level 100, m at next level, right associativity).
Notation "m ;; k" := (bind m (λ _, k))
  (at level 100, right associativity).

Definition this : M Emitter := λ w, (w, Normal (emitter w)).

Definition assign (f : Emitter → Emitter) : M unit :=
  λ w, ({| events := events w; uci := uci w; emitter := f (emitter w); trace := trace w |},
        Normal tt).

(** The world with more in its trace. *)
Definition log (tr : Trace) (w : World) : World :=
  {| events := events w; uci := uci w; emitter := emitter w; trace := trace w ++ tr |}.

Definition emit (e : Effect) : M unit := λ w, (log [e] w, Normal tt).

Definition when (b : bool) (m : M unit) : M unit := if b then m else ret tt.

Definition set_size (n : Z) (e : Emitter) : Emitter :=
  {| _perfMonitor := _perfMonitor e; _leakageMonitor := _leakageMonitor e;
     disposed := disposed e; size := n; _options := _options e;
     _disposables := _disposables e; _listeners := _listeners e |}.

Definition set_listeners (m : SetMap) (e : Emitter) : Emitter :=
  {| _perfMonitor := _perfMonitor e; _leakageMonitor := _leakageMonitor e;
     disposed := disposed e; size := size e; _options := _options e;
     _disposables := _disposables e; _listeners := m |}.

Definition set_leakageMonitor (lm : option LeakageMonitor) (e : Emitter) : Emitter :=
  {| _perfMonitor := _perfMonitor e; _leakageMonitor := lm;
     disposed := disposed e; size := size e; _options := _options e;
     _disposables := _disposables e; _listeners := _listeners e |}.

Definition set_perfMonitor (p : option Profiling) (e : Emitter) : Emitter :=
  {| _perfMonitor := p; _leakageMonitor := _leakageMonitor e;
     disposed := disposed e; size := size e; _options := _options e;
     _disposables := _disposables e; _listeners := _listeners e |}.

Definition set_disposed (e : Emitter) : Emitter :=
  {| _perfMonitor := _perfMonitor e; _leakageMonitor := _leakageMonitor e;
     disposed := true; size := size e; _options := _options e;
     _disposables := _disposables e; _listeners := _listeners e |}.

Definition set_disposables (d : Disposable.DisposableStore) (e : Emitter) : Emitter :=
  {| _perfMonitor := _perfMonitor e; _leakageMonitor := _leakageMonitor e;
     disposed := disposed e; size := size e; _options := _options e;
     _disposables := d; _listeners := _listeners e |}.

(** [this._options?.hook?.(this)] *)
Definition call_hook (h : Hook) : M unit :=
  e <- this ;;
  when (has_hook (_options e) h) (emit (HookFired h)).

(** [new Event(...)]: the new object gets the next identity. *)
Definition construct_Event (e : Event) : M nat :=
  λ w, ({| events := events w ++ [e]; uci := uci w; emitter := emitter w; trace := trace w |},
        Normal (length (events w))).

(** [new UniqueContainer(value)] takes its [id] from [uci]. *)
Definition construct_UniqueContainer (v : nat) : M UniqueContainer :=
  λ w, ({| events := events w; uci := S (uci w); emitter := emitter w; trace := trace w |},
        Normal {| stack := None; id := uci w; value := v |}).

(** A method of the [Event] with identity [i], run in place.  A
    reference that names no object does nothing. *)
Definition call_Event (i : nat) (args : Payload) : M Value :=
  λ w, match events w !! i with
       | Some e =>
           let '(e1, tr1, r) := Events.call args e (trace w) in
           ({| events := <[i := e1]> (events w); uci := uci w;
               emitter := emitter w; trace := tr1 |}, r)
       | None => (w, Normal VUndefined)
       end.

Definition dispose_Event (i : nat) : M unit :=
  λ w, match events w !! i with
       | Some e =>
           let '(e1, tr1, r) := Events.Event_dispose e (trace w) in
           ({| events := <[i := e1]> (events w); uci := uci w;
               emitter := emitter w; trace := tr1 |}, r)
       | None => (w, Normal tt)
       end.

Definition cancel_Event (i : nat) : M unit :=
  λ w, match events w !! i with
       | Some e =>
           ({| events := <[i := Events.Event_cancel e]> (events w); uci := uci w;
               emitter := emitter w; trace := trace w |}, Normal tt)
       | None => (w, Normal tt)
       end.

(** [values.forEach(e => e.value.dispose())]: nothing catches, so the
    first [Event] whose disposal throws ends the loop. *)
Fixpoint dispose_each (values : list UniqueContainer) : M unit :=
  match values with
  | [] => ret tt
  | e :: rest => dispose_Event (value e) ;; dispose_each rest
  end.

(** The [IDisposable] that [on] and [once] return: [Disposable.None],
    or the closure over the leak cleanup [rmonitor], the container
    and the key. *)
Inductive Handle :=
| NoneHandle
| Registration (rmonitor : option string) (containedListener : UniqueContainer)
    (event : EventKey).

(** The listener argument of [on], [once] and [off]: a function, or
    an [Event] built by the caller. *)
Inductive Listener :=
| Function (l : Callback)
| Instance (e : nat).

(** The options of [on] and [once] that bear on the emitter.  The
    [disposables] option, a collection of the caller to which the
    returned handle is also added, is left to the caller. *)
Record ListenOptions := {
  listen_cancelable : option bool;
  toDisposeWithEvent : list Disposable.Leaf
}.

Definition refusal (e : Emitter) (lm : LeakageMonitor) : Thrown :=
  let tuple := default ("Unknown stack trace"%string, -1) (getMostFrequentStack lm) in
  ThrownException
    {| message := RefusesListenersHint (size e) (threshold lm) (snd tuple);
       code := - code_value ERR_LISTENER_REFUSAL;
       overrideStack := if String.eqb (fst tuple) EmptyString then None else Some (fst tuple) |}.

Definition _checkLeakageBeforeAdd : M bool :=
  e <- this ;;
  if disposed e then ret false
  else
    match _leakageMonitor e with
    | Some lm =>
        if Qlt_bool (double_square (threshold lm)) (inject_Z (size e)) then
          when (negb (no_debug (_options e)))
            (emit (ConsoleWarn (RefusesListeners (size e) (threshold lm)))) ;;
          emit (handle_error (custom_handler (_options e)) (refusal e lm)) ;;
          ret false
        else ret true
    | None => ret true
    end.

(** What [JSON.stringify] throws at an object it does not accept. *)
Definition stringify_error : Thrown := ThrownError "TypeError".

(** [this._listeners.forEach((set, key) => console.log(`Entry[${i++}] ...`, JSON.stringify(set, null, 2)))]:
    the callback is handed the containers one by one; a container
    whose listener [JSON.stringify] does not accept ends the loop
    with a [TypeError], before anything of it is logged. *)
Fixpoint dump_entries (i : nat) (values : list UniqueContainer) : M unit :=
  match values with
  | [] => ret tt
  | c :: rest =>
      λ w, if default true (Event_prints <$> events w !! value c)
           then (emit (ConsoleLog (DumpEntry i (id c))) ;; dump_entries (S i) rest) w
           else (w, Throw stringify_error)
  end.

(** The dump that goes before "Attempted to dispose an unknown
    listener", unless [noDebug] is set. *)
Definition debug_dump : M unit :=
  e <- this ;;
  if no_debug (_options e) then ret tt
  else
    emit (ConsoleLog (DumpDisposed (disposed e))) ;;
    emit (ConsoleLog (DumpSize (size e))) ;;
    dump_entries 0 (forEach_values (_listeners e)).

Definition unknown_listener : Thrown :=
  ThrownException (new_Exception (Text "Attempted to dispose an unknown listener") ERR_UNKNOWN_ERROR).

Definition unknown_listener_no_event : Thrown :=
  ThrownException
    (new_Exception (Text "Attempted to dispose an unknown listener (no event provided)")
       ERR_UNKNOWN_ERROR).

(** [for (const [k] of this._listeners) if (this._listeners.delete(k, contained)) break] *)
Fixpoint delete_first (contained : UniqueContainer) (ks : list EventKey) (m : SetMap)
  : SetMap * bool :=
  match ks with
  | [] => (m, false)
  | k :: rest =>
      let '(m1, r) := delete k contained m in
      if r then (m1, true) else delete_first contained rest m1
  end.

Definition _removeUniqueListener (contained : UniqueContainer) (event : option EventKey)
  : M unit :=
  e <- this ;;
  if disposed e then ret tt
  else
    call_hook onWillRemoveListener ;;
    if size e =? 0 then ret tt
    else
      (match truthy event with
       | None =>
           let '(m1, r) := delete_first contained (keys (_listeners e)) (_listeners e) in
           assign (set_listeners m1) ;;
           if r then ret tt else debug_dump ;; throw unknown_listener_no_event
       | Some k =>
           let '(m1, r) := delete k contained (_listeners e) in
           assign (set_listeners m1) ;;
           if r then ret tt else debug_dump ;; throw unknown_listener
       end) ;;
      dispose_Event (value contained) ;;
      assign (set_size (size e - 1)) ;;
      when (size e - 1 =? 0) (call_hook onDidRemoveLastListener).

(** [handle.dispose()] *)
Definition Handle_dispose (h : Handle) : M unit :=
  match h with
  | NoneHandle => ret tt
  | Registration rmonitor containedListener event =>
      match rmonitor with
      | Some stack =>
          assign (λ e, set_leakageMonitor (check_cleanup stack <$> _leakageMonitor e) e)
      | None => ret tt
      end ;;
      _removeUniqueListener containedListener (Some event)
  end.

Definition disposed_listener_warning (listener : UniqueContainer) : Message :=
  DisposedListenerCalled (value listener).

(** [_deliver(listener, ...args)].  The handler read from the options
    falls back to [onUnexpected], so the branch for a missing handler
    is never taken. *)
Definition _deliver (listener : option UniqueContainer) (args : Payload) : M unit :=
  e <- this ;;
  match listener with
  | None => ret tt
  | Some l =>
      if disposed e then ret tt
      else
        try_catch
          (call_Event (value l) args ;; ret tt)
          (λ err,
            if thrown_is err ERR_ONCE_WAS_CALLED_AGAIN then
              _removeUniqueListener l None
            else if thrown_is err ERR_RESOURCE_DISPOSED then
              when (negb (no_debug (_options e)))
                (emit (ConsoleWarn (disposed_listener_warning l))) ;;
              _removeUniqueListener l None
            else
              emit (handle_error (custom_handler (_options e)) err))
  end.

(** [for (const listener of this._listeners.get(event)) this._deliver(listener, ...args)].
    The loop walks the listeners that the set held when it began; one
    that has left the set by the time its turn comes is passed over,
    as the iterator of a [Set] does. *)
Fixpoint deliver_each (pending : list UniqueContainer) (event : EventKey) (args : Payload)
  : M unit :=
  match pending with
  | [] => ret tt
  | listener :: rest =>
      e <- this ;;
      when (Set_has listener (get event (_listeners e))) (_deliver (Some listener) args) ;;
      deliver_each rest event args
  end.

(** [fire(event, ...args)]; [elapsed] is what the stop watch of the
    profiling monitor reads when the window is closed. *)
Definition fire (event : EventKey) (args : Payload) (elapsed : Q) : M unit :=
  e <- this ;;
  if disposed e then ret tt
  else
    assign (λ e, set_perfMonitor (Profiling_start (size e) <$> _perfMonitor e) e) ;;
    when (0 <? size e) (deliver_each (get event (_listeners e)) event args) ;;
    assign (λ e, set_perfMonitor (Profiling_stop elapsed <$> _perfMonitor e) e).

Definition _addListener (event : EventKey) (listener : Listener) (thisArg : option Object)
    (once : bool) (options : option ListenOptions) (callSite : string) : M Handle :=
  l <- match listener with
       | Instance i => ret i
       | Function f =>
           construct_Event
             (new_Event f
                (Some {| Events.thisArg := thisArg;
                         Events.once := Some once;
                         Events.disposables := default [] (toDisposeWithEvent <$> options);
                         Events.cancelable :=
                           Some (default false (options ≫= listen_cancelable)) |}))
       end ;;
  ok <- _checkLeakageBeforeAdd ;;
  if negb ok then ret NoneHandle
  else
    e <- this ;;
    if disposed e then ret NoneHandle
    else
      c <- construct_UniqueContainer l ;;
      gate <- match _leakageMonitor e with
              | Some lm =>
                  if Qceiling (threshold lm * (2 # 10)) <=? size e then
                    let '(lm1, tr1, rmonitor) := check callSite (size e + 1) lm [] in
                    assign (set_leakageMonitor (Some lm1)) ;;
                    (λ w, (log tr1 w, Normal tt)) ;;
                    ret ({| stack := Some callSite; id := id c; value := value c |}, rmonitor)
                  else ret (c, None)
              | None => ret (c, None)
              end ;;
      let '(containedListener, rmonitor) := gate in
      when (size e =? 0) (call_hook onWillAddFirstListener) ;;
      assign (λ e, set_listeners (add event containedListener (_listeners e)) e) ;;
      assign (set_size (size e + 1)) ;;
      when (size e + 1 =? 1) (call_hook onDidAddFirstListener) ;;
      call_hook onDidAddListener ;;
      ret (Registration rmonitor containedListener event).

Definition on (event : EventKey) (listener : Listener) (thisArg : option Object)
    (options : option ListenOptions) (callSite : string) : M Handle :=
  _addListener event listener thisArg false options callSite.

Definition once (event : EventKey) (listener : Listener) (thisArg : option Object)
    (options : option ListenOptions) (callSite : string) : M Handle :=
  _addListener event listener thisArg true options callSite.

(** The first container of the set whose listener is the function [f]. *)
Fixpoint find_listener (f : nat) (evs : list Event) (set : list UniqueContainer)
  : option UniqueContainer :=
  match set with
  | [] => None
  | uc :: rest =>
      match evs !! value uc with
      | Some e => if (cb_id (kListener e) =? f)%nat then Some uc else find_listener f evs rest
      | None => find_listener f evs rest
      end
  end.

Definition off (event : EventKey) (listener : Listener) : M unit :=
  l <- match listener with
       | Instance i => ret i
       | Function f => construct_Event (new_Event f None)
       end ;;
  e <- this ;;
  λ w, match events w !! l with
       | Some ev =>
           match find_listener (cb_id (kListener ev)) (events w) (get event (_listeners e)) with
           | Some uc => _removeUniqueListener uc (Some event) w
           | None => (w, Normal tt)
           end
       | None => (w, Normal tt)
       end.

Definition hasListeners (event : option EventKey) (e : Emitter) : bool :=
  if disposed e then false
  else
    match truthy event with
    | None => 0 <? size e
    | Some k => (0 <? length (get k (_listeners e)))%nat
    end.

Definition listenersCount (event : option EventKey) (e : Emitter) : Z :=
  if disposed e then 0
  else
    match truthy event with
    | None => size e
    | Some k => Z.of_nat (length (get k (_listeners e)))
    end.

Definition clear (event : option EventKey) : M unit :=
  e <- this ;;
  if disposed e then ret tt
  else
    call_hook onWillRemoveListener ;;
    match truthy event with
    | None =>
        dispose_each (forEach_values (_listeners e)) ;;
        assign (set_listeners (Maps.clear (_listeners e))) ;;
        assign (set_size 0) ;;
        call_hook onDidRemoveLastListener
    | Some k =>
        let set := get k (_listeners e) in
        let size_ := Z.of_nat (length set) in
        dispose_each set ;;
        assign (set_listeners (remove k (_listeners e))) ;;
        assign (set_size (size e - size_)) ;;
        when (size e - size_ =? 0) (call_hook onDidRemoveLastListener)
    end.

Definition dispose : M unit :=
  e <- this ;;
  if disposed e then ret tt
  else
    (λ w, let '(d, tr1, r) := Disposable.DisposableStore_dispose (_disposables e) (trace w) in
          ({| events := events w; uci := uci w; emitter := set_disposables d (emitter w);
              trace := tr1 |}, r)) ;;
    dispose_each (forEach_values (_listeners e)) ;;
    assign (set_listeners (Maps.clear (_listeners e))) ;;
    assign (set_size 0) ;;
    call_hook onDidRemoveLastListener ;;
    assign (λ e, set_leakageMonitor (LeakageMonitor_dispose <$> _leakageMonitor e) e) ;;
    assign set_disposed.

(** *** Programs over an emitter

    What a caller can do with an emitter and with the [Event]s and
    handles around it, one call at a time.  A call that throws leaves
    the world as it was at the [throw]; the caller goes on.  A
    listener given as an [Event] has to be an [Event] that exists. *)
Inductive Op :=
| On (event : EventKey) (listener : Listener) (thisArg : option Object)
    (options : option ListenOptions) (callSite : string)
| Once (event : EventKey) (listener : Listener) (thisArg : option Object)
    (options : option ListenOptions) (callSite : string)
| Off (event : EventKey) (listener : Listener)
| Release (h : Handle)
| Clear (event : option EventKey)
| Fire (event : EventKey) (args : Payload) (elapsed : Q)
| Dispose
| NewEvent (l : Callback) (o : option EventOptions)
| CallEvent (i : nat) (args : Payload)
| CancelEvent (i : nat)
| DisposeEvent (i : nat).

Definition exists_listener (l : Listener) (w : World) : bool :=
  match l with
  | Function _ => true
  | Instance i => (i <? length (events w))%nat
  end.

Definition exec (w : World) (o : Op) : World :=
  match o with
  | On event listener thisArg options callSite =>
      if exists_listener listener w
      then fst (on event listener thisArg options callSite w) else w
  | Once event listener thisArg options callSite =>
      if exists_listener listener w
      then fst (once event listener thisArg options callSite w) else w
  | Off event listener =>
      if exists_listener listener w then fst (off event listener w) else w
  | Release h => fst (Handle_dispose h w)
  | Clear event => fst (clear event w)
  | Fire event args elapsed => fst (fire event args elapsed w)
  | Dispose => fst (dispose w)
  | NewEvent l o => fst (construct_Event (new_Event l o) w)
  | CallEvent i args => fst (call_Event i args w)
  | CancelEvent i => fst (cancel_Event i w)
  | DisposeEvent i => fst (dispose_Event i w)
  end.

Definition run (ops : list Op) (w : World) : World := fold_left exec ops w.

(** The listeners registered at the moment, over all keys. *)
Definition registered (w : World) : list UniqueContainer :=
  forEach_values (_listeners (emitter w)).

(** *** Invariants and the words of the design document *)

(** What [_removeUniqueListener] does to the registry: the map
    afterwards, and whether the container was found. *)
Definition removal (c : UniqueContainer) (event : option EventKey) (m : SetMap) : SetMap * bool :=
  match truthy event with
  | None => delete_first c (keys m) m
  | Some k => delete k c m
  end.

Definition is_handler (e : Effect) : bool :=
  match e with
  | HandlerCalled _ | Escalated _ => true
  | _ => false
  end.

(** A listener none of whose disposables throws when it is released. *)
Definition tame (e : Event) : bool := forallb Disposable.returns (Events.lifecycle e).

(** A world in which every listener is tame. *)
Definition still (w : World) : Prop := Forall (λ e, tame e = true) (events w).

(** An operation that brings in no disposable that throws. *)
Definition tame_op (o : Op) : bool :=
  match o with
  | On _ _ _ options _ | Once _ _ _ options _ =>
      forallb Disposable.returns (default [] (toDisposeWithEvent <$> options))
  | NewEvent _ options =>
      forallb Disposable.returns (default [] (Events.disposables <$> options))
  | _ => true
  end.

(** A later world of the same emitter: identities are only ever
    added, and no disposable that throws has come in. *)
Record grows (w w1 : World) : Prop := {
  grows_uci : (uci w ≤ uci w1)%nat;
  grows_events : (length (events w) ≤ length (events w1))%nat;
  grows_disposed : disposed (emitter w1) = disposed (emitter w);
  grows_options : _options (emitter w1) = _options (emitter w);
  grows_still : still w → still w1
}.

(** A later world in which no error handler has been called since. *)
Definition quiet (w w1 : World) : Prop :=
  ∃ tr, trace w1 = trace w ++ tr ∧ forallb (λ e, negb (is_handler e)) tr = true.

Definition keeps {A} (R : World → World → Prop) (m : M A) : Prop :=
  ∀ w, R w (m w).1.

(** A statement that completes normally and leaves the emitter alone. *)
Definition inert (m : M unit) : Prop :=
  ∀ w, (m w).2 = Normal tt ∧ emitter (m w).1 = emitter w.

(** The bookkeeping of an emitter is sound: the count is the number of
    registered listeners, a container is registered once, its identity
    was drawn from [uci], and it wraps an [Event] that exists; and
    every listener is tame. *)
Record wf (w : World) : Prop := {
  wf_size : size (emitter w) = Z.of_nat (length (registered w));
  wf_ids : NoDup (map id (registered w));
  wf_uci : ∀ c, c ∈ registered w → (id c < uci w)%nat;
  wf_values : ∀ c, c ∈ registered w → (value c < length (events w))%nat;
  wf_still : still w
}.

(** [err instanceof Exception && err.is(ONCE) || ... err.is(DISPOSED)] *)
Definition removes_listener (t : Thrown) : bool :=
  thrown_is t ERR_ONCE_WAS_CALLED_AGAIN || thrown_is t ERR_RESOURCE_DISPOSED.

(** The world after the listener's [Event] was called: the [Event] and
    the trace are those the call left. *)
Definition called (i : nat) (e1 : Event) (tr1 : Trace) (w : World) : World :=
  {| events := <[i := e1]> (events w); uci := uci w; emitter := emitter w; trace := tr1 |}.

(** What the design document says [fire] does with one listener. *)
Inductive Delivery (args : Payload) (c : UniqueContainer) (w w1 : World) : Prop :=
| Delivered e e1 tr1 v :
    events w !! value c = Some e →
    Events.call args e (trace w) = (e1, tr1, Normal v) →
    w1 = called (value c) e1 tr1 w →
    Delivery args c w w1
| Removed e e1 tr1 t :
    events w !! value c = Some e →
    Events.call args e (trace w) = (e1, tr1, Throw t) →
    removes_listener t = true →
    registered w ≡ₚ c :: registered w1 →
    size (emitter w1) = size (emitter w) - 1 →
    quiet (called (value c) e1 tr1 w) w1 →
    Delivery args c w w1
| Forwarded e e1 tr1 t :
    events w !! value c = Some e →
    Events.call args e (trace w) = (e1, tr1, Throw t) →
    removes_listener t = false →
    w1 = log [handle_error (custom_handler (_options (emitter w))) t] (called (value c) e1 tr1 w) →
    Delivery args c w w1.

(** Delivery to one listener after the other. *)
Inductive Deliveries (args : Payload) : list UniqueContainer → World → World → Prop :=
| Deliveries_nil w : Deliveries args [] w w
| Deliveries_cons c rest w w1 w2 :
    Delivery args c w w1 → Deliveries args rest w1 w2 → Deliveries args (c :: rest) w w2.

(** The profiling window around a [fire]. *)
Definition window_open (w : World) : World :=
  {| events := events w; uci := uci w;
     emitter := set_perfMonitor (Profiling_start (size (emitter w)) <$> _perfMonitor (emitter w))
                  (emitter w);
     trace := trace w |}.

Definition window_closed (elapsed : Q) (w : World) : World :=
  {| events := events w; uci := uci w;
     emitter := set_perfMonitor (Profiling_stop elapsed <$> _perfMonitor (emitter w)) (emitter w);
     trace := trace w |}.

(** The [Event] that [_addListener] builds around a function. *)
Definition wrapper (f : Callback) (thisArg : option Object) (once : bool)
    (options : option ListenOptions) : Event :=
  new_Event f
    (Some {| Events.thisArg := thisArg;
             Events.once := Some once;
             Events.disposables := default [] (toDisposeWithEvent <$> options);
             Events.cancelable := Some (default false (options ≫= listen_cancelable)) |}).

(** What a statement does not do: touch the heap of events. *)
Definition same_events (w w1 : World) : Prop := events w1 = events w.

Definition is_Invoked (e : Effect) : bool :=
  match e with
  | Invoked _ _ _ _ => true
  | _ => false
  end.

Definition is_ConsoleLog (e : Effect) : bool :=
  match e with
  | ConsoleLog _ => true
  | _ => false
  end.

(** A later world in which no listener has been called since. *)
Definition no_calls (w w1 : World) : Prop :=
  ∃ tr, trace w1 = trace w ++ tr ∧ forallb (λ e, negb (is_Invoked e)) tr = true.

(** A later world in which only the trace has grown, and no listener
    has been called since. *)
Definition calm (w w1 : World) : Prop :=
  events w1 = events w ∧ uci w1 = uci w ∧ emitter w1 = emitter w ∧ no_calls w w1.

(** The [Event] once its [dispose()] has run. *)
Definition disposed_Event (e : Event) : Event := (Events.Event_dispose e []).1.1.

(** The store of events once [dispose()] has run on each [Event] that
    the containers wrap. *)
Definition disposed_Events (values : list UniqueContainer) (evs : list Event) : list Event :=
  fold_left (λ evs c, alter disposed_Event (value c) evs) values evs.

(** Whether the debug dump of an emitter with the registry [m] ends
    with a [TypeError]: [noDebug] is not set, and [JSON.stringify]
    does not accept every registered listener. *)
Definition dump_throws (w : World) (m : SetMap) : bool :=
  negb (no_debug (_options (emitter w)))
  && negb (forallb (λ c, default true (Event_prints <$> events w !! value c))
             (forEach_values m)).

(** What disposing a handle whose listener is not in the registry
    throws. *)
Definition unknown (w : World) (m : SetMap) (event : option EventKey) : Thrown :=
  if dump_throws w m then stringify_error
  else match truthy event with
       | None => unknown_listener_no_event
       | Some _ => unknown_listener
       end.

(** Whether a registration passes [_checkLeakageBeforeAdd]. *)
Definition accepts (e : Emitter) : bool :=
  negb (disposed e)
  && match _leakageMonitor e with
     | Some lm => negb (Qlt_bool (double_square (threshold lm)) (inject_Z (size e)))
     | None => true
     end.

(** The [Event] a registration puts into the registry: the one
    given, or the new one around the function given. *)
Definition listener_Event (listener : Listener) (w : World) : nat :=
  match listener with
  | Instance i => i
  | Function _ => length (events w)
  end.

(** The identity of the function that [off] looks for: that of the
    function given, or of the function of the [Event] given. *)
Definition listener_function (listener : Listener) (w : World) : option nat :=
  match listener with
  | Function f => Some (cb_id f)
  | Instance i => (λ e, cb_id (kListener e)) <$> events w !! i
  end.

(** The listeners that [clear(event)] removes. *)
Definition cleared (event : option EventKey) (w : World) : list UniqueContainer :=
  match truthy event with
  | Some k => get k (_listeners (emitter w))
  | None => registered w
  end.

(** A later world in which the profiling monitor and the emitter's own
    store are as they were. *)
Definition steady (w w1 : World) : Prop :=
  _perfMonitor (emitter w1) = _perfMonitor (emitter w)
  ∧ _disposables (emitter w1) = _disposables (emitter w).

(** A later world whose registry still stores every key once and
    with at least one listener, if the registry of the earlier world
    did. *)
Definition packed (w w1 : World) : Prop :=
  compact (_listeners (emitter w)) → compact (_listeners (emitter w1)).

(** [emitter.profiling]: a copy of the figures of the monitor
    ([durations], [elapsedOverall], [invocationCount], [listenerCount]). *)
Definition profiling (e : Emitter) : option (list Q * Q * Z * Z) :=
  (λ p, (durations p, elapsedOverall p, invocationCount p, listenerCount p)) <$> _perfMonitor e.

(** The monitor when a window that was opened for [lc] listeners is
    closed after [elapsed]. *)
Definition measured (lc : Z) (elapsed : Q) (p : Profiling) : Profiling :=
  {| listenerCount := lc; invocationCount := invocationCount p + 1;
     elapsedOverall := double_plus (elapsedOverall p) elapsed;
     durations := durations p ++ [elapsed]; _stopWatch := false |}.

End Emitter.

(** ** async.ts *)

Module Async.
Import Cancellation.

(** What the wrapped operation may produce: some value, or an object
    with a [dispose] method, known by its identity. *)
Inductive Result :=
| Plain (v : Value)
| DisposableResult (d : nat).

(** [isDisposable(value)] *)
Definition isDisposable (r : Result) : bool :=
  match r with
  | Plain _ => false
  | DisposableResult _ => true
  end.

Inductive Settlement :=
| Fulfilled (r : Result)
| Rejected (t : Thrown).

(** The state of one call of [createCancelablePromise]: the variables
    the closures share, the state of [promise], how the result of
    [callback] has settled (if it has), whether the reaction
    registered with [then] has run, and the [dispose] calls made on
    results. *)
Record CancelablePromise := {
  source : CancellationTokenSource;
  isCancelled : bool;
  promise : option Settlement;
  thenable : option Settlement;
  reacted : bool;
  released : list nat
}.

(** The listener registered as [sub]. *)
Definition sub : nat := 0%nat.

Definition cancelled : Thrown :=
  ThrownException
    (new_Exception (Text "Asynchronous operation was cancelled") ERR_TOKEN_CANCELLED).

(** [resolve] and [reject] of a promise settle it once. *)
Definition settle (s : Settlement) (p : option Settlement) : option Settlement :=
  match p with
  | None => Some s
  | Some _ => p
  end.

(** [createCancelablePromise(callback)]: [callback] reads the token of
    the new source, then the executor registers [sub] on it. *)
Definition createCancelablePromise : CancelablePromise :=
  let '(_, s1) := token new_CancellationTokenSource in
  let '(_, s2) := onCancellationRequested sub s1 in
  {| source := s2; isCancelled := false; promise := None; thenable := None;
     reacted := false; released := [] |}.

(** The body of the listener [sub]. *)
Definition on_cancellation (p : CancelablePromise) : CancelablePromise :=
  {| source := unregister sub (source p);
     isCancelled := true;
     promise := settle (Rejected cancelled) (promise p);
     thenable := thenable p; reacted := reacted p; released := released p |}.

(** [handle.cancel()]: [source.cancel()] notifies the listeners, then
    [source.dispose()]. *)
Definition cancel (p : CancelablePromise) : CancelablePromise * Completion unit :=
  let '(notified, s1) := Cancellation.cancel (source p) in
  let p1 := {| source := s1; isCancelled := isCancelled p; promise := promise p;
               thenable := thenable p; reacted := reacted p; released := released p |} in
  let p2 := if existsb (Nat.eqb sub) notified then on_cancellation p1 else p1 in
  let '(_, s3) := Cancellation.dispose false (source p2) in
  ({| source := s3; isCancelled := isCancelled p2; promise := promise p2;
      thenable := thenable p2; reacted := reacted p2; released := released p2 |},
   Normal tt).

(** The reaction [Promise.resolve(thenable).then(onValue, onError)]. *)
Definition reaction (s : Settlement) (p : CancelablePromise) : CancelablePromise :=
  let '(_, s1) := Cancellation.dispose false (unregister sub (source p)) in
  match s with
  | Fulfilled value =>
      if negb (isCancelled p) then
        {| source := s1; isCancelled := isCancelled p;
           promise := settle (Fulfilled value) (promise p);
           thenable := thenable p; reacted := true; released := released p |}
      else
        {| source := s1; isCancelled := isCancelled p; promise := promise p;
           thenable := thenable p; reacted := true;
           released := match value with
                       | DisposableResult d => released p ++ [d]
                       | Plain _ => released p
                       end |}
  | Rejected err =>
      {| source := s1; isCancelled := isCancelled p;
         promise := settle (Rejected err) (promise p);
         thenable := thenable p; reacted := true; released := released p |}
  end.

(** What happens to a cancelable promise, one event at a time: the
    caller cancels, the underlying result settles, the job queue runs
    the reaction.  A result settles once; its reaction runs once, and
    only when the result has settled. *)
Inductive Step :=
| Cancel
| Settle (s : Settlement)
| React.

Definition step (p : CancelablePromise) (e : Step) : CancelablePromise :=
  match e with
  | Cancel => fst (cancel p)
  | Settle s =>
      {| source := source p; isCancelled := isCancelled p; promise := promise p;
         thenable := settle s (thenable p); reacted := reacted p; released := released p |}
  | React =>
      match thenable p with
      | Some s => if reacted p then p else reaction s p
      | None => p
      end
  end.

Definition run (es : list Step) (p : CancelablePromise) : CancelablePromise :=
  fold_left step es p.

Definition is_Settle (e : Step) : bool :=
  match e with
  | Settle _ => true
  | _ => false
  end.

(** Before the result settles the promise is as it was made, or as the
    first [cancel()] left it. *)
Definition cancelled_early : CancelablePromise := (cancel createCancelablePromise).1.

(** The cancelled promise, once its result has been fulfilled with the
    disposable [d]: the result is released when the reaction runs, and
    never again. *)
Definition awaiting (d : nat) (p : CancelablePromise) : Prop :=
  isCancelled p = true
  ∧ thenable p = Some (Fulfilled (DisposableResult d))
  ∧ (reacted p = false ∧ released p = [] ∨ reacted p = true ∧ released p = [d]).

Definition released_once (d : nat) (p : CancelablePromise) : Prop :=
  isCancelled p = true
  ∧ thenable p = Some (Fulfilled (DisposableResult d))
  ∧ reacted p = true ∧ released p = [d].

Definition is_Cancel (e : Step) : bool :=
  match e with
  | Cancel => true
  | _ => false
  end.

(** What holds of a cancelable promise at every moment.  While it is
    pending, nothing has happened to its source.  Once it is settled,
    the source notifies nobody any more; a promise that was cancelled
    is rejected with [cancelled]; and what has been released is the
    result, once, by the reaction of a cancelled promise. *)
Definition sound (p : CancelablePromise) : Prop :=
  match promise p with
  | None =>
      source p = source createCancelablePromise ∧ isCancelled p = false
      ∧ reacted p = false ∧ released p = []
  | Some s =>
      (∃ b, _token (source p) = Some (TokenOwned b None))
      ∧ (isCancelled p = true → s = Rejected cancelled)
      ∧ (reacted p = false → released p = [])
      ∧ ∀ d, d ∈ released p →
          released p = [d] ∧ isCancelled p = true
          ∧ thenable p = Some (Fulfilled (DisposableResult d))
  end.

End Async.

(** ** streams/writable.ts *)

Module Streams.
Import Cancellation Maps Events Emitter.

(** [WriteableStreamOptions].  [cancellation.ts] is not among the
    sources at hand, so all that is kept of the [token] option is
    whether it is there and, if so, whether cancellation had been
    requested when the stream was made ([token.isCancellationRequested]);
    [None] stands for a stream made without a token, which gets
    [CancellationToken.None]. *)
Record WriteableStreamOptions := {
  highWaterMark : option Q;
  token : option bool;
  stream_onListenerError : bool
}.

(** An [Error] handed to the stream: the value the listeners of
    ["error"] are given, and what [onUnexpected] throws later on. *)
Record StreamError := {
  error_value : Value;
  error_thrown : Thrown
}.

(** A callback of a caller of the stream, which is called with one
    argument. *)
Record Consumer := {
  consumer_id : nat;
  consume : Value → Outcome
}.

(** The event and the callback given to [on], [once] and
    [removeListener]. *)
Inductive Listening :=
| OnData (callback : Consumer)
| OnError (callback : Consumer)
| OnEnd (callback : Callback)
| OnDrain (callback : Callback).

Definition event_of (l : Listening) : EventKey :=
  match l with
  | OnData _ => KString "data"
  | OnError _ => KString "error"
  | OnEnd _ => KString "end"
  | OnDrain _ => KString "drain"
  end.

(** [_pendingPromises] holds the [resolve] functions of the promises
    [write] has returned, each known by the number of its promise;
    [promises] counts the promises made, [resolved] lists the ones
    resolved, and [closures] counts the arrow functions the stream has
    made around callbacks.  [_pipeDestinations] is left out with
    [pipe] and [unpipe]. *)
Record Stream := {
  folowing : bool;
  ended : bool;
  destroyed : bool;
  data : list Value;
  error_buffer : list StreamError;
  _pendingPromises : list nat;
  promises : nat;
  resolved : list nat;
  closures : nat;
  _reducer : option (list Value → Value);
  stream_options : option WriteableStreamOptions
}.

(** The stream and its emitter with what they share with the caller;
    [readings] is what the stop watch of the profiling monitor will
    read at the coming calls of [fire]. *)
Record StreamWorld := {
  stream : Stream;
  world : World;
  readings : list Q
}.

#[local] Set Warnings "-notation-overridden".

Definition SM (A : Type) : Type := StreamWorld → StreamWorld * Completion A.

Definition sret {A} (a : A) : SM A := λ sw, (sw, Normal a).

Definition sbind {A B} (m : SM A) (k : A → SM B) : SM B :=
  λ sw, match m sw with
        | (sw1, Normal a) => k a sw1
        | (sw1, Throw t) => (sw1, Throw t)
        end.

Notation "x <- m ;; k" := (sbind m (λ x, k))
  (at level 100, m at next level, right associativity).
Notation "m ;; k" := (sbind m (λ _, k))
  (at level 100, right associativity).

Definition self : SM Stream := λ sw, (sw, Normal (stream sw)).

Definition update (f : Stream → Stream) : SM unit :=
  λ sw, ({| stream := f (stream sw); world := world sw; readings := readings sw |}, Normal tt).

(** A statement of the emitter, run on the emitter of the stream. *)
Definition lift {A} (m : M A) : SM A :=
  λ sw, let '(w1, r) := m (world sw) in
        ({| stream := stream sw; world := w1; readings := readings sw |}, r).

(** [this._emitter.fire(event, ...args)] *)
Definition emitter_fire (event : EventKey) (args : Payload) : SM unit :=
  λ sw, let '(w1, r) := Emitter.fire event args (hd 0%Q (readings sw)) (world sw) in
        ({| stream := stream sw; world := w1; readings := tl (readings sw) |}, r).

(** [this._emitter.listenersCount(event)] *)
Definition emitter_listenersCount (event : EventKey) : SM Z :=
  λ sw, (sw, Normal (Emitter.listenersCount (Some event) (emitter (world sw)))).

Definition set_folowing (b : bool) (s : Stream) : Stream :=
  {| folowing := b; ended := ended s; destroyed := destroyed s; data := data s;
     error_buffer := error_buffer s; _pendingPromises := _pendingPromises s;
     promises := promises s; resolved := resolved s; closures := closures s;
     _reducer := _reducer s; stream_options := stream_options s |}.

Definition set_ended (b : bool) (s : Stream) : Stream :=
  {| folowing := folowing s; ended := b; destroyed := destroyed s; data := data s;
     error_buffer := error_buffer s; _pendingPromises := _pendingPromises s;
     promises := promises s; resolved := resolved s; closures := closures s;
     _reducer := _reducer s; stream_options := stream_options s |}.

Definition set_destroyed (b : bool) (s : Stream) : Stream :=
  {| folowing := folowing s; ended := ended s; destroyed := b; data := data s;
     error_buffer := error_buffer s; _pendingPromises := _pendingPromises s;
     promises := promises s; resolved := resolved s; closures := closures s;
     _reducer := _reducer s; stream_options := stream_options s |}.

Definition set_data (d : list Value) (s : Stream) : Stream :=
  {| folowing := folowing s; ended := ended s; destroyed := destroyed s; data := d;
     error_buffer := error_buffer s; _pendingPromises := _pendingPromises s;
     promises := promises s; resolved := resolved s; closures := closures s;
     _reducer := _reducer s; stream_options := stream_options s |}.

Definition set_error_buffer (e : list StreamError) (s : Stream) : Stream :=
  {| folowing := folowing s; ended := ended s; destroyed := destroyed s; data := data s;
     error_buffer := e; _pendingPromises := _pendingPromises s;
     promises := promises s; resolved := resolved s; closures := closures s;
     _reducer := _reducer s; stream_options := stream_options s |}.

Definition set_pendingPromises (p : list nat) (s : Stream) : Stream :=
  {| folowing := folowing s; ended := ended s; destroyed := destroyed s; data := data s;
     error_buffer := error_buffer s; _pendingPromises := p;
     promises := promises s; resolved := resolved s; closures := closures s;
     _reducer := _reducer s; stream_options := stream_options s |}.

(** [new Promise(resolve => this._pendingPromises.push(resolve))] *)
Definition new_pending_promise : SM nat :=
  λ sw,
    let s := stream sw in
    ({| stream :=
          {| folowing := folowing s; ended := ended s; destroyed := destroyed s;
             data := data s; error_buffer := error_buffer s;
             _pendingPromises := _pendingPromises s ++ [promises s];
             promises := S (promises s); resolved := resolved s; closures := closures s;
             _reducer := _reducer s; stream_options := stream_options s |};
        world := world sw; readings := readings sw |},
     Normal (promises s)).

(** [pending.forEach(r => r())] *)
Definition resolve_each (pending : list nat) : SM unit :=
  update (λ s,
    {| folowing := folowing s; ended := ended s; destroyed := destroyed s;
       data := data s; error_buffer := error_buffer s;
       _pendingPromises := _pendingPromises s;
       promises := promises s; resolved := resolved s ++ pending; closures := closures s;
       _reducer := _reducer s; stream_options := stream_options s |}).

(** The arrow function [([chunk]) => { callback(chunk); }].  The
    functions the stream makes are numbered with the odd numbers and
    the functions of its callers with the even ones, so that no two
    of them are the same function. *)
Definition arrow (n : nat) (callback : Consumer) : Callback :=
  {| cb_id := 2 * n + 1;
     cb_run := λ args _, consume callback (hd VUndefined args) |}.

(** A function of a caller that is handed to the emitter as it is. *)
Definition direct (callback : Callback) : Callback :=
  {| cb_id := 2 * cb_id callback; cb_run := cb_run callback |}.

Definition new_arrow (callback : Consumer) : SM Callback :=
  λ sw,
    let s := stream sw in
    ({| stream :=
          {| folowing := folowing s; ended := ended s; destroyed := destroyed s;
             data := data s; error_buffer := error_buffer s;
             _pendingPromises := _pendingPromises s;
             promises := promises s; resolved := resolved s; closures := S (closures s);
             _reducer := _reducer s; stream_options := stream_options s |};
        world := world sw; readings := readings sw |},
     Normal (arrow (closures s) callback)).

Definition _emitDrain : SM unit := emitter_fire (KString "drain") [VUndefined].

Definition _emitData (d : Value) : SM unit := emitter_fire (KString "data") [d].

Definition _emitError (err : StreamError) : SM unit :=
  n <- emitter_listenersCount (KString "error") ;;
  if n =? 0 then lift (emit (Escalated (error_thrown err)))
  else emitter_fire (KString "error") [error_value err].

Definition _emitEnd : SM unit := emitter_fire (KString "end") [VUndefined].

Fixpoint emit_each_data (ds : list Value) : SM unit :=
  match ds with
  | [] => sret tt
  | d :: rest => _emitData d ;; emit_each_data rest
  end.

Fixpoint emit_each_error (errs : list StreamError) : SM unit :=
  match errs with
  | [] => sret tt
  | err :: rest => _emitError err ;; emit_each_error rest
  end.

(** [_flowData()].  The loop runs over the buffer as it is when the
    loop begins: no listener writes to the stream it listens to. *)
Definition _flowData : SM unit :=
  s <- self ;;
  match data s with
  | [] => sret tt
  | _ :: _ =>
      match _reducer s with
      | Some reducer => _emitData (reducer (data s))
      | None => emit_each_data (data s)
      end ;;
      update (set_data []) ;;
      s1 <- self ;;
      let pending := _pendingPromises s1 in
      update (set_pendingPromises []) ;;
      resolve_each pending ;;
      match pending with
      | [] => sret tt
      | _ :: _ => _emitDrain
      end
  end.

(** [_flowErrors()] *)
Definition _flowErrors : SM unit :=
  n <- emitter_listenersCount (KString "error") ;;
  if 0 <? n then
    s <- self ;;
    emit_each_error (error_buffer s) ;;
    update (set_error_buffer [])
  else sret tt.

(** [_flowEnd()] *)
Definition _flowEnd : SM bool :=
  s <- self ;;
  if ended s then
    _emitEnd ;;
    n <- emitter_listenersCount (KString "end") ;;
    sret (0 <? n)
  else sret false.

(** [stream.pause()] *)
Definition pause : SM unit :=
  s <- self ;;
  if destroyed s then sret tt else update (set_folowing false).

(** [stream.resume()] *)
Definition resume : SM unit :=
  s <- self ;;
  if destroyed s then sret tt
  else if negb (folowing s) then
    update (set_folowing true) ;;
    _flowData ;;
    _flowErrors ;;
    _flowEnd ;;
    sret tt
  else sret tt.

(** Whether the buffer has grown beyond the mark. *)
Definition above_mark (s : Stream) : bool :=
  match stream_options s ≫= highWaterMark with
  | Some mark => Qlt_bool mark (inject_Z (Z.of_nat (length (data s))))
  | None => false
  end.

(** [stream.write(data)]: the promise returned, if one is. *)
Definition write (d : Value) : SM (option nat) :=
  s <- self ;;
  if destroyed s then sret None
  else if folowing s then _emitData d ;; sret None
  else
    update (λ s, set_data (data s ++ [d]) s) ;;
    s1 <- self ;;
    if above_mark s1 then p <- new_pending_promise ;; sret (Some p)
    else sret None.

(** [stream.error(err)] *)
Definition error (err : StreamError) : SM unit :=
  s <- self ;;
  if destroyed s then sret tt
  else if folowing s then _emitError err
  else update (λ s, set_error_buffer (error_buffer s ++ [err]) s).

(** [stream.destroy()] *)
Definition destroy : SM unit :=
  s <- self ;;
  if negb (destroyed s) then
    update (set_destroyed true) ;;
    update (set_ended true) ;;
    update (set_data []) ;;
    update (set_error_buffer []) ;;
    lift Emitter.dispose ;;
    update (set_pendingPromises [])
  else sret tt.

(** [stream.end(result)]; [None] stands for a call without a result,
    or with [undefined]. *)
Definition end_ (result : option Value) : SM unit :=
  s <- self ;;
  if destroyed s then sret tt
  else
    match result with
    | Some r => write r ;; sret tt
    | None => sret tt
    end ;;
    s1 <- self ;;
    if folowing s1 then _emitEnd ;; destroy
    else update (set_ended true).

(** What [on] and [once] do once the listener is with the emitter. *)
Definition listening (l : Listening) : SM unit :=
  match l with
  | OnData _ => resume
  | OnEnd _ =>
      s <- self ;;
      if folowing s then
        flowed <- _flowEnd ;;
        if flowed then destroy else sret tt
      else sret tt
  | OnError _ =>
      s <- self ;;
      if folowing s then _flowErrors else sret tt
  | OnDrain _ => sret tt
  end.

(** The function handed to the emitter for the callback given. *)
Definition listener_of (l : Listening) : SM Callback :=
  match l with
  | OnData callback | OnError callback => new_arrow callback
  | OnEnd callback | OnDrain callback => sret (direct callback)
  end.

(** [stream.on(event, callback)]; [callSite] is the stack the emitter
    records for the registration. *)
Definition on (l : Listening) (callSite : string) : SM unit :=
  s <- self ;;
  if destroyed s then sret tt
  else
    f <- listener_of l ;;
    lift (Emitter.on (event_of l) (Function f) None None callSite) ;;
    listening l.

(** [stream.once(event, callback)]: only for ["drain"] is the
    listener registered with [once]. *)
Definition once (l : Listening) (callSite : string) : SM unit :=
  s <- self ;;
  if destroyed s then sret tt
  else
    f <- listener_of l ;;
    match l with
    | OnDrain _ => lift (Emitter.once (event_of l) (Function f) None None callSite)
    | _ => lift (Emitter.on (event_of l) (Function f) None None callSite)
    end ;;
    listening l.

(** [stream.removeListener(event, callback)] *)
Definition removeListener (event : EventKey) (callback : Callback) : SM unit :=
  s <- self ;;
  if destroyed s then sret tt
  else lift (Emitter.off event (Function (direct callback))).

(** The options of the emitter of a stream. *)
Definition emitter_options (o : option WriteableStreamOptions) : EmitterOptions :=
  {| _profName := Some "UniversalWritableStream"%string;
     noDebug := false;
     leakWarningThreshold := Some 16%Q;
     hooks := λ _, false;
     onListenerError := default false (stream_onListenerError <$> o) |}.

Definition new_Stream (reducer : option (list Value → Value))
    (o : option WriteableStreamOptions) : Stream :=
  {| folowing := false; ended := false; destroyed := false;
     data := []; error_buffer := [];
     _pendingPromises := []; promises := 0; resolved := []; closures := 0;
     _reducer := reducer; stream_options := o |}.

(** [new UniversalWritableStream(reducer, options)].  With a token
    whose cancellation has been requested the constructor calls
    [_emitEnd()] before [_emitter] is there: reading [fire] of
    [undefined] is a [TypeError]. *)
Definition construct (reducer : option (list Value → Value))
    (o : option WriteableStreamOptions) (readings : list Q)
  : StreamWorld * Completion unit :=
  let sw := {| stream := new_Stream reducer o;
               world := new_World (Some (emitter_options o));
               readings := readings |} in
  match o ≫= token with
  | Some true => (sw, Throw (ThrownError "TypeError"))
  | _ => (sw, Normal tt)
  end.

(** The listener the constructor leaves with the token: it runs when
    cancellation of the token is requested. *)
Definition cancellation_requested : SM unit :=
  s <- self ;;
  match stream_options s ≫= token with
  | Some false => pause ;; _emitEnd ;; destroy
  | _ => sret tt
  end.

(** A stream that holds the data [ds] written to it. *)
Fixpoint write_each (ds : list Value) : SM unit :=
  match ds with
  | [] => sret tt
  | d :: rest => write d ;; write_each rest
  end.

(** What a flush hands to the listeners of ["data"]: the buffered
    data one by one or, with a reducer, what it makes of them. *)
Definition flushed (reducer : option (list Value → Value)) (ds : list Value) : list Value :=
  match ds with
  | [] => []
  | _ :: _ =>
      match reducer with
      | Some r => [r ds]
      | None => ds
      end
  end.

(** The emitter has one listener, registered for ["data"] with the
    function [f] by [on]; nothing has disposed of it. *)
Definition attached (c : UniqueContainer) (f : Callback) (w : World) : Prop :=
  disposed (emitter w) = false
  ∧ size (emitter w) = 1
  ∧ _listeners (emitter w) = [(KString "data", [c])]
  ∧ ∃ n, events w !! value c
         = Some {| _source := None; callCount := n; kListener := f;
                   Events._options :=
                     Some {| Events.cancelable := Some false; Events.once := Some false;
                             Events.disposables := []; Events.thisArg := None |};
                   Events.isDisposed := false; Events.lifecycle := [] |}.

(** What the callback does leaves its listener registered: it does
    not throw one of the two exceptions at which the emitter removes
    a listener. *)
Definition stays (o : Outcome) : Prop :=
  match o with
  | Returns _ => True
  | Throws t => removes_listener t = false
  end.

End Streams.

(** * Properties *)

Import Cancellation Maps Events Emitter.

(** ** The disposable store *)

Section DisposableStore.
Import Disposable.

Lemma DisposableStore_dispose_disposed s tr :
  isDisposed (DisposableStore_dispose s tr).1.1 = true.
Proof.
  unfold DisposableStore_dispose, DisposableStore_clear.
  destruct (isDisposed s) eqn:E; simpl; [done|].
  destruct (length (toDispose s) =? 0)%nat; simpl; [done|].
  destruct (dispose (toDispose s) tr); reflexivity.
Qed.

(** C3, as the design document has it, at a store that held one
    disposable when it was disposed: the disposable added afterwards
    is not released by [add]; the trace ends with the warning. *)
Lemma add_after_dispose_releases_nothing :
  let first := {| leaf_id := 1; leaf_throws := None; leaf_prints := true |} in
  let late := {| leaf_id := 2; leaf_throws := None; leaf_prints := true |} in
  let '(s0, tr0, _) := DisposableStore_add false (Some (Other first)) new_DisposableStore [] in
  let '(s1, tr1, _) := DisposableStore_dispose s0 tr0 in
  let '(s2, tr2, r) := DisposableStore_add false (Some (Other late)) s1 tr1 in
  isDisposed s1 = true
  ∧ tr2 = [Released 1; ConsoleWarn disposed_store_warning]
  ∧ ¬ In (Released 2) tr2.
Proof.
  simpl. split; [reflexivity|]. split; [reflexivity|].
  intros [H|[H|[]]]; discriminate H.
Qed.

(** C3, amended: once a store has been disposed, [add(d)] registers
    nothing, warns (unless the warning is switched off) and returns
    [d] without releasing it; it is [_register] of the base class
    that releases a late child on the spot. *)
Theorem add_after_dispose_leaks :
  (∀ (s : DisposableStore) (tr0 : Trace) (disable_warning : bool) (d : Leaf),
     let '(s1, tr1, _) := DisposableStore_dispose s tr0 in
     DisposableStore_add disable_warning (Some (Other d)) s1 tr1
     = (s1,
        tr1 ++ (if disable_warning then [] else [ConsoleWarn disposed_store_warning]),
        Normal (Some (Other d))))
  ∧ (∀ (b : DisposableBase) (tr0 : Trace) (t : Leaf),
     let '(b1, tr1, _) := Disposable_dispose b tr0 in
     let '(b2, tr2, _) := _register t b1 tr1 in
     b2 = b1 ∧ tr2 = tr1 ++ [ConsoleWarn late_register_warning; Released (leaf_id t)]).
Proof.
  split.
  - intros s tr0 disable_warning d.
    pose proof (DisposableStore_dispose_disposed s tr0) as Hd.
    destruct (DisposableStore_dispose s tr0) as [[s1 tr1] r]; simpl in Hd.
    unfold DisposableStore_add. rewrite Hd.
    destruct disable_warning; simpl; [by rewrite app_nil_r | done].
  - intros b tr0 t.
    assert (Hd : base_isDisposed (Disposable_dispose b tr0).1.1 = true).
    { unfold Disposable_dispose, _clear.
      destruct (base_isDisposed b) eqn:E; simpl; [done|].
      destruct (forEach_dispose (lifecycle b) tr0) as [tr1 [[]|e]]; reflexivity. }
    destruct (Disposable_dispose b tr0) as [[b1 tr1] r]; simpl in Hd.
    unfold _register, Leaf_dispose. rewrite Hd.
    destruct (leaf_throws t); simpl; rewrite <- app_assoc; done.
Qed.

End DisposableStore.

(** ** The bound listener *)

Section BoundListener.

Lemma token_in_use s : _token s ≠ Some TokenNone → _token (token s).2 ≠ Some TokenNone.
Proof. unfold token. destruct (_token s) eqn:E; simpl; [by rewrite E | done]. Qed.

Lemma cancel_in_use s : _token s ≠ Some TokenNone → _token (Cancellation.cancel s).2 ≠ Some TokenNone.
Proof.
  unfold Cancellation.cancel.
  destruct (_token s) as [[| |[] ls]|] eqn:E; simpl; rewrite ?E; done.
Qed.

Lemma cancel_requests s :
  _token s ≠ Some TokenNone →
  isCancellationRequested (token (Cancellation.cancel s).2).1 = true.
Proof.
  unfold Cancellation.cancel, token.
  destruct (_token s) as [[| |[] ls]|] eqn:E; simpl; rewrite ?E; done.
Qed.

Lemma new_Event_in_use l o : cancelable_not_false o = true → in_use o (new_Event l o).
Proof.
  intros Hc. unfold in_use, new_Event; simpl. rewrite Hc.
  repeat split. eexists; split; [reflexivity | done].
Qed.

Lemma refreshed_source_in_use o e :
  in_use o e → ∃ s, refreshed_source e = Some s ∧ _token s ≠ Some TokenNone.
Proof.
  intros (_ & _ & s & Hs & Hn). unfold refreshed_source. rewrite Hs.
  pose proof (token_in_use s Hn) as Hn1.
  destruct (token s) as [t s1]; simpl in Hn1.
  destruct (_ && _ && _).
  - destruct (Cancellation.dispose false s1). by eexists.
  - by eexists.
Qed.

Lemma use_in_use o e u : once_set o = false → in_use o e → in_use o (use e u).
Proof.
  intros Ho He. pose proof He as (Hd & Hopt & s & Hs & Hn).
  destruct u as [args| | |]; simpl.
  - unfold call. rewrite Hd, Hopt, Ho; simpl.
    destruct (refreshed_source_in_use o e He) as (s1 & -> & Hn1).
    pose proof (token_in_use s1 Hn1) as Hn2.
    destruct (token s1) as [t s2]; simpl in *.
    repeat split; [done..|]. by eexists.
  - unfold Event_cancel. rewrite Hd, Hs.
    pose proof (cancel_in_use s Hn) as Hn1.
    destruct (Cancellation.cancel s) as [ls s1]; simpl in *.
    repeat split; [done..|]. by eexists.
  - unfold Event_isCancellationRequested. rewrite Hs.
    pose proof (token_in_use s Hn) as Hn1.
    destruct (token s) as [t s1]; simpl in *.
    repeat split; [done..|]. by eexists.
  - unfold Event_cancelable, Event_isCancellationRequested. rewrite Hs.
    destruct (cancelable_not_false (Events._options e)); [|done].
    pose proof (token_in_use s Hn) as Hn1.
    destruct (token s) as [t s1]; simpl in *.
    repeat split; [done..|]. by eexists.
Qed.

Lemma uses_in_use o uses : ∀ e,
  once_set o = false → in_use o e → in_use o (fold_left use uses e).
Proof.
  induction uses as [|u uses IH]; intros e Ho He; simpl; [done|].
  apply IH; [done|]. by apply use_in_use.
Qed.

Lemma uses_keep_listener uses : ∀ e, kListener (fold_left use uses e) = kListener e.
Proof.
  induction uses as [|u uses IH]; intros e0; simpl; [done|].
  rewrite IH. destruct u; simpl; try done.
  - unfold call. destruct (isDisposed e0); [done|].
    destruct (_ && _); [done|].
    by destruct (match refreshed_source e0 with Some _ => _ | None => _ end).
  - unfold Event_cancel. destruct (isDisposed e0); [done|].
    destruct (_source e0); [|done]. by destruct (Cancellation.cancel _).
  - unfold Event_isCancellationRequested. destruct (_source e0); [|done].
    by destruct (token _).
  - unfold Event_cancelable, Event_isCancellationRequested.
    destruct (cancelable_not_false _); [|done].
    destruct (_source e0); [|done]. by destruct (token _).
Qed.

(** C5: take a listener that is not [once] and is cancelable, after any
    use of it short of disposal.  Right after [cancel()] the listener
    reports that cancellation is requested; the next [$call] does not
    fail: it invokes the function with the token of a source that was
    made for this call, which is not requested, and leaves the listener
    with that source. *)
Theorem cancel_is_consumed_by_next_call
    (l : Callback) (o : option EventOptions) (uses : list Use)
    (args : Payload) (tr : Trace) :
  cancelable_not_false o = true →
  once_set o = false →
  let e := Event_cancel (fold_left use uses (new_Event l o)) in
  let fresh := token new_CancellationTokenSource in
  (Event_isCancellationRequested e).1 = true
  ∧ (call args e tr).1.2 = tr ++ [Invoked (cb_id l) (o ≫= thisArg) args fresh.1]
  ∧ (call args e tr).2
    = match cb_run l args fresh.1 with Returns v => Normal v | Throws t => Throw t end
  ∧ isCancellationRequested fresh.1 = false
  ∧ _source (call args e tr).1.1 = Some fresh.2.
Proof.
  intros Hc Ho e fresh.
  assert (Hl : kListener (fold_left use uses (new_Event l o)) = l)
    by apply uses_keep_listener.
  pose proof (uses_in_use o uses _ Ho (new_Event_in_use l o Hc)) as (Hd & Hopt & s & Hs & Hn).
  pose proof (cancel_requests s Hn) as Hreq.
  subst e. unfold Event_cancel. rewrite Hd, Hs.
  destruct (Cancellation.cancel s) as [ls s1]; simpl in Hreq.
  unfold Event_isCancellationRequested, call, refreshed_source; simpl.
  rewrite Hd, Hopt, Ho, Hc, Hl; simpl.
  destruct (token s1) as [t s2]; simpl in Hreq. rewrite Hreq; simpl.
  destruct (Cancellation.dispose false s2). simpl. done.
Qed.

(** C5 at a listener that was called once and then cancelled. *)
Lemma cancel_is_consumed_by_next_call_witness :
  let l := {| cb_id := 1; cb_run := λ _ tok, if isCancellationRequested tok then Throws disposed_call else Returns VUndefined |} in
  let e := Event_cancel (fold_left use [Call [VString "first"]] (new_Event l None)) in
  (Event_isCancellationRequested e).1 = true
  ∧ (call [VString "next"] e []).1.2
    = [] ++ [Invoked 1 None [VString "next"] (TokenOwned false (Some []))]
  ∧ (call [VString "next"] e []).2 = Normal VUndefined
  ∧ isCancellationRequested (TokenOwned false (Some [])) = false
  ∧ _source (call [VString "next"] e []).1.1 = Some {| _token := Some (TokenOwned false (Some [])) |}.
Proof.
  exact (cancel_is_consumed_by_next_call
           {| cb_id := 1; cb_run := λ _ tok, if isCancellationRequested tok then Throws disposed_call else Returns VUndefined |}
           None [Call [VString "first"]] [VString "next"] [] eq_refl eq_refl).
Defined.

End BoundListener.

(** ** Doubles *)

Section Doubles.

Lemma round_double_nonneg (q : Q) : (0 <= q)%Q → (0 <= round_double q)%Q.
Proof.
  intros Hq. unfold round_double. destruct (Qnum q) as [|n|n] eqn:En; [done| |done].
  set (e0 := Z.log2 (Z.pos n) - Z.log2 (Z.pos (Qden q)) - 53).
  cbv zeta.
  set (e := if 2 ^ 53 <=? _ then e0 + 1 else e0).
  cbn [fst snd].
  set (a := Z.pos n * 2 ^ Z.max 0 (- e)). set (b := Z.pos (Qden q) * 2 ^ Z.max 0 e).
  assert (Ha : 0 <= a) by (subst a; apply Z.mul_nonneg_nonneg; [lia | apply Z.pow_nonneg; lia]).
  assert (Hb : 0 < b) by (subst b; apply Z.mul_pos_pos; [lia | apply Z.pow_pos_nonneg; lia]).
  assert (Hf : 0 <= a / b) by (apply Z.div_pos; lia).
  apply Qmult_le_0_compat; [|apply Qpower_0_le; done].
  change 0%Q with (inject_Z 0). rewrite <- Zle_Qle.
  repeat match goal with |- context [if ?c then _ else _] => destruct c end; lia.
Qed.

(** A whole number below [2 ^ 53] is a double. *)
Lemma round_double_whole (k : Z) : 0 < k < 2 ^ 53 → (round_double (inject_Z k) == inject_Z k)%Q.
Proof.
  intros [Hk Hlt]. destruct k as [|p|p]; [lia| |lia]. unfold round_double. cbn [Qnum Qden inject_Z].
  change (Z.log2 1) with 0. cbv zeta. cbn [fst snd].
  set (j := Z.log2 (Z.pos p)).
  assert (Hj : 0 <= j < 53).
  { split; [apply Z.log2_nonneg|]. apply Z.log2_lt_pow2; lia. }
  pose proof (Z.log2_spec (Z.pos p) Hk) as [Hlo Hhi]. fold j in Hlo, Hhi.
  replace (j - 0 - 53) with (j - 53) by lia.
  replace (Z.max 0 (- (j - 53))) with (53 - j) by lia.
  replace (Z.max 0 (j - 53)) with 0 by lia.
  change (1 * 2 ^ 0) with 1. rewrite Z.div_1_r.
  assert (Hbig : 2 ^ 53 <= Z.pos p * 2 ^ (53 - j)).
  { replace (2 ^ 53) with (2 ^ j * 2 ^ (53 - j)) by (rewrite <- Z.pow_add_r by lia; f_equal; lia).
    apply Z.mul_le_mono_nonneg_r; [apply Z.pow_nonneg; lia | done]. }
  apply Z.leb_le in Hbig. rewrite Hbig.
  replace (Z.max 0 (- (j - 53 + 1))) with (52 - j) by lia.
  replace (Z.max 0 (j - 53 + 1)) with 0 by lia.
  change (1 * 2 ^ 0) with 1. rewrite Z.div_1_r, Z.mod_1_r. change (2 * 0 <? 1) with true. cbv iota.
  replace (j - 53 + 1) with (- (52 - j)) by lia.
  rewrite Qpower_opp, inject_Z_mult, (Zpower_Qpower 2 (52 - j)) by lia.
  change (inject_Z 2) with 2%Q. field.
  apply Qpower_not_0. done.
Qed.

Lemma double_square_nonneg (x : Q) : (0 <= double_square x)%Q.
Proof.
  apply round_double_nonneg. destruct x as [n d]. unfold Qle, Qmult. simpl. nia.
Qed.

(** The square of a whole number up to [2 ^ 26] is computed exactly. *)
Lemma double_square_whole (n : Z) :
  0 < n ≤ 2 ^ 26 → (double_square (inject_Z n) == inject_Z (n * n))%Q.
Proof.
  intros [Hn Hle]. unfold double_square.
  change (inject_Z n * inject_Z n)%Q with (inject_Z (n * n)).
  apply round_double_whole. split; [nia|].
  apply Z.le_lt_trans with (2 ^ 26 * 2 ^ 26); [|done]. nia.
Qed.

End Doubles.

(** ** Registration *)

Section Registration.

Lemma on_disposed event listener thisArg once options callSite w :
  disposed (emitter w) = true →
  ∃ w1, _addListener event listener thisArg once options callSite w = (w1, Normal NoneHandle)
        ∧ emitter w1 = emitter w ∧ trace w1 = trace w ∧ uci w1 = uci w.
Proof.
  intros Hd. unfold _addListener, _checkLeakageBeforeAdd, bind, this, ret.
  destruct listener as [f|i]; simpl; rewrite Hd; simpl; eauto.
Qed.

(** C10: on an emitter that has been disposed, [on] and [once] complete
    normally and hand back [Disposable.None]; nothing is registered,
    the count reads 0, no hook and no handler is called, and disposing
    the handle does nothing. *)
Theorem on_disposed_emitter
    (w : World) (event : EventKey) (listener : Listener) (thisArg : option Object)
    (options : option ListenOptions) (callSite : string) :
  disposed (emitter w) = true →
  ∀ register, register = on ∨ register = once →
  ∃ w1, register event listener thisArg options callSite w = (w1, Normal NoneHandle)
        ∧ emitter w1 = emitter w
        ∧ trace w1 = trace w
        ∧ listenersCount None (emitter w1) = 0
        ∧ listenersCount (Some event) (emitter w1) = 0
        ∧ Handle_dispose NoneHandle w1 = (w1, Normal tt).
Proof.
  intros Hd register Hr.
  assert (H : ∃ w1, register event listener thisArg options callSite w = (w1, Normal NoneHandle)
                    ∧ emitter w1 = emitter w ∧ trace w1 = trace w ∧ uci w1 = uci w).
  { destruct Hr as [-> | ->]; apply on_disposed; done. }
  destruct H as (w1 & -> & He & Ht & _).
  exists w1. unfold listenersCount. rewrite He, Hd. done.
Qed.

(** C10 at a new emitter that was disposed at once. *)
Lemma on_disposed_emitter_witness :
  let w := (dispose (new_World None)).1 in
  let l := Function {| cb_id := 1; cb_run := λ _ _, Returns VUndefined |} in
  disposed (emitter w) = true
  ∧ ∃ w1, on (KString "test") l None None "site" w = (w1, Normal NoneHandle)
        ∧ emitter w1 = emitter w
        ∧ trace w1 = trace w
        ∧ listenersCount None (emitter w1) = 0
        ∧ listenersCount (Some (KString "test")) (emitter w1) = 0
        ∧ Handle_dispose NoneHandle w1 = (w1, Normal tt).
Proof.
  split; [reflexivity|].
  exact (on_disposed_emitter (dispose (new_World None)).1 (KString "test")
           (Function {| cb_id := 1; cb_run := λ _ _, Returns VUndefined |})
           None None "site" eq_refl on (or_introl eq_refl)).
Defined.

Lemma Qlt_bool_true x y : (x < y)%Q → Qlt_bool x y = true.
Proof.
  intros H. unfold Qlt_bool. apply negb_true_iff.
  destruct (Qle_bool y x) eqn:E; [|done].
  apply Qle_bool_iff in E. exfalso. exact (Qlt_not_le _ _ H E).
Qed.

Lemma Qlt_bool_false x y : (y <= x)%Q → Qlt_bool x y = false.
Proof.
  intros H. unfold Qlt_bool. apply negb_false_iff. by apply Qle_bool_iff.
Qed.

End Registration.

(** ** The registry of listeners *)

Section SetMapFacts.

Lemma EventKey_eqb_eq a b : EventKey_eqb a b = true ↔ a = b.
Proof.
  destruct a, b; simpl; try (split; [discriminate|congruence]).
  - rewrite String.eqb_eq. split; congruence.
  - rewrite Nat.eqb_eq. split; congruence.
Qed.

Lemma Set_has_false_delete c s : Set_has c s = false → Set_delete c s = s.
Proof.
  unfold Set_has. induction s as [|x s IH]; simpl; [done|].
  intros [Hx Hs]%orb_false_iff. rewrite Hx, IH; done.
Qed.

Lemma Set_has_true_delete c s :
  Set_has c s = true → ∃ c', id c' = id c ∧ s ≡ₚ c' :: Set_delete c s.
Proof.
  unfold Set_has. induction s as [|x s IH]; simpl; [done|].
  destruct (id x =? id c)%nat eqn:Hx; simpl.
  - intros _. exists x. split; [by apply Nat.eqb_eq|done].
  - intros Hs. destruct (IH Hs) as (c' & Hid & Hp). exists c'. split; [done|].
    rewrite Hp at 1. apply Permutation_swap.
Qed.

Lemma Set_has_delete_other c c' s :
  id c' ≠ id c → Set_has c' (Set_delete c s) = Set_has c' s.
Proof.
  intros Hne. unfold Set_has. induction s as [|x s IH]; simpl; [done|].
  destruct (id x =? id c)%nat eqn:Hx; simpl; [|by rewrite IH].
  apply Nat.eqb_eq in Hx. destruct (id x =? id c')%nat eqn:Hx'; [|done].
  apply Nat.eqb_eq in Hx'. congruence.
Qed.

Lemma Set_has_elem c s : Set_has c s = true ↔ id c ∈ map id s.
Proof.
  unfold Set_has. rewrite existsb_exists. rewrite list_elem_of_fmap.
  split.
  - intros (x & Hx & He). exists x. apply Nat.eqb_eq in He. split; [done|]. by apply list_elem_of_In.
  - intros (x & He & Hx). exists x. split; [by apply list_elem_of_In|]. by apply Nat.eqb_eq.
Qed.

Lemma values_Map_delete k m vs :
  Map_get k m = Some vs → forEach_values m ≡ₚ vs ++ forEach_values (Map_delete k m).
Proof.
  unfold forEach_values. induction m as [|[k0 s0] m IH]; simpl; [done|].
  destruct (EventKey_eqb k0 k).
  - intros [= ->]. done.
  - intros H. simpl. rewrite (IH H). rewrite !app_assoc. f_equiv. apply Permutation_app_comm.
Qed.

Lemma values_Map_set k m vs vs' :
  Map_get k m = Some vs → forEach_values (Map_set k vs' m) ≡ₚ vs' ++ forEach_values (Map_delete k m).
Proof.
  unfold forEach_values. induction m as [|[k0 s0] m IH]; simpl; [done|].
  destruct (EventKey_eqb k0 k).
  - intros _. done.
  - intros H. simpl. rewrite (IH H). rewrite !app_assoc. f_equiv. apply Permutation_app_comm.
Qed.

Lemma values_Map_set_new k m vs' :
  Map_get k m = None → forEach_values (Map_set k vs' m) = forEach_values m ++ vs'.
Proof.
  unfold forEach_values. induction m as [|[k0 s0] m IH]; simpl; [by rewrite app_nil_r|].
  destruct (EventKey_eqb k0 k); [done|].
  intros H. simpl. rewrite (IH H). by rewrite app_assoc.
Qed.

Lemma Map_delete_absent k m : Map_get k m = None → Map_delete k m = m.
Proof.
  induction m as [|[k0 s0] m IH]; simpl; [done|].
  destruct (EventKey_eqb k0 k); [done|]. intros H. by rewrite IH.
Qed.

Lemma Map_get_values k m vs c : Map_get k m = Some vs → c ∈ vs → c ∈ forEach_values m.
Proof.
  intros H Hc. rewrite (values_Map_delete k m vs H). apply elem_of_app. by left.
Qed.

Lemma values_add k c m :
  Set_has c (get k m) = false → forEach_values (add k c m) ≡ₚ c :: forEach_values m.
Proof.
  unfold get, add. destruct (Map_get k m) as [vs|] eqn:E; simpl; intros H.
  - rewrite (values_Map_set k m vs _ E), (values_Map_delete k m vs E).
    unfold Set_add. rewrite H. rewrite <- app_assoc. simpl.
    rewrite <- Permutation_middle. done.
  - rewrite (values_Map_set_new k m _ E). by rewrite <- Permutation_cons_append.
Qed.

Lemma values_delete k c m :
  let '(m1, r) := delete k c m in
  if r then ∃ c', id c' = id c ∧ c' ∈ get k m ∧ forEach_values m ≡ₚ c' :: forEach_values m1
  else forEach_values m1 ≡ₚ forEach_values m.
Proof.
  unfold delete, get. destruct (Map_get k m) as [vs|] eqn:E; simpl; [|done].
  assert (Hm : ∀ vs', forEach_values
             (if (length vs' =? 0)%nat then Map_delete k m else Map_set k vs' m)
             ≡ₚ vs' ++ forEach_values (Map_delete k m)).
  { intros vs'. destruct vs'; simpl; [done|]. by rewrite (values_Map_set k m vs _ E). }
  specialize (Hm (Set_delete c vs)).
  destruct (length (Set_delete c vs) =? 0)%nat; simpl;
    destruct (Set_has c vs) eqn:Hh.
  all: try (destruct (Set_has_true_delete c vs Hh) as (c' & Hid & Hp);
    exists c'; split; [done|]; split; [rewrite Hp; by left|];
    rewrite Hm, (values_Map_delete k m vs E); rewrite Hp at 1; done).
  all: rewrite Hm, (values_Map_delete k m vs E), (Set_has_false_delete c vs Hh); done.
Qed.


Lemma values_delete_first c ks : ∀ m,
  let '(m1, r) := delete_first c ks m in
  if r then ∃ c', id c' = id c ∧ c' ∈ forEach_values m ∧ forEach_values m ≡ₚ c' :: forEach_values m1
  else forEach_values m1 ≡ₚ forEach_values m.
Proof.
  induction ks as [|k ks IH]; intros m; simpl; [done|].
  pose proof (values_delete k c m) as Hd.
  destruct (delete k c m) as [m1 []].
  - destruct Hd as (c' & Hid & Hin & Hp). exists c'. repeat split; try done.
    rewrite Hp. by left.
  - specialize (IH m1). destruct (delete_first c ks m1) as [m2 []].
    + destruct IH as (c' & Hid & Hin & Hp). exists c'. repeat split; try done.
      * by rewrite <- Hd.
      * by rewrite <- Hd.
    + by rewrite IH.
Qed.

(** Deleting one container leaves the others where they are. *)
Lemma Map_get_set_ne k k' vs m : k ≠ k' → Map_get k' (Map_set k vs m) = Map_get k' m.
Proof.
  intros Hne. induction m as [|[k0 s0] m IH]; simpl.
  - destruct (EventKey_eqb k k') eqn:E; [|done]. by apply EventKey_eqb_eq in E.
  - destruct (EventKey_eqb k0 k) eqn:E; simpl.
    + apply EventKey_eqb_eq in E as ->.
      destruct (EventKey_eqb k k') eqn:E'; [|done]. by apply EventKey_eqb_eq in E'.
    + by rewrite IH.
Qed.

Lemma Map_get_set_eq k vs vs0 m : Map_get k m = Some vs0 → Map_get k (Map_set k vs m) = Some vs.
Proof.
  induction m as [|[k0 s0] m IH]; simpl; [done|].
  destruct (EventKey_eqb k0 k) eqn:E; simpl; rewrite E; [done|]. apply IH.
Qed.

Lemma Map_get_delete_ne k k' m : k ≠ k' → Map_get k' (Map_delete k m) = Map_get k' m.
Proof.
  intros Hne. induction m as [|[k0 s0] m IH]; simpl; [done|].
  destruct (EventKey_eqb k0 k) eqn:E; simpl.
  - apply EventKey_eqb_eq in E as ->.
    destruct (EventKey_eqb k k') eqn:E'; [|done]. by apply EventKey_eqb_eq in E'.
  - by rewrite IH.
Qed.

Lemma delete_get_ne k k' c m : k ≠ k' → get k' (delete k c m).1 = get k' m.
Proof.
  intros Hk. unfold delete, get. destruct (Map_get k m) as [vs|] eqn:E; simpl; [|done].
  destruct (length (Set_delete c vs) =? 0)%nat; simpl.
  - by rewrite Map_get_delete_ne.
  - by rewrite Map_get_set_ne.
Qed.

Lemma Map_get_keys k m vs : Map_get k m = Some vs → k ∈ keys m.
Proof.
  unfold keys. induction m as [|[k0 s0] m IH]; simpl; [done|].
  destruct (EventKey_eqb k0 k) eqn:E.
  - apply EventKey_eqb_eq in E as ->. intros _. by left.
  - intros H. right. by apply IH.
Qed.

Lemma delete_found k c m : (delete k c m).2 = Set_has c (get k m).
Proof.
  unfold delete, get. destruct (Map_get k m); simpl; [|done].
  by destruct (_ =? _)%nat.
Qed.

Lemma delete_first_finds c k ks : ∀ m,
  k ∈ ks → Set_has c (get k m) = true → (delete_first c ks m).2 = true.
Proof.
  induction ks as [|k0 ks IH]; intros m Hk Hin; simpl; [by apply elem_of_nil in Hk|].
  pose proof (delete_found k0 c m) as Hf.
  destruct (delete k0 c m) as [m1 r] eqn:Ed; simpl in Hf. subst r.
  destruct (Set_has c (get k0 m)) eqn:H0; [done|].
  apply elem_of_cons in Hk as [->|Hk]; [congruence|].
  apply IH; [done|].
  assert (k0 ≠ k) by (intros ->; congruence).
  replace m1 with (delete k0 c m).1 by by rewrite Ed.
  by rewrite delete_get_ne.
Qed.

Lemma registered_finds c k m :
  Set_has c (get k m) = true → (delete_first c (keys m) m).2 = true.
Proof.
  intros Hin. apply (delete_first_finds c k); [|done].
  unfold get in Hin. destruct (Map_get k m) as [vs|] eqn:E; [|done].
  by eapply Map_get_keys.
Qed.

End SetMapFacts.

(** ** Statements of the emitter, step by step *)

Section Stepping.

Lemma bind_this {A} (k : Emitter → M A) w : (e <- this ;; k e) w = k (emitter w) w.
Proof. reflexivity. Qed.

Lemma bind_inert {A} (m : M unit) (k : M A) w : inert m → (m ;; k) w = k (m w).1.
Proof.
  intros H. destruct (H w) as [Hr _]. unfold bind.
  destruct (m w) as [w1 r]; simpl in *. by subst.
Qed.

Lemma bind_assoc {A B C} (m : M A) (k : A → M B) (k' : B → M C) w :
  bind (bind m k) k' w = bind m (λ a, bind (k a) k') w.
Proof. unfold bind. by destruct (m w) as [? []]. Qed.

Lemma bind_assign {A} f (k : M A) w :
  (assign f ;; k) w
  = k {| events := events w; uci := uci w; emitter := f (emitter w); trace := trace w |}.
Proof. reflexivity. Qed.

Lemma inert_emit e : inert (emit e).
Proof. done. Qed.

Lemma inert_ret : inert (ret tt).
Proof. done. Qed.

Lemma inert_when b m : inert m → inert (when b m).
Proof. intros H. destruct b; simpl; [done | apply inert_ret]. Qed.

Lemma inert_bind m k : inert m → inert k → inert (m ;; k).
Proof.
  intros Hm Hk w. rewrite bind_inert by done.
  destruct (Hk (m w).1) as [-> ->]. split; [done | apply Hm].
Qed.

Lemma inert_hook h : inert (call_hook h).
Proof. intros w. unfold call_hook. rewrite bind_this. by apply inert_when, inert_emit. Qed.

(** Releasing disposables none of which throws. *)
Lemma dispose_each_returns ds : ∀ errors tr,
  forallb Disposable.returns ds = true →
  Disposable.dispose_each ds errors tr
  = (tr ++ map (λ d, Released (Disposable.leaf_id d)) ds, errors).
Proof.
  induction ds as [|d ds IH]; intros errors tr Hq; simpl.
  - by rewrite app_nil_r.
  - simpl in Hq. apply andb_prop in Hq as [Hd Hq]. unfold Disposable.Leaf_dispose.
    unfold Disposable.returns in Hd. destruct (Disposable.leaf_throws d); [done|].
    rewrite IH by done. by rewrite <- app_assoc.
Qed.

Lemma dispose_returns ds tr :
  forallb Disposable.returns ds = true →
  Disposable.dispose ds tr = (tr ++ map (λ d, Released (Disposable.leaf_id d)) ds, Normal tt).
Proof. intros Hq. unfold Disposable.dispose. by rewrite dispose_each_returns. Qed.

Lemma tame_cancel e : tame (Events.Event_cancel e) = tame e.
Proof.
  unfold Events.Event_cancel. destruct (Events.isDisposed e); [done|].
  destruct (_source e) as [s|]; [|done]. by destruct (Cancellation.cancel s).
Qed.

(** [event.dispose()] of a tame listener returns. *)
Lemma Event_dispose_tame e tr :
  tame e = true →
  (Events.Event_dispose e tr).2 = Normal tt ∧ tame (Events.Event_dispose e tr).1.1 = true.
Proof.
  intros Ht. rewrite <- tame_cancel in Ht. unfold Events.Event_dispose.
  destruct (Events.isDisposed (Events.Event_cancel e)); [done|].
  unfold tame in Ht. by rewrite dispose_returns.
Qed.

Lemma dispose_Event_emitter i w : emitter (dispose_Event i w).1 = emitter w.
Proof.
  unfold dispose_Event. destruct (events w !! i); [|done].
  by destruct (Events.Event_dispose _ _) as [[? ?] ?].
Qed.

Lemma still_insert i e w :
  still w → tame e = true →
  still {| events := <[i := e]> (events w); uci := uci w; emitter := emitter w; trace := trace w |}.
Proof. intros Hs Ht. unfold still in *. simpl. by apply Forall_insert. Qed.

Lemma dispose_Event_still i w :
  still w → (dispose_Event i w).2 = Normal tt ∧ still (dispose_Event i w).1.
Proof.
  intros Hs. unfold dispose_Event. destruct (events w !! i) as [e|] eqn:E; [|done].
  assert (Ht : tame e = true).
  { unfold still in Hs. rewrite Forall_lookup in Hs. by eapply Hs. }
  destruct (Event_dispose_tame e (trace w) Ht) as [Hr Ht1].
  destruct (Events.Event_dispose e (trace w)) as [[e1 tr1] r]. simpl in *.
  split; [done|]. apply (still_insert i e1 w Hs Ht1).
Qed.

Lemma bind_dispose_Event {A} i (k : M A) w :
  still w → (dispose_Event i ;; k) w = k (dispose_Event i w).1.
Proof.
  intros Hs. destruct (dispose_Event_still i w Hs) as [Hr _]. unfold bind.
  destruct (dispose_Event i w) as [w1 r]; simpl in *. by subst.
Qed.

Lemma dispose_each_emitter vs : ∀ w, emitter (dispose_each vs w).1 = emitter w.
Proof.
  induction vs as [|v vs IH]; intros w; simpl; [done|]. unfold bind.
  pose proof (dispose_Event_emitter (value v) w) as He.
  destruct (dispose_Event (value v) w) as [w1 [[]|t]]; simpl in *; [|done].
  by rewrite IH.
Qed.

Lemma dispose_each_still vs : ∀ w,
  still w → (dispose_each vs w).2 = Normal tt ∧ still (dispose_each vs w).1.
Proof.
  induction vs as [|v vs IH]; intros w Hs; simpl; [done|].
  rewrite bind_dispose_Event by done. apply IH. by apply dispose_Event_still.
Qed.

Lemma bind_dispose_each {A} vs (k : M A) w :
  still w → (dispose_each vs ;; k) w = k (dispose_each vs w).1.
Proof.
  intros Hs. destruct (dispose_each_still vs w Hs) as [Hr _]. unfold bind.
  destruct (dispose_each vs w) as [w1 r]; simpl in *. by subst.
Qed.

(** The dump changes nothing but the trace, to which it adds what it
    logs. *)
Lemma log_nil w : log [] w = w.
Proof. destruct w. unfold log. simpl. by rewrite app_nil_r. Qed.

Lemma log_log tr tr' w : log tr' (log tr w) = log (tr ++ tr') w.
Proof. unfold log. simpl. by rewrite app_assoc. Qed.

Lemma dump_entries_log vs : ∀ i w,
  ∃ tr, (dump_entries i vs w).1 = log tr w ∧ forallb is_ConsoleLog tr = true.
Proof.
  induction vs as [|c vs IH]; intros i w; simpl.
  - exists []. by rewrite log_nil.
  - destruct (default true _); [|exists []; by rewrite log_nil].
    unfold bind, emit. destruct (IH (S i) (log [ConsoleLog (DumpEntry i (id c))] w)) as (tr & Htr & Hc).
    destruct (dump_entries (S i) vs _) as [w1 r]. simpl in *. subst w1.
    exists (ConsoleLog (DumpEntry i (id c)) :: tr). by rewrite log_log.
Qed.

Lemma debug_dump_log w :
  ∃ tr, (debug_dump w).1 = log tr w ∧ forallb is_ConsoleLog tr = true.
Proof.
  unfold debug_dump. rewrite bind_this.
  destruct (no_debug _); [exists []; by rewrite log_nil|].
  unfold bind, emit.
  match goal with |- context [dump_entries ?i ?vs ?w0] =>
    destruct (dump_entries_log vs i w0) as (tr & Htr & Hc);
    destruct (dump_entries i vs w0) as [w1 r]
  end.
  simpl in *. subst w1. eexists (_ :: _ :: tr). by rewrite !log_log.
Qed.

Lemma dump_entries_events vs : ∀ i w, events (dump_entries i vs w).1 = events w.
Proof. intros i w. by destruct (dump_entries_log vs i w) as (tr & -> & _). Qed.

Lemma dump_entries_result vs : ∀ i w,
  (dump_entries i vs w).2
  = if forallb (λ c, default true (Event_prints <$> events w !! value c)) vs
    then Normal tt else Throw stringify_error.
Proof.
  induction vs as [|c vs IH]; intros i w; simpl; [done|].
  destruct (default true _); [|done]. unfold bind, emit. simpl.
  specialize (IH (S i) (log [ConsoleLog (DumpEntry i (id c))] w)).
  destruct (dump_entries (S i) vs _) as [w1 r]. simpl in *. by subst r.
Qed.

Lemma debug_dump_result w :
  (debug_dump w).2
  = if dump_throws w (_listeners (emitter w)) then Throw stringify_error else Normal tt.
Proof.
  unfold debug_dump, dump_throws. rewrite bind_this.
  destruct (no_debug _); [done|]. unfold bind, emit. simpl.
  match goal with |- context [dump_entries ?i ?vs ?w0] =>
    pose proof (dump_entries_result vs i w0) as H; destruct (dump_entries i vs w0) as [w1 r]
  end.
  simpl in *. subst r. by destruct (forallb _ _).
Qed.

Lemma debug_dump_emitter w : emitter (debug_dump w).1 = emitter w.
Proof. destruct (debug_dump_log w) as (tr & -> & _). done. Qed.

End Stepping.

Create HintDb inert.
#[local] Hint Resolve inert_emit inert_ret inert_when inert_bind inert_hook : inert.

Section Keeping.
Context (R : World → World → Prop).
Context (R_refl : ∀ w, R w w) (R_trans : ∀ w w1 w2, R w w1 → R w1 w2 → R w w2).

Lemma keeps_ret {A} (a : A) : keeps R (ret a).
Proof. intros w. apply R_refl. Qed.

Lemma keeps_throw {A} t : keeps R (@throw A t).
Proof. intros w. apply R_refl. Qed.

Lemma keeps_this : keeps R this.
Proof. intros w. apply R_refl. Qed.

Lemma keeps_bind {A B} (m : M A) (k : A → M B) :
  keeps R m → (∀ a, keeps R (k a)) → keeps R (bind m k).
Proof.
  intros Hm Hk w. unfold bind. specialize (Hm w).
  destruct (m w) as [w1 [a|t]]; simpl in *; [|done].
  eapply R_trans; [exact Hm | apply Hk].
Qed.

Lemma keeps_try_catch {A} (m : M A) (h : Thrown → M A) :
  keeps R m → (∀ t, keeps R (h t)) → keeps R (try_catch m h).
Proof.
  intros Hm Hh w. unfold try_catch. specialize (Hm w).
  destruct (m w) as [w1 [a|t]]; simpl in *; [done|].
  eapply R_trans; [exact Hm | apply Hh].
Qed.

Lemma keeps_when b m : keeps R m → keeps R (when b m).
Proof. intros H. destruct b; simpl; [done | apply keeps_ret]. Qed.
End Keeping.

Section Preorders.

Lemma grows_refl w : grows w w.
Proof. split; done. Qed.

Lemma grows_trans w w1 w2 : grows w w1 → grows w1 w2 → grows w w2.
Proof. intros [] []. split; try congruence; try lia. auto. Qed.

Lemma quiet_refl w : quiet w w.
Proof. exists []. by rewrite app_nil_r. Qed.

Lemma quiet_trans w w1 w2 : quiet w w1 → quiet w1 w2 → quiet w w2.
Proof.
  intros (tr1 & E1 & H1) (tr2 & E2 & H2). exists (tr1 ++ tr2).
  rewrite E2, E1, app_assoc. split; [done|]. by rewrite forallb_app, H1, H2.
Qed.

Lemma forallb_Released (l : list Disposable.Leaf) :
  forallb (λ e, negb (is_handler e)) (map (λ d, Released (Disposable.leaf_id d)) l) = true.
Proof. by induction l. Qed.

(** What [dispose(iterable)] adds to the trace. *)
Lemma dispose_each_trace ds : ∀ errors tr,
  (Disposable.dispose_each ds errors tr).1
  = tr ++ map (λ d, Released (Disposable.leaf_id d)) ds.
Proof.
  induction ds as [|d ds IH]; intros errors tr; simpl; [by rewrite app_nil_r|].
  unfold Disposable.Leaf_dispose.
  destruct (Disposable.leaf_throws d); rewrite IH; by rewrite <- app_assoc.
Qed.

Lemma dispose_trace ds tr :
  (Disposable.dispose ds tr).1 = tr ++ map (λ d, Released (Disposable.leaf_id d)) ds.
Proof.
  unfold Disposable.dispose. pose proof (dispose_each_trace ds [] tr) as H.
  destruct (Disposable.dispose_each ds [] tr) as [tr1 errors]. simpl in H. subst tr1.
  by destruct errors as [|? []].
Qed.

(** The trace and the listener that [event.dispose()] leaves. *)
Lemma Event_dispose_trace e tr :
  (Events.Event_dispose e tr).1.2
  = tr ++ (if Events.isDisposed e then []
           else map (λ d, Released (Disposable.leaf_id d)) (Events.lifecycle e)).
Proof.
  unfold Events.Event_dispose, Events.Event_cancel.
  destruct (Events.isDisposed e) eqn:Hd; [by rewrite Hd, app_nil_r|].
  assert (H : ∀ e1, Events.isDisposed e1 = false → Events.lifecycle e1 = Events.lifecycle e →
    (if Events.isDisposed e1 then (e1, tr, Normal tt)
     else let '(tr1, r) := Disposable.dispose (Events.lifecycle e1) tr in
          ({| _source := None; callCount := callCount e1; kListener := kListener e1;
              Events._options := Events._options e1; Events.isDisposed := true;
              Events.lifecycle := match r with Normal _ => [] | Throw _ => Events.lifecycle e1 end |},
           tr1, r)).1.2
    = tr ++ map (λ d, Released (Disposable.leaf_id d)) (Events.lifecycle e)).
  { intros e1 Hd1 Hl. rewrite Hd1, Hl. pose proof (dispose_trace (Events.lifecycle e) tr) as H.
    by destruct (Disposable.dispose (Events.lifecycle e) tr). }
  destruct (_source e) as [s|]; [destruct (Cancellation.cancel s)|]; by apply H.
Qed.

Lemma Event_dispose_tame_after e tr :
  tame e = true → tame (Events.Event_dispose e tr).1.1 = true.
Proof. intros Ht. by apply Event_dispose_tame. Qed.

Lemma grows_emit e : keeps grows (emit e).
Proof. intros w. split; done. Qed.

Lemma quiet_emit e : is_handler e = false → keeps quiet (emit e).
Proof. intros H w. exists [e]. split; [done|]. simpl. by rewrite H. Qed.

Lemma grows_assign f :
  (∀ e, disposed (f e) = disposed e ∧ _options (f e) = _options e) → keeps grows (assign f).
Proof. intros H w. destruct (H (emitter w)). split; done. Qed.

Lemma quiet_assign f : keeps quiet (assign f).
Proof. intros w. exists []. simpl. by rewrite app_nil_r. Qed.

Lemma grows_dispose_Event i : keeps grows (dispose_Event i).
Proof.
  intros w. split; [| | | |intros Hs; by apply dispose_Event_still].
  all: unfold dispose_Event; destruct (events w !! i) as [e|]; [|done].
  all: destruct (Events.Event_dispose e (trace w)) as [[e1 tr1] r]; simpl; try done.
  by rewrite length_insert.
Qed.

Lemma quiet_dispose_Event i : keeps quiet (dispose_Event i).
Proof.
  intros w. unfold dispose_Event. destruct (events w !! i) as [e|]; [|apply quiet_refl].
  pose proof (Event_dispose_trace e (trace w)) as Ht.
  destruct (Events.Event_dispose e (trace w)) as [[e1 tr1] r]. simpl in *.
  eexists. split; [exact Ht|]. destruct (Events.isDisposed e); [done|]. apply forallb_Released.
Qed.

Lemma tame_call args e tr : tame (call args e tr).1.1 = tame e.
Proof.
  unfold call. destruct (Events.isDisposed e); [done|]. destruct (_ && _); [done|].
  by destruct (match refreshed_source e with None => _ | Some _ => _ end).
Qed.

Lemma grows_call_Event i args : keeps grows (call_Event i args).
Proof.
  intros w. unfold call_Event. destruct (events w !! i) as [e|] eqn:E; [|apply grows_refl].
  pose proof (tame_call args e (trace w)) as Ht.
  destruct (call args e (trace w)) as [[e1 tr1] r]. split; simpl in *; try done.
  - by rewrite length_insert.
  - intros Hs. apply (still_insert i e1 w Hs). rewrite Ht.
    unfold still in Hs. rewrite Forall_lookup in Hs. by eapply Hs.
Qed.

Lemma grows_cancel_Event i : keeps grows (cancel_Event i).
Proof.
  intros w. unfold cancel_Event. destruct (events w !! i) as [e|] eqn:E; [|apply grows_refl].
  split; simpl; try done.
  - by rewrite length_insert.
  - intros Hs. apply (still_insert i _ w Hs). rewrite tame_cancel.
    unfold still in Hs. rewrite Forall_lookup in Hs. by eapply Hs.
Qed.

Lemma grows_construct_Event e : tame e = true → keeps grows (construct_Event e).
Proof.
  intros Ht w. split; simpl; try done.
  - rewrite length_app. lia.
  - intros Hs. unfold still in *. simpl. apply Forall_app. split; [done|]. by constructor.
Qed.

Lemma tame_new_Event f o :
  forallb Disposable.returns (default [] (Events.disposables <$> o)) = true →
  tame (new_Event f o) = true.
Proof. intros H. unfold tame, new_Event. simpl. by destruct o. Qed.

Lemma grows_construct_UniqueContainer v : keeps grows (construct_UniqueContainer v).
Proof. intros w. split; simpl; try done. lia. Qed.

End Preorders.

Create HintDb keeps.
#[local] Hint Resolve grows_refl grows_trans quiet_refl quiet_trans : keeps.
#[local] Hint Resolve keeps_ret keeps_throw keeps_this keeps_when
  grows_emit quiet_emit quiet_assign grows_dispose_Event quiet_dispose_Event
  grows_call_Event grows_cancel_Event grows_construct_Event grows_construct_UniqueContainer : keeps.

(** Walks through a statement, one [bind] at a time. *)
Ltac keeps :=
  repeat first
    [ progress eauto with keeps
    | apply keeps_bind; [solve [eauto with keeps] | | intros ?]
    | apply keeps_try_catch; [solve [eauto with keeps] | | intros ?]
    | apply grows_assign; intros ?; done
    | match goal with
      | |- keeps _ (if ?b then _ else _) => destruct b
      | |- keeps _ (match ?x with _ => _ end) => destruct x
      | |- keeps _ (let '(_, _) := ?x in _) => destruct x
      end ].

Section Removal.

Lemma grows_hook h : keeps grows (call_hook h).
Proof. unfold call_hook. keeps. Qed.

Lemma quiet_hook h : keeps quiet (call_hook h).
Proof. unfold call_hook. keeps. Qed.

Lemma grows_debug_dump : keeps grows debug_dump.
Proof. intros w. destruct (debug_dump_log w) as (tr & -> & _). split; done. Qed.

Lemma forallb_impl {A} (f g : A → bool) l :
  (∀ x, f x = true → g x = true) → forallb f l = true → forallb g l = true.
Proof.
  intros H. induction l as [|x l IH]; simpl; [done|].
  intros [Hx Hl]%andb_prop. by rewrite (H x Hx), IH.
Qed.

Lemma quiet_debug_dump : keeps quiet debug_dump.
Proof.
  intros w. destruct (debug_dump_log w) as (tr & -> & Hc). exists tr. split; [done|].
  revert Hc. apply forallb_impl. by intros [].
Qed.

Lemma grows_dispose_each vs : keeps grows (dispose_each vs).
Proof. induction vs; simpl; keeps. Qed.

#[local] Hint Resolve grows_hook quiet_hook grows_debug_dump quiet_debug_dump grows_dispose_each : keeps.

Lemma grows_removeUniqueListener c event : keeps grows (_removeUniqueListener c event).
Proof. unfold _removeUniqueListener. keeps. Qed.

Lemma quiet_removeUniqueListener c event : keeps quiet (_removeUniqueListener c event).
Proof. unfold _removeUniqueListener. keeps. Qed.

End Removal.

#[local] Hint Resolve grows_hook quiet_hook grows_debug_dump quiet_debug_dump grows_dispose_each
  grows_removeUniqueListener quiet_removeUniqueListener : keeps.


Section RemovalSpec.

Lemma removeUniqueListener_idle c event w :
  disposed (emitter w) = true ∨ size (emitter w) = 0 →
  (_removeUniqueListener c event w).2 = Normal tt
  ∧ emitter (_removeUniqueListener c event w).1 = emitter w.
Proof.
  intros H. unfold _removeUniqueListener. rewrite bind_this.
  destruct (disposed (emitter w)) eqn:Hd; [done|].
  destruct H as [|Hs]; [done|].
  rewrite bind_inert by auto with inert. rewrite Hs.
  split; [done | apply inert_hook].
Qed.

Lemma removeUniqueListener_spec c event w :
  still w → disposed (emitter w) = false → size (emitter w) ≠ 0 →
  let '(m1, found) := removal c event (_listeners (emitter w)) in
  let '(w1, r) := _removeUniqueListener c event w in
  _listeners (emitter w1) = m1
  ∧ size (emitter w1) = (if found then size (emitter w) - 1 else size (emitter w))
  ∧ r = (if found then Normal tt else Throw (unknown w m1 event)).
Proof.
  intros Hst Hd Hs. apply Z.eqb_neq in Hs. unfold _removeUniqueListener, removal.
  rewrite bind_this, Hd. rewrite bind_inert by auto with inert. rewrite Hs.
  set (w0 := (call_hook _ w).1).
  assert (He0 : emitter w0 = emitter w) by apply inert_hook.
  assert (Hg0 : grows w w0) by apply grows_hook.
  assert (Hev0 : events w0 = events w).
  { subst w0. unfold call_hook. rewrite bind_this. by destruct (has_hook _ _). }
  assert (Hfound : ∀ m1,
    let '(w1, r) :=
      (assign (set_listeners m1) ;; ret tt ;; dispose_Event (value c) ;;
       assign (set_size (size (emitter w) - 1)) ;;
       when (size (emitter w) - 1 =? 0) (call_hook onDidRemoveLastListener)) w0 in
    _listeners (emitter w1) = m1 ∧ size (emitter w1) = size (emitter w) - 1 ∧ r = Normal tt).
  { intros m1. rewrite bind_assign. rewrite bind_inert by auto with inert.
    set (w1 := Build_World _ _ _ _).
    assert (Hs1 : still w1) by (apply (grows_still _ _ Hg0), Hst).
    rewrite bind_dispose_Event by exact Hs1. rewrite bind_assign.
    set (w2 := Build_World _ _ _ _).
    destruct (inert_when (size (emitter w) - 1 =? 0) _ (inert_hook onDidRemoveLastListener) w2)
      as [Hr He].
    destruct (when _ _ w2) as [w3 r]; simpl in *. subst r. rewrite He. simpl.
    rewrite (dispose_Event_emitter (value c) w1). done. }
  assert (Hmissing : ∀ m1 (rest : M unit),
    let '(w1, r) :=
      ((assign (set_listeners m1) ;; debug_dump ;;
        @throw unit (match truthy event with
                     | None => unknown_listener_no_event
                     | Some _ => unknown_listener
                     end)) ;; rest) w0 in
    _listeners (emitter w1) = m1 ∧ size (emitter w1) = size (emitter w)
    ∧ r = @Throw unit (unknown w m1 event)).
  { intros m1 rest. rewrite bind_assoc, bind_assign, bind_assoc.
    set (w1 := Build_World _ _ _ _).
    pose proof (debug_dump_emitter w1) as He1. pose proof (debug_dump_result w1) as Hr1.
    assert (Hdt : dump_throws w1 (_listeners (emitter w1)) = dump_throws w m1).
    { unfold dump_throws, w1. simpl. by rewrite He0, Hev0. }
    rewrite Hdt in Hr1. unfold unknown.
    unfold bind at 1. destruct (debug_dump w1) as [w2 r]. simpl in Hr1, He1. subst r.
    destruct (dump_throws w m1); unfold bind, throw; simpl; rewrite He1; unfold w1; simpl;
      by rewrite He0. }
  destruct (truthy event) as [k|] eqn:Hk.
  - destruct (delete k c (_listeners (emitter w))) as [m1 []].
    + rewrite bind_assoc. apply Hfound.
    + apply Hmissing.
  - destruct (delete_first _ _ _) as [m1 []].
    + rewrite bind_assoc. apply Hfound.
    + apply Hmissing.
Qed.

End RemovalSpec.

(** ** The bookkeeping stays sound *)


Section Soundness.

Lemma get_values k m c : c ∈ get k m → c ∈ forEach_values m.
Proof.
  unfold get. destruct (Map_get k m) as [vs|] eqn:E; simpl.
  - intros Hc. by eapply Map_get_values.
  - by intros ?%elem_of_nil.
Qed.

Lemma removal_values c event m :
  let '(m1, found) := removal c event m in
  if found
  then ∃ c', id c' = id c ∧ c' ∈ forEach_values m ∧ forEach_values m ≡ₚ c' :: forEach_values m1
  else forEach_values m1 ≡ₚ forEach_values m.
Proof.
  unfold removal. destruct (truthy event) as [k|].
  - pose proof (values_delete k c m) as H. destruct (delete k c m) as [m1 []]; [|done].
    destruct H as (c' & Hid & Hin & Hp). exists c'. repeat split; try done.
    by eapply get_values.
  - apply values_delete_first.
Qed.

Lemma wf_shrink w w1 l :
  wf w → registered w ≡ₚ l ++ registered w1 →
  size (emitter w1) = size (emitter w) - Z.of_nat (length l) →
  grows w w1 →
  wf w1.
Proof.
  intros [Hs Hn Hu Hv Hst] Hp Hs1 [Huci Hev _ _ Hg].
  assert (Hin : ∀ c, c ∈ registered w1 → c ∈ registered w).
  { intros c Hc. rewrite Hp. apply elem_of_app. by right. }
  split.
  - rewrite Hs1, Hs, Hp, length_app. lia.
  - rewrite Hp, map_app in Hn. by apply NoDup_app in Hn as (_ & _ & ?).
  - intros c Hc. specialize (Hu c (Hin c Hc)). lia.
  - intros c Hc. specialize (Hv c (Hin c Hc)). lia.
  - by apply Hg.
Qed.

Lemma wf_same w w1 :
  wf w → _listeners (emitter w1) = _listeners (emitter w) →
  size (emitter w1) = size (emitter w) → grows w w1 → wf w1.
Proof.
  intros Hw Hl Hs Hg.
  apply (wf_shrink w w1 []);
    [done | unfold registered; by rewrite Hl | simpl; lia | done].
Qed.

Lemma wf_removeUniqueListener c event w : wf w → wf (_removeUniqueListener c event w).1.
Proof.
  intros Hw. pose proof (grows_removeUniqueListener c event w) as Hg.
  destruct (disposed (emitter w)) eqn:Hd.
  { destruct (removeUniqueListener_idle c event w) as [_ He]; [by left|].
    apply (wf_same w); [done| by rewrite He..|done]. }
  destruct (decide (size (emitter w) = 0)) as [Hs|Hs].
  { destruct (removeUniqueListener_idle c event w) as [_ He]; [by right|].
    apply (wf_same w); [done| by rewrite He..|done]. }
  pose proof (removeUniqueListener_spec c event w (wf_still _ Hw) Hd Hs) as Hspec.
  pose proof (removal_values c event (_listeners (emitter w))) as Hval.
  destruct (removal c event (_listeners (emitter w))) as [m1 found].
  destruct (_removeUniqueListener c event w) as [w1 r]; simpl in *.
  destruct Hspec as (Hl & Hsz & _).
  destruct found.
  - destruct Hval as (c' & _ & _ & Hp).
    apply (wf_shrink w w1 [c']);
      [done | unfold registered; by rewrite Hl | simpl; lia | done].
  - apply (wf_shrink w w1 []);
      [done | unfold registered; by rewrite Hl | simpl; lia | done].
Qed.

Lemma wf_Handle_dispose h w : wf w → wf (Handle_dispose h w).1.
Proof.
  intros Hw. destruct h as [|rmonitor c k]; simpl; [done|].
  assert (H : ∀ f, (∀ e, _listeners (f e) = _listeners e ∧ size (f e) = size e) →
              wf ((assign f ;; _removeUniqueListener c (Some k)) w).1).
  { intros f Hf. rewrite bind_assign. apply wf_removeUniqueListener.
    destruct (Hf (emitter w)) as [Hl Hs]. destruct Hw as [H1 H2 H3 H4 H5].
    split; unfold registered in *; simpl; rewrite ?Hl, ?Hs; done. }
  destruct rmonitor as [stack|].
  - apply H. done.
  - apply wf_removeUniqueListener. done.
Qed.

Lemma wf_construct_Event e w : tame e = true → wf w → wf (construct_Event e w).1.
Proof.
  intros Ht Hw. apply (wf_same w); try done. by apply grows_construct_Event.
Qed.

Lemma wf_off event listener w : wf w → wf (off event listener w).1.
Proof.
  intros Hw. unfold off.
  assert (H : ∀ l w0, wf w0 →
    wf ((e <- this ;;
         λ w, match events w !! l with
              | Some ev =>
                  match find_listener (cb_id (kListener ev)) (events w) (get event (_listeners e)) with
                  | Some uc => _removeUniqueListener uc (Some event) w
                  | None => (w, Normal tt)
                  end
              | None => (w, Normal tt)
              end) w0).1).
  { intros l w0 Hw0. rewrite bind_this. destruct (events w0 !! l); [|done].
    destruct (find_listener _ _ _); [|done]. by apply wf_removeUniqueListener. }
  destruct listener as [f|i].
  - unfold bind at 1. unfold construct_Event at 1. apply H.
    by apply (wf_construct_Event (new_Event f None) w).
  - unfold bind at 1. unfold ret at 1. by apply H.
Qed.

Lemma call_Event_emitter i args w : emitter (call_Event i args w).1 = emitter w.
Proof.
  unfold call_Event. destruct (events w !! i); [|done].
  by destruct (call args _ _) as [[? ?] ?].
Qed.

Lemma wf_call_Event i args w : wf w → wf (call_Event i args w).1.
Proof.
  intros Hw. apply (wf_same w); try done; try by rewrite call_Event_emitter.
  apply grows_call_Event.
Qed.

Lemma wf_log tr w : wf w → wf (log tr w).
Proof. intros Hw. by apply (wf_same w). Qed.

Lemma grows_deliver l args : keeps grows (_deliver l args).
Proof. unfold _deliver. keeps. Qed.

Lemma wf_deliver l args w : wf w → wf (_deliver l args w).1.
Proof.
  intros Hw. unfold _deliver. rewrite bind_this.
  destruct l as [l|]; [|done]. destruct (disposed (emitter w)) eqn:Hd; [done|].
  unfold try_catch, bind at 1.
  pose proof (wf_call_Event (value l) args w Hw) as Hw1.
  destruct (call_Event (value l) args w) as [w1 [v|err]]; simpl in Hw1; [done|].
  destruct (thrown_is err ERR_ONCE_WAS_CALLED_AGAIN); [by apply wf_removeUniqueListener|].
  destruct (thrown_is err ERR_RESOURCE_DISPOSED); [|by apply wf_log].
  rewrite bind_inert by auto with inert. apply wf_removeUniqueListener.
  destruct (negb _); simpl; [by apply wf_log | done].
Qed.

Lemma wf_deliver_each pending event args : ∀ w, wf w → wf (deliver_each pending event args w).1.
Proof.
  induction pending as [|c rest IH]; intros w Hw; simpl; [done|].
  rewrite bind_this. unfold bind.
  destruct (Set_has c _); simpl.
  - pose proof (wf_deliver (Some c) args w Hw) as Hw1.
    destruct (_deliver (Some c) args w) as [w1 [[]|t]]; simpl in *; [|done]. by apply IH.
  - by apply IH.
Qed.

Lemma wf_assign f w :
  (∀ e, _listeners (f e) = _listeners e ∧ size (f e) = size e) →
  wf w → wf (assign f w).1.
Proof.
  intros Hf [H1 H2 H3 H4 H5]. destruct (Hf (emitter w)) as [Hl Hs].
  split; unfold registered in *; simpl; rewrite ?Hl, ?Hs; done.
Qed.

Lemma wf_fire event args elapsed w : wf w → wf (fire event args elapsed w).1.
Proof.
  intros Hw. unfold fire. rewrite bind_this. destruct (disposed (emitter w)); [done|].
  rewrite bind_assign. set (w0 := Build_World _ _ _ _).
  assert (Hw0 : wf w0) by (by apply (wf_assign _ w)).
  unfold bind. destruct (0 <? size (emitter w)); simpl.
  - pose proof (wf_deliver_each (get event (_listeners (emitter w))) event args w0 Hw0) as Hw1.
    destruct (deliver_each _ _ _ w0) as [w1 [[]|t]]; simpl in *; [|done].
    by apply (wf_assign _ w1).
  - by apply (wf_assign _ w0).
Qed.

End Soundness.


Section Lifecycle.

Lemma wf_empty w : still w → _listeners (emitter w) = [] → size (emitter w) = 0 → wf w.
Proof.
  intros Hst Hl Hs. split; unfold registered; rewrite ?Hl; simpl; try done.
  - constructor.
  - by intros c ?%elem_of_nil.
  - by intros c ?%elem_of_nil.
Qed.

Lemma values_remove k m : forEach_values m ≡ₚ get k m ++ forEach_values (remove k m).
Proof.
  unfold get, remove. destruct (Map_get k m) as [vs|] eqn:E; simpl.
  - by apply values_Map_delete.
  - by rewrite Map_delete_absent.
Qed.

Lemma grows_clear event : keeps grows (clear event).
Proof. unfold clear. keeps. Qed.

Lemma wf_clear event w : wf w → wf (clear event w).1.
Proof.
  intros Hw. pose proof (grows_clear event w) as Hg. revert Hg.
  unfold clear. rewrite bind_this. destruct (disposed (emitter w)); [done|].
  rewrite bind_inert by auto with inert.
  set (w0 := (call_hook _ w).1).
  assert (He0 : emitter w0 = emitter w) by apply inert_hook.
  assert (Hs0 : still w0) by (apply (grows_still _ _ (grows_hook _ w)), Hw).
  destruct (truthy event) as [k|].
  - rewrite bind_dispose_each by done. rewrite !bind_assign.
    set (w2 := Build_World _ _ _ _).
    destruct (inert_when (size (emitter w) - Z.of_nat (length (get k (_listeners (emitter w)))) =? 0)
                _ (inert_hook onDidRemoveLastListener) w2) as [_ He2].
    intros Hg.
    apply (wf_shrink w _ (get k (_listeners (emitter w)))); [done | | | done].
    + unfold registered. rewrite He2. simpl. apply values_remove.
    + rewrite He2. done.
  - rewrite bind_dispose_each by done. rewrite !bind_assign.
    set (w2 := Build_World _ _ _ _).
    destruct (inert_hook onDidRemoveLastListener w2) as [_ He2].
    intros Hg. apply wf_empty; rewrite ?He2; try done. apply (grows_still _ _ Hg), Hw.
Qed.

Lemma wf_dispose w : wf w → wf (dispose w).1.
Proof.
  intros Hw. unfold dispose. rewrite bind_this. destruct (disposed (emitter w)); [done|].
  unfold bind at 1.
  destruct (Disposable.DisposableStore_dispose _ _) as [[d tr1] [[]|t]]; simpl.
  - set (w0 := Build_World _ _ _ _).
    assert (Hs0 : still w0) by apply Hw.
    rewrite bind_dispose_each by done.
    destruct (dispose_each_still (forEach_values (_listeners (emitter w))) w0 Hs0) as [_ Hs1].
    rewrite !bind_assign.
    rewrite bind_inert by auto with inert. rewrite bind_assign. unfold assign.
    match goal with
    | |- context [call_hook ?h ?w2] =>
        destruct (inert_hook h w2) as [_ He2]; pose proof (grows_hook h w2) as Hg2;
        destruct (call_hook h w2) as [wh rh]
    end.
    simpl in He2, Hg2. apply wf_empty; simpl; rewrite ?He2; try done.
    apply (grows_still _ _ Hg2). exact Hs1.
  - destruct Hw as [H1 H2 H3 H4 H5]. split; done.
Qed.

Lemma wf_grow w w1 c :
  wf w → registered w1 ≡ₚ c :: registered w →
  size (emitter w1) = size (emitter w) + 1 →
  id c = uci w → (uci w < uci w1)%nat →
  (value c < length (events w1))%nat → (length (events w) ≤ length (events w1))%nat →
  still w1 →
  wf w1.
Proof.
  intros [Hs Hn Hu Hv Hst] Hp Hs1 Hid Huci Hval Hev Hst1.
  split; [| | | |done].
  - rewrite Hs1, Hs, Hp. simpl. lia.
  - rewrite Hp. simpl. apply NoDup_cons. split; [|done].
    intros (c0 & Hc0 & Hin)%list_elem_of_fmap. specialize (Hu c0 Hin). lia.
  - intros c0. rewrite Hp. intros [->|Hin]%elem_of_cons; [lia|].
    specialize (Hu c0 Hin). lia.
  - intros c0. rewrite Hp. intros [->|Hin]%elem_of_cons; [done|].
    specialize (Hv c0 Hin). lia.
Qed.

Lemma checkLeakageBeforeAdd_spec w :
  ∃ w1 b, _checkLeakageBeforeAdd w = (w1, Normal b)
          ∧ emitter w1 = emitter w ∧ uci w1 = uci w ∧ events w1 = events w.
Proof.
  unfold _checkLeakageBeforeAdd. rewrite bind_this.
  destruct (disposed (emitter w)); [by eexists _, _|].
  destruct (_leakageMonitor (emitter w)) as [lm|]; [|by eexists _, _].
  destruct (Qlt_bool _ _); [|by eexists _, _].
  unfold bind, when, emit, ret. destruct (negb _); simpl; by eexists _, _.
Qed.

Lemma fresh_not_registered w c k :
  wf w → id c = uci w → Set_has c (get k (_listeners (emitter w))) = false.
Proof.
  intros Hw Hid. destruct (Set_has c _) eqn:E; [|done].
  apply Set_has_elem in E. apply list_elem_of_fmap in E as (c0 & Hc0 & Hin).
  apply get_values in Hin. pose proof (wf_uci _ Hw c0 Hin). lia.
Qed.

Lemma wf_addListener event listener thisArg once options callSite w :
  forallb Disposable.returns (default [] (toDisposeWithEvent <$> options)) = true →
  exists_listener listener w = true → wf w →
  wf (_addListener event listener thisArg once options callSite w).1.
Proof.
  intros Hq Hex Hw. unfold _addListener.
  assert (H : ∀ l w0, wf w0 → (l < length (events w0))%nat →
    wf ((ok <- _checkLeakageBeforeAdd ;;
         if negb ok then ret NoneHandle
         else
           e <- this ;;
           if disposed e then ret NoneHandle
           else
             c <- construct_UniqueContainer l ;;
             gate <- match _leakageMonitor e with
                     | Some lm =>
                         if Qceiling (threshold lm * (2 # 10)) <=? size e then
                           let '(lm1, tr1, rmonitor) := check callSite (size e + 1) lm [] in
                           assign (set_leakageMonitor (Some lm1)) ;;
                           (λ w, (log tr1 w, Normal tt)) ;;
                           ret ({| stack := Some callSite; id := id c; value := value c |}, rmonitor)
                         else ret (c, None)
                     | None => ret (c, None)
                     end ;;
             let '(containedListener, rmonitor) := gate in
             when (size e =? 0) (call_hook onWillAddFirstListener) ;;
             assign (λ e, set_listeners (add event containedListener (_listeners e)) e) ;;
             assign (set_size (size e + 1)) ;;
             when (size e + 1 =? 1) (call_hook onDidAddFirstListener) ;;
             call_hook onDidAddListener ;;
             ret (Registration rmonitor containedListener event)) w0).1).
  { clear. intros l w0 Hw0 Hl.
    destruct (checkLeakageBeforeAdd_spec w0) as (w1 & ok & Hck & He1 & Hu1 & Hev1).
    unfold bind at 1. rewrite Hck.
    assert (Hw1 : wf w1).
    { apply (wf_same w0); [done | by rewrite He1.. |].
      split; try lia; rewrite ?He1, ?Hev1; try done. unfold still. by rewrite Hev1. }
    destruct ok; simpl; [|done].
    rewrite bind_this. destruct (disposed (emitter w1)) eqn:Hd; [done|].
    unfold bind at 1. unfold construct_UniqueContainer at 1.
    set (c := {| stack := None; id := uci w1; value := l |}).
    set (w2 := Build_World _ _ _ _).
    assert (Htail : ∀ c' rmonitor w3,
      id c' = uci w1 → value c' = l →
      _listeners (emitter w3) = _listeners (emitter w1) →
      size (emitter w3) = size (emitter w1) →
      uci w3 = S (uci w1) → events w3 = events w1 →
      wf ((when (size (emitter w1) =? 0) (call_hook onWillAddFirstListener) ;;
           assign (λ e, set_listeners (add event c' (_listeners e)) e) ;;
           assign (set_size (size (emitter w1) + 1)) ;;
           when (size (emitter w1) + 1 =? 1) (call_hook onDidAddFirstListener) ;;
           call_hook onDidAddListener ;;
           ret (Registration rmonitor c' event)) w3).1).
    { intros c' rmonitor w3 Hid Hv Hl3 Hs3 Hu3 He3.
      unfold bind at 1.
      destruct (inert_when (size (emitter w1) =? 0) _ (inert_hook onWillAddFirstListener) w3)
        as [Hr4 He4].
      pose proof (keeps_when grows grows_refl (size (emitter w1) =? 0) _
                    (grows_hook onWillAddFirstListener) w3) as Hg4.
      destruct (when _ _ w3) as [w4 r4]; simpl in *. subst r4.
      rewrite !bind_assign. set (w5 := Build_World _ _ _ _).
      unfold bind at 1.
      destruct (inert_when (size (emitter w1) + 1 =? 1) _ (inert_hook onDidAddFirstListener) w5)
        as [Hr6 He6].
      pose proof (keeps_when grows grows_refl (size (emitter w1) + 1 =? 1) _
                    (grows_hook onDidAddFirstListener) w5) as Hg6.
      destruct (when _ _ w5) as [w6 r6]; simpl in *. subst r6.
      unfold bind at 1.
      destruct (inert_hook onDidAddListener w6) as [Hr7 He7].
      pose proof (grows_hook onDidAddListener w6) as Hg7.
      destruct (call_hook _ w6) as [w7 r7]; simpl in *. subst r7. simpl.
      destruct Hg4 as [Hu4 Hev4 _ _ Hst4], Hg6 as [Hu6 Hev6 _ _ Hst6],
        Hg7 as [Hu7 Hev7 _ _ Hst7].
      simpl in *.
      apply (wf_grow w1 w7 c'); try done.
      - unfold registered. rewrite He7, He6. simpl. rewrite He4, Hl3.
        apply values_add. by apply fresh_not_registered.
      - rewrite He7, He6. done.
      - lia.
      - rewrite Hv. rewrite He3, Hev1 in Hev4. lia.
      - rewrite He3 in Hev4. lia.
      - apply Hst7, Hst6, Hst4. unfold still. rewrite He3. apply Hw1. }
    destruct (_leakageMonitor (emitter w1)) as [lm|].
    - destruct (Qceiling _ <=? _).
      + destruct (check _ _ _ _) as [[lm1 tr1] rmonitor].
        rewrite bind_assoc, bind_assign, bind_assoc.
        unfold bind at 1. unfold bind at 1. unfold ret at 1. by apply Htail.
      + unfold bind at 1. unfold ret at 1. by apply Htail.
    - unfold bind at 1. unfold ret at 1. by apply Htail. }
  destruct listener as [f|i].
  - unfold bind at 1. unfold construct_Event at 1. apply H.
    + apply (wf_construct_Event _ w); [|done]. by apply tame_new_Event.
    + simpl. rewrite length_app. simpl. lia.
  - unfold bind at 1. unfold ret at 1. apply H; [done|].
    simpl in Hex. by apply Nat.ltb_lt in Hex.
Qed.

Lemma wf_new o : wf (new_World o).
Proof. apply wf_empty; try done. constructor. Qed.

Lemma wf_exec w op : tame_op op = true → wf w → wf (exec w op).
Proof.
  intros Ht Hw. destruct op; simpl in *.
  - destruct (exists_listener listener w) eqn:E; [|done]. by apply wf_addListener.
  - destruct (exists_listener listener w) eqn:E; [|done]. by apply wf_addListener.
  - destruct (exists_listener listener w) eqn:E; [|done]. by apply wf_off.
  - by apply wf_Handle_dispose.
  - by apply wf_clear.
  - by apply wf_fire.
  - by apply wf_dispose.
  - apply wf_construct_Event; [|done]. by apply tame_new_Event.
  - by apply wf_call_Event.
  - apply (wf_same w); try done.
    + unfold cancel_Event. by destruct (events w !! i).
    + unfold cancel_Event. by destruct (events w !! i).
    + apply grows_cancel_Event.
  - apply (wf_same w); try done.
    + by rewrite dispose_Event_emitter.
    + by rewrite dispose_Event_emitter.
    + apply grows_dispose_Event.
Qed.

Lemma wf_run ops : ∀ w, forallb tame_op ops = true → wf w → wf (run ops w).
Proof.
  induction ops as [|op ops IH]; intros w Ht Hw; simpl; [done|].
  simpl in Ht. apply andb_prop in Ht as [Ht1 Ht2].
  apply IH; [done|]. by apply wf_exec.
Qed.

End Lifecycle.

(** ** Firing *)


Section Firing.

Lemma Set_delete_keeps c x vs : id x ≠ id c → x ∈ vs → x ∈ Set_delete c vs.
Proof.
  intros Hne. induction vs as [|y vs IH]; simpl; [done|].
  intros [->|Hin]%elem_of_cons.
  - destruct (id y =? id c)%nat eqn:E; [by apply Nat.eqb_eq in E | by left].
  - destruct (id y =? id c)%nat; [done | right; by apply IH].
Qed.

Lemma delete_keeps k k' c x m :
  id x ≠ id c → x ∈ get k' m → x ∈ get k' (delete k c m).1.
Proof.
  intros Hne Hin. destruct (EventKey_eqb k k') eqn:Hk.
  - apply EventKey_eqb_eq in Hk as <-.
    unfold delete. unfold get in Hin. destruct (Map_get k m) as [vs|] eqn:E; simpl in *;
      [|by apply elem_of_nil in Hin].
    apply (Set_delete_keeps c) in Hin; [|done].
    destruct (Set_delete c vs) as [|y vs'] eqn:Ed; [by apply elem_of_nil in Hin|]. simpl.
    unfold get. by rewrite (Map_get_set_eq k _ vs m E).
  - rewrite delete_get_ne; [done|]. intros ->.
    assert (EventKey_eqb k' k' = true) by by apply EventKey_eqb_eq. congruence.
Qed.

Lemma delete_first_keeps c x k' ks : ∀ m,
  id x ≠ id c → x ∈ get k' m → x ∈ get k' (delete_first c ks m).1.
Proof.
  induction ks as [|k ks IH]; intros m Hne Hin; simpl; [done|].
  pose proof (delete_keeps k k' c x m Hne Hin) as H1.
  destruct (delete k c m) as [m1 []]; simpl in *; [done|].
  by apply IH.
Qed.

Lemma elem_Set_has c vs : c ∈ vs → Set_has c vs = true.
Proof.
  intros Hin. apply Set_has_elem. apply list_elem_of_fmap. by exists c.
Qed.

Lemma NoDup_id_inj (l : list UniqueContainer) c c' :
  NoDup (map id l) → c ∈ l → c' ∈ l → id c = id c' → c = c'.
Proof.
  induction l as [|x l IH]; simpl; [by intros _ ?%elem_of_nil|].
  intros [Hx Hn]%NoDup_cons [->|Hc]%elem_of_cons [->|Hc']%elem_of_cons Hid; try done.
  - exfalso. apply Hx. rewrite Hid. apply list_elem_of_fmap. by exists c'.
  - exfalso. apply Hx. rewrite <- Hid. apply list_elem_of_fmap. by exists c.
  - by apply IH.
Qed.

Lemma call_Event_called i args w e :
  events w !! i = Some e →
  call_Event i args w
  = (called i (call args e (trace w)).1.1 (call args e (trace w)).1.2 w,
     (call args e (trace w)).2).
Proof.
  intros He. unfold call_Event, called. rewrite He.
  by destruct (call args e (trace w)) as [[e1 tr1] r].
Qed.

(** A registered listener that is removed during its delivery. *)
Lemma deliver_removes c k w :
  wf w → disposed (emitter w) = false → c ∈ get k (_listeners (emitter w)) →
  ∃ w1, _removeUniqueListener c None w = (w1, Normal tt)
        ∧ registered w ≡ₚ c :: registered w1
        ∧ size (emitter w1) = size (emitter w) - 1.
Proof.
  intros Hw Hd Hin.
  assert (Hreg : c ∈ registered w) by by eapply get_values.
  assert (Hs : size (emitter w) ≠ 0).
  { rewrite (wf_size _ Hw). destruct (registered w); [by apply elem_of_nil in Hreg | simpl; lia]. }
  pose proof (removeUniqueListener_spec c None w (wf_still _ Hw) Hd Hs) as Hspec.
  pose proof (removal_values c None (_listeners (emitter w))) as Hval.
  assert (Hfound : (removal c None (_listeners (emitter w))).2 = true).
  { unfold removal. simpl. eapply registered_finds. by apply elem_Set_has. }
  destruct (removal c None (_listeners (emitter w))) as [m1 found]. simpl in Hfound. subst found.
  destruct (_removeUniqueListener c None w) as [w1 r].
  destruct Hspec as (Hl & Hsz & ->). destruct Hval as (c' & Hid & Hc' & Hp).
  exists w1. repeat split; [|done].
  assert (c' = c) as ->; [|unfold registered at 2; by rewrite Hl].
  eapply NoDup_id_inj; [apply (wf_ids _ Hw) | done.. ].
Qed.

Lemma wf_called i e args w :
  wf w → events w !! i = Some e →
  wf (called i (call args e (trace w)).1.1 (call args e (trace w)).1.2 w).
Proof.
  intros Hw He. pose proof (wf_call_Event i args w Hw) as H.
  by rewrite (call_Event_called _ _ _ e He) in H.
Qed.

Lemma deliver_spec c k args w :
  wf w → disposed (emitter w) = false → c ∈ get k (_listeners (emitter w)) →
  ∃ w1, _deliver (Some c) args w = (w1, Normal tt) ∧ Delivery args c w w1.
Proof.
  intros Hw Hd Hin.
  assert (Hreg : c ∈ registered w) by by eapply get_values.
  destruct (lookup_lt_is_Some_2 (events w) (value c) (wf_values _ Hw c Hreg)) as [e He].
  unfold _deliver. rewrite bind_this, Hd. unfold try_catch, bind at 1.
  rewrite (call_Event_called _ _ _ e He).
  destruct (call args e (trace w)) as [[e1 tr1] [v|t]] eqn:Hcall; simpl.
  { eexists. split; [done|]. by eapply Delivered. }
  set (w0 := called (value c) e1 tr1 w).
  assert (Hw0 : wf w0).
  { pose proof (wf_called (value c) e args w Hw He) as H. by rewrite Hcall in H. }
  destruct (thrown_is t ERR_ONCE_WAS_CALLED_AGAIN) eqn:Honce.
  { destruct (deliver_removes c k w0 Hw0 Hd Hin) as (w1 & Hrm & Hp & Hs).
    exists w1. split; [done|]. eapply Removed; try done.
    - unfold removes_listener. by rewrite Honce.
    - pose proof (quiet_removeUniqueListener c None w0) as Hq. by rewrite Hrm in Hq. }
  destruct (thrown_is t ERR_RESOURCE_DISPOSED) eqn:Hdisposed.
  { rewrite bind_inert by auto with inert.
    set (w0' := (when _ _ w0).1).
    assert (He0 : emitter w0' = emitter w0) by (apply inert_when; auto with inert).
    assert (Hg0 : grows w0 w0') by (apply keeps_when; eauto with keeps).
    assert (Hq0 : quiet w0 w0') by (apply keeps_when; eauto with keeps).
    assert (Hw0' : wf w0') by (apply (wf_same w0); [done | by rewrite He0.. | done]).
    destruct (deliver_removes c k w0' Hw0') as (w1 & Hrm & Hp & Hs).
    { by rewrite He0. }
    { by rewrite He0. }
    exists w1. split; [done|]. eapply Removed; try done.
    - unfold removes_listener. by rewrite Hdisposed, orb_true_r.
    - unfold registered in *. by rewrite He0 in Hp.
    - by rewrite He0 in Hs.
    - eapply quiet_trans; [exact Hq0|].
      pose proof (quiet_removeUniqueListener c None w0') as Hq. by rewrite Hrm in Hq. }
  eexists. split; [done|]. eapply Forwarded; try done.
  unfold removes_listener. by rewrite Honce, Hdisposed.
Qed.

Lemma deliver_keeps c x k args w :
  still w →
  id x ≠ id c → x ∈ get k (_listeners (emitter w)) →
  x ∈ get k (_listeners (emitter (_deliver (Some c) args w).1)).
Proof.
  intros Hst Hne Hin. unfold _deliver. rewrite bind_this.
  destruct (disposed (emitter w)) eqn:Hd; [done|].
  unfold try_catch, bind at 1.
  pose proof (call_Event_emitter (value c) args w) as He.
  pose proof (grows_call_Event (value c) args w) as [_ _ Hd1 _ Hst1].
  destruct (call_Event (value c) args w) as [w1 [v|t]]; simpl in *; [by rewrite He|].
  specialize (Hst1 Hst).
  assert (Hrm : ∀ w2, still w2 → emitter w2 = emitter w →
            x ∈ get k (_listeners (emitter (_removeUniqueListener c None w2).1))).
  { intros w2 Hst2 He2.
    destruct (decide (size (emitter w2) = 0)) as [Hs|Hs].
    { destruct (removeUniqueListener_idle c None w2) as [_ ->]; [by right | by rewrite He2]. }
    pose proof (removeUniqueListener_spec c None w2 Hst2) as Hspec.
    rewrite He2, Hd in Hspec. rewrite He2 in Hs. specialize (Hspec eq_refl Hs).
    pose proof (delete_first_keeps c x k (keys (_listeners (emitter w))) _ Hne Hin) as Hk.
    unfold removal in Hspec. simpl in Hspec.
    destruct (delete_first c _ _) as [m1 found].
    destruct (_removeUniqueListener c None w2) as [w3 r]. simpl in *.
    destruct Hspec as (-> & _). done. }
  destruct (thrown_is t ERR_ONCE_WAS_CALLED_AGAIN); [by apply Hrm|].
  destruct (thrown_is t ERR_RESOURCE_DISPOSED); [|simpl; by rewrite He].
  rewrite bind_inert by auto with inert. apply Hrm.
  - match goal with |- still (when ?b ?m w1).1 =>
      assert (Hg : grows w1 (when b m w1).1) by (apply keeps_when; eauto with keeps)
    end.
    by apply (grows_still _ _ Hg).
  - rewrite <- He. apply inert_when; auto with inert.
Qed.

Lemma deliver_each_spec event args pending : ∀ w,
  wf w → disposed (emitter w) = false → NoDup (map id pending) →
  (∀ c, c ∈ pending → c ∈ get event (_listeners (emitter w))) →
  ∃ w1, deliver_each pending event args w = (w1, Normal tt) ∧ Deliveries args pending w w1.
Proof.
  induction pending as [|c rest IH]; intros w Hw Hd Hn Hin; simpl.
  { exists w. split; [done | constructor]. }
  apply NoDup_cons in Hn as [Hc Hn].
  assert (Hcin : c ∈ get event (_listeners (emitter w))) by (apply Hin; by left).
  rewrite bind_this. rewrite (elem_Set_has _ _ Hcin). simpl.
  destruct (deliver_spec c event args w Hw Hd Hcin) as (w1 & Hdel & HD).
  pose proof (wf_deliver (Some c) args w Hw) as Hw1.
  pose proof (grows_deliver (Some c) args w) as [_ _ Hd1 _].
  assert (Hin1 : ∀ x, x ∈ rest → x ∈ get event (_listeners (emitter (_deliver (Some c) args w).1))).
  { intros x Hx. apply deliver_keeps; [apply Hw| |apply Hin; by right].
    intros Hid. apply Hc. rewrite <- Hid. apply list_elem_of_fmap. by exists x. }
  unfold bind at 1. rewrite Hdel in *. simpl in *.
  destruct (IH w1 Hw1) as (w2 & Hrest & HDs); [congruence | done | done |].
  exists w2. split; [done|]. by econstructor.
Qed.

End Firing.


Section Claims.

Lemma get_NoDup k w : wf w → NoDup (map id (get k (_listeners (emitter w)))).
Proof.
  intros Hw. pose proof (wf_ids _ Hw) as Hn. unfold registered in Hn.
  rewrite (values_remove k) in Hn. rewrite map_app in Hn.
  by apply NoDup_app in Hn as (? & _ & _).
Qed.

Lemma get_empty k w : wf w → size (emitter w) = 0 → get k (_listeners (emitter w)) = [].
Proof.
  intros Hw Hs. rewrite (wf_size _ Hw) in Hs.
  destruct (get k (_listeners (emitter w))) as [|c vs] eqn:E; [done|].
  assert (Hc : c ∈ registered w) by (eapply get_values; rewrite E; by left).
  destruct (registered w); [by apply elem_of_nil in Hc | simpl in Hs; lia].
Qed.

(** C4 at an emitter that is being profiled, with a [once] listener
    that owns a disposable whose [dispose()] throws and a second
    listener on the same key, after one [fire].  At the next [fire]
    the [once] listener refuses the call and is removed; the error of
    its disposable leaves [_removeUniqueListener], [_deliver] and
    [fire], the second listener is not called, the profiling window
    stays open and nothing is measured; the registry has lost the
    listener but the count has not. *)
Theorem fire_stops_at_a_release_that_throws :
  let d := {| Disposable.leaf_id := 7; Disposable.leaf_throws := Some (ThrownError "boom");
              Disposable.leaf_prints := true |} in
  let single := Function {| cb_id := 1; cb_run := λ _ _, Returns VUndefined |} in
  let other := Function {| cb_id := 2; cb_run := λ _ _, Returns VUndefined |} in
  let o := Some {| _profName := Some "p"%string; noDebug := false; leakWarningThreshold := None;
                   hooks := λ _, false; onListenerError := true |} in
  let ops := [Once (KString "test") single None
                (Some {| listen_cancelable := None; toDisposeWithEvent := [d] |}) "site";
              On (KString "test") other None None "site";
              Fire (KString "test") [VNumber 1] 0] in
  let w := run ops (new_World o) in
  let '(w1, r) := fire (KString "test") [VNumber 2] 0 w in
  disposed (emitter w) = false
  ∧ r = Throw (ThrownError "boom")
  ∧ List.filter is_Invoked (trace w1) = List.filter is_Invoked (trace w)
  ∧ List.filter is_handler (trace w1) = []
  ∧ map value (registered w1) = [1%nat]
  ∧ listenersCount None (emitter w1) = 2
  ∧ (invocationCount <$> _perfMonitor (emitter w1)) = (invocationCount <$> _perfMonitor (emitter w))
  ∧ (_stopWatch <$> _perfMonitor (emitter w1)) = Some true.
Proof. vm_compute. repeat split. Qed.

(** C1 at a new emitter with one listener that owns a disposable
    whose [dispose()] throws: disposing the handle of the listener
    takes the listener out of the registry, throws the error of the
    disposable and leaves the count at 1. *)
Theorem release_that_throws_leaves_the_count :
  let d := {| Disposable.leaf_id := 7; Disposable.leaf_throws := Some (ThrownError "boom");
              Disposable.leaf_prints := true |} in
  let l := Function {| cb_id := 1; cb_run := λ _ _, Returns VUndefined |} in
  let options := Some {| listen_cancelable := None; toDisposeWithEvent := [d] |} in
  let '(w1, r1) := on (KString "test") l None options "site" (new_World None) in
  match r1 with
  | Normal h =>
      let '(w2, r2) := Handle_dispose h w1 in
      listenersCount None (emitter w1) = 1
      ∧ length (registered w1) = 1%nat
      ∧ r2 = Throw (ThrownError "boom")
      ∧ registered w2 = []
      ∧ listenersCount None (emitter w2) = 1
      ∧ hasListeners None (emitter w2) = true
      ∧ disposed (emitter w2) = false
  | Throw _ => False
  end.
Proof. vm_compute. repeat split. Qed.

Lemma removal_missing c event m :
  id c ∉ map id (forEach_values m) → (removal c event m).2 = false.
Proof.
  intros Hc. pose proof (removal_values c event m) as H.
  destruct (removal c event m) as [m1 []]; [|done].
  destruct H as (c' & Hid & Hin & _). exfalso. apply Hc. rewrite <- Hid.
  apply list_elem_of_fmap. by exists c'.
Qed.

Lemma forallb_Permutation {A} (f : A → bool) l l' : l ≡ₚ l' → forallb f l = forallb f l'.
Proof.
  induction 1 as [|x l l' _ IH|x y l|l l' l'' _ IH1 _ IH2]; simpl.
  - done.
  - by rewrite IH.
  - by rewrite !andb_assoc, (andb_comm (f y)).
  - by rewrite IH1.
Qed.

Lemma Handle_dispose_twice h w :
  wf w →
  let '(w1, r1) := Handle_dispose h w in
  let '(w2, r2) := Handle_dispose h w1 in
  r1 = Normal tt →
  registered w2 ≡ₚ registered w1
  ∧ size (emitter w2) = size (emitter w1)
  ∧ r2 = match h with
         | NoneHandle => Normal tt
         | Registration _ _ event =>
             if disposed (emitter w1) || (size (emitter w1) =? 0) then Normal tt
             else Throw (if dump_throws w1 (_listeners (emitter w1)) then stringify_error
                         else match truthy (Some event) with
                              | None => unknown_listener_no_event
                              | Some _ => unknown_listener
                              end)
         end.
Proof.
  intros Hw. destruct h as [|rmonitor c k]; simpl; [done|].
  set (cleanup := match rmonitor with
                  | Some stack =>
                      assign (λ e, set_leakageMonitor (check_cleanup stack <$> _leakageMonitor e) e)
                  | None => ret tt
                  end).
  assert (Hc : ∀ w0, (cleanup w0).2 = Normal tt
                     ∧ _listeners (emitter (cleanup w0).1) = _listeners (emitter w0)
                     ∧ size (emitter (cleanup w0).1) = size (emitter w0)
                     ∧ disposed (emitter (cleanup w0).1) = disposed (emitter w0)
                     ∧ uci (cleanup w0).1 = uci w0 ∧ events (cleanup w0).1 = events w0
                     ∧ _options (emitter (cleanup w0).1) = _options (emitter w0)).
  { intros w0. subst cleanup. by destruct rmonitor. }
  assert (Hb : ∀ w0, (cleanup ;; _removeUniqueListener c (Some k)) w0
                     = _removeUniqueListener c (Some k) (cleanup w0).1).
  { intros w0. unfold bind. destruct (Hc w0) as (Hr & _).
    destruct (cleanup w0) as [w0' r]; simpl in *. by subst r. }
  rewrite Hb. 
  destruct (Hc w) as (_ & Hl & Hs & Hd & Hu & He & _).
  set (w' := (cleanup w).1) in *.
  assert (Hw' : wf w').
  { destruct Hw as [H1 H2 H3 H4 H5].
    split; unfold registered, still in *; rewrite ?Hl, ?Hs, ?Hu, ?He; done. }
  assert (Hidle : ∀ w1, disposed (emitter w1) = true ∨ size (emitter w1) = 0 →
    let '(w2, r2) := Handle_dispose (Registration rmonitor c k) w1 in
    registered w2 ≡ₚ registered w1 ∧ size (emitter w2) = size (emitter w1) ∧ r2 = Normal tt).
  { intros w1 Hi. simpl. fold cleanup. rewrite Hb.
    destruct (Hc w1) as (_ & Hl1 & Hs1 & Hd1 & _).
    destruct (removeUniqueListener_idle c (Some k) (cleanup w1).1) as [Hr He1].
    { by rewrite Hd1, Hs1. }
    destruct (_removeUniqueListener c (Some k) (cleanup w1).1) as [w2 r2]; simpl in *.
    unfold registered. by rewrite He1, Hl1, Hs1. }
  pose proof (grows_removeUniqueListener c (Some k) w') as [_ _ Hd1 _ _].
  destruct (disposed (emitter w')) eqn:Hdw.
  { destruct (removeUniqueListener_idle c (Some k) w') as [Hr He1]; [by left|].
    destruct (_removeUniqueListener c (Some k) w') as [w1 r1]; simpl in *.
    specialize (Hidle w1). fold cleanup in Hidle. rewrite Hb in Hidle. rewrite Hb.
    destruct (_removeUniqueListener c (Some k) (cleanup w1).1) as [w2 r2].
    intros _. rewrite Hd1. simpl. apply Hidle. left. by rewrite He1, Hdw. }
  destruct (decide (size (emitter w') = 0)) as [Hsz|Hsz].
  { destruct (removeUniqueListener_idle c (Some k) w') as [Hr He1]; [by right|].
    destruct (_removeUniqueListener c (Some k) w') as [w1 r1]; simpl in *.
    specialize (Hidle w1). fold cleanup in Hidle. rewrite Hb in Hidle. rewrite Hb.
    destruct (_removeUniqueListener c (Some k) (cleanup w1).1) as [w2 r2].
    intros _. rewrite Hd1. simpl.
    assert (size (emitter w1) = 0) as Hz by by rewrite He1.
    assert ((size (emitter w1) =? 0) = true) as -> by by apply Z.eqb_eq.
    simpl. apply Hidle. by right. }
  pose proof (removeUniqueListener_spec c (Some k) w' (wf_still _ Hw') Hdw Hsz) as Hspec.
  pose proof (removal_values c (Some k) (_listeners (emitter w'))) as Hval.
  pose proof (wf_removeUniqueListener c (Some k) w' Hw') as Hw1.
  destruct (removal c (Some k) (_listeners (emitter w'))) as [m1 found].
  destruct (_removeUniqueListener c (Some k) w') as [w1 r1]; simpl in *.
  destruct Hspec as (Hl1 & Hs1 & ->).
  destruct found;
    [|match goal with |- context [(bind ?m ?k) w1] => by destruct (bind m k w1) end].
  destruct Hval as (c' & Hid & _ & Hp).
  assert (Hgone : id c ∉ map id (registered w1)).
  { pose proof (wf_ids _ Hw') as Hn. unfold registered in *. rewrite Hp in Hn. simpl in Hn.
    apply NoDup_cons in Hn as [Hn _]. by rewrite Hl1, <- Hid. }
  rewrite Hb, Hd1. simpl.
  destruct (size (emitter w1) =? 0) eqn:Hz.
  { apply Z.eqb_eq in Hz. specialize (Hidle w1 (or_intror Hz)).
    fold cleanup in Hidle. rewrite Hb in Hidle.
    destruct (_removeUniqueListener c (Some k) (cleanup w1).1) as [w2 r2]. done. }
  apply Z.eqb_neq in Hz.
  destruct (Hc w1) as (_ & Hl2 & Hs2 & Hd2 & _ & Hev2 & Ho2).
  assert (Hst2 : still (cleanup w1).1).
  { unfold still. rewrite Hev2. apply Hw1. }
  pose proof (removeUniqueListener_spec c (Some k) (cleanup w1).1 Hst2) as Hspec2.
  rewrite Hd2, Hd1, Hs2 in Hspec2. specialize (Hspec2 eq_refl Hz).
  pose proof (removal_missing c (Some k) (_listeners (emitter (cleanup w1).1))) as Hmiss.
  rewrite Hl2 in *.
  destruct (removal c (Some k) (_listeners (emitter w1))) as [m2 found2] eqn:Hrem.
  pose proof (removal_values c (Some k) (_listeners (emitter w1))) as Hval2.
  rewrite Hrem in Hval2.
  simpl in Hmiss. rewrite Hmiss in * by done.
  destruct (_removeUniqueListener c (Some k) (cleanup w1).1) as [w2 r2].
  destruct Hspec2 as (Hl3 & Hs3 & ->). intros _.
  unfold registered. rewrite Hl3, Hs3. split; [done|]. split; [done|].
  unfold unknown, dump_throws. by rewrite Ho2, Hev2, (forallb_Permutation _ _ _ Hval2).
Qed.

End Claims.

(** ** Disposing twice *)

Section Idempotence.
Import Disposable.

Lemma Disposable_dispose_disposed b tr : base_isDisposed (Disposable_dispose b tr).1.1 = true.
Proof.
  unfold Disposable_dispose, _clear.
  destruct (base_isDisposed b) eqn:E; simpl; [done|].
  destruct (forEach_dispose (Disposable.lifecycle b) tr) as [tr1 [[]|e]]; reflexivity.
Qed.

Lemma Event_dispose_disposed e tr : Events.isDisposed (Events.Event_dispose e tr).1.1 = true.
Proof.
  unfold Events.Event_dispose.
  destruct (Events.isDisposed (Events.Event_cancel e)) eqn:E; simpl; [done|].
  by destruct (dispose _ _).
Qed.

(** C2, as the design document has it, at an emitter with two
    listeners on one key: the handle of the first is disposed twice.
    The first disposal removes the listener; the second one logs the
    debug dump and throws "Attempted to dispose an unknown listener". *)
Lemma handle_disposed_twice_throws :
  let l n := Function {| cb_id := n; cb_run := λ _ _, Returns VUndefined |} in
  let '(w1, r1) := on (KString "test") (l 1%nat) None None "site" (new_World None) in
  let '(w2, _) := on (KString "test") (l 2%nat) None None "site" w1 in
  match r1 with
  | Normal h =>
      let '(w3, r3) := Handle_dispose h w2 in
      let '(w4, r4) := Handle_dispose h w3 in
      r3 = Normal tt
      ∧ r4 = Throw unknown_listener
      ∧ trace w4
        = trace w3 ++ [ConsoleLog (DumpDisposed false); ConsoleLog (DumpSize 1);
                       ConsoleLog (DumpEntry 0 4)]
  | Throw _ => False
  end.
Proof. vm_compute. repeat split. Qed.

(** C2, amended: a second [dispose()] of a [DisposableStore], of a
    [Disposable.Disposable], of an [Event] or of [Disposable.None]
    completes normally and changes nothing, not even the trace,
    whatever the first one did.  For the handle that [on] or [once]
    returned, on an emitter reached by operations that bring in no
    disposable that throws: a second [dispose()] after one that
    returned leaves the registry and the count as they are; it
    completes normally when the handle is [Disposable.None], when the
    emitter is disposed or when the count is 0; otherwise it throws:
    the [TypeError] of [JSON.stringify] when the debug dump meets a
    listener that does not print, and "Attempted to dispose an unknown
    listener" if the dump gets through or [noDebug] is set. *)
Theorem dispose_twice :
  (∀ (s : DisposableStore) (tr : Trace),
     let '(s1, tr1, _) := DisposableStore_dispose s tr in
     DisposableStore_dispose s1 tr1 = (s1, tr1, Normal tt))
  ∧ (∀ (b : DisposableBase) (tr : Trace),
     let '(b1, tr1, _) := Disposable_dispose b tr in
     Disposable_dispose b1 tr1 = (b1, tr1, Normal tt))
  ∧ (∀ (e : Event) (tr : Trace),
     let '(e1, tr1, _) := Events.Event_dispose e tr in
     Events.Event_dispose e1 tr1 = (e1, tr1, Normal tt))
  ∧ (∀ tr : Trace, None_dispose tr = (tr, Normal tt))
  ∧ (∀ (o : option EmitterOptions) (ops : list Op) (h : Handle),
     forallb tame_op ops = true →
     let w := run ops (new_World o) in
     let '(w1, r1) := Handle_dispose h w in
     let '(w2, r2) := Handle_dispose h w1 in
     match r1 with
     | Throw _ => True
     | Normal _ =>
         registered w2 ≡ₚ registered w1
         ∧ size (emitter w2) = size (emitter w1)
         ∧ r2 = match h with
                | NoneHandle => Normal tt
                | Registration _ _ event =>
                    if disposed (emitter w1) || (size (emitter w1) =? 0) then Normal tt
                    else Throw (if dump_throws w1 (_listeners (emitter w1)) then stringify_error
                                else match truthy (Some event) with
                                     | None => unknown_listener_no_event
                                     | Some _ => unknown_listener
                                     end)
                end
     end).
Proof.
  repeat split.
  - intros s tr. pose proof (DisposableStore_dispose_disposed s tr) as H.
    destruct (DisposableStore_dispose s tr) as [[s1 tr1] r]; simpl in H.
    unfold DisposableStore_dispose. by rewrite H.
  - intros b tr. pose proof (Disposable_dispose_disposed b tr) as H.
    destruct (Disposable_dispose b tr) as [[b1 tr1] r]; simpl in H.
    unfold Disposable_dispose. by rewrite H.
  - intros e tr. pose proof (Event_dispose_disposed e tr) as H.
    destruct (Events.Event_dispose e tr) as [[e1 tr1] r]; simpl in H.
    unfold Events.Event_dispose, Events.Event_cancel. rewrite H. cbv zeta. by rewrite H.
  - intros o ops h Ht w.
    pose proof (Handle_dispose_twice h w (wf_run ops _ Ht (wf_new o))) as H.
    destruct (Handle_dispose h w) as [w1 [[]|t]]; [|by destruct (Handle_dispose h w1)].
    destruct (Handle_dispose h w1) as [w2 r2]. by apply H.
Qed.

(** C2, amended, at an emitter with two listeners, the first of which
    is bound to an object that [JSON.stringify] does not accept; the
    handle of the second is disposed twice. *)
Lemma dispose_twice_witness :
  let l n := Function {| cb_id := n; cb_run := λ _ _, Returns VUndefined |} in
  let knot := Some {| object_id := 9; object_prints := false |} in
  let ops := [On (KString "test") (l 1%nat) knot None "site";
              On (KString "test") (l 2%nat) None None "site"] in
  let h := Registration None {| stack := None; id := 4; value := 1 |} (KString "test") in
  forallb tame_op ops = true
  ∧ let w := run ops (new_World None) in
    let '(w1, r1) := Handle_dispose h w in
    let '(w2, r2) := Handle_dispose h w1 in
    match r1 with
    | Throw _ => True
    | Normal _ =>
        registered w2 ≡ₚ registered w1
        ∧ size (emitter w2) = size (emitter w1)
        ∧ r2 = match h with
               | NoneHandle => Normal tt
               | Registration _ _ event =>
                   if disposed (emitter w1) || (size (emitter w1) =? 0) then Normal tt
                   else Throw (if dump_throws w1 (_listeners (emitter w1)) then stringify_error
                               else match truthy (Some event) with
                                    | None => unknown_listener_no_event
                                    | Some _ => unknown_listener
                                    end)
               end
    end.
Proof.
  intros l knot ops h. split; [reflexivity|].
  exact (proj2 (proj2 (proj2 (proj2 dispose_twice))) None ops h eq_refl).
Defined.

End Idempotence.

(** ** The default of [cancelable] *)

Section Defaults.

Lemma same_events_trans w w1 w2 : same_events w w1 → same_events w1 w2 → same_events w w2.
Proof. unfold same_events. congruence. Qed.

Lemma addListener_wraps event f thisArg once options callSite w :
  events (_addListener event (Function f) thisArg once options callSite w).1
  = events w ++ [wrapper f thisArg once options].
Proof.
  unfold _addListener. unfold bind at 1. unfold construct_Event at 1.
  fold (wrapper f thisArg once options).
  set (w0 := Build_World _ _ _ _).
  change (events w ++ [wrapper f thisArg once options]) with (events w0).
  match goal with |- events (?m w0).1 = _ => assert (H : keeps same_events m) end.
  { apply keeps_bind; [apply same_events_trans| |intros ok].
    { unfold _checkLeakageBeforeAdd.
      apply keeps_bind; [apply same_events_trans|by intros ?|intros e].
      repeat first [ by intros ? | apply keeps_bind; [apply same_events_trans| |intros ?]
                   | match goal with
                     | |- keeps _ (if ?b then _ else _) => destruct b
                     | |- keeps _ (match ?x with _ => _ end) => destruct x
                     end ]. destruct (negb _); done. }
    destruct (negb ok); [by intros ?|].
    apply keeps_bind; [apply same_events_trans|by intros ?|intros e].
    destruct (disposed e); [by intros ?|].
    assert (Hh : ∀ b h, keeps same_events (when b (call_hook h))).
    { intros b h w1. destruct b; [|done]. unfold call_hook. unfold bind, this, when.
      by destruct (has_hook _ _). }
    repeat first [ by intros ? | apply Hh | apply (Hh true)
                   | apply keeps_bind; [apply same_events_trans| |intros ?]
                   | match goal with
                     | |- keeps _ (if ?b then _ else _) => destruct b
                     | |- keeps _ (match ?x with _ => _ end) => destruct x
                     | |- keeps _ (let '(_, _) := ?x in _) => destruct x
                     end ]. }
  apply H.
Qed.

(** C7, as the design document has it, at a new emitter: the listener
    that [on] builds around a function owns no cancellation source, and
    when the key is fired the function is handed
    [CancellationToken.None]. *)
Lemma emitter_listener_gets_None_token :
  let l := {| cb_id := 1; cb_run := λ _ _, Returns VUndefined |} in
  let w1 := (on (KString "test") (Function l) None None "site" (new_World None)).1 in
  let w2 := (fire (KString "test") [VString "hello"] 0 w1).1 in
  (_source <$> events w1 !! 0%nat) = Some None
  ∧ trace w2 = [Invoked 1 None [VString "hello"] TokenNone].
Proof. vm_compute. split; reflexivity. Qed.

(** C7, amended: an [Event] constructed without the [cancelable]
    option is cancelable, owns a cancellation source, and its function
    is called with the token of that source, which is not
    [CancellationToken.None].  The [Event] that [on] and [once] build
    around a function is different: it is cancelable only when the
    options of the registration say [cancelable: true]; without the
    option (or with [false]) it owns no source, reports that it is not
    cancelable, and its function is called with
    [CancellationToken.None]. *)
Theorem cancelable_defaults :
  (∀ (l : Callback) (o : option EventOptions) (args : Payload) (tr : Trace),
     o ≫= cancelable = None →
     let e := new_Event l o in
     let fresh := token new_CancellationTokenSource in
     _source e = Some new_CancellationTokenSource
     ∧ (Event_cancelable e).1 = true
     ∧ (call args e tr).1.2 = tr ++ [Invoked (cb_id l) (o ≫= Events.thisArg) args fresh.1]
     ∧ fresh.1 ≠ TokenNone)
  ∧ (∀ (w : World) (event : EventKey) (f : Callback) (thisArg : option Object)
       (options : option ListenOptions) (callSite : string) (args : Payload) (tr : Trace)
       (register : EventKey → Listener → option Object → option ListenOptions → string → M Handle),
     register = on ∨ register = once →
     ∃ e, events (register event (Function f) thisArg options callSite w).1
          = events w ++ [e]
          ∧ match options ≫= listen_cancelable with
            | Some true =>
                _source e = Some new_CancellationTokenSource
                ∧ (call args e tr).1.2
                  = tr ++ [Invoked (cb_id f) thisArg args (token new_CancellationTokenSource).1]
            | _ =>
                _source e = None
                ∧ (Event_cancelable e).1 = false
                ∧ (call args e tr).1.2 = tr ++ [Invoked (cb_id f) thisArg args TokenNone]
            end).
Proof.
  split.
  - intros l o args tr Ho. unfold new_Event, cancelable_not_false, Event_cancelable, call,
      refreshed_source; simpl. rewrite Ho. unfold cancelable_not_false. rewrite Ho. simpl.
    rewrite andb_false_r. done.
  - intros w event f thisArg options callSite args tr register Hr.
    assert (H : ∃ once, events (register event (Function f) thisArg options callSite w).1
                        = events w ++ [wrapper f thisArg once options]).
    { destruct Hr as [-> | ->]; eexists; apply addListener_wraps. }
    destruct H as (once & H). exists (wrapper f thisArg once options). split; [done|].
    unfold wrapper, new_Event, Event_cancelable, call, refreshed_source, cancelable_not_false;
      simpl.
    destruct (options ≫= listen_cancelable) as [[]|]; simpl; rewrite ?andb_false_r; done.
Qed.

(** C7, amended, at a listener constructed without options and at a
    registration without options on a new emitter. *)
Lemma cancelable_defaults_witness :
  let l := {| cb_id := 1; cb_run := λ _ _, Returns VUndefined |} in
  (let e := new_Event l None in
   let fresh := token new_CancellationTokenSource in
   _source e = Some new_CancellationTokenSource
   ∧ (Event_cancelable e).1 = true
   ∧ (call [VString "hello"] e []).1.2 = [] ++ [Invoked 1 None [VString "hello"] fresh.1]
   ∧ fresh.1 ≠ TokenNone)
  ∧ ∃ e, events (on (KString "test") (Function l) None None "site" (new_World None)).1
         = events (new_World None) ++ [e]
         ∧ _source e = None
         ∧ (Event_cancelable e).1 = false
         ∧ (call [VString "hello"] e []).1.2 = [] ++ [Invoked 1 None [VString "hello"] TokenNone].
Proof.
  intros l. split.
  - exact (proj1 cancelable_defaults l None [VString "hello"] [] eq_refl).
  - exact (proj2 cancelable_defaults (new_World None) (KString "test") l None None "site"
             [VString "hello"] [] on (or_introl eq_refl)).
Defined.

End Defaults.

(** ** Scenarios *)

Section Scenarios.


(** Three listeners on one key: one returns, one is [once], one
    throws.  The key is fired twice. *)
Example fire_twice :
  let steady := {| cb_id := 1; cb_run := λ _ _, Returns VUndefined |} in
  let single := {| cb_id := 2; cb_run := λ _ _, Returns VUndefined |} in
  let failing := {| cb_id := 3; cb_run := λ _ _, Throws (ThrownError "boom") |} in
  let w := run [On (KString "test") (Function steady) None None "site";
                Once (KString "test") (Function single) None None "site";
                On (KString "test") (Function failing) None None "site";
                Fire (KString "test") [VNumber 1] 0;
                Fire (KString "test") [VNumber 2] 0] (new_World None) in
  trace w = [Invoked 1 None [VNumber 1] TokenNone;
             Invoked 2 None [VNumber 1] TokenNone;
             Invoked 3 None [VNumber 1] TokenNone;
             Escalated (ThrownError "boom");
             Invoked 1 None [VNumber 2] TokenNone;
             Invoked 3 None [VNumber 2] TokenNone;
             Escalated (ThrownError "boom")]
  ∧ listenersCount None (emitter w) = 2
  ∧ map id (registered w) = [3; 5]%nat.
Proof. vm_compute. repeat split. Qed.

End Scenarios.

(** ** Cancelable promises *)

Section CancelablePromise.
Import Async.

Lemma cancel_keeps p :
  thenable (cancel p).1 = thenable p
  ∧ reacted (cancel p).1 = reacted p
  ∧ released (cancel p).1 = released p
  ∧ (isCancelled p = true → isCancelled (cancel p).1 = true)
  ∧ (∀ s, promise p = Some s → promise (cancel p).1 = Some s)
  ∧ (cancel p).2 = Normal tt.
Proof.
  unfold cancel. destruct (Cancellation.cancel (source p)) as [notified s1].
  destruct (existsb (Nat.eqb sub) notified); simpl.
  - destruct (Cancellation.dispose false _) as [? s3]; simpl.
    repeat split; try done. intros s ->. done.
  - destruct (Cancellation.dispose false s1) as [? s3]; simpl. done.
Qed.

Lemma step_keeps_promise p e s : promise p = Some s → promise (step p e) = Some s.
Proof.
  intros H. destruct e as [|s'|]; simpl.
  - by apply cancel_keeps.
  - done.
  - destruct (thenable p) as [s'|]; [|done]. destruct (reacted p); [done|].
    unfold reaction. destruct (Cancellation.dispose false _) as [? s1].
    destruct s' as [value|err]; [destruct (negb (isCancelled p))|]; simpl; by rewrite ?H.
Qed.

Lemma run_keeps_promise es : ∀ p s, promise p = Some s → promise (run es p) = Some s.
Proof.
  induction es as [|e es IH]; intros p s H; simpl; [done|].
  apply IH. by apply step_keeps_promise.
Qed.

Lemma unsettled es : ∀ p,
  forallb (λ e, negb (is_Settle e)) es = true →
  p = createCancelablePromise ∨ p = cancelled_early →
  run es p = createCancelablePromise ∨ run es p = cancelled_early.
Proof.
  induction es as [|e es IH]; intros p Hes Hp; simpl; [done|].
  simpl in Hes. apply andb_true_iff in Hes as [He Hes]. apply IH; [done|].
  destruct e as [|s|]; simpl in *; [|done|].
  - right. destruct Hp as [-> | ->]; reflexivity.
  - destruct Hp as [-> | ->]; [left | right]; reflexivity.
Qed.

Lemma cancelled_early_stays es :
  forallb (λ e, negb (is_Settle e)) es = true → run es cancelled_early = cancelled_early.
Proof.
  induction es as [|e es IH]; simpl; [done|].
  intros [He Hes]%andb_true_iff. destruct e as [|s|]; simpl in *; [by apply IH|done|by apply IH].
Qed.

Lemma step_awaiting d p e : awaiting d p → awaiting d (step p e).
Proof.
  intros (Hc & Ht & Hr). unfold awaiting. destruct e as [|s|]; simpl.
  - destruct (cancel_keeps p) as (-> & -> & -> & Hc' & _). split; [by apply Hc'|done].
  - split; [done|]. split; [|done]. simpl. by rewrite Ht.
  - rewrite Ht. destruct Hr as [[Hr Hl] | [Hr Hl]]; rewrite Hr; [|by repeat split; try right].
    unfold reaction. destruct (Cancellation.dispose false _) as [? s1].
    rewrite Hc. simpl. repeat split; try done. right. by rewrite Hl.
Qed.

Lemma step_released_once d p e : released_once d p → released_once d (step p e).
Proof.
  intros (Hc & Ht & Hr & Hl). unfold released_once. destruct e as [|s|]; simpl.
  - destruct (cancel_keeps p) as (-> & -> & -> & Hc' & _). split; [by apply Hc'|done].
  - repeat split; try done. simpl. by rewrite Ht.
  - by rewrite Ht, Hr.
Qed.

Lemma run_awaiting d es : ∀ p, awaiting d p → awaiting d (run es p).
Proof.
  induction es as [|e es IH]; intros p H; simpl; [done|]. by apply IH, step_awaiting.
Qed.

Lemma run_released_once d es : ∀ p, released_once d p → released_once d (run es p).
Proof.
  induction es as [|e es IH]; intros p H; simpl; [done|]. by apply IH, step_released_once.
Qed.

Lemma react_awaiting d p : awaiting d p → released_once d (step p React).
Proof.
  intros (Hc & Ht & Hr). unfold released_once. simpl. rewrite Ht.
  destruct Hr as [[Hr Hl] | [Hr Hl]]; rewrite Hr; [|done].
  unfold reaction. destruct (Cancellation.dispose false _) as [? s1].
  rewrite Hc. simpl. by rewrite Hl.
Qed.

Lemma run_app es es' p : run (es ++ es') p = run es' (run es p).
Proof. apply fold_left_app. Qed.

(** C6: take a promise made by [createCancelablePromise].  If
    [cancel()] is called before the underlying result settles, the
    promise is rejected with the [ERR_TOKEN_CANCELLED] exception, and
    stays so whatever happens next.  If the result is then fulfilled
    with a disposable and its reaction runs, the disposable has been
    released once, and never again, and the promise is still rejected
    with that exception.  If the result is fulfilled with no [cancel()]
    before, the promise is fulfilled with it, and a [cancel()]
    afterwards completes normally, releases nothing and leaves the
    promise fulfilled; indeed [cancel()] completes normally whenever
    it is called. *)
Theorem cancelable_promise_cancelled
    (pre mid later post : list Step) (d : nat) (r : Result) :
  forallb (λ e, negb (is_Settle e)) pre = true →
  forallb (λ e, negb (is_Settle e)) mid = true →
  thrown_is cancelled ERR_TOKEN_CANCELLED = true
  ∧ promise (run (pre ++ Cancel :: post) createCancelablePromise) = Some (Rejected cancelled)
  ∧ (let p := run (pre ++ Cancel :: mid ++ Settle (Fulfilled (DisposableResult d))
                     :: later ++ React :: post) createCancelablePromise in
     released p = [d] ∧ promise p = Some (Rejected cancelled))
  ∧ (let p := run [Settle (Fulfilled r); React] createCancelablePromise in
     promise p = Some (Fulfilled r)
     ∧ cancel p = (step p Cancel, Normal tt)
     ∧ promise (step p Cancel) = Some (Fulfilled r)
     ∧ released (step p Cancel) = [])
  ∧ (∀ es : list Step, (cancel (run es createCancelablePromise)).2 = Normal tt).
Proof.
  intros Hpre Hmid.
  assert (Hc : run (pre ++ [Cancel]) createCancelablePromise = cancelled_early).
  { rewrite run_app. simpl.
    by destruct (unsettled pre createCancelablePromise Hpre (or_introl eq_refl)) as [-> | ->]. }
  split; [reflexivity|]. split; [|split; [|split]]; [| | |intros es; apply cancel_keeps].
  - change (pre ++ Cancel :: post) with (pre ++ [Cancel] ++ post).
    rewrite app_assoc, run_app, Hc. by apply run_keeps_promise.
  - change (pre ++ Cancel :: mid ++ Settle (Fulfilled (DisposableResult d)) :: later ++ React :: post)
      with (pre ++ [Cancel] ++ mid ++ [Settle (Fulfilled (DisposableResult d))] ++ later ++ [React] ++ post).
    rewrite app_assoc, run_app, Hc, run_app, (cancelled_early_stays mid Hmid).
    rewrite !run_app.
    set (p1 := run [Settle _] cancelled_early).
    assert (H1 : awaiting d p1) by (repeat split; try done; by left).
    pose proof (run_awaiting d later p1 H1) as H2.
    pose proof (react_awaiting d _ H2) as H3.
    pose proof (run_released_once d post _ H3) as (_ & _ & _ & Hl).
    split; [exact Hl|].
    apply run_keeps_promise. change (run [React] ?p) with (step p React).
    apply step_keeps_promise, run_keeps_promise. done.
  - simpl. repeat split.
Qed.

(** C6 at a promise cancelled twice before its result, a disposable,
    arrives, and once more after the reaction. *)
Lemma cancelable_promise_cancelled_witness :
  thrown_is cancelled ERR_TOKEN_CANCELLED = true
  ∧ promise (run ([React] ++ Cancel :: [Cancel]) createCancelablePromise)
    = Some (Rejected cancelled)
  ∧ (let p := run ([React] ++ Cancel :: [Cancel; React]
                     ++ Settle (Fulfilled (DisposableResult 7)) :: [] ++ React :: [Cancel])
                createCancelablePromise in
     released p = [7%nat] ∧ promise p = Some (Rejected cancelled))
  ∧ (let p := run [Settle (Fulfilled (Plain VUndefined)); React] createCancelablePromise in
     promise p = Some (Fulfilled (Plain VUndefined))
     ∧ cancel p = (step p Cancel, Normal tt)
     ∧ promise (step p Cancel) = Some (Fulfilled (Plain VUndefined))
     ∧ released (step p Cancel) = [])
  ∧ (∀ es : list Step, (cancel (run es createCancelablePromise)).2 = Normal tt).
Proof.
  exact (cancelable_promise_cancelled [React] [Cancel; React] [] [Cancel] 7 (Plain VUndefined)
           eq_refl eq_refl).
Defined.

End CancelablePromise.

(** * Further properties of the code *)

(** ** errors/exception.ts: codes *)

Section ExceptionCodes.

Lemma code_of_value_value c : code_of_value (code_value c) = Some c.
Proof. by destruct c. Qed.

Lemma code_of_value_Some n c : code_of_value n = Some c → n = code_value c.
Proof.
  unfold code_of_value.
  repeat match goal with
         | |- context [?x =? ?y] => destruct (Z.eqb_spec x y)
         end; intros [= <-]; done.
Qed.

Lemma code_value_inj c c' : code_value c = code_value c' → c = c'.
Proof.
  intros H. pose proof (code_of_value_value c) as H1. rewrite H, code_of_value_value in H1.
  congruence.
Qed.

(** X1: an [Exception] reports the code it was made with.  Made from a
    member of [ERROR_CODE], from the number of a member or from its
    name, [getErrorCode] gives that member back, the stored number is
    negative and [is] accepts that member only.  The sign of a numeric
    code is dropped, a number that belongs to no member and a string
    that is no key read as [ERR_UNKNOWN_ERROR], and [is] of a string
    that names no member is false. *)
Theorem Exception_code_round_trip (m : Message) :
  (∀ c : ERROR_CODE,
     getErrorCode (new_Exception m c) = c
     ∧ code (new_Exception m c) < 0
     ∧ new_Exception_string m (Some c) = new_Exception m c
     ∧ new_Exception_number m (code_value c) = new_Exception m c
     ∧ ∀ c', Exception_is (new_Exception m c) c' = true ↔ c' = c)
  ∧ (∀ n : Z,
     code (new_Exception_number m n) <= 0
     ∧ new_Exception_number m (- n) = new_Exception_number m n
     ∧ (∀ k, Exception_is_number (new_Exception_number m n) k = true ↔ Z.abs k = Z.abs n)
     ∧ (∀ c, Exception_is (new_Exception_number m n) c = true ↔ Z.abs n = code_value c)
     ∧ (getErrorCode (new_Exception_number m n)
        = default ERR_UNKNOWN_ERROR (code_of_value (Z.abs n))))
  ∧ getErrorCode (new_Exception_string m None) = ERR_UNKNOWN_ERROR
  ∧ ∀ e : Exception, Exception_is_string e None = false.
Proof.
  split; [|split; [|split]].
  - intros c. split; [|split; [|split; [|split]]].
    + unfold getErrorCode, new_Exception. simpl. by rewrite Z.opp_involutive, code_of_value_value.
    + destruct c; reflexivity.
    + reflexivity.
    + unfold new_Exception_number, new_Exception. f_equal. destruct c; reflexivity.
    + intros c'. unfold Exception_is, new_Exception. simpl. rewrite Z.eqb_eq. split.
      * intros H. symmetry. apply code_value_inj. lia.
      * by intros ->.
  - intros n. split; [|split; [|split; [|split]]].
    + simpl. lia.
    + unfold new_Exception_number. by rewrite Z.abs_opp.
    + intros k. unfold Exception_is_number. simpl. rewrite Z.eqb_eq. lia.
    + intros c. unfold Exception_is. simpl. rewrite Z.eqb_eq. lia.
    + unfold getErrorCode. simpl. rewrite Z.opp_involutive.
      by destruct (code_of_value (Z.abs n)).
  - reflexivity.
  - reflexivity.
Qed.

End ExceptionCodes.

(** ** disposable.ts: stores *)

Section Stores.
Import Disposable.

Lemma dispose_each_spec ds : ∀ errors tr,
  dispose_each ds errors tr
  = (tr ++ map (λ d, Released (leaf_id d)) ds, errors ++ thrown_by ds).
Proof.
  induction ds as [|d ds IH]; intros errors tr; simpl.
  - by rewrite !app_nil_r.
  - unfold thrown_by. simpl. destruct (leaf_throws d) as [t|]; simpl; rewrite IH;
      by rewrite <- !app_assoc.
Qed.

Lemma dispose_spec ds tr :
  dispose ds tr
  = (tr ++ map (λ d, Released (leaf_id d)) ds,
     match thrown_by ds with
     | [] => Normal tt
     | [e] => Throw e
     | errors => Throw (ThrownAggregate errors "Encountered errors while disposing of store")
     end).
Proof.
  unfold dispose. rewrite dispose_each_spec. simpl.
  by destruct (thrown_by ds) as [|e [|e' es]].
Qed.

(** X2: [dispose(iterable)] releases every member, in order, also
    after one of them has failed.  It returns normally when none
    failed, throws the error when one failed, and throws an
    [AggregateError] of all the errors when several did. *)
Theorem dispose_releases_every_member (ds : list Leaf) (tr : Trace) :
  dispose ds tr
  = (tr ++ map (λ d, Released (leaf_id d)) ds,
     match thrown_by ds with
     | [] => Normal tt
     | [e] => Throw e
     | errors => Throw (ThrownAggregate errors "Encountered errors while disposing of store")
     end).
Proof. apply dispose_spec. Qed.

Lemma leaf_has_elem d set : Set_has d set = true ↔ leaf_id d ∈ map leaf_id set.
Proof.
  unfold Set_has. rewrite existsb_exists, list_elem_of_fmap. split.
  - intros (x & Hx & He). apply Nat.eqb_eq in He. exists x. split; [done|].
    by apply list_elem_of_In.
  - intros (x & He & Hx). exists x. split; [by apply list_elem_of_In|]. by apply Nat.eqb_eq.
Qed.

Lemma NoDup_leaf_add d set :
  NoDup (map leaf_id set) → NoDup (map leaf_id (Set_add d set)).
Proof.
  intros H. unfold Set_add. destruct (Set_has d set) eqn:E; [done|].
  rewrite map_app. simpl. apply NoDup_app. split; [done|]. split.
  - intros x Hx Hd. apply list_elem_of_singleton in Hd as ->.
    apply leaf_has_elem in Hx. congruence.
  - apply NoDup_singleton.
Qed.

Lemma leaf_delete_cons d x set :
  Set_delete d (x :: set)
  = if (leaf_id x =? leaf_id d)%nat then Set_delete d set else x :: Set_delete d set.
Proof.
  unfold Set_delete. rewrite filter_cons.
  by destruct (leaf_id x =? leaf_id d)%nat.
Qed.

Lemma elem_of_leaf_delete d x set :
  x ∈ map leaf_id (Set_delete d set) ↔ x ∈ map leaf_id set ∧ x ≠ leaf_id d.
Proof.
  induction set as [|y set IH];
    [simpl; split; [by intros ?%elem_of_nil | by intros [?%elem_of_nil _]]|].
  rewrite leaf_delete_cons. destruct (Nat.eqb_spec (leaf_id y) (leaf_id d)) as [He|He]; simpl.
  - rewrite IH, elem_of_cons. split; [intuition|]. intros [[->|H] Hn]; [congruence|done].
  - rewrite !elem_of_cons, IH. split; [|intuition]. intros [->|[H Hn]]; intuition.
Qed.

Lemma NoDup_leaf_delete d set :
  NoDup (map leaf_id set) → NoDup (map leaf_id (Set_delete d set)).
Proof.
  induction set as [|y set IH]; [done|]. simpl. intros [Hy Hn]%NoDup_cons.
  rewrite leaf_delete_cons. destruct (leaf_id y =? leaf_id d)%nat; [by apply IH|].
  simpl. apply NoDup_cons. split; [|by apply IH].
  rewrite elem_of_leaf_delete. intuition.
Qed.

Lemma leaf_has_delete d set : Set_has d (Set_delete d set) = false.
Proof.
  destruct (Set_has d (Set_delete d set)) eqn:E; [|done].
  apply leaf_has_elem, elem_of_leaf_delete in E as [_ E]. done.
Qed.

Lemma tidy_exec dw s tr o : tidy s → tidy (store_exec dw (s, tr) o).1.
Proof.
  intros Hs. pose proof Hs as [Hn Hd].
  destruct o as [[[|d]|]|[[|d]|]|[[|d]|]| |]; simpl; try exact Hs.
  - destruct (isDisposed s) eqn:E; simpl.
    + by destruct (negb dw).
    + split; [by apply NoDup_leaf_add|]. simpl. congruence.
  - split; simpl; [by apply NoDup_leaf_delete|]. intros H. by rewrite (Hd H).
  - destruct (Set_has d (toDispose s)); [|done]. split; simpl; [by apply NoDup_leaf_delete|].
    intros H. by rewrite (Hd H).
  - unfold DisposableStore_clear. destruct (length (toDispose s) =? 0)%nat; [done|].
    destruct (dispose (toDispose s) tr). simpl. split; [constructor|done].
  - unfold DisposableStore_dispose, DisposableStore_clear. destruct (isDisposed s); [done|].
    simpl. destruct (length (toDispose s) =? 0)%nat eqn:E; simpl.
    + apply Nat.eqb_eq in E. destruct (toDispose s); [|done]. split; [constructor|done].
    + destruct (dispose (toDispose s) tr). simpl. split; [constructor|done].
Qed.

Lemma tidy_run dw ops : ∀ st, tidy st.1 → tidy (store_run dw ops st).1.
Proof.
  induction ops as [|o ops IH]; intros [s tr] H; [done|]. simpl.
  apply IH. by apply tidy_exec.
Qed.

(** X3: whatever has been done to a [DisposableStore] ([add],
    [delete], [deleteAndLeak], [clear] and [dispose], in any order), it
    holds each disposable at most once, and [dispose()] releases the
    members it holds, each once and in the order they were added,
    leaves the store empty and disposed, and reports the failures as
    [dispose(iterable)] does. *)
Theorem store_releases_each_member_once
    (disable_warning : bool) (ops : list StoreOp) (tr0 : Trace) :
  let '(s, tr) := store_run disable_warning ops (new_DisposableStore, tr0) in
  NoDup (map leaf_id (toDispose s))
  ∧ DisposableStore_dispose s tr
    = ({| toDispose := []; isDisposed := true |},
       tr ++ map (λ d, Released (leaf_id d)) (toDispose s),
       match thrown_by (toDispose s) with
       | [] => Normal tt
       | [e] => Throw e
       | errors => Throw (ThrownAggregate errors "Encountered errors while disposing of store")
       end).
Proof.
  pose proof (tidy_run disable_warning ops (new_DisposableStore, tr0)) as H.
  destruct (store_run disable_warning ops (new_DisposableStore, tr0)) as [s tr].
  destruct H as [Hn Hd]; [split; [constructor|done]|]. simpl in *. split; [done|].
  unfold DisposableStore_dispose, DisposableStore_clear. destruct s as [ds [|]]; simpl in *.
  - rewrite (Hd eq_refl). simpl. by rewrite app_nil_r.
  - destruct ds as [|d ds]; simpl; [by rewrite app_nil_r|].
    by rewrite dispose_spec.
Qed.

(** X4: [delete(d)] releases [d] at once, whether the store holds it
    or not, passes on the failure of [d] and leaves the store without
    [d].  [deleteAndLeak(d)] takes [d] out without releasing it: a later
    [dispose()] of the store does not release [d]. *)
Theorem store_delete_releases_and_leak_does_not
    (s : DisposableStore) (d : Leaf) (tr : Trace) :
  (let '(s1, tr1, r) := DisposableStore_delete (Some (Other d)) s tr in
   tr1 = tr ++ [Released (leaf_id d)]
   ∧ r = match leaf_throws d with Some t => Throw t | None => Normal tt end
   ∧ Set_has d (toDispose s1) = false
   ∧ isDisposed s1 = isDisposed s)
  ∧ (let s1 := DisposableStore_deleteAndLeak (Some (Other d)) s in
     Set_has d (toDispose s1) = false
     ∧ isDisposed s1 = isDisposed s
     ∧ ∀ tr', releases (leaf_id d) (DisposableStore_dispose s1 tr').1.2
              = releases (leaf_id d) tr').
Proof.
  split.
  - simpl. repeat split. apply leaf_has_delete.
  - assert (H1 : Set_has d (toDispose (DisposableStore_deleteAndLeak (Some (Other d)) s)) = false).
    { simpl. destruct (Set_has d (toDispose s)) eqn:E; simpl; [apply leaf_has_delete | done]. }
    split; [done|]. split; [simpl; by destruct (Set_has d (toDispose s))|].
    intros tr'. set (s1 := DisposableStore_deleteAndLeak _ s) in *.
    unfold DisposableStore_dispose, DisposableStore_clear.
    destruct (isDisposed s1); [done|]. simpl.
    destruct (length (toDispose s1) =? 0)%nat; [done|].
    rewrite dispose_spec. simpl. unfold releases.
    rewrite List.filter_app, length_app.
    assert (H0 : List.filter (λ e, match e with Released x => (x =? leaf_id d)%nat | _ => false end)
                   (map (λ d0, Released (leaf_id d0)) (toDispose s1)) = []).
    { unfold Set_has in H1. induction (toDispose s1) as [|x l IH]; [done|].
      simpl in *. apply orb_false_iff in H1 as [Hx Hl]. rewrite Hx. by apply IH. }
    rewrite H0. simpl. lia.
Qed.

(** X5: [Disposable.dispose()] releases the lifecycle members in
    order and stops at the first that fails: its error is thrown, the
    members after it are not released, and as the object counts as
    disposed from then on a later [dispose()] does nothing, so that
    they never are. *)
Theorem Disposable_dispose_stops_at_first_failure
    (b : DisposableBase) (tr : Trace) (pre post : list Leaf) (d : Leaf) (t : Thrown) :
  base_isDisposed b = false →
  lifecycle b = pre ++ d :: post →
  Forall (λ x, leaf_throws x = None) pre →
  leaf_throws d = Some t →
  let '(b1, tr1, r) := Disposable_dispose b tr in
  r = Throw t
  ∧ tr1 = tr ++ map (λ x, Released (leaf_id x)) (pre ++ [d])
  ∧ lifecycle b1 = lifecycle b
  ∧ ∀ tr2, Disposable_dispose b1 tr2 = (b1, tr2, Normal tt).
Proof.
  intros Hb Hl Hpre Hd. unfold Disposable_dispose. rewrite Hb. unfold _clear. simpl.
  assert (H : ∀ tr, forEach_dispose (pre ++ d :: post) tr
                    = (tr ++ map (λ x, Released (leaf_id x)) (pre ++ [d]), Throw t)).
  { clear Hl. induction Hpre as [|x pre Hx Hpre IH]; intros tr'; simpl.
    - by rewrite Hd.
    - rewrite Hx, IH. by rewrite <- app_assoc. }
  rewrite Hl, H. repeat split.
Qed.

Lemma Disposable_dispose_stops_at_first_failure_witness :
  let quiet := {| leaf_id := 1; leaf_throws := None; leaf_prints := true |} in
  let failing := {| leaf_id := 2; leaf_throws := Some (ThrownError "boom"); leaf_prints := true |} in
  let last := {| leaf_id := 3; leaf_throws := None; leaf_prints := true |} in
  let b := {| lifecycle := [quiet; failing; last]; base_isDisposed := false |} in
  let '(b1, tr1, r) := Disposable_dispose b [] in
  r = Throw (ThrownError "boom")
  ∧ tr1 = [] ++ map (λ x, Released (leaf_id x)) ([quiet] ++ [failing])
  ∧ lifecycle b1 = lifecycle b
  ∧ ∀ tr2, Disposable_dispose b1 tr2 = (b1, tr2, Normal tt).
Proof.
  apply (Disposable_dispose_stops_at_first_failure
           {| lifecycle := [ {| leaf_id := 1; leaf_throws := None; leaf_prints := true |};
                             {| leaf_id := 2; leaf_throws := Some (ThrownError "boom"); leaf_prints := true |};
                             {| leaf_id := 3; leaf_throws := None; leaf_prints := true |} ];
              base_isDisposed := false |}
           [] [ {| leaf_id := 1; leaf_throws := None; leaf_prints := true |} ]
           [ {| leaf_id := 3; leaf_throws := None; leaf_prints := true |} ]
           {| leaf_id := 2; leaf_throws := Some (ThrownError "boom"); leaf_prints := true |}
           (ThrownError "boom"));
    [reflexivity | reflexivity | repeat constructor | reflexivity].
Defined.

End Stores.

(** ** map.ts: [SetMap] *)

Section SetMapLaws.

Lemma EventKey_eqb_refl k : EventKey_eqb k k = true.
Proof. by apply EventKey_eqb_eq. Qed.

Lemma EventKey_eqb_ne k k' : k ≠ k' → EventKey_eqb k k' = false.
Proof.
  intros H. destruct (EventKey_eqb k k') eqn:E; [|done]. by apply EventKey_eqb_eq in E.
Qed.

Lemma Map_get_elem k m vs : Map_get k m = Some vs → (k, vs) ∈ m.
Proof.
  induction m as [|[k0 vs0] m IH]; [done|]. simpl.
  destruct (EventKey_eqb k0 k) eqn:E.
  - apply EventKey_eqb_eq in E as ->. intros [= ->]. by left.
  - intros H. right. by apply IH.
Qed.

Lemma Map_get_None k m : Map_get k m = None ↔ k ∉ keys m.
Proof.
  induction m as [|[k0 vs0] m IH]; simpl.
  - split; [intros _ H; by apply elem_of_nil in H | done].
  - destruct (EventKey_eqb k0 k) eqn:E.
    + apply EventKey_eqb_eq in E as ->. split; [done|]. intros H. exfalso. apply H. by left.
    + rewrite IH. rewrite elem_of_cons. split; [|intuition].
      intros H [->|H1]; [|done]. by rewrite EventKey_eqb_refl in E.
Qed.

Lemma elem_Map_get k vs m : NoDup (keys m) → (k, vs) ∈ m → Map_get k m = Some vs.
Proof.
  induction m as [|[k0 vs0] m IH]; [by intros _ ?%elem_of_nil|]. simpl.
  intros [Hk Hn]%NoDup_cons [[= -> ->]|H]%elem_of_cons.
  - by rewrite EventKey_eqb_refl.
  - destruct (EventKey_eqb k0 k) eqn:E; [|by apply IH].
    apply EventKey_eqb_eq in E as ->. exfalso. apply Hk.
    apply list_elem_of_fmap. by exists (k, vs).
Qed.

Lemma elem_Map_set k vs m x : x ∈ Map_set k vs m → x = (k, vs) ∨ x ∈ m.
Proof.
  induction m as [|[k0 vs0] m IH]; simpl.
  - intros ->%list_elem_of_singleton. by left.
  - destruct (EventKey_eqb k0 k) eqn:E.
    + apply EventKey_eqb_eq in E as ->. intros [->|H]%elem_of_cons; [by left|].
      right. by right.
    + intros [->|H]%elem_of_cons; [right; by left|].
      destruct (IH H) as [->|H1]; [by left|right; by right].
Qed.

Lemma keys_Map_set k vs m :
  keys (Map_set k vs m) = if Map_get k m is Some _ then keys m else keys m ++ [k].
Proof.
  induction m as [|[k0 vs0] m IH]; [done|]. simpl.
  destruct (EventKey_eqb k0 k) eqn:E; simpl.
  - by apply EventKey_eqb_eq in E as ->.
  - rewrite IH. by destruct (Map_get k m).
Qed.

Lemma elem_Map_delete k m x : x ∈ Map_delete k m → x ∈ m.
Proof.
  induction m as [|[k0 vs0] m IH]; [done|]. simpl.
  destruct (EventKey_eqb k0 k); [by right|].
  intros [->|H]%elem_of_cons; [by left|right; by apply IH].
Qed.

Lemma keys_Map_delete k m : NoDup (keys m) → NoDup (keys (Map_delete k m)).
Proof.
  induction m as [|[k0 vs0] m IH]; [done|]. simpl. intros [Hk Hn]%NoDup_cons.
  destruct (EventKey_eqb k0 k); [done|]. simpl. apply NoDup_cons. split; [|by apply IH].
  intros H. apply Hk. apply list_elem_of_fmap in H as (x & -> & Hx).
  apply list_elem_of_fmap. exists x. split; [done|]. by apply elem_Map_delete in Hx.
Qed.

Lemma Map_get_delete_eq k m : NoDup (keys m) → Map_get k (Map_delete k m) = None.
Proof.
  induction m as [|[k0 vs0] m IH]; [done|]. simpl. intros [Hk Hn]%NoDup_cons.
  destruct (EventKey_eqb k0 k) eqn:E; simpl.
  - apply EventKey_eqb_eq in E as ->. by apply Map_get_None.
  - rewrite E. by apply IH.
Qed.

Lemma Map_set_same k vs m : Map_get k m = Some vs → Map_set k vs m = m.
Proof.
  induction m as [|[k0 vs0] m IH]; [done|]. simpl.
  destruct (EventKey_eqb k0 k) eqn:E.
  - by intros [= ->].
  - intros H. by rewrite IH.
Qed.

Lemma NoDup_Set_add v vs : NoDup (map id vs) → NoDup (map id (Set_add v vs)).
Proof.
  intros H. unfold Set_add. destruct (Set_has v vs) eqn:E; [done|].
  rewrite map_app. apply NoDup_app. split; [done|]. split; [|apply NoDup_singleton].
  intros x Hx ->%list_elem_of_singleton. apply Set_has_elem in Hx. congruence.
Qed.

Lemma elem_Set_delete v x vs : x ∈ Set_delete v vs → x ∈ vs.
Proof.
  induction vs as [|y vs IH]; [done|]. simpl.
  destruct (id y =? id v)%nat; [by right|].
  intros [->|H]%elem_of_cons; [by left|right; by apply IH].
Qed.

Lemma NoDup_Set_delete v vs : NoDup (map id vs) → NoDup (map id (Set_delete v vs)).
Proof.
  induction vs as [|y vs IH]; [done|]. simpl. intros [Hy Hn]%NoDup_cons.
  destruct (id y =? id v)%nat; [done|]. simpl. apply NoDup_cons. split; [|by apply IH].
  intros H. apply Hy. apply list_elem_of_fmap in H as (x & -> & Hx).
  apply list_elem_of_fmap. exists x. split; [done|]. by apply elem_Set_delete in Hx.
Qed.

Lemma Set_has_Set_delete v vs : NoDup (map id vs) → Set_has v (Set_delete v vs) = false.
Proof.
  induction vs as [|y vs IH]; [done|]. simpl. intros [Hy Hn]%NoDup_cons.
  destruct (Nat.eqb_spec (id y) (id v)) as [He|He].
  - destruct (Set_has v vs) eqn:E; [|done]. apply Set_has_elem in E. by rewrite <- He in E.
  - simpl. destruct (Nat.eqb_spec (id y) (id v)); [done|]. simpl. by apply IH.
Qed.

Lemma Set_has_Set_add v vs : Set_has v (Set_add v vs) = true.
Proof.
  unfold Set_add. destruct (Set_has v vs) eqn:E; [done|].
  unfold Set_has. rewrite existsb_app. simpl. rewrite Nat.eqb_refl. by rewrite orb_true_r.
Qed.

Lemma compact_add k v m : compact m → compact (add k v m).
Proof.
  intros [Hk Hv]. unfold add. destruct (Map_get k m) as [vs|] eqn:E.
  - destruct (Hv k vs (Map_get_elem _ _ _ E)) as [Hne Hn]. split.
    + by rewrite keys_Map_set, E.
    + intros k' vs' [[= -> ->]|H]%elem_Map_set; [|by apply (Hv k')].
      split; [|by apply NoDup_Set_add].
      unfold Set_add. destruct (Set_has v vs); [done|]. by destruct vs.
  - split.
    + rewrite keys_Map_set, E. apply NoDup_app. split; [done|].
      split; [|apply NoDup_singleton]. intros x Hx ->%list_elem_of_singleton.
      by apply (Map_get_None k m) in E.
    + intros k' vs' [[= -> ->]|H]%elem_Map_set; [|by apply (Hv k')].
      split; [done|]. simpl. apply NoDup_singleton.
Qed.

Lemma compact_Map_delete k m : compact m → compact (Map_delete k m).
Proof.
  intros [Hk Hv]. split; [by apply keys_Map_delete|].
  intros k' vs' H. apply (Hv k'). by apply elem_Map_delete in H.
Qed.

Lemma compact_delete k v m : compact m → compact (delete k v m).1.
Proof.
  intros Hm. pose proof Hm as [Hk Hv]. unfold delete.
  destruct (Map_get k m) as [vs|] eqn:E; [|done].
  destruct (Hv k vs (Map_get_elem _ _ _ E)) as [Hne Hn].
  destruct (length (Set_delete v vs) =? 0)%nat eqn:El; simpl.
  - by apply compact_Map_delete.
  - split; [by rewrite keys_Map_set, E|].
    intros k' vs' [[= -> ->]|H]%elem_Map_set; [|by apply (Hv k')].
    split; [|by apply NoDup_Set_delete]. intros H0. by rewrite H0 in El.
Qed.

Lemma compact_exec m o : compact m → compact (setmap_exec m o).
Proof.
  intros H. destruct o as [k v|k v|k|]; simpl.
  - by apply compact_add.
  - by apply compact_delete.
  - by apply compact_Map_delete.
  - split; [constructor|]. by intros k vs ?%elem_of_nil.
Qed.

Lemma compact_run ops : ∀ m, compact m → compact (setmap_run ops m).
Proof.
  induction ops as [|o ops IH]; intros m H; [done|]. simpl. by apply IH, compact_exec.
Qed.

Lemma compact_nil : compact [].
Proof. split; [constructor|]. by intros k vs ?%elem_of_nil. Qed.

(** X6: a [SetMap] reached from an empty one by [add], [delete],
    [remove] and [clear] never keeps an empty set: a key is present
    exactly while its set holds a value, and no set holds a value
    twice.  [add] puts the value in the set of its key and changes
    nothing when it is there already, [delete] says whether the value
    was there and takes it out, [remove] empties the key, and none of
    them touches the set of another key. *)
Theorem SetMap_keeps_no_empty_set (ops : list SetMapOp) :
  let m := setmap_run ops [] in
  compact m
  ∧ (∀ k, k ∈ keys m ↔ get k m ≠ [])
  ∧ (∀ k v, Set_has v (get k (add k v m)) = true
            ∧ (Set_has v (get k m) = true → add k v m = m)
            ∧ ∀ k', k' ≠ k → get k' (add k v m) = get k' m)
  ∧ (∀ k v, (delete k v m).2 = Set_has v (get k m)
            ∧ Set_has v (get k (delete k v m).1) = false
            ∧ ∀ k', k' ≠ k → get k' (delete k v m).1 = get k' m)
  ∧ (∀ k, get k (remove k m) = [] ∧ ∀ k', k' ≠ k → get k' (remove k m) = get k' m).
Proof.
  intros m. assert (Hm : compact m) by apply compact_run, compact_nil.
  pose proof Hm as [Hk Hv]. split; [done|]. split; [|split; [|split]].
  - intros k. unfold get. destruct (Map_get k m) as [vs|] eqn:E; simpl.
    + split; [intros _; by apply (Hv k vs), Map_get_elem | intros _; by eapply Map_get_keys].
    + apply Map_get_None in E. by split.
  - intros k v. unfold add, get. destruct (Map_get k m) as [vs|] eqn:E; simpl.
    + rewrite (Map_get_set_eq k _ vs m E). simpl. split; [apply Set_has_Set_add|]. split.
      * intros H. unfold Set_add. rewrite H. by apply Map_set_same.
      * intros k' Hne. by rewrite Map_get_set_ne.
    + split; [|split; [done|]].
      * assert (Map_get k (Map_set k [v] m) = Some [v]) as ->.
        { clear -E. induction m as [|[k0 vs0] m IH]; simpl in *.
          - by rewrite EventKey_eqb_refl.
          - destruct (EventKey_eqb k0 k) eqn:Ek; [done|]. simpl. rewrite Ek. by apply IH. }
        simpl. by rewrite Nat.eqb_refl.
      * intros k' Hne. by rewrite Map_get_set_ne.
  - intros k v. split; [apply delete_found|]. split; [|intros k' Hne; by apply delete_get_ne].
    unfold delete, get. destruct (Map_get k m) as [vs|] eqn:E; simpl; [|by rewrite E].
    destruct (Hv k vs (Map_get_elem _ _ _ E)) as [Hne Hn].
    destruct (length (Set_delete v vs) =? 0)%nat eqn:El; simpl.
    + by rewrite Map_get_delete_eq.
    + rewrite (Map_get_set_eq k _ vs m E). simpl. by apply Set_has_Set_delete.
  - intros k. unfold remove, get. split; [by rewrite Map_get_delete_eq|].
    intros k' Hne. by rewrite Map_get_delete_ne.
Qed.

End SetMapLaws.

(** ** events.ts: listeners and monitors *)

Section Listeners.

Lemma use_called_once o e u : once_set o = true → called_once o e → called_once o (use e u).
Proof.
  intros Ho (Hd & Hopt & Hc). destruct u as [args| | |]; simpl.
  - unfold call. rewrite Hd, Hopt, Ho. simpl.
    assert ((0 <? callCount e)%nat = true) as -> by by apply Nat.ltb_lt. done.
  - unfold Event_cancel. rewrite Hd. by destruct (_source e) as [s|]; [destruct (Cancellation.cancel s)|].
  - unfold Event_isCancellationRequested. by destruct (_source e) as [s|]; [destruct (token s)|].
  - unfold Event_cancelable, Event_isCancellationRequested.
    destruct (cancelable_not_false _); [|done].
    by destruct (_source e) as [s|]; [destruct (token s)|].
Qed.

Lemma uses_called_once o uses : ∀ e,
  once_set o = true → called_once o e → called_once o (fold_left use uses e).
Proof.
  induction uses as [|u uses IH]; intros e Ho He; [done|]. simpl.
  apply IH; [done|]. by apply use_called_once.
Qed.

(** X7: a listener made with [once: true] is called by its first
    call and by no later one: the first call invokes the callback, and
    after it, whatever is done with the listener, a call throws
    [ERR_ONCE_WAS_CALLED_AGAIN], invokes nothing and changes
    nothing. *)
Theorem once_listener_is_called_once
    (l : Callback) (o : option EventOptions) (uses : list Use)
    (first args : Payload) (tr0 tr : Trace) :
  once_set o = true →
  let tok := if cancelable_not_false o then (token new_CancellationTokenSource).1
             else TokenNone in
  let e := fold_left use uses (call first (new_Event l o) tr0).1.1 in
  (call first (new_Event l o) tr0).1.2
  = tr0 ++ [Invoked (cb_id l) (o ≫= Events.thisArg) first tok]
  ∧ call args e tr = (e, tr, Throw once_called_again)
  ∧ thrown_is once_called_again ERR_ONCE_WAS_CALLED_AGAIN = true.
Proof.
  intros Ho tok e. split; [|split; [|reflexivity]].
  - subst tok. unfold call, new_Event, refreshed_source. simpl. rewrite Ho. simpl.
    by destruct (cancelable_not_false o).
  - assert (He : called_once o e).
    { apply uses_called_once; [done|]. unfold call, new_Event, refreshed_source. simpl.
      rewrite Ho. simpl. destruct (cancelable_not_false o); simpl; repeat split; simpl; lia. }
    destruct He as (Hd & Hopt & Hc). unfold call. rewrite Hd, Hopt, Ho. simpl.
    assert ((0 <? callCount e)%nat = true) as -> by by apply Nat.ltb_lt. done.
Qed.

Lemma once_listener_is_called_once_witness :
  let l := {| cb_id := 1; cb_run := λ _ _, Returns VUndefined |} in
  let o := Some {| Events.cancelable := None; Events.once := Some true; Events.disposables := [];
                   Events.thisArg := None |} in
  let e := fold_left use [Cancel; Call [VNumber 2]] (call [VNumber 1] (new_Event l o) []).1.1 in
  (call [VNumber 1] (new_Event l o) []).1.2
  = [] ++ [Invoked 1 None [VNumber 1] (token new_CancellationTokenSource).1]
  ∧ call [VNumber 3] e [] = (e, [], Throw once_called_again)
  ∧ thrown_is once_called_again ERR_ONCE_WAS_CALLED_AGAIN = true.
Proof.
  exact (once_listener_is_called_once
           {| cb_id := 1; cb_run := λ _ _, Returns VUndefined |}
           (Some {| Events.cancelable := None; Events.once := Some true; Events.disposables := [];
                    Events.thisArg := None |})
           [Cancel; Call [VNumber 2]] [VNumber 1] [VNumber 3] [] [] eq_refl).
Defined.

Lemma use_disposed e u : isDisposed e = true → _source e = None → use e u = e.
Proof.
  intros Hd Hs. destruct u as [args| | |]; simpl.
  - unfold call. by rewrite Hd.
  - unfold Event_cancel. by rewrite Hd.
  - unfold Event_isCancellationRequested. by rewrite Hs.
  - unfold Event_cancelable, Event_isCancellationRequested. rewrite Hs.
    by destruct (cancelable_not_false _).
Qed.

Lemma uses_disposed uses : ∀ e,
  isDisposed e = true → _source e = None → fold_left use uses e = e.
Proof.
  induction uses as [|u uses IH]; intros e Hd Hs; [done|]. simpl.
  rewrite use_disposed by done. by apply IH.
Qed.

(** X8: a disposed listener is never called again.  [dispose()]
    releases the disposables of the listener, all of them, and throws
    what they threw: nothing, the one error, or an [AggregateError].
    Either way, from then on no use changes the listener, a call
    throws [ERR_RESOURCE_DISPOSED] without invoking the callback, no
    cancellation is reported as requested, and a second [dispose()]
    does nothing. *)
Theorem disposed_listener_is_never_called
    (e : Event) (uses : list Use) (args : Payload) (tr0 tr : Trace) :
  isDisposed e = false →
  let '(e1, tr1, r1) := Event_dispose e tr0 in
  let e2 := fold_left use uses e1 in
  tr1 = tr0 ++ map (λ d, Released (Disposable.leaf_id d)) (Events.lifecycle e)
  ∧ r1 = match Disposable.thrown_by (Events.lifecycle e) with
         | [] => Normal tt
         | [t] => Throw t
         | errors =>
             Throw (ThrownAggregate errors "Encountered errors while disposing of store")
         end
  ∧ e2 = e1
  ∧ call args e2 tr = (e2, tr, Throw disposed_call)
  ∧ thrown_is disposed_call ERR_RESOURCE_DISPOSED = true
  ∧ (Event_isCancellationRequested e2).1 = false
  ∧ (Event_cancelable e2).1 = cancelable_not_false (Events._options e)
  ∧ Event_dispose e2 tr = (e2, tr, Normal tt).
Proof.
  intros Hd. unfold Event_dispose.
  assert (Hc : isDisposed (Event_cancel e) = false
               ∧ Events.lifecycle (Event_cancel e) = Events.lifecycle e
               ∧ Events._options (Event_cancel e) = Events._options e).
  { unfold Event_cancel. rewrite Hd.
    by destruct (_source e) as [s|]; [destruct (Cancellation.cancel s)|]. }
  destruct Hc as (Hc & Hl & Ho). rewrite Hc, Hl, dispose_spec. cbv zeta.
  rewrite uses_disposed by done. repeat split.
  unfold Event_cancelable. simpl. rewrite Ho. by destruct (cancelable_not_false _).
Qed.

Lemma disposed_listener_is_never_called_witness :
  let l := {| cb_id := 1; cb_run := λ _ _, Returns VUndefined |} in
  let d4 := {| Disposable.leaf_id := 4; Disposable.leaf_throws := None;
               Disposable.leaf_prints := true |} in
  let d5 := {| Disposable.leaf_id := 5; Disposable.leaf_throws := Some (ThrownError "boom");
               Disposable.leaf_prints := true |} in
  let o := Some {| Events.cancelable := None; Events.once := None; Events.disposables := [d4; d5];
                   Events.thisArg := None |} in
  let '(e1, tr1, r1) := Event_dispose (new_Event l o) [] in
  let e2 := fold_left use [Call [VNumber 1]; Cancel] e1 in
  tr1 = [] ++ map (λ d, Released (Disposable.leaf_id d)) [d4; d5]
  ∧ r1 = Throw (ThrownError "boom")
  ∧ e2 = e1
  ∧ call [VNumber 2] e2 [] = (e2, [], Throw disposed_call)
  ∧ thrown_is disposed_call ERR_RESOURCE_DISPOSED = true
  ∧ (Event_isCancellationRequested e2).1 = false
  ∧ (Event_cancelable e2).1 = true
  ∧ Event_dispose e2 [] = (e2, [], Normal tt).
Proof.
  exact (disposed_listener_is_never_called
           (new_Event {| cb_id := 1; cb_run := λ _ _, Returns VUndefined |}
              (Some {| Events.cancelable := None; Events.once := None;
                       Events.disposables :=
                         [ {| Disposable.leaf_id := 4; Disposable.leaf_throws := None;
                              Disposable.leaf_prints := true |};
                           {| Disposable.leaf_id := 5;
                              Disposable.leaf_throws := Some (ThrownError "boom");
                              Disposable.leaf_prints := true |} ];
                       Events.thisArg := None |}))
           [Call [VNumber 1]; Cancel] [VNumber 2] [] [] eq_refl).
Defined.

Lemma use_without_source o l e u : without_source o l e → without_source o l (use e u).
Proof.
  intros (Hd & Hopt & Hs & Hl). destruct u as [args| | |]; simpl.
  - unfold call, refreshed_source. rewrite Hd, Hs.
    by destruct (once_set (Events._options e) && (0 <? callCount e)%nat).
  - unfold Event_cancel. by rewrite Hd, Hs.
  - unfold Event_isCancellationRequested. by rewrite Hs.
  - unfold Event_cancelable, Event_isCancellationRequested. rewrite Hs.
    by destruct (cancelable_not_false _).
Qed.

Lemma uses_without_source o l uses : ∀ e,
  without_source o l e → without_source o l (fold_left use uses e).
Proof.
  induction uses as [|u uses IH]; intros e He; [done|]. simpl. by apply IH, use_without_source.
Qed.

(** X9: a listener made with [cancelable: false] never has a
    cancellation source: [cancel()] does nothing, no cancellation is
    ever reported, [cancelable()] is false, and a call that goes
    through gives the callback [CancellationToken.None]. *)
Theorem listener_without_cancellation
    (l : Callback) (o : option EventOptions) (uses : list Use) (args : Payload) (tr : Trace) :
  o ≫= cancelable = Some false →
  let e := fold_left use uses (new_Event l o) in
  Event_cancel e = e
  ∧ (Event_isCancellationRequested e).1 = false
  ∧ (Event_cancelable e).1 = false
  ∧ (call args e tr).1.2
    = (if once_set o && (0 <? callCount e)%nat then tr
       else tr ++ [Invoked (cb_id l) (o ≫= Events.thisArg) args TokenNone])
  ∧ _source (call args e tr).1.1 = None.
Proof.
  intros Ho e.
  assert (He : without_source o l e).
  { apply uses_without_source. unfold new_Event, cancelable_not_false. rewrite Ho. done. }
  destruct He as (Hd & Hopt & Hs & Hl).
  unfold Event_cancel, Event_isCancellationRequested, Event_cancelable, call, refreshed_source,
    cancelable_not_false.
  rewrite Hd, Hs, Hopt, Ho, Hl.
  repeat split; by destruct (once_set o && (0 <? callCount e)%nat).
Qed.

Lemma listener_without_cancellation_witness :
  let l := {| cb_id := 1; cb_run := λ _ _, Returns VUndefined |} in
  let o := Some {| Events.cancelable := Some false; Events.once := None; Events.disposables := [];
                   Events.thisArg := Some {| object_id := 9; object_prints := true |} |} in
  let e := fold_left use [Cancel; Call [VNumber 1]] (new_Event l o) in
  Event_cancel e = e
  ∧ (Event_isCancellationRequested e).1 = false
  ∧ (Event_cancelable e).1 = false
  ∧ (call [VNumber 2] e []).1.2 = [] ++ [Invoked 1 (Some {| object_id := 9; object_prints := true |}) [VNumber 2] TokenNone]
  ∧ _source (call [VNumber 2] e []).1.1 = None.
Proof.
  exact (listener_without_cancellation
           {| cb_id := 1; cb_run := λ _ _, Returns VUndefined |}
           (Some {| Events.cancelable := Some false; Events.once := None; Events.disposables := [];
                    Events.thisArg := Some {| object_id := 9; object_prints := true |} |})
           [Cancel; Call [VNumber 1]] [VNumber 2] [] eq_refl).
Defined.

End Listeners.

Section Monitors.

Lemma most_frequent_spec entries : ∀ ts tc,
  (∀ s c, ts = Some (s, c) → tc = c) →
  match most_frequent entries ts tc with
  | None => ts = None ∧ entries = []
  | Some (s, c) =>
      ((s, c) ∈ entries ∨ ts = Some (s, c))
      ∧ (∀ s' c', (s', c') ∈ entries → c' <= c)
      ∧ (∀ s0 c0, ts = Some (s0, c0) → c0 <= c)
  end.
Proof.
  induction entries as [|[s c] entries IH]; intros ts tc Hts; simpl.
  - destruct ts as [[s0 c0]|]; [|done]. split; [by right|]. split.
    + by intros s' c' ?%elem_of_nil.
    + intros s1 c1 [= -> ->]. lia.
  - destruct ts as [[s0 c0]|].
    + rewrite (Hts s0 c0 eq_refl). destruct (Z.ltb_spec c0 c) as [Hlt|Hge].
      * specialize (IH (Some (s, c)) c ltac:(by intros ? ? [= -> ->])).
        destruct (most_frequent entries (Some (s, c)) c) as [[s1 c1]|]; [|by destruct IH].
        destruct IH as (Hin & Hmax & Hprev).
        specialize (Hprev s c eq_refl). split; [|split].
        -- left. destruct Hin as [Hin|[= -> ->]]; [by right | by left].
        -- intros s' c' [[= -> ->]|H]%elem_of_cons; [done | by eapply Hmax].
        -- intros s2 c2 [= -> ->]. lia.
      * specialize (IH (Some (s0, c0)) c0 ltac:(by intros ? ? [= -> ->])).
        destruct (most_frequent entries (Some (s0, c0)) c0) as [[s1 c1]|]; [|by destruct IH].
        destruct IH as (Hin & Hmax & Hprev).
        specialize (Hprev s0 c0 eq_refl). split; [|split].
        -- destruct Hin as [Hin|Hin]; [left; by right | by right].
        -- intros s' c' [[= -> ->]|H]%elem_of_cons; [lia | by eapply Hmax].
        -- intros s2 c2 [= -> ->]. lia.
    + specialize (IH (Some (s, c)) c ltac:(by intros ? ? [= -> ->])).
      destruct (most_frequent entries (Some (s, c)) c) as [[s1 c1]|]; [|by destruct IH].
      destruct IH as (Hin & Hmax & Hprev).
      specialize (Hprev s c eq_refl). split; [|split; [|done]].
      * left. destruct Hin as [Hin|[= -> ->]]; [by right | by left].
      * intros s' c' [[= -> ->]|H]%elem_of_cons; [done | by eapply Hmax].
Qed.

(** X10: [getMostFrequentStack] returns a recorded stack whose count
    no other recorded stack exceeds; it returns nothing only when no
    stack is recorded, and so after [dispose()]. *)
Theorem getMostFrequentStack_is_a_maximum (m : LeakageMonitor) :
  match getMostFrequentStack m with
  | None => _stacks m = None ∨ _stacks m = Some []
  | Some (s, c) =>
      ∃ entries, _stacks m = Some entries
                 ∧ (s, c) ∈ entries
                 ∧ ∀ s' c', (s', c') ∈ entries → c' <= c
  end
  ∧ getMostFrequentStack (LeakageMonitor_dispose m) = None.
Proof.
  split; [|unfold getMostFrequentStack, LeakageMonitor_dispose; simpl; by destruct (_stacks m)].
  unfold getMostFrequentStack. destruct (_stacks m) as [entries|]; [|by left].
  pose proof (most_frequent_spec entries None 0) as H.
  destruct (most_frequent entries None 0) as [[s c]|].
  - destruct H as ([Hin|Hin] & Hmax & _); [done| |done]. by exists entries.
  - destruct H as [_ ->]; [done|]. by right.
Qed.

Lemma stacks_get_set_eq k c m : stacks_get k (stacks_set k c m) = Some c.
Proof.
  induction m as [|[k0 c0] m IH]; simpl.
  - by rewrite String.eqb_refl.
  - destruct (String.eqb k0 k) eqn:E; simpl; rewrite E; [done | apply IH].
Qed.

Lemma stacks_get_set_ne k k' c m : k' ≠ k → stacks_get k' (stacks_set k c m) = stacks_get k' m.
Proof.
  intros Hne. induction m as [|[k0 c0] m IH]; simpl.
  - destruct (String.eqb_spec k k'); [congruence|done].
  - destruct (String.eqb_spec k0 k) as [->|He]; simpl.
    + destruct (String.eqb_spec k k'); [congruence|done].
    + destruct (String.eqb k0 k'); [done | apply IH].
Qed.

(** X11: [check] records nothing and returns no cleanup when the
    threshold is not positive or the listener count is below it.
    Otherwise it counts the stack once more and returns a cleanup;
    calling the cleanup takes that one count back, keeps the stack
    recorded and leaves the counts of the other stacks as they
    were before the check. *)
Theorem check_then_cleanup_restores_the_count
    (stack : string) (lc : Z) (m : LeakageMonitor) (tr : Trace) :
  let count mon s := default 0 (stacks_get s (default [] (_stacks mon))) in
  let '(m1, tr1, rmonitor) := check stack lc m tr in
  threshold m1 = threshold m
  ∧ match rmonitor with
    | None =>
        (Qle_bool (threshold m) 0 || Qlt_bool (inject_Z lc) (threshold m) = true)
        ∧ m1 = m ∧ tr1 = tr
    | Some cleanup =>
        (Qle_bool (threshold m) 0 || Qlt_bool (inject_Z lc) (threshold m) = false)
        ∧ cleanup = stack
        ∧ count m1 stack = count m stack + 1
        ∧ count (check_cleanup cleanup m1) stack = count m stack
        ∧ stacks_get stack (default [] (_stacks (check_cleanup cleanup m1))) ≠ None
        ∧ ∀ s, s ≠ stack →
            stacks_get s (default [] (_stacks (check_cleanup cleanup m1)))
            = stacks_get s (default [] (_stacks m))
    end.
Proof.
  intros count. unfold check.
  destruct (Qle_bool (threshold m) 0 || Qlt_bool (inject_Z lc) (threshold m)) eqn:E; [done|].
  assert (H : ∀ m1 : LeakageMonitor,
            _stacks m1 = Some (stacks_set stack
                                 (default 0 (stacks_get stack (default [] (_stacks m))) + 1)
                                 (default [] (_stacks m))) →
            count m1 stack = count m stack + 1
            ∧ count (check_cleanup stack m1) stack = count m stack
            ∧ stacks_get stack (default [] (_stacks (check_cleanup stack m1))) ≠ None
            ∧ ∀ s, s ≠ stack →
                stacks_get s (default [] (_stacks (check_cleanup stack m1)))
                = stacks_get s (default [] (_stacks m))).
  { intros m1 Hm1. subst count. unfold check_cleanup. simpl. rewrite Hm1. simpl.
    rewrite !stacks_get_set_eq. simpl. split; [done|]. split; [lia|]. split; [done|].
    intros s Hs. by rewrite !stacks_get_set_ne. }
  destruct (Qle_bool (_warnCountdown m - 1) 0).
  - destruct (default (EmptyString, 0) _) as [ts tc]. split; [done|]. split; [done|]. split; [done|].
    by apply H.
  - split; [done|]. split; [done|]. split; [done|]. by apply H.
Qed.

End Monitors.

(** ** async.ts: schedules of a cancelable promise *)

Section Schedules.
Import Async.

(** While the promise is pending nothing has happened to the source. *)
Lemma pending_step p e :
  (promise p = None →
   source p = source createCancelablePromise ∧ isCancelled p = false
   ∧ reacted p = false ∧ released p = []) →
  promise (step p e) = None →
  source (step p e) = source createCancelablePromise ∧ isCancelled (step p e) = false
  ∧ reacted (step p e) = false ∧ released (step p e) = [].
Proof.
  intros H. destruct (promise p) as [s0|] eqn:E.
  { intros Hn. by rewrite (step_keeps_promise p e s0 E) in Hn. }
  destruct (H eq_refl) as (Hs & Hc & Hr & Hl). destruct e as [|s|]; simpl.
  - unfold cancel. rewrite Hs. simpl. unfold on_cancellation. simpl. rewrite E. simpl.
    intros [=].
  - by rewrite E.
  - destruct (thenable p) as [s|]; [|by rewrite E]. rewrite Hr.
    unfold reaction. destruct (Cancellation.dispose false _) as [? s1]. rewrite Hc, E.
    by destruct s.
Qed.

Lemma pending_run es : ∀ p,
  (promise p = None →
   source p = source createCancelablePromise ∧ isCancelled p = false
   ∧ reacted p = false ∧ released p = []) →
  promise (run es p) = None →
  source (run es p) = source createCancelablePromise ∧ isCancelled (run es p) = false
  ∧ reacted (run es p) = false ∧ released (run es p) = [].
Proof.
  induction es as [|e es IH]; intros p H; simpl; [done|].
  apply IH. by apply pending_step.
Qed.

Lemma cancel_pending p :
  promise p = None → source p = source createCancelablePromise →
  promise (step p Cancel) = Some (Rejected cancelled) ∧ isCancelled (step p Cancel) = true.
Proof.
  intros E Hs. simpl. unfold cancel. rewrite Hs. simpl. unfold on_cancellation. simpl.
  by rewrite E.
Qed.

(** X12: [cancel()] on a cancelable promise that is still pending
    rejects it with the cancellation error, whatever happens
    afterwards.  If the inner promise had fulfilled with a disposable
    by then, that result is released, once, by the next reaction. *)
Theorem cancel_while_pending_rejects (pre mid post : list Step) (d : nat) :
  promise (run pre createCancelablePromise) = None →
  promise (run (pre ++ Cancel :: post) createCancelablePromise) = Some (Rejected cancelled)
  ∧ (thenable (run pre createCancelablePromise) = Some (Fulfilled (DisposableResult d)) →
     released (run (pre ++ Cancel :: mid ++ React :: post) createCancelablePromise) = [d]).
Proof.
  intros Hp.
  destruct (pending_run pre createCancelablePromise) as (Hs & Hc & Hr & Hl); [done..|].
  destruct (cancel_pending _ Hp Hs) as [Hrej Hcan]. split.
  - change (pre ++ Cancel :: post) with (pre ++ [Cancel] ++ post).
    rewrite app_assoc, !run_app. by apply run_keeps_promise.
  - intros Ht.
    change (pre ++ Cancel :: mid ++ React :: post)
      with (pre ++ [Cancel] ++ mid ++ [React] ++ post).
    rewrite !run_app.
    set (p1 := run [Cancel] (run pre createCancelablePromise)).
    assert (H1 : awaiting d p1).
    { subst p1. change (run [Cancel] ?p) with (step p Cancel). split; [done|].
      destruct (cancel_keeps (run pre createCancelablePromise)) as (Ht' & Hr' & Hl' & _).
      simpl. rewrite Ht', Hr', Hl'. split; [done|]. by left. }
    pose proof (run_awaiting d mid p1 H1) as H2.
    pose proof (react_awaiting d _ H2) as H3.
    by pose proof (run_released_once d post _ H3) as (_ & _ & _ & Hrel).
Qed.

Lemma cancel_while_pending_rejects_witness :
  promise (run [Settle (Fulfilled (DisposableResult 7))] createCancelablePromise) = None
  ∧ promise (run ([Settle (Fulfilled (DisposableResult 7))] ++ Cancel :: [React])
               createCancelablePromise) = Some (Rejected cancelled)
  ∧ (thenable (run [Settle (Fulfilled (DisposableResult 7))] createCancelablePromise)
     = Some (Fulfilled (DisposableResult 7)) →
     released (run ([Settle (Fulfilled (DisposableResult 7))] ++ Cancel :: [] ++ React :: [React])
                 createCancelablePromise) = [7%nat]).
Proof.
  split; [reflexivity|].
  exact (cancel_while_pending_rejects [Settle (Fulfilled (DisposableResult 7))] [] [React] 7
           eq_refl).
Defined.

(** The result has been observed with no [cancel()] before. *)
Lemma observed_step p e s :
  promise p = Some s ∧ reacted p = true ∧ released p = [] →
  promise (step p e) = Some s ∧ reacted (step p e) = true ∧ released (step p e) = [].
Proof.
  intros (Hp & Hr & Hl). split; [by apply step_keeps_promise|].
  destruct e as [|s'|]; simpl.
  - destruct (cancel_keeps p) as (_ & -> & -> & _). done.
  - done.
  - rewrite Hr. by destruct (thenable p).
Qed.

Lemma observed_run es : ∀ p s,
  promise p = Some s ∧ reacted p = true ∧ released p = [] →
  promise (run es p) = Some s ∧ reacted (run es p) = true ∧ released (run es p) = [].
Proof.
  induction es as [|e es IH]; intros p s H; simpl; [done|]. by apply IH, observed_step.
Qed.

(** The first result has arrived, no [cancel()] so far. *)
Lemma arrived_run es : ∀ p s,
  forallb (λ e, negb (is_Cancel e)) es = true →
  thenable p = Some s ∧ isCancelled p = false ∧ released p = []
  ∧ (reacted p = false ∧ promise p = None ∨ reacted p = true ∧ promise p = Some s) →
  thenable (run es p) = Some s ∧ isCancelled (run es p) = false ∧ released (run es p) = []
  ∧ (reacted (run es p) = false ∧ promise (run es p) = None
     ∨ reacted (run es p) = true ∧ promise (run es p) = Some s).
Proof.
  induction es as [|e es IH]; intros p s Hes H; [done|]. simpl in *.
  apply andb_true_iff in Hes as [He Hes]. apply IH; [done|].
  destruct H as (Ht & Hc & Hl & Hr). destruct e as [|s'|]; [done| |]; simpl.
  - by rewrite Ht.
  - rewrite Ht. destruct Hr as [[Hr Hp]|[Hr Hp]]; rewrite Hr; [|by repeat split; try right].
    unfold reaction. destruct (Cancellation.dispose false _) as [? s1]. rewrite Hc, Hp.
    destruct s; simpl; repeat split; try done; by right.
Qed.

(** X13: when the inner promise settles and its reaction runs
    before any [cancel()], the cancelable promise settles in the same
    way and nothing is released, whatever happens afterwards. *)
Theorem result_passes_through_without_cancel (pre mid post : list Step) (s : Settlement) :
  forallb (λ e, negb (is_Cancel e) && negb (is_Settle e)) pre = true →
  forallb (λ e, negb (is_Cancel e)) mid = true →
  let p := run (pre ++ Settle s :: mid ++ React :: post) createCancelablePromise in
  promise p = Some s ∧ released p = [].
Proof.
  intros Hpre Hmid p. subst p.
  assert (H0 : run pre createCancelablePromise = createCancelablePromise).
  { clear -Hpre. induction pre as [|e pre IH]; [done|]. simpl in *.
    apply andb_true_iff in Hpre as [He Hpre]. destruct e; [done|done|]. by apply IH. }
  change (pre ++ Settle s :: mid ++ React :: post)
    with (pre ++ [Settle s] ++ mid ++ [React] ++ post).
  rewrite !run_app, H0.
  set (p1 := run [Settle s] createCancelablePromise).
  destruct (arrived_run mid p1 s Hmid) as (Ht & Hc & Hl & Hr).
  { subst p1. simpl. repeat split. by left. }
  set (p2 := run mid p1) in *.
  assert (H3 : promise (run [React] p2) = Some s ∧ reacted (run [React] p2) = true
               ∧ released (run [React] p2) = []).
  { simpl. rewrite Ht. destruct Hr as [[Hr Hp]|[Hr Hp]]; rewrite Hr; [|done].
    unfold reaction. destruct (Cancellation.dispose false _) as [? s1]. rewrite Hc, Hp, Hl.
    by destruct s. }
  destruct (observed_run post _ s H3) as (Hp & _ & Hl'). done.
Qed.

Lemma result_passes_through_without_cancel_witness :
  let p := run ([React] ++ Settle (Rejected (ThrownError "boom"))
                  :: [Settle (Fulfilled (Plain VUndefined))] ++ React :: [Cancel; React])
             createCancelablePromise in
  promise p = Some (Rejected (ThrownError "boom")) ∧ released p = [].
Proof.
  exact (result_passes_through_without_cancel [React] [Settle (Fulfilled (Plain VUndefined))]
           [Cancel; React] (Rejected (ThrownError "boom")) eq_refl eq_refl).
Defined.

Lemma sound_step p e : sound p → sound (step p e).
Proof.
  unfold sound. destruct (promise p) as [s0|] eqn:E.
  - intros ([b Hb] & Hc & Hr & Hd). rewrite (step_keeps_promise p e s0 E).
    destruct e as [|s|]; simpl.
    + unfold cancel. destruct (source p) as [tok]. simpl in Hb. subst tok.
      destruct b; simpl; (split; [by eexists|done]).
    + split; [by exists b|]. split; [done|]. split; [done|].
      intros d Hin. destruct (Hd d Hin) as (? & ? & Ht). rewrite Ht. done.
    + destruct (thenable p) as [s|] eqn:Et; [|rewrite ?Et; split; [by exists b|done]].
      destruct (reacted p) eqn:Er; [rewrite ?Et, ?Er; split; [by exists b|done]|].
      unfold reaction. destruct (source p) as [tok]. simpl in Hb. subst tok. simpl.
      rewrite (Hr eq_refl).
      destruct s as [[v|d]|t]; destruct (isCancelled p) eqn:Ec; simpl;
        (split; [by eexists|]); (split; [done|]); (split; [done|]);
        try (by intros ? ?%elem_of_nil).
      intros d' ->%list_elem_of_singleton. done.
  - intros (Hs & Hc & Hr & Hl). destruct e as [|s|]; simpl.
    + unfold cancel. rewrite Hs. simpl. unfold on_cancellation. simpl. rewrite E, Hr, Hl.
      simpl. split; [by eexists|]. split; [done|]. split; [done|]. by intros ? ?%elem_of_nil.
    + by rewrite E.
    + destruct (thenable p) as [s|]; [|by rewrite E]. rewrite Hr.
      unfold reaction. rewrite Hs. simpl. rewrite Hc, E, Hl.
      destruct s; simpl; (split; [by eexists|]); (split; [done|]); (split; [done|]);
        by intros ? ?%elem_of_nil.
Qed.

Lemma sound_run es : ∀ p, sound p → sound (run es p).
Proof.
  induction es as [|e es IH]; intros p H; simpl; [done|]. by apply IH, sound_step.
Qed.

(** X14: under every schedule a cancelable promise releases at most
    one result, and only a disposable the inner promise was fulfilled
    with, after a reaction and with the promise rejected for
    cancellation; while it counts as cancelled it is rejected with the
    cancellation error; and once settled it never changes. *)
Theorem result_is_released_at_most_once (es : list Step) :
  let p := run es createCancelablePromise in
  (length (released p) ≤ 1)%nat
  ∧ (∀ d, d ∈ released p →
       thenable p = Some (Fulfilled (DisposableResult d))
       ∧ reacted p = true
       ∧ promise p = Some (Rejected cancelled))
  ∧ (isCancelled p = true → promise p = Some (Rejected cancelled))
  ∧ (∀ es' s, promise p = Some s → promise (run (es ++ es') createCancelablePromise) = Some s).
Proof.
  intros p. assert (H : sound p) by (apply sound_run; by repeat split).
  assert (Hk : ∀ es' s, promise p = Some s →
                        promise (run (es ++ es') createCancelablePromise) = Some s).
  { intros es' s Hs. rewrite run_app. by apply run_keeps_promise. }
  unfold sound in H. destruct (promise p) as [s|] eqn:E.
  - destruct H as (_ & Hc & Hr & Hd). split; [|split; [|split]]; [| | |done].
    + destruct (released p) as [|d l] eqn:El; [simpl; lia|].
      destruct (Hd d) as ([= ->] & _); [by left|]. simpl. lia.
    + intros d Hin. destruct (Hd d Hin) as (Hl & Hcan & Ht). split; [done|]. split.
      * destruct (reacted p); [done|]. rewrite (Hr eq_refl) in Hin. by apply elem_of_nil in Hin.
      * by rewrite (Hc Hcan).
    + intros Hcan. by rewrite (Hc Hcan).
  - destruct H as (_ & Hc & _ & Hl). rewrite Hl. split; [simpl; lia|].
    split; [by intros d ?%elem_of_nil|]. split; [by rewrite Hc|done].
Qed.

End Schedules.

(** ** Profiling *)

Section Profile.

Lemma steady_refl w : steady w w.
Proof. by split. Qed.

Lemma steady_trans w w1 w2 : steady w w1 → steady w1 w2 → steady w w2.
Proof. intros [] []. split; congruence. Qed.

Lemma steady_emit e : keeps steady (emit e).
Proof. by intros w. Qed.

Lemma steady_assign f :
  (∀ e, _perfMonitor (f e) = _perfMonitor e ∧ _disposables (f e) = _disposables e) →
  keeps steady (assign f).
Proof. intros H w. apply H. Qed.

Lemma steady_dispose_Event i : keeps steady (dispose_Event i).
Proof. intros w. unfold steady. by rewrite dispose_Event_emitter. Qed.

Lemma steady_call_Event i args : keeps steady (call_Event i args).
Proof.
  intros w. unfold call_Event. destruct (events w !! i) as [e|]; [|done].
  by destruct (call args e (trace w)) as [[e1 tr1] r].
Qed.

Lemma steady_cancel_Event i : keeps steady (cancel_Event i).
Proof. intros w. unfold cancel_Event. by destruct (events w !! i) as [e|]. Qed.

Lemma steady_construct_Event e : keeps steady (construct_Event e).
Proof. by intros w. Qed.

Lemma steady_construct_UniqueContainer v : keeps steady (construct_UniqueContainer v).
Proof. by intros w. Qed.

#[local] Hint Resolve steady_refl steady_trans steady_emit steady_dispose_Event
  steady_call_Event steady_cancel_Event steady_construct_Event
  steady_construct_UniqueContainer : keeps.

Ltac steady :=
  repeat first
    [ progress eauto with keeps
    | apply keeps_bind; [solve [eauto with keeps] | | intros ?]
    | apply keeps_try_catch; [solve [eauto with keeps] | | intros ?]
    | apply steady_assign; intros ?; done
    | match goal with
      | |- keeps _ (if ?b then _ else _) => destruct b
      | |- keeps _ (match ?x with _ => _ end) => destruct x
      | |- keeps _ (let '(_, _) := ?x in _) => destruct x
      end ].

Lemma steady_hook h : keeps steady (call_hook h).
Proof. unfold call_hook. steady. Qed.

Lemma steady_debug_dump : keeps steady debug_dump.
Proof. intros w. unfold steady. by rewrite debug_dump_emitter. Qed.

#[local] Hint Resolve steady_hook steady_debug_dump : keeps.

Lemma steady_dispose_each vs : keeps steady (dispose_each vs).
Proof. induction vs; simpl; steady. Qed.

#[local] Hint Resolve steady_dispose_each : keeps.

Lemma steady_removeUniqueListener c event : keeps steady (_removeUniqueListener c event).
Proof. unfold _removeUniqueListener. steady. Qed.

#[local] Hint Resolve steady_removeUniqueListener : keeps.

Lemma steady_Handle_dispose h : keeps steady (Handle_dispose h).
Proof. unfold Handle_dispose. steady. Qed.

Lemma steady_deliver l args : keeps steady (_deliver l args).
Proof. unfold _deliver. steady. Qed.

#[local] Hint Resolve steady_deliver : keeps.

Lemma steady_deliver_each pending event args : keeps steady (deliver_each pending event args).
Proof. induction pending; simpl; steady. Qed.

Lemma steady_addListener event listener thisArg once options callSite :
  keeps steady (_addListener event listener thisArg once options callSite).
Proof.
  unfold _addListener, _checkLeakageBeforeAdd. steady.
  intros w. by split.
Qed.

Lemma steady_off event listener : keeps steady (off event listener).
Proof.
  unfold off. steady. intros w. destruct (events w !! _); [|apply steady_refl].
  destruct (find_listener _ _ _); [|apply steady_refl]. apply steady_removeUniqueListener.
Qed.

Lemma steady_clear event : keeps steady (clear event).
Proof. unfold clear. steady. Qed.

Lemma perf_dispose w : _perfMonitor (emitter (dispose w).1) = _perfMonitor (emitter w).
Proof.
  assert (H : keeps (λ w w1, _perfMonitor (emitter w1) = _perfMonitor (emitter w)) dispose).
  { assert (Hs : ∀ m : M unit, keeps steady m →
                 keeps (λ w w1, _perfMonitor (emitter w1) = _perfMonitor (emitter w)) m).
    { intros m Hm w0. apply Hm. }
    assert (Ht : ∀ w0 w1 w2 : World,
                 _perfMonitor (emitter w1) = _perfMonitor (emitter w0) →
                 _perfMonitor (emitter w2) = _perfMonitor (emitter w1) →
                 _perfMonitor (emitter w2) = _perfMonitor (emitter w0)) by (intros; congruence).
    unfold dispose. apply keeps_bind; [exact Ht | by intros ? | intros e].
    destruct (disposed e); [by intros ?|].
    apply keeps_bind; [exact Ht | | intros ?].
    { intros w0. by destruct (Disposable.DisposableStore_dispose _ _) as [[d tr1] r]. }
    apply keeps_bind; [exact Ht | apply Hs, steady_dispose_each | intros ?].
    repeat (apply keeps_bind; [exact Ht | by intros ? | intros ?]).
    apply keeps_bind; [exact Ht | apply Hs, steady_hook | intros ?].
    apply keeps_bind; [exact Ht | by intros ? | intros ?]. by intros ?. }
  apply H.
Qed.

Lemma perf_fire event args elapsed w :
  wf w → disposed (emitter w) = false →
  _perfMonitor (emitter (fire event args elapsed w).1)
  = measured (size (emitter w)) elapsed <$> _perfMonitor (emitter w).
Proof.
  intros Hw Hd. unfold fire. rewrite bind_this, Hd, bind_assign.
  change (Build_World _ _ _ _) with (window_open w).
  assert (Hw0 : wf (window_open w)) by (by apply (wf_assign _ w)).
  assert (H : ∃ w1, when (0 <? size (emitter w))
                      (deliver_each (get event (_listeners (emitter w))) event args)
                      (window_open w) = (w1, Normal tt)
                    ∧ steady (window_open w) w1).
  { pose proof (keeps_when steady steady_refl (0 <? size (emitter w)) _
                  (steady_deliver_each (get event (_listeners (emitter w))) event args)
                  (window_open w)) as Hs.
    destruct (0 <? size (emitter w)); simpl in *.
    - destruct (deliver_each_spec event args (get event (_listeners (emitter w)))
                  (window_open w) Hw0 Hd (get_NoDup event w Hw)) as (w1 & Hr & _); [done|].
      exists w1. rewrite Hr in *. done.
    - eexists. split; [done|]. apply steady_refl. }
  destruct H as (w1 & Hr & [Hp _]). unfold bind. rewrite Hr. simpl. rewrite Hp. simpl.
  by destruct (_perfMonitor (emitter w)).
Qed.



End Profile.

(** ** Registering and removing listeners *)

Section Registry.

Lemma no_calls_refl w : no_calls w w.
Proof. exists []. by rewrite app_nil_r. Qed.

Lemma no_calls_trans w w1 w2 : no_calls w w1 → no_calls w1 w2 → no_calls w w2.
Proof.
  intros (tr1 & E1 & H1) (tr2 & E2 & H2). exists (tr1 ++ tr2).
  rewrite E2, E1, app_assoc. split; [done|]. by rewrite forallb_app, H1, H2.
Qed.

Lemma calm_refl w : calm w w.
Proof. repeat split. apply no_calls_refl. Qed.

Lemma calm_trans w w1 w2 : calm w w1 → calm w1 w2 → calm w w2.
Proof.
  intros (? & ? & ? & ?) (? & ? & ? & ?). repeat split; try congruence.
  by eapply no_calls_trans.
Qed.

Lemma calm_emit e : is_Invoked e = false → keeps calm (emit e).
Proof. intros H w. repeat split. exists [e]. split; [done|]. simpl. by rewrite H. Qed.

Lemma calm_hook h : keeps calm (call_hook h).
Proof.
  unfold call_hook. apply keeps_bind; [apply calm_trans | apply keeps_this, calm_refl | intros e].
  apply keeps_when; [apply calm_refl | by apply calm_emit].
Qed.

Lemma calm_debug_dump : keeps calm debug_dump.
Proof.
  intros w. destruct (debug_dump_log w) as (tr & -> & Hc). repeat split.
  exists tr. split; [done|]. revert Hc. apply forallb_impl. by intros [].
Qed.

Lemma calm_when_hook b h : keeps calm (when b (call_hook h)).
Proof. apply keeps_when; [apply calm_refl | apply calm_hook]. Qed.

Lemma forallb_not_Invoked_Released (l : list Disposable.Leaf) :
  forallb (λ e, negb (is_Invoked e)) (map (λ d, Released (Disposable.leaf_id d)) l) = true.
Proof. by induction l. Qed.

Lemma checkLeakageBeforeAdd_accepts w :
  accepts (emitter w) = true → _checkLeakageBeforeAdd w = (w, Normal true).
Proof.
  unfold accepts, _checkLeakageBeforeAdd. rewrite bind_this.
  destruct (disposed (emitter w)); [done|]. simpl.
  destruct (_leakageMonitor (emitter w)) as [lm|]; [|done].
  by destruct (Qlt_bool _ _).
Qed.

Lemma check_no_calls stack lc lm :
  forallb (λ e, negb (is_Invoked e)) (check stack lc lm []).1.2 = true.
Proof.
  unfold check. destruct (_ || _); [done|]. destruct (Qle_bool _ _); [|done].
  destruct (default _ _) as [ts tc]. simpl. by destruct (handler lm).
Qed.

(** What a registration that is accepted does. *)
Lemma addListener_spec event listener thisArg once options callSite w :
  exists_listener listener w = true → accepts (emitter w) = true →
  ∃ w1 rmonitor c lm,
    _addListener event listener thisArg once options callSite w
    = (w1, Normal (Registration rmonitor c event))
    ∧ id c = uci w
    ∧ value c = listener_Event listener w
    ∧ emitter w1
      = set_size (size (emitter w) + 1)
          (set_listeners (add event c (_listeners (emitter w)))
             (set_leakageMonitor lm (emitter w)))
    ∧ events w1
      = events w ++ match listener with
                    | Function f => [wrapper f thisArg once options]
                    | Instance _ => []
                    end
    ∧ uci w1 = S (uci w)
    ∧ no_calls w w1.
Proof.
  intros Hex Hacc. unfold _addListener.
  assert (H : ∀ l w0, emitter w0 = emitter w → uci w0 = uci w → trace w0 = trace w →
    ∃ w1 rmonitor c lm,
      (ok <- _checkLeakageBeforeAdd ;;
       if negb ok then ret NoneHandle
       else
         e <- this ;;
         if disposed e then ret NoneHandle
         else
           c <- construct_UniqueContainer l ;;
           gate <- match _leakageMonitor e with
                   | Some lm =>
                       if Qceiling (threshold lm * (2 # 10)) <=? size e then
                         let '(lm1, tr1, rmonitor) := check callSite (size e + 1) lm [] in
                         assign (set_leakageMonitor (Some lm1)) ;;
                         (λ w, (log tr1 w, Normal tt)) ;;
                         ret ({| stack := Some callSite; id := id c; value := value c |}, rmonitor)
                       else ret (c, None)
                   | None => ret (c, None)
                   end ;;
           let '(containedListener, rmonitor) := gate in
           when (size e =? 0) (call_hook onWillAddFirstListener) ;;
           assign (λ e, set_listeners (add event containedListener (_listeners e)) e) ;;
           assign (set_size (size e + 1)) ;;
           when (size e + 1 =? 1) (call_hook onDidAddFirstListener) ;;
           call_hook onDidAddListener ;;
           ret (Registration rmonitor containedListener event)) w0
      = (w1, Normal (Registration rmonitor c event))
      ∧ id c = uci w ∧ value c = l
      ∧ emitter w1
        = set_size (size (emitter w) + 1)
            (set_listeners (add event c (_listeners (emitter w)))
               (set_leakageMonitor lm (emitter w)))
      ∧ events w1 = events w0 ∧ uci w1 = S (uci w) ∧ no_calls w w1).
  { clear Hex. intros l w0 He0 Hu0 Ht0.
    assert (Hd : disposed (emitter w) = false).
    { unfold accepts in Hacc. by destruct (disposed (emitter w)). }
    unfold bind at 1. rewrite checkLeakageBeforeAdd_accepts by by rewrite He0.
    change (negb true) with false. cbv iota. rewrite bind_this, He0, Hd.
    unfold bind at 1. unfold construct_UniqueContainer at 1. rewrite Hu0.
    set (c := {| stack := None; id := uci w; value := l |}).
    set (w2 := Build_World _ _ _ _).
    assert (Htail : ∀ c' rmonitor lm w3,
      id c' = uci w → value c' = l →
      emitter w3 = set_leakageMonitor lm (emitter w) →
      uci w3 = S (uci w) → events w3 = events w0 → no_calls w w3 →
      ∃ w1,
        (when (size (emitter w) =? 0) (call_hook onWillAddFirstListener) ;;
         assign (λ e, set_listeners (add event c' (_listeners e)) e) ;;
         assign (set_size (size (emitter w) + 1)) ;;
         when (size (emitter w) + 1 =? 1) (call_hook onDidAddFirstListener) ;;
         call_hook onDidAddListener ;;
         ret (Registration rmonitor c' event)) w3
        = (w1, Normal (Registration rmonitor c' event))
        ∧ emitter w1
          = set_size (size (emitter w) + 1)
              (set_listeners (add event c' (_listeners (emitter w)))
                 (set_leakageMonitor lm (emitter w)))
        ∧ events w1 = events w0 ∧ uci w1 = S (uci w) ∧ no_calls w w1).
    { intros c' rmonitor lm w3 Hid Hv He3 Hu3 Hev3 Hn3.
      rewrite bind_inert by auto with inert.
      destruct (calm_when_hook (size (emitter w) =? 0) onWillAddFirstListener w3)
        as (Hev4 & Hu4 & He4 & Hn4).
      set (w4 := (when _ _ w3).1) in *.
      rewrite !bind_assign. set (w5 := Build_World _ _ _ _).
      rewrite bind_inert by auto with inert.
      destruct (calm_when_hook (size (emitter w) + 1 =? 1) onDidAddFirstListener w5)
        as (Hev6 & Hu6 & He6 & Hn6).
      set (w6 := (when _ _ w5).1) in *.
      rewrite bind_inert by auto with inert.
      destruct (calm_hook onDidAddListener w6) as (Hev7 & Hu7 & He7 & Hn7).
      set (w7 := (call_hook _ w6).1) in *.
      exists w7. split; [done|]. split; [|split; [|split]].
      - rewrite He7, He6. subst w5. simpl. by rewrite He4, He3.
      - rewrite Hev7, Hev6. subst w5. simpl. by rewrite Hev4.
      - rewrite Hu7, Hu6. subst w5. simpl. by rewrite Hu4.
      - eapply no_calls_trans; [exact Hn3|]. eapply no_calls_trans; [exact Hn4|].
        eapply no_calls_trans; [|exact Hn7]. eapply no_calls_trans; [|exact Hn6].
        subst w5. exists []. simpl. by rewrite app_nil_r. }
    assert (Hn2 : no_calls w w2).
    { exists []. subst w2. simpl. by rewrite Ht0, app_nil_r. }
    destruct (_leakageMonitor (emitter w)) as [lm|] eqn:Hlm.
    - destruct (Qceiling _ <=? _).
      + pose proof (check_no_calls callSite (size (emitter w) + 1) lm) as Hck.
        destruct (check _ _ _ _) as [[lm1 tr1] rmonitor]. simpl in Hck.
        rewrite bind_assoc, bind_assign, bind_assoc.
        unfold bind at 1. unfold bind at 1. unfold ret at 1.
        set (c' := {| stack := Some callSite; id := id c; value := value c |}).
        set (w3 := log tr1 _).
        destruct (Htail c' rmonitor (Some lm1) w3) as (w1 & Hr & ?); try done.
        { subst w3 w2. simpl. by rewrite He0. }
        { eapply no_calls_trans; [exact Hn2|]. by exists tr1. }
        by exists w1, rmonitor, c', (Some lm1).
      + unfold bind at 1. unfold ret at 1.
        destruct (Htail c None (Some lm) w2) as (w1 & Hr & ?); try done.
        { subst w2. simpl. rewrite He0. destruct (emitter w). simpl in *. by subst. }
        by exists w1, None, c, (Some lm).
    - unfold bind at 1. unfold ret at 1.
      destruct (Htail c None None w2) as (w1 & Hr & ?); try done.
      { subst w2. simpl. rewrite He0. destruct (emitter w). simpl in *. by subst. }
      by exists w1, None, c, None. }
  destruct listener as [f|i].
  - unfold bind at 1. unfold construct_Event at 1.
    destruct (H (length (events w)) (Build_World (events w ++ [new_Event f
                (Some {| Events.thisArg := thisArg;
                         Events.once := Some once;
                         Events.disposables := default [] (toDisposeWithEvent <$> options);
                         Events.cancelable :=
                           Some (default false (options ≫= listen_cancelable)) |})])
              (uci w) (emitter w) (trace w)))
      as (w1 & rm & c & lm & Hr & ?); try done.
    by exists w1, rm, c, lm.
  - unfold bind at 1. unfold ret at 1.
    destruct (H i w) as (w1 & rm & c & lm & Hr & Hid & Hv & He & Hev & ?); try done.
    exists w1, rm, c, lm. rewrite Hev, app_nil_r. done.
Qed.

End Registry.

(** ** Refusal of registrations *)

Section Refusal.

Lemma refused event listener thisArg once options callSite w lm :
  _leakageMonitor (emitter w) = Some lm →
  (double_square (threshold lm) < inject_Z (listenersCount None (emitter w)))%Q →
  ∃ w1, _addListener event listener thisArg once options callSite w = (w1, Normal NoneHandle)
        ∧ emitter w1 = emitter w
        ∧ trace w1
          = trace w
            ++ (if no_debug (_options (emitter w)) then []
                else [ConsoleWarn (RefusesListeners (size (emitter w)) (threshold lm))])
            ++ [if custom_handler (_options (emitter w))
                then HandlerCalled (refusal (emitter w) lm)
                else Escalated (refusal (emitter w) lm)].
Proof.
  intros Hlm Hlt. unfold listenersCount, truthy in Hlt. cbn [falsy] in Hlt.
  destruct (disposed (emitter w)) eqn:Hd.
  { exfalso. exact (Qlt_not_le _ _ Hlt (double_square_nonneg _)). }
  apply Qlt_bool_true in Hlt.
  unfold _addListener, _checkLeakageBeforeAdd, bind, this, ret, when, emit, handle_error.
  destruct listener as [f|i]; cbn -[double_square Qlt_bool]; rewrite Hd, Hlm, Hlt;
    destruct (no_debug (_options (emitter w))); simpl;
    eexists; (split; [reflexivity|]); simpl; rewrite <- ?app_assoc; done.
Qed.

Lemma accepted event listener thisArg once options callSite w lm :
  exists_listener listener w = true →
  disposed (emitter w) = false →
  _leakageMonitor (emitter w) = Some lm →
  (inject_Z (size (emitter w)) <= double_square (threshold lm))%Q →
  ∃ w1 rmonitor c,
    _addListener event listener thisArg once options callSite w
    = (w1, Normal (Registration rmonitor c event)).
Proof.
  intros Hex Hd Hlm Hle. apply Qlt_bool_false in Hle.
  destruct (addListener_spec event listener thisArg once options callSite w Hex)
    as (w1 & rmonitor & c & _ & Hr & _).
  { unfold accepts. by rewrite Hd, Hlm, Hle. }
  by exists w1, rmonitor, c.
Qed.

(** C8, as the design document has it, at an emitter whose threshold
    is the double [Math.sqrt(11)] and which holds eleven listeners:
    eleven exceeds the square of that threshold, but the square the
    code computes is the double 11, and the twelfth listener is
    registered. *)
Lemma registration_accepted_above_threshold_squared :
  let t := (1867093771246541 # 562949953421312)%Q in
  let l := Function {| cb_id := 1; cb_run := λ _ _, Returns VUndefined |} in
  let o := Some {| _profName := None; noDebug := false; leakWarningThreshold := Some t;
                   hooks := λ _, false; onListenerError := true |} in
  let w := run (repeat (On (KString "test") l None None "site") 11) (new_World o) in
  ∃ lm w1 rmonitor c,
    _leakageMonitor (emitter w) = Some lm
    ∧ threshold lm = t
    ∧ (threshold lm ^ 2 < inject_Z (listenersCount None (emitter w)))%Q
    ∧ on (KString "test") l None None "site" w
      = (w1, Normal (Registration rmonitor c (KString "test")))
    ∧ listenersCount None (emitter w1) = listenersCount None (emitter w) + 1.
Proof.
  vm_compute. eexists _, _, _, _. repeat split; reflexivity.
Qed.

(** C8, amended: when the count of an emitter with a leakage monitor
    exceeds the square of the threshold as the code computes it, a
    double, [on] and [once] register nothing and leave the emitter as
    it is; the error handler of the options is called once with an
    [ERR_LISTENER_REFUSAL] exception or, when the options have none,
    the exception is escalated through [onUnexpected]; the handle
    handed back is [Disposable.None].  A registration made while the
    count does not exceed that double is not refused.  The double is
    the square itself when the threshold is a whole number up to
    [2 ^ 26]. *)
Theorem registration_refused_above_threshold_squared
    (w : World) (lm : LeakageMonitor) (event : EventKey) (listener : Listener)
    (thisArg : option Object) (options : option ListenOptions) (callSite : string) :
  _leakageMonitor (emitter w) = Some lm →
  ∀ register, register = on ∨ register = once →
  ((double_square (threshold lm) < inject_Z (listenersCount None (emitter w)))%Q →
   ∃ w1 pre err,
     register event listener thisArg options callSite w = (w1, Normal NoneHandle)
     ∧ emitter w1 = emitter w
     ∧ listenersCount None (emitter w1) = listenersCount None (emitter w)
     ∧ trace w1
       = trace w ++ pre
         ++ [if custom_handler (_options (emitter w)) then HandlerCalled err else Escalated err]
     ∧ (∀ eff, In eff pre → ∃ m, eff = ConsoleWarn m)
     ∧ thrown_is err ERR_LISTENER_REFUSAL = true
     ∧ Handle_dispose NoneHandle w1 = (w1, Normal tt))
  ∧ (exists_listener listener w = true → disposed (emitter w) = false →
     (inject_Z (size (emitter w)) <= double_square (threshold lm))%Q →
     ∃ w1 rmonitor c,
       register event listener thisArg options callSite w
       = (w1, Normal (Registration rmonitor c event)))
  ∧ (∀ n : Z, 0 < n ≤ 2 ^ 26 → threshold lm = inject_Z n →
     (double_square (threshold lm) == inject_Z (n * n))%Q).
Proof.
  intros Hlm register Hr. split; [|split].
  - intros Hlt.
    assert (H : ∃ w1, register event listener thisArg options callSite w = (w1, Normal NoneHandle)
          ∧ emitter w1 = emitter w
          ∧ trace w1
            = trace w
              ++ (if no_debug (_options (emitter w)) then []
                  else [ConsoleWarn (RefusesListeners (size (emitter w)) (threshold lm))])
              ++ [if custom_handler (_options (emitter w))
                  then HandlerCalled (refusal (emitter w) lm)
                  else Escalated (refusal (emitter w) lm)]).
    { destruct Hr as [-> | ->]; eapply refused; done. }
    destruct H as (w1 & Hw & He & Ht).
    exists w1, (if no_debug (_options (emitter w)) then []
                else [ConsoleWarn (RefusesListeners (size (emitter w)) (threshold lm))]),
      (refusal (emitter w) lm).
    rewrite He. repeat split; try done.
    intros eff. destruct (no_debug _); simpl; [done|]. intros [<-|[]]. eauto.
  - intros Hex Hd Hle. destruct Hr as [-> | ->]; by eapply accepted.
  - intros n Hn ->. by apply double_square_whole.
Qed.

(** C8, amended, at an emitter with threshold 1: with two listeners
    the third is refused, with one listener the second is accepted. *)
Lemma registration_refused_above_threshold_squared_witness :
  let l := Function {| cb_id := 1; cb_run := λ _ _, Returns VUndefined |} in
  let o := Some {| _profName := None; noDebug := false; leakWarningThreshold := Some 1%Q;
                   hooks := λ _, false; onListenerError := true |} in
  let w0 := run [On (KString "test") l None None "site"] (new_World o) in
  let w := run [On (KString "test") l None None "site"; On (KString "test") l None None "site"]
             (new_World o) in
  let lm0 := {| _stacks := None; _warnCountdown := 0%Q; threshold := 1%Q; handler := true |} in
  let lm := {| _stacks := Some [("site"%string, 1)]; _warnCountdown := (1 / 2)%Q;
               threshold := 1%Q; handler := true |} in
  (_leakageMonitor (emitter w) = Some lm
   ∧ (double_square (threshold lm) < inject_Z (listenersCount None (emitter w)))%Q
   ∧ ∃ w1 pre err,
       on (KString "test") l None None "site" w = (w1, Normal NoneHandle)
       ∧ emitter w1 = emitter w
       ∧ listenersCount None (emitter w1) = listenersCount None (emitter w)
       ∧ trace w1
         = trace w ++ pre
           ++ [if custom_handler (_options (emitter w)) then HandlerCalled err else Escalated err]
       ∧ (∀ eff, In eff pre → ∃ m, eff = ConsoleWarn m)
       ∧ thrown_is err ERR_LISTENER_REFUSAL = true
       ∧ Handle_dispose NoneHandle w1 = (w1, Normal tt))
  ∧ (_leakageMonitor (emitter w0) = Some lm0
     ∧ exists_listener l w0 = true
     ∧ disposed (emitter w0) = false
     ∧ (inject_Z (size (emitter w0)) <= double_square (threshold lm0))%Q
     ∧ ∃ w1 rmonitor c,
         once (KString "test") l None None "site" w0
         = (w1, Normal (Registration rmonitor c (KString "test"))))
  ∧ (0 < 1 ≤ 2 ^ 26
     ∧ threshold lm = inject_Z 1
     ∧ (double_square (threshold lm) == inject_Z (1 * 1))%Q).
Proof.
  intros l o w0 w lm0 lm.
  assert (Hlm : _leakageMonitor (emitter w) = Some lm) by (vm_compute; reflexivity).
  assert (Hlt : (double_square (threshold lm) < inject_Z (listenersCount None (emitter w)))%Q)
    by (vm_compute; reflexivity).
  assert (Hlm0 : _leakageMonitor (emitter w0) = Some lm0) by (vm_compute; reflexivity).
  assert (Hle : (inject_Z (size (emitter w0)) <= double_square (threshold lm0))%Q)
    by (vm_compute; discriminate).
  assert (Hn : 0 < 1 ≤ 2 ^ 26) by (vm_compute; split; [reflexivity | discriminate]).
  split; [|split].
  - split; [exact Hlm|]. split; [exact Hlt|].
    exact (proj1 (registration_refused_above_threshold_squared w lm
                    (KString "test") l None None "site" Hlm on (or_introl eq_refl)) Hlt).
  - split; [exact Hlm0|]. split; [reflexivity|]. split; [reflexivity|]. split; [exact Hle|].
    exact (proj1 (proj2 (registration_refused_above_threshold_squared w0 lm0
                    (KString "test") l None None "site" Hlm0 once (or_intror eq_refl)))
             eq_refl eq_refl Hle).
  - split; [exact Hn|]. split; [reflexivity|].
    exact (proj2 (proj2 (registration_refused_above_threshold_squared w lm
                    (KString "test") l None None "site" Hlm on (or_introl eq_refl)))
             1 Hn eq_refl).
Defined.

End Refusal.

(** ** Disposal of listeners *)

Section Disposal.

Lemma Event_dispose_fst e tr : (Events.Event_dispose e tr).1.1 = disposed_Event e.
Proof.
  unfold disposed_Event, Events.Event_dispose.
  destruct (Events.isDisposed (Events.Event_cancel e)); [done|].
  by rewrite !dispose_spec.
Qed.

Lemma Event_dispose_no_calls e tr :
  ∃ tr1, (Events.Event_dispose e tr).1.2 = tr ++ tr1
         ∧ forallb (λ e, negb (is_Invoked e)) tr1 = true.
Proof.
  rewrite Event_dispose_trace. eexists. split; [done|].
  destruct (Events.isDisposed e); [done|]. apply forallb_not_Invoked_Released.
Qed.

Lemma disposed_Event_disposed e : Events.isDisposed (disposed_Event e) = true.
Proof. apply Event_dispose_disposed. Qed.

Lemma disposed_Event_kListener e : kListener (disposed_Event e) = kListener e.
Proof.
  unfold disposed_Event, Events.Event_dispose, Events.Event_cancel.
  destruct (Events.isDisposed e) eqn:Hd; [by rewrite Hd|].
  destruct (_source e) as [s|]; [destruct (Cancellation.cancel s)|]; simpl; rewrite Hd;
    by destruct (Disposable.dispose _ _).
Qed.

Lemma disposed_Event_again e : Events.isDisposed e = true → disposed_Event e = e.
Proof.
  intros Hd. unfold disposed_Event, Events.Event_dispose, Events.Event_cancel. by rewrite Hd, Hd.
Qed.

Lemma dispose_Event_spec i w :
  still w →
  ∃ w1, dispose_Event i w = (w1, Normal tt)
        ∧ emitter w1 = emitter w ∧ uci w1 = uci w
        ∧ events w1 = alter disposed_Event i (events w)
        ∧ no_calls w w1
        ∧ still w1.
Proof.
  intros Hst. destruct (dispose_Event_still i w Hst) as [Hr Hst1]. revert Hr Hst1.
  unfold dispose_Event. destruct (events w !! i) as [e|] eqn:E.
  - pose proof (Event_dispose_fst e (trace w)) as H1.
    pose proof (Event_dispose_no_calls e (trace w)) as H2.
    destruct (Events.Event_dispose e (trace w)) as [[e1 tr1] r]. simpl in *.
    intros -> Hst1.
    eexists. split; [done|]. simpl. repeat split; [|done|done].
    subst e1. apply list_eq. intros j. destruct (decide (j = i)) as [->|Hne].
    + rewrite list_lookup_insert_eq by by eapply lookup_lt_Some.
      by rewrite list_lookup_alter_eq, E.
    + by rewrite list_lookup_insert_ne, list_lookup_alter_ne.
  - intros _ _. exists w. repeat split; [|apply no_calls_refl|done].
    apply list_eq. intros j. destruct (decide (j = i)) as [->|Hne].
    + by rewrite list_lookup_alter_eq, E.
    + by rewrite list_lookup_alter_ne.
Qed.

Lemma dispose_each_events vs : ∀ w,
  still w →
  ∃ w1, dispose_each vs w = (w1, Normal tt)
        ∧ emitter w1 = emitter w ∧ uci w1 = uci w
        ∧ events w1 = disposed_Events vs (events w)
        ∧ no_calls w w1
        ∧ still w1.
Proof.
  induction vs as [|c vs IH]; intros w Hst; simpl.
  - exists w. repeat split; [apply no_calls_refl|done].
  - destruct (dispose_Event_spec (value c) w Hst) as (w1 & Hr & He & Hu & Hev & Hn & Hst1).
    unfold bind. rewrite Hr.
    destruct (IH w1 Hst1) as (w2 & Hr2 & He2 & Hu2 & Hev2 & Hn2 & Hst2).
    exists w2. split; [done|]. split; [congruence|]. split; [congruence|].
    split; [by rewrite Hev2, Hev|]. split; [by eapply no_calls_trans | done].
Qed.

Lemma disposed_Events_length vs : ∀ evs, length (disposed_Events vs evs) = length evs.
Proof.
  induction vs as [|c vs IH]; intros evs; simpl; [done|]. by rewrite IH, length_alter.
Qed.

Lemma disposed_Events_lookup vs : ∀ evs i e,
  evs !! i = Some e →
  ∃ e1, disposed_Events vs evs !! i = Some e1
        ∧ kListener e1 = kListener e
        ∧ (Events.isDisposed e = true → e1 = e)
        ∧ (i ∈ map value vs → Events.isDisposed e1 = true)
        ∧ (i ∉ map value vs → e1 = e).
Proof.
  induction vs as [|c vs IH]; intros evs i e He; simpl.
  - exists e. repeat split; try done. by intros ?%elem_of_nil.
  - destruct (decide (i = value c)) as [->|Hne].
    + destruct (IH (alter disposed_Event (value c) evs) (value c) (disposed_Event e))
        as (e1 & Hl & Hk & Hd & _ & _).
      { by rewrite list_lookup_alter_eq, He. }
      specialize (Hd (disposed_Event_disposed e)). subst e1.
      exists (disposed_Event e). split; [done|]. split; [apply disposed_Event_kListener|].
      split; [apply disposed_Event_again|]. split; [intros _; apply disposed_Event_disposed|].
      intros H. exfalso. apply H. by left.
    + destruct (IH (alter disposed_Event (value c) evs) i e) as (e1 & Hl & Hk & Hd & Hin & Hout).
      { by rewrite list_lookup_alter_ne. }
      exists e1. repeat split; try done.
      * intros [?|?]%elem_of_cons; [done | by apply Hin].
      * intros H. apply Hout. intros ?. apply H. by right.
Qed.

(** What the removal of a registered listener does. *)
Lemma removeUniqueListener_found c event w :
  still w →
  disposed (emitter w) = false → size (emitter w) ≠ 0 →
  (removal c event (_listeners (emitter w))).2 = true →
  ∃ w1, _removeUniqueListener c event w = (w1, Normal tt)
        ∧ emitter w1
          = set_size (size (emitter w) - 1)
              (set_listeners (removal c event (_listeners (emitter w))).1 (emitter w))
        ∧ uci w1 = uci w
        ∧ events w1 = alter disposed_Event (value c) (events w)
        ∧ no_calls w w1.
Proof.
  intros Hst Hd Hs Hf. unfold _removeUniqueListener. rewrite bind_this, Hd.
  rewrite bind_inert by auto with inert.
  destruct (calm_hook onWillRemoveListener w) as (Hev1 & Hu1 & He1 & Hn1).
  set (w1 := (call_hook _ w).1) in *.
  assert ((size (emitter w) =? 0) = false) as -> by by apply Z.eqb_neq.
  unfold removal in Hf |- *.
  assert (Hrest : ∀ m1 w2,
    emitter w2 = set_listeners m1 (emitter w) → uci w2 = uci w → events w2 = events w →
    no_calls w w2 →
    ∃ w3, (dispose_Event (value c) ;;
           assign (set_size (size (emitter w) - 1)) ;;
           when (size (emitter w) - 1 =? 0) (call_hook onDidRemoveLastListener)) w2
          = (w3, Normal tt)
          ∧ emitter w3 = set_size (size (emitter w) - 1) (set_listeners m1 (emitter w))
          ∧ uci w3 = uci w
          ∧ events w3 = alter disposed_Event (value c) (events w)
          ∧ no_calls w w3).
  { intros m1 w2 He2 Hu2 Hev2 Hn2.
    assert (Hst2 : still w2) by (unfold still; by rewrite Hev2).
    destruct (dispose_Event_spec (value c) w2 Hst2) as (w3 & Hr3 & He3 & Hu3 & Hev3 & Hn3 & _).
    unfold bind at 1. rewrite Hr3. rewrite bind_assign. set (w4 := Build_World _ _ _ _).
    destruct (calm_when_hook (size (emitter w) - 1 =? 0) onDidRemoveLastListener w4)
      as (Hev5 & Hu5 & He5 & Hn5).
    destruct (inert_when (size (emitter w) - 1 =? 0) _ (inert_hook onDidRemoveLastListener) w4)
      as [Hr5 _].
    destruct (when _ _ w4) as [w5 r5]. simpl in *. subst r5.
    exists w5. split; [done|]. split; [|split; [|split]].
    - rewrite He5. subst w4. simpl. by rewrite He3, He2.
    - rewrite Hu5. subst w4. simpl. congruence.
    - rewrite Hev5. subst w4. simpl. by rewrite Hev3, Hev2.
    - eapply no_calls_trans; [exact Hn2|]. eapply no_calls_trans; [exact Hn3|].
      eapply no_calls_trans; [|exact Hn5]. subst w4. exists []. simpl. by rewrite app_nil_r. }
  destruct (truthy event) as [k|].
  - destruct (delete k c (_listeners (emitter w))) as [m1 r] eqn:Hdel. simpl in Hf. subst r.
    rewrite bind_assoc, bind_assign. unfold bind at 1. unfold ret at 1.
    apply Hrest; simpl; try done. by rewrite He1.
  - destruct (delete_first c _ _) as [m1 r] eqn:Hdel. simpl in Hf. subst r.
    rewrite bind_assoc, bind_assign. unfold bind at 1. unfold ret at 1.
    apply Hrest; simpl; try done. by rewrite He1.
Qed.

End Disposal.

(** ** [Emitter.dispose] *)

Section Lifetime.

Lemma store_fire event args elapsed w :
  _disposables (emitter (fire event args elapsed w).1) = _disposables (emitter w).
Proof.
  assert (H : keeps (λ w w1, _disposables (emitter w1) = _disposables (emitter w))
                (fire event args elapsed)).
  { assert (Ht : ∀ w0 w1 w2 : World,
                 _disposables (emitter w1) = _disposables (emitter w0) →
                 _disposables (emitter w2) = _disposables (emitter w1) →
                 _disposables (emitter w2) = _disposables (emitter w0)) by (intros; congruence).
    unfold fire. apply keeps_bind; [exact Ht | by intros ? | intros e].
    destruct (disposed e); [by intros ?|].
    apply keeps_bind; [exact Ht | by intros ? | intros ?].
    apply keeps_bind; [exact Ht | | intros ?; by intros ?].
    intros w0. apply (keeps_when steady steady_refl), steady_deliver_each. }
  apply H.
Qed.

Lemma store_empty_exec w op :
  Disposable.toDispose (_disposables (emitter w)) = [] →
  Disposable.toDispose (_disposables (emitter (exec w op))) = [].
Proof.
  intros H. destruct op; simpl; unfold on, once.
  - destruct (exists_listener _ _); [|done].
    by rewrite (proj2 (steady_addListener _ _ _ _ _ _ w)).
  - destruct (exists_listener _ _); [|done].
    by rewrite (proj2 (steady_addListener _ _ _ _ _ _ w)).
  - destruct (exists_listener _ _); [|done]. by rewrite (proj2 (steady_off _ _ w)).
  - by rewrite (proj2 (steady_Handle_dispose _ w)).
  - by rewrite (proj2 (steady_clear _ w)).
  - by rewrite store_fire.
  - unfold dispose. rewrite bind_this. destruct (disposed (emitter w)); [done|].
    unfold bind at 1.
    assert (Hs : ∃ d, Disposable.DisposableStore_dispose (_disposables (emitter w)) (trace w)
                      = (d, trace w, Normal tt) ∧ Disposable.toDispose d = []).
    { destruct (_disposables (emitter w)) as [ds dis]. simpl in H. subst ds.
      unfold Disposable.DisposableStore_dispose, Disposable.DisposableStore_clear.
      destruct dis; simpl; by eexists. }
    destruct Hs as (d & -> & Hd).
    match goal with
    | |- context [?rest ?w0] =>
        match type of w0 with World =>
          assert (Hk : keeps steady rest); [|by rewrite (proj2 (Hk w0))]
        end
    end.
    apply keeps_bind; [apply steady_trans | apply steady_dispose_each | intros ?].
    repeat (apply keeps_bind;
            [apply steady_trans
            |first [apply steady_hook | apply steady_assign; by intros ?]
            |intros ?]).
    apply steady_assign. by intros ?.
  - done.
  - by rewrite (proj2 (steady_call_Event _ _ w)).
  - by rewrite (proj2 (steady_cancel_Event _ w)).
  - by rewrite (proj2 (steady_dispose_Event _ w)).
Qed.

Lemma store_empty_run ops : ∀ w,
  Disposable.toDispose (_disposables (emitter w)) = [] →
  Disposable.toDispose (_disposables (emitter (run ops w))) = [].
Proof.
  induction ops as [|op ops IH]; intros w H; [done|]. simpl. by apply IH, store_empty_exec.
Qed.



End Lifetime.

(** ** Handles *)

Section Handles.

Lemma get_add k c m :
  Set_has c (get k m) = false → get k (add k c m) = get k m ++ [c].
Proof.
  unfold add, get. destruct (Map_get k m) as [vs|] eqn:E; simpl.
  - intros H. rewrite (Map_get_set_eq k _ vs m E). simpl. unfold Set_add. by rewrite H.
  - intros _. assert (Map_get k (Map_set k [c] m) = Some [c]) as ->; [|done].
    clear -E. induction m as [|[k0 vs0] m IH]; simpl in *.
    + assert (EventKey_eqb k k = true) as -> by by apply EventKey_eqb_eq. done.
    + destruct (EventKey_eqb k0 k) eqn:Ek; [done|]. simpl. rewrite Ek. by apply IH.
Qed.

Lemma get_add_ne k k' c m : k ≠ k' → get k' (add k c m) = get k' m.
Proof.
  intros Hne. unfold add, get. destruct (Map_get k m); by rewrite Map_get_set_ne.
Qed.

Lemma removal_finds c k event m :
  c ∈ get k m → event = Some k ∨ falsy event = true → (removal c event m).2 = true.
Proof.
  intros Hc Hev. unfold removal, truthy. destruct (falsy event) eqn:Ef.
  - apply registered_finds with k. by apply elem_Set_has.
  - destruct Hev as [->|?]; [|done]. rewrite delete_found. by apply elem_Set_has.
Qed.

Lemma removal_takes_out c event w w1 :
  wf w → c ∈ registered w →
  (removal c event (_listeners (emitter w))).2 = true →
  _listeners (emitter w1) = (removal c event (_listeners (emitter w))).1 →
  registered w ≡ₚ c :: registered w1.
Proof.
  intros Hw Hc Hf Hl. pose proof (removal_values c event (_listeners (emitter w))) as H.
  destruct (removal c event (_listeners (emitter w))) as [m1 found]. simpl in *. subst found.
  destruct H as (c' & Hid & Hin & Hp).
  assert (c' = c) as -> by (eapply NoDup_id_inj; [apply (wf_ids _ Hw)|done..]).
  unfold registered. by rewrite Hl.
Qed.



End Handles.

(** ** [Emitter.off] and [Emitter.clear] *)

Section Removing.

Lemma find_listener_Some f evs set c :
  find_listener f evs set = Some c →
  c ∈ set ∧ ∃ e, evs !! value c = Some e ∧ cb_id (kListener e) = f.
Proof.
  induction set as [|uc set IH]; [done|]. simpl.
  destruct (evs !! value uc) as [e|] eqn:E.
  - destruct (Nat.eqb_spec (cb_id (kListener e)) f) as [He|He].
    + intros [= <-]. split; [by left | by exists e].
    + intros H. destruct (IH H) as [Hin Hex]. split; [by right | done].
  - intros H. destruct (IH H) as [Hin Hex]. split; [by right | done].
Qed.

Lemma find_listener_app f evs more set :
  (∀ c, c ∈ set → (value c < length evs)%nat) →
  find_listener f (evs ++ more) set = find_listener f evs set.
Proof.
  induction set as [|uc set IH]; intros H; [done|]. simpl.
  rewrite lookup_app_l by (apply H; by left).
  rewrite IH by (intros c Hc; apply H; by right). done.
Qed.





End Removing.

(** ** [Emitter.fire] *)

Section Delivery.

Lemma call_trace args e tr :
  call args e tr = ((call args e []).1.1, tr ++ invocation args e, (call args e []).2).
Proof.
  unfold invocation, call. destruct (Events.isDisposed e); [by rewrite app_nil_r|].
  destruct (once_set _ && _); [by rewrite app_nil_r|].
  by destruct (match refreshed_source e with Some _ => _ | None => _ end).
Qed.

Lemma invocation_spec args e :
  invocation args e
  = if spent e then []
    else [Invoked (cb_id (kListener e)) (Events._options e ≫= Events.thisArg) args
            match refreshed_source e with
            | Some s => (token s).1
            | None => TokenNone
            end].
Proof.
  unfold invocation, spent, call. destruct (Events.isDisposed e); [done|]. simpl.
  destruct (once_set _ && _); [done|].
  destruct (refreshed_source e) as [s|]; [|done]. by destruct (token s).
Qed.

Lemma filter_invocation args e : List.filter is_Invoked (invocation args e) = invocation args e.
Proof. rewrite invocation_spec. by destruct (spent e). Qed.

Lemma filter_no_calls tr :
  forallb (λ e, negb (is_Invoked e)) tr = true → List.filter is_Invoked tr = [].
Proof.
  induction tr as [|e tr IH]; [done|]. simpl. intros [He Htr]%andb_true_iff.
  destruct (is_Invoked e); [done|]. by apply IH.
Qed.

Lemma flat_map_ext_elem {A B} (f g : A → list B) l :
  (∀ x, x ∈ l → f x = g x) → flat_map f l = flat_map g l.
Proof.
  induction l as [|a l IH]; intros H; [done|]. simpl.
  rewrite (H a) by by left. rewrite IH; [done|]. intros x Hx. apply H. by right.
Qed.

(** What [_deliver] does for a registered listener. *)
Lemma deliver_effect c k args w e :
  wf w → disposed (emitter w) = false → c ∈ get k (_listeners (emitter w)) →
  events w !! value c = Some e →
  ∃ w1 tr,
    _deliver (Some c) args w = (w1, Normal tt)
    ∧ (∀ i, i ≠ value c → events w1 !! i = events w !! i)
    ∧ trace w1 = trace w ++ tr
    ∧ List.filter is_Invoked tr = invocation args e.
Proof.
  intros Hw Hd Hc He. unfold _deliver. rewrite bind_this, Hd. unfold try_catch.
  unfold bind at 1. rewrite (call_Event_called _ _ _ _ He). rewrite (call_trace args e (trace w)).
  cbn [fst snd].
  set (wc := called _ _ _ w).
  assert (Hwc : wf wc).
  { pose proof (wf_called (value c) e args w Hw He) as H.
    by rewrite (call_trace args e (trace w)) in H. }
  assert (Hec : ∀ i, i ≠ value c → events wc !! i = events w !! i).
  { intros i Hi. subst wc. simpl. by rewrite list_lookup_insert_ne. }
  assert (Hrm : ∀ w0 pre,
    emitter w0 = emitter w → events w0 = events wc → uci w0 = uci w →
    trace w0 = trace w ++ invocation args e ++ pre →
    forallb (λ e, negb (is_Invoked e)) pre = true →
    ∃ w1 tr,
      _removeUniqueListener c None w0 = (w1, Normal tt)
      ∧ (∀ i, i ≠ value c → events w1 !! i = events w !! i)
      ∧ trace w1 = trace w ++ tr
      ∧ List.filter is_Invoked tr = invocation args e).
  { intros w0 pre He0 Hev0 Hu0 Ht0 Hpre.
    destruct (removeUniqueListener_found c None w0) as (w1 & Hr & He1 & Hu1 & Hev1 & Hn1).
    - unfold still. rewrite Hev0. apply Hwc.
    - by rewrite He0.
    - rewrite He0. pose proof (wf_size _ Hw) as Hs. apply get_values in Hc.
      unfold registered in Hs. destruct (forEach_values _); [by apply elem_of_nil in Hc|].
      simpl in Hs. lia.
    - rewrite He0. apply removal_finds with k; [done | by right].
    - destruct Hn1 as (tr2 & Htr2 & Hf2). exists w1, (invocation args e ++ pre ++ tr2).
      split; [done|]. split; [|split].
      + intros i Hi. rewrite Hev1, list_lookup_alter_ne, Hev0 by done. by apply Hec.
      + rewrite Htr2, Ht0. by rewrite <- !app_assoc.
      + rewrite !List.filter_app, filter_invocation, !filter_no_calls by done.
        by rewrite !app_nil_r. }
  destruct ((call args e []).2) as [v|t].
  - unfold ret. exists wc, (invocation args e). split; [done|]. split; [done|].
    split; [done | apply filter_invocation].
  - destruct (thrown_is t ERR_ONCE_WAS_CALLED_AGAIN).
    + apply (Hrm wc []); try done. by rewrite app_nil_r.
    + destruct (thrown_is t ERR_RESOURCE_DISPOSED).
      * destruct (negb (no_debug (_options (emitter w)))); simpl.
        -- unfold bind at 1. unfold emit at 1.
           apply (Hrm (log [ConsoleWarn (disposed_listener_warning c)] wc)
                    [ConsoleWarn (disposed_listener_warning c)]); try done.
           simpl. by rewrite <- app_assoc.
        -- unfold bind at 1. unfold ret at 1. apply (Hrm wc []); try done. by rewrite app_nil_r.
      * unfold emit. eexists _, (invocation args e ++ [_]). split; [done|]. split; [done|].
        split; [simpl; by rewrite <- app_assoc|].
        rewrite List.filter_app, filter_invocation. simpl.
        destruct (custom_handler _); simpl; by rewrite app_nil_r.
Qed.

Lemma deliver_each_effect k args pending : ∀ w,
  wf w → disposed (emitter w) = false →
  NoDup (map id pending) → NoDup (map value pending) →
  (∀ c, c ∈ pending → c ∈ get k (_listeners (emitter w))) →
  ∃ w1 tr,
    deliver_each pending k args w = (w1, Normal tt)
    ∧ trace w1 = trace w ++ tr
    ∧ List.filter is_Invoked tr
      = flat_map (λ c, default [] (invocation args <$> events w !! value c)) pending.
Proof.
  induction pending as [|c rest IH]; intros w Hw Hd Hid Hval Hin; simpl.
  - exists w, []. by rewrite app_nil_r.
  - apply NoDup_cons in Hid as [Hc Hid]. apply NoDup_cons in Hval as [Hv Hval].
    assert (Hcin : c ∈ get k (_listeners (emitter w))) by (apply Hin; by left).
    pose proof (wf_values _ Hw c (get_values _ _ _ Hcin)) as Hlt.
    apply lookup_lt_is_Some_2 in Hlt as [e He].
    rewrite bind_this. rewrite (elem_Set_has _ _ Hcin). simpl.
    destruct (deliver_effect c k args w e Hw Hd Hcin He) as (w1 & tr1 & Hr & Hev & Ht & Hf).
    unfold bind at 1. rewrite Hr.
    destruct (IH w1) as (w2 & tr2 & Hr2 & Ht2 & Hf2); try done.
    + pose proof (wf_deliver (Some c) args w Hw) as H. by rewrite Hr in H.
    + pose proof (grows_deliver (Some c) args w) as [_ _ H _ _]. rewrite Hr in H.
      simpl in H. by rewrite H.
    + intros x Hx. pose proof (deliver_keeps c x k args w (wf_still _ Hw)) as H. rewrite Hr in H. apply H.
      * intros Heq. apply Hc. apply list_elem_of_fmap. exists x. by split.
      * apply Hin. by right.
    + exists w2, (tr1 ++ tr2). split; [done|]. split; [by rewrite Ht2, Ht, app_assoc|].
      rewrite List.filter_app, Hf, Hf2, He. simpl. f_equal.
      apply flat_map_ext_elem. intros x Hx. rewrite Hev; [done|].
      intros Heq. apply Hv. apply list_elem_of_fmap. by exists x.
Qed.



End Delivery.

(** ** map.ts: [LinkedMap] *)

Section LinkedMapLaws.
#[local] Set Warnings "-notation-overridden".
Import LinkedMaps.

(** *** The linked list *)

Lemma first_or_app l1 l2 a : first_or (l1 ++ l2) a = first_or l1 (first_or l2 a).
Proof. by destruct l1. Qed.

Lemma last_or_cons b i l : last_or b (i :: l) = last_or (Some i) l.
Proof.
  unfold last_or. destruct l as [|j l]; [done|].
  change (list.last (i :: j :: l)) with (list.last (j :: l)).
  by destruct (list.last (j :: l)) eqn:E; [|apply last_None in E].
Qed.

Lemma linked_frame its its' b l a :
  (∀ i, i ∈ l → its' !! i = its !! i) → linked its b l a → linked its' b l a.
Proof.
  revert b. induction l as [|i l IH]; intros b H; simpl; [done|].
  intros [(it & E & P & N) Hl]. split.
  - exists it. rewrite H by left. done.
  - apply IH; [|done]. intros j Hj. apply H. by right.
Qed.

Lemma linked_alter_other f j its b l a :
  j ∉ l → linked its b l a → linked (alter f j its) b l a.
Proof.
  intros Hj. apply linked_frame. intros i Hi. apply list_lookup_alter_ne.
  by intros ->.
Qed.

Lemma linked_app its b l1 l2 a :
  linked its b (l1 ++ l2) a
  ↔ linked its b l1 (first_or l2 a) ∧ linked its (last_or b l1) l2 a.
Proof.
  revert b. induction l1 as [|i l1 IH]; intros b; simpl.
  - unfold last_or. simpl. tauto.
  - rewrite first_or_app, last_or_cons, IH. tauto.
Qed.

Lemma linked_is_Some its b l a i : linked its b l a → i ∈ l → is_Some (its !! i).
Proof.
  revert b. induction l as [|j l IH]; intros b; simpl; [by intros _ ?%elem_of_nil|].
  intros [(it & E & _) Hl] [->|Hi]%elem_of_cons; [by exists it | by eapply IH].
Qed.

(** [last.next = a'] *)
Lemma linked_set_after its b l a a' t :
  NoDup l → list.last l = Some t → linked its b l a →
  linked (alter (with_next a') t its) b l a'.
Proof.
  revert b. induction l as [|i l IH]; intros b Hn Ht; [done|].
  destruct l as [|j l].
  - injection Ht as ->. simpl. intros [(it & E & P & N) _]. split; [|done].
    exists (with_next a' it). by rewrite list_lookup_alter_eq, E.
  - change (list.last (i :: j :: l)) with (list.last (j :: l)) in Ht.
    apply NoDup_cons in Hn as [Hi Hn].
    intros [(it & E & P & N) Hl]. split.
    + exists it. split; [|done]. rewrite list_lookup_alter_ne; [done|].
      intros <-. apply Hi. by apply last_Some_elem_of.
    + by apply IH.
Qed.

(** [first.previous = b'] *)
Lemma linked_set_before its b b' h l a :
  h ∉ l → linked its b (h :: l) a →
  linked (alter (with_previous b') h its) b' (h :: l) a.
Proof.
  intros Hh [(it & E & P & N) Hl]. split.
  - exists (with_previous b' it). by rewrite list_lookup_alter_eq, E.
  - by apply linked_alter_other.
Qed.

Lemma last_app_one {A} (l : list A) x : list.last (l ++ [x]) = Some x.
Proof. by rewrite last_snoc. Qed.

(** The item between [p] and [n] is taken out of the list. *)
Lemma linked_unlink its l1 p i n l2 :
  NoDup (l1 ++ p :: i :: n :: l2) →
  linked its None (l1 ++ p :: i :: n :: l2) None →
  linked (alter (with_next (Some n)) p (alter (with_previous (Some p)) n its))
    None (l1 ++ p :: n :: l2) None.
Proof.
  intros Hn H.
  assert (Hn' : NoDup ((l1 ++ [p]) ++ i :: n :: l2)) by by rewrite <- app_assoc.
  apply NoDup_app in Hn' as (Hd & Hx & Hr).
  apply NoDup_cons in Hr as [_ Hr]. apply NoDup_cons in Hr as [Hn2 _].
  assert (Hp : p ∉ n :: l2).
  { intros Hp. apply (Hx p); [|by right]. apply elem_of_app. right. by left. }
  assert (Hn1 : ∀ x, x ∈ l1 ++ [p] → x ≠ n).
  { intros x Hxx ->. apply (Hx n Hxx). right. by left. }
  change (l1 ++ p :: i :: n :: l2) with (l1 ++ [p] ++ i :: n :: l2) in H.
  rewrite app_assoc in H. apply linked_app in H as [H1 H2].
  simpl in H1. unfold last_or in H2. rewrite last_app_one in H2.
  destruct H2 as [_ H2].
  change (l1 ++ p :: n :: l2) with (l1 ++ [p] ++ n :: l2). rewrite app_assoc.
  apply linked_app. simpl first_or. unfold last_or. rewrite last_app_one. split.
  - apply linked_set_after with (a := Some i); [done | apply last_app_one |].
    apply linked_frame with (its := its); [|done].
    intros x Hxx. apply list_lookup_alter_ne. intros <-. by apply (Hn1 n Hxx).
  - apply linked_alter_other; [done|]. apply linked_set_before with (b := Some i); [done|].
    exact H2.
Qed.

(** An item whose [next] is [null] is put after the last one. *)
Lemma linked_append its l t i :
  NoDup l → i ∉ l → list.last l = Some t → linked its None l None →
  (∃ it, its !! i = Some it ∧ next it = None) →
  linked (alter (with_next (Some i)) t (alter (with_previous (Some t)) i its))
    None (l ++ [i]) None.
Proof.
  intros Hn Hi Ht Hl (it & E & N). apply linked_app. split.
  - apply linked_set_after with (a := None); [done | done |].
    by apply linked_alter_other.
  - unfold last_or. rewrite Ht. split; [|done].
    exists (with_previous (Some t) it). rewrite list_lookup_alter_ne.
    + by rewrite list_lookup_alter_eq, E.
    + intros ->. apply Hi. by apply last_Some_elem_of.
Qed.

(** An item whose [previous] is [null] is put before the first one. *)
Lemma linked_prepend its l h i :
  NoDup l → i ∉ l → head l = Some h → linked its None l None →
  (∃ it, its !! i = Some it ∧ previous it = None) →
  linked (alter (with_previous (Some i)) h (alter (with_next (Some h)) i its))
    None (i :: l) None.
Proof.
  intros Hn Hi Hh Hl (it & E & P). destruct l as [|h' l]; [done|].
  injection Hh as ->. apply NoDup_cons in Hn as [Hh Hn]. split.
  - exists (with_next (Some h) it). rewrite list_lookup_alter_ne.
    + by rewrite list_lookup_alter_eq, E.
    + intros ->. apply Hi. by left.
  - apply linked_set_before with (b := None); [done|].
    by apply linked_alter_other.
Qed.

Lemma entry_alter_next n j its i : entry (alter (with_next n) j its) i = entry its i.
Proof.
  unfold entry. destruct (decide (j = i)) as [->|Hj].
  - rewrite list_lookup_alter_eq. by destruct (its !! i).
  - by rewrite list_lookup_alter_ne.
Qed.

Lemma entry_alter_previous p j its i :
  entry (alter (with_previous p) j its) i = entry its i.
Proof.
  unfold entry. destruct (decide (j = i)) as [->|Hj].
  - rewrite list_lookup_alter_eq. by destruct (its !! i).
  - by rewrite list_lookup_alter_ne.
Qed.

Lemma relinked_refl lm : relinked 0 lm lm.
Proof. unfold relinked. rewrite Z.add_0_r. done. Qed.

Lemma relinked_trans n m lm lm1 lm2 :
  relinked n lm lm1 → relinked m lm1 lm2 → relinked (n + m) lm lm2.
Proof.
  intros (A1 & A2 & A3 & A4 & A5) (B1 & B2 & B3 & B4 & B5).
  unfold relinked. rewrite B1, B2, B3, B4, A1, A2, A3, A4. repeat split; [lia|].
  intros i. by rewrite B5.
Qed.

Ltac relinked :=
  unfold relinked; simpl;
  rewrite ?length_alter, ?length_app;
  repeat split; try done; try lia;
  try (intros ?; by repeat (rewrite entry_alter_next || rewrite entry_alter_previous)).

Lemma addItemLast_spec lm l i :
  chained lm l → i ∉ l →
  (∃ it, items lm !! i = Some it ∧ previous it = None ∧ next it = None) →
  ∃ lm1, _addItemLast i lm = (lm1, Normal tt)
         ∧ chained lm1 (l ++ [i]) ∧ relinked 1 lm lm1.
Proof.
  intros (Hn & Hl & Hh & Ht) Hi (it & E & P & N).
  unfold _addItemLast, bind, this. rewrite Hh, Ht.
  destruct (list.last l) as [t|] eqn:Et.
  - assert (∃ h, head l = Some h) as [h Eh].
    { destruct l; [done|]. by eexists. }
    rewrite Eh. simpl. eexists. split; [reflexivity|]. split; [|relinked].
    split; [|split; [|split]]; simpl.
    + apply NoDup_app. split; [done|]. split; [|apply NoDup_singleton].
      by intros x Hx ->%list_elem_of_singleton.
    + apply linked_append; try done. by exists it.
    + destruct l; [done|]. done.
    + by rewrite last_snoc.
  - apply last_None in Et as ->. simpl. eexists. split; [reflexivity|].
    split; [|relinked]. split; [|split; [|split]]; simpl; try done.
    + apply NoDup_singleton.
    + split; [|done]. by exists it.
Qed.

Lemma addItemFirst_spec lm l i :
  chained lm l → i ∉ l →
  (∃ it, items lm !! i = Some it ∧ previous it = None ∧ next it = None) →
  ∃ lm1, _addItemFirst i lm = (lm1, Normal tt)
         ∧ chained lm1 (i :: l) ∧ relinked 1 lm lm1.
Proof.
  intros (Hn & Hl & Hh & Ht) Hi (it & E & P & N).
  unfold _addItemFirst, bind, this. rewrite Hh, Ht.
  destruct l as [|h l].
  - simpl. eexists. split; [reflexivity|].
    split; [|relinked]. split; [|split; [|split]]; simpl; try done.
    + apply NoDup_singleton.
    + split; [|done]. by exists it.
  - simpl head. cbv iota. simpl. eexists. split; [reflexivity|]. split; [|relinked].
    split; [|split; [|split]]; simpl.
    + by apply NoDup_cons.
    + apply (linked_prepend _ (h :: l)); try done. by exists it.
    + done.
    + done.
Qed.

Lemma last_or_None l : last_or None l = list.last l.
Proof. unfold last_or. by destruct (list.last l). Qed.

Lemma first_or_None l : first_or l None = head l.
Proof. by destruct l. Qed.

(** The item at a place of the list, and its two neighbours. *)
Lemma chained_at lm l1 i l2 :
  chained lm (l1 ++ i :: l2) →
  ∃ it, items lm !! i = Some it ∧ previous it = list.last l1 ∧ next it = head l2.
Proof.
  intros (_ & Hl & _). apply linked_app in Hl as [_ [(it & E & P & N) _]].
  exists it. by rewrite <- last_or_None, <- first_or_None.
Qed.

Lemma is_item_eq i : is_item i (Some i) = true.
Proof. apply Nat.eqb_refl. Qed.

Lemma is_item_ne i j : j ≠ i → is_item i (Some j) = false.
Proof. intros H. by apply Nat.eqb_neq. Qed.

Lemma NoDup_middle (l1 : list nat) i l2 :
  NoDup (l1 ++ i :: l2) → (i ∉ l1) ∧ (i ∉ l2) ∧ NoDup (l1 ++ l2).
Proof.
  intros H. apply NoDup_app in H as (H1 & Hx & H2).
  apply NoDup_cons in H2 as [Hi H2]. split; [|split; [done|]].
  - intros Hi1. apply (Hx i Hi1). by left.
  - apply NoDup_app. split; [done|]. split; [|done].
    intros x Hx1 Hx2. apply (Hx x Hx1). by right.
Qed.

(** [_removeItem] of the first or of the last item. *)
Lemma removeItem_outer lm l1 i l2 :
  chained lm (l1 ++ i :: l2) → l1 = [] ∨ l2 = [] →
  ∃ lm1, _removeItem i lm = (lm1, Normal tt)
         ∧ chained lm1 (l1 ++ l2) ∧ relinked 1 lm lm1.
Proof.
  intros Hc Hends. destruct (chained_at _ _ _ _ Hc) as (it & E & P & N).
  destruct Hc as (Hn & Hl & Hh & Ht).
  destruct (NoDup_middle _ _ _ Hn) as (Hi1 & Hi2 & Hn').
  unfold _removeItem, bind, this, read. rewrite E, Hh, Ht.
  destruct l1 as [|h l1]; [cbn [app] in *; cbn [app head]|].
  - rewrite is_item_eq. destruct l2 as [|n l2].
    + simpl. rewrite Nat.eqb_refl. simpl. eexists. split; [reflexivity|].
      split; [|relinked]. split; [|split; [|split]]; simpl; done.
    + change (list.last (i :: n :: l2)) with (list.last (n :: l2)).
      destruct (list.last (n :: l2)) as [t|] eqn:Et; [|by apply last_None in Et].
      rewrite is_item_ne.
      2:{ intros ->. apply Hi2. by apply last_Some_elem_of. }
      simpl in N. rewrite N. cbn -[linked]. eexists. split; [reflexivity|].
      split; [|relinked]. split; [|split; [|split]]; cbn -[linked]; try done.
      destruct Hl as [_ Hl]. apply NoDup_cons in Hn' as [Hn1 Hn2].
      do 2 (apply linked_alter_other; [done|]).
      by apply linked_set_before with (b := Some i).
  - destruct Hends as [Hends | ->]; [done|]. rewrite last_snoc, app_nil_r.
    change (head ((h :: l1) ++ [i])) with (Some h).
    rewrite is_item_ne.
    2:{ intros ->. apply Hi1. by left. }
    rewrite is_item_eq. simpl andb. cbv iota.
    destruct (list.last (h :: l1)) as [p|] eqn:Ep; [|by apply last_None in Ep].
    rewrite P. cbn -[linked]. eexists. split; [reflexivity|].
    split; [|relinked]. rewrite app_nil_r in Hn'.
    split; [|split; [|split]]; cbn -[linked]; try done.
    apply linked_app in Hl as [Hl _].
    do 2 (apply linked_alter_other; [done|]).
    by apply linked_set_after with (a := Some i).
Qed.

(** [_removeItem] of an item with a neighbour on both sides: the
    item before it still points to it, and the item after it now
    points to itself. *)
Lemma removeItem_inner lm l1 p i n l2 :
  chained lm (l1 ++ p :: i :: n :: l2) →
  ∃ lm1, _removeItem i lm = (lm1, Normal tt)
         ∧ relinked 1 lm lm1
         ∧ _head lm1 = _head lm ∧ _tail lm1 = _tail lm
         ∧ linked (items lm1) None (l1 ++ [p]) (Some i)
         ∧ (∃ it, items lm1 !! i = Some it ∧ next it = None)
         ∧ (∃ it, items lm1 !! n = Some it ∧ next it = Some n).
Proof.
  intros Hc.
  assert (Hc' : chained lm ((l1 ++ [p]) ++ i :: n :: l2)) by by rewrite <- app_assoc.
  destruct (chained_at _ _ _ _ Hc') as (it & E & P & N).
  rewrite last_snoc in P. simpl in N.
  destruct Hc' as (Hn & Hl & Hh & Ht).
  destruct (NoDup_middle _ _ _ Hn) as (Hi1 & Hi2 & Hn').
  destruct (NoDup_middle _ _ _ Hn') as (Hn1 & Hn2 & _).
  assert (Hne : n ≠ i) by (intros ->; apply Hi2; by left).
  assert (∃ h, _head lm = Some h ∧ h ≠ i) as (h & Eh & Hhi).
  { rewrite Hh. destruct l1 as [|h l1]; simpl.
    - exists p. split; [done|]. intros ->. apply Hi1. by left.
    - exists h. split; [done|]. intros ->. apply Hi1. by left. }
  assert (∃ t, _tail lm = Some t ∧ t ≠ i) as (t & Et & Hti).
  { rewrite Ht, last_app. change (list.last (i :: n :: l2)) with (list.last (n :: l2)).
    destruct (list.last (n :: l2)) as [t|] eqn:Et; [|by apply last_None in Et].
    exists t. split; [done|]. intros ->. apply Hi2. by apply last_Some_elem_of. }
  unfold _removeItem, bind, this, read. rewrite E, Eh, Et.
  rewrite (is_item_ne i h Hhi), (is_item_ne i t Hti). simpl andb. cbv iota.
  rewrite P, N. cbn -[linked].
  eexists. split; [reflexivity|]. split; [relinked|]. cbn -[linked].
  split; [done|]. split; [done|]. split; [|split].
  - apply linked_app in Hl as [Hl _]. simpl in Hl.
    do 2 (apply linked_alter_other; [done|]).
    by do 2 (apply linked_alter_other; [done|]).
  - exists (with_previous None (with_next None it)).
    rewrite list_lookup_alter_eq, list_lookup_alter_eq.
    rewrite list_lookup_alter_ne by done. rewrite list_lookup_alter_ne by done.
    by rewrite E.
  - apply linked_app in Hl as [_ [_ [(itn & En & _) _]]].
    exists (with_previous (Some p) (with_next (Some n) itn)).
    rewrite list_lookup_alter_ne by done. rewrite list_lookup_alter_ne by done.
    rewrite list_lookup_alter_eq, list_lookup_alter_eq. by rewrite En.
Qed.

Lemma chained_ends lm l1 i l2 :
  chained lm (l1 ++ i :: l2) →
  (∃ h, _head lm = Some h ∧ head (l1 ++ i :: l2) = Some h ∧ (h = i ↔ l1 = []))
  ∧ (∃ t, _tail lm = Some t ∧ list.last (l1 ++ i :: l2) = Some t ∧ (t = i ↔ l2 = [])).
Proof.
  intros (Hn & _ & Hh & Ht). destruct (NoDup_middle _ _ _ Hn) as (Hi1 & Hi2 & _).
  split.
  - rewrite Hh. destruct l1 as [|h l1]; simpl.
    + by exists i.
    + exists h. do 2 (split; [done|]). split; [|done]. intros ->. destruct Hi1. by left.
  - rewrite Ht, last_app. destruct l2 as [|n l2].
    + by exists i.
    + change (list.last (i :: n :: l2)) with (list.last (n :: l2)).
      destruct (list.last (n :: l2)) as [t|] eqn:Et; [|by apply last_None in Et].
      exists t. do 2 (split; [done|]). split; [|done]. intros ->. destruct Hi2.
      by apply last_Some_elem_of.
Qed.

(** [_touch(item, Touch.AsNew)] *)
Lemma touch_AsNew lm l1 i l2 :
  chained lm (l1 ++ i :: l2) →
  ∃ lm1, _touch i AsNew lm = (lm1, Normal tt)
         ∧ chained lm1 ((l1 ++ l2) ++ [i])
         ∧ relinked (if l2 is [] then 0 else 1) lm lm1.
Proof.
  intros Hc. destruct (chained_at _ _ _ _ Hc) as (it & E & P & N).
  destruct (chained_ends _ _ _ _ Hc) as [(h & Eh & Eh' & Hh) (t & Et & Et' & Ht)].
  destruct Hc as (Hn & Hl & _ & _).
  destruct (NoDup_middle _ _ _ Hn) as (Hi1 & Hi2 & Hn').
  unfold _touch, bind, this. rewrite Eh, Et.
  destruct l2 as [|n l2].
  - assert (t = i) as -> by by apply Ht. rewrite Nat.eqb_refl, app_nil_r.
    eexists. split; [reflexivity|]. split; [|apply relinked_refl].
    unfold chained. by rewrite Eh, Et.
  - assert (Hti : t ≠ i) by (intros Heq; by apply Ht in Heq).
    assert (Hne : n ≠ i) by (intros ->; apply Hi2; by left).
    apply Nat.eqb_neq in Hti as Hti'. rewrite Nat.eqb_sym in Hti'. rewrite Hti'.
    unfold read. rewrite E. simpl in N. rewrite N.
    assert (Htl : list.last (l1 ++ n :: l2) = Some t).
    { rewrite last_app in Et'. rewrite last_app.
      by change (list.last (i :: n :: l2)) with (list.last (n :: l2)) in Et'. }
    assert (Happ : NoDup ((l1 ++ n :: l2) ++ [i])).
    { apply NoDup_app. split; [done|]. split; [|apply NoDup_singleton].
      intros x Hx ->%list_elem_of_singleton. apply elem_of_app in Hx as [Hx|Hx]; done. }
    assert (Hi : i ∉ l1 ++ n :: l2) by (intros [Hx|Hx]%elem_of_app; done).
    destruct l1 as [|p l1 _] using rev_ind.
    + assert (h = i) as -> by by apply Hh. rewrite Nat.eqb_refl. cbn -[linked app list.last head].
      eexists. split; [reflexivity|]. split; [|relinked].
      split; [|split; [|split]]; cbn -[linked app list.last head]; try done.
      * apply (linked_append _ (n :: l2)); try done.
        -- apply linked_alter_other; [done|]. destruct Hl as [_ Hl].
           apply NoDup_cons in Hn' as [Hn1 _].
           by apply linked_set_before with (b := Some i).
        -- exists (with_next None it). rewrite list_lookup_alter_eq.
           rewrite list_lookup_alter_ne by done. by rewrite E.
      * by rewrite last_snoc.
    + assert (Hhi : h ≠ i).
      { intros Heq. apply Hh in Heq. by destruct l1. }
      apply Nat.eqb_neq in Hhi as Hhi'. rewrite Nat.eqb_sym in Hhi'. rewrite Hhi'.
      rewrite last_snoc in P. rewrite P. cbn -[linked app list.last head].
      eexists. split; [reflexivity|]. split; [|relinked].
      split; [|split; [|split]]; cbn -[linked app list.last head]; try done.
      * apply (linked_append _ ((l1 ++ [p]) ++ n :: l2)); try done.
        -- apply linked_alter_other; [done|]. rewrite <- app_assoc. simpl.
           apply linked_unlink with (i := i).
           ++ by rewrite <- app_assoc in Hn.
           ++ by rewrite <- app_assoc in Hl.
        -- exists (with_next None it). rewrite list_lookup_alter_eq.
           rewrite list_lookup_alter_ne.
           2:{ intros ->. apply Hi1. apply elem_of_app. right. by left. }
           rewrite list_lookup_alter_ne by done. by rewrite E.
      * rewrite Eh. rewrite <- !app_assoc in *. by destruct l1.
      * by rewrite last_snoc.
Qed.

(** [_touch(item, Touch.AsOld)] *)
Lemma touch_AsOld lm l1 i l2 :
  chained lm (l1 ++ i :: l2) →
  ∃ lm1, _touch i AsOld lm = (lm1, Normal tt)
         ∧ chained lm1 (i :: l1 ++ l2)
         ∧ relinked (if l1 is [] then 0 else 1) lm lm1.
Proof.
  intros Hc. destruct (chained_at _ _ _ _ Hc) as (it & E & P & N).
  destruct (chained_ends _ _ _ _ Hc) as [(h & Eh & Eh' & Hh) (t & Et & Et' & Ht)].
  destruct Hc as (Hn & Hl & _ & _).
  destruct (NoDup_middle _ _ _ Hn) as (Hi1 & Hi2 & Hn').
  unfold _touch, bind, this. rewrite Eh, Et.
  destruct l1 as [|p l1 _] using rev_ind.
  - assert (h = i) as -> by by apply Hh. rewrite Nat.eqb_refl.
    eexists. split; [reflexivity|]. split; [|apply relinked_refl].
    unfold chained. by rewrite Eh, Et.
  - assert (Hhi : h ≠ i).
    { intros Heq. apply Hh in Heq. by destruct l1. }
    assert (Hpi : p ≠ i).
    { intros ->. apply Hi1. apply elem_of_app. right. by left. }
    apply Nat.eqb_neq in Hhi as Hhi'. rewrite Nat.eqb_sym in Hhi'. rewrite Hhi'.
    unfold read. rewrite E. rewrite last_snoc in P. rewrite P.
    assert (Hhd : head ((l1 ++ [p]) ++ l2) = Some h).
    { rewrite <- Eh'. rewrite <- !app_assoc. by destruct l1. }
    assert (Hcons : NoDup (i :: (l1 ++ [p]) ++ l2)).
    { apply NoDup_cons. split; [|done]. intros [Hx|Hx]%elem_of_app; done. }
    assert (Hi : i ∉ (l1 ++ [p]) ++ l2) by (intros [Hx|Hx]%elem_of_app; done).
    assert (Hma : (if l1 ++ [p] is [] then 0 else 1) = 1) by by destruct l1.
    rewrite Hma. clear Hma.
    destruct l2 as [|n l2].
    + assert (t = i) as -> by by apply Ht. rewrite Nat.eqb_refl.
      cbn -[linked app list.last head].
      eexists. split; [reflexivity|]. split; [|relinked].
      rewrite app_nil_r in *.
      split; [|split; [|split]]; cbn -[linked app list.last head]; try done.
      * apply (linked_prepend _ (l1 ++ [p])); try done.
        -- apply linked_alter_other; [done|]. apply linked_app in Hl as [Hl _].
           by apply linked_set_after with (a := Some i); [|apply last_snoc|].
        -- exists (with_previous None it). rewrite list_lookup_alter_eq.
           rewrite list_lookup_alter_ne by done. by rewrite E.
      * change (list.last (i :: l1 ++ [p])) with (list.last ((i :: l1) ++ [p])).
        by rewrite last_snoc.
    + assert (Hti : t ≠ i) by (intros Heq; by apply Ht in Heq).
      assert (Hne : n ≠ i) by (intros ->; apply Hi2; by left).
      apply Nat.eqb_neq in Hti as Hti'. rewrite Nat.eqb_sym in Hti'. rewrite Hti'.
      simpl in N. rewrite N. cbn -[linked app list.last head].
      eexists. split; [reflexivity|]. split; [|relinked].
      split; [|split; [|split]]; cbn -[linked app list.last head]; try done.
      * apply (linked_prepend _ ((l1 ++ [p]) ++ n :: l2)); try done.
        -- apply linked_alter_other; [done|]. rewrite <- app_assoc. simpl.
           apply linked_unlink with (i := i).
           ++ by rewrite <- app_assoc in Hn.
           ++ by rewrite <- app_assoc in Hl.
        -- exists (with_previous None it). rewrite list_lookup_alter_eq.
           rewrite list_lookup_alter_ne by done.
           rewrite list_lookup_alter_ne by done. by rewrite E.
      * rewrite Et. rewrite last_app in Et'.
        change (list.last (i :: n :: l2)) with (list.last (n :: l2)) in Et'.
        change (list.last (i :: (l1 ++ [p]) ++ n :: l2))
          with (list.last ((i :: l1 ++ [p]) ++ n :: l2)).
        rewrite last_app.
        by destruct (list.last (n :: l2)) eqn:El; [|apply last_None in El].
Qed.

(** *** The index [_map] *)

Lemma index_get_set_eq k i m : Map_get k (Map_set k i m) = Some i.
Proof.
  induction m as [|[k0 i0] m IH]; simpl.
  - by rewrite decide_True.
  - destruct (decide (k0 = k)) as [->|Hk]; simpl.
    + by rewrite decide_True.
    + by rewrite decide_False.
Qed.

Lemma index_get_set_ne k k' i m : k' ≠ k → Map_get k' (Map_set k i m) = Map_get k' m.
Proof.
  intros Hk. induction m as [|[k0 i0] m IH]; simpl.
  - by rewrite decide_False.
  - destruct (decide (k0 = k)) as [->|Hk0]; simpl.
    + by rewrite !decide_False.
    + by rewrite IH.
Qed.

Lemma index_get_None k m : Map_get k m = None ↔ k ∉ map fst m.
Proof.
  induction m as [|[k0 i0] m IH]; simpl.
  - split; [intros _ H; by apply elem_of_nil in H | done].
  - destruct (decide (k0 = k)) as [->|Hk0].
    + split; [done|]. intros H. destruct H. by left.
    + rewrite IH. split.
      * intros H [?|?]%elem_of_cons; [by subst|done].
      * intros H Hin. apply H. by right.
Qed.

Lemma index_keys_set k i m :
  Map_get k m = None → map fst (Map_set k i m) = map fst m ++ [k].
Proof.
  induction m as [|[k0 i0] m IH]; simpl; [done|].
  destruct (decide (k0 = k)) as [->|Hk0]; [done|]. intros H. simpl. by rewrite IH.
Qed.

Lemma index_keys_delete k m x : x ∈ map fst (Map_delete k m) → x ∈ map fst m.
Proof.
  induction m as [|[k0 i0] m IH]; simpl; [done|].
  destruct (decide (k0 = k)) as [->|Hk0]; simpl.
  - intros H. by right.
  - intros [->|H]%elem_of_cons; [by left | right; by apply IH].
Qed.

Lemma index_NoDup_delete k m : NoDup (map fst m) → NoDup (map fst (Map_delete k m)).
Proof.
  induction m as [|[k0 i0] m IH]; simpl; [done|].
  intros [Hk Hn]%NoDup_cons. destruct (decide (k0 = k)) as [->|Hk0]; simpl; [done|].
  apply NoDup_cons. split; [|by apply IH]. intros H. apply Hk. by eapply index_keys_delete.
Qed.

Lemma index_get_delete_eq k m : NoDup (map fst m) → Map_get k (Map_delete k m) = None.
Proof.
  induction m as [|[k0 i0] m IH]; simpl; [done|].
  intros [Hk Hn]%NoDup_cons. destruct (decide (k0 = k)) as [->|Hk0]; simpl.
  - by apply index_get_None.
  - rewrite decide_False by done. by apply IH.
Qed.

Lemma index_get_delete_ne k k' m : k' ≠ k → Map_get k' (Map_delete k m) = Map_get k' m.
Proof.
  intros Hk. induction m as [|[k0 i0] m IH]; simpl; [done|].
  destruct (decide (k0 = k)) as [->|Hk0]; simpl.
  - by rewrite decide_False.
  - by rewrite IH.
Qed.

(** *** Entries *)

Lemma chained_lt lm l i : chained lm l → i ∈ l → (i < length (items lm))%nat.
Proof.
  intros (_ & Hl & _) Hi. apply lookup_lt_is_Some. by eapply linked_is_Some.
Qed.

Lemma keys_unique lm l i j :
  represents lm l → i ∈ l → j ∈ l →
  (entry (items lm) i).1 = (entry (items lm) j).1 → i = j.
Proof.
  intros (_ & _ & _ & Hm) Hi Hj E.
  assert (Hgi : Map_get (entry (items lm) i).1 (_map lm) = Some i) by by apply Hm.
  assert (Hgj : Map_get (entry (items lm) i).1 (_map lm) = Some j) by by apply Hm.
  congruence.
Qed.

Lemma lookup_entries its l k i :
  i ∈ l → (entry its i).1 = k → (∀ j, j ∈ l → (entry its j).1 = k → j = i) →
  lookup k (map (entry its) l) = Some (entry its i).2.
Proof.
  induction l as [|j l IH]; intros Hi Hk Hu; [by apply elem_of_nil in Hi|].
  simpl. destruct (entry its j) as [kj vj] eqn:Ej. destruct (decide (kj = k)) as [Hkj|Hkj].
  - assert (j = i) as -> by (apply Hu; [by left | by rewrite Ej]). by rewrite Ej.
  - apply IH.
    + apply elem_of_cons in Hi as [->|Hi]; [|done]. by rewrite Ej in Hk.
    + done.
    + intros j' Hj'. apply Hu. by right.
Qed.

Lemma lookup_entries_None its l k :
  (∀ j, j ∈ l → (entry its j).1 ≠ k) → lookup k (map (entry its) l) = None.
Proof.
  induction l as [|j l IH]; intros Hu; [done|]. simpl.
  destruct (entry its j) as [kj vj] eqn:Ej. rewrite decide_False.
  - apply IH. intros j' Hj'. apply Hu. by right.
  - intros Hk. apply (Hu j); [by left | by rewrite Ej].
Qed.

Lemma lookup_Some_elem k v es : lookup k es = Some v → (k, v) ∈ es.
Proof.
  induction es as [|[k0 v0] es IH]; [done|]. simpl.
  destruct (decide (k0 = k)) as [->|Hk].
  - intros [= ->]. by left.
  - intros H. right. by apply IH.
Qed.

Lemma lookup_None_keys k es : lookup k es = None ↔ k ∉ map fst es.
Proof.
  induction es as [|[k0 v0] es IH]; simpl.
  - split; [intros _ H; by apply elem_of_nil in H | done].
  - destruct (decide (k0 = k)) as [->|Hk0].
    + split; [done|]. intros H. destruct H. by left.
    + rewrite IH. split.
      * intros H [?|?]%elem_of_cons; [by subst|done].
      * intros H Hin. apply H. by right.
Qed.

Lemma without_keep its l k :
  (∀ j, j ∈ l → (entry its j).1 ≠ k) → without k (map (entry its) l) = map (entry its) l.
Proof.
  induction l as [|j l IH]; intros Hu; [done|]. unfold without in *. simpl.
  rewrite bool_decide_eq_false_2 by (apply Hu; by left). simpl. f_equal.
  apply IH. intros j' Hj'. apply Hu. by right.
Qed.

Lemma without_entries its l1 i l2 k :
  (entry its i).1 = k → (∀ j, j ∈ l1 ++ l2 → (entry its j).1 ≠ k) →
  without k (map (entry its) (l1 ++ i :: l2)) = map (entry its) (l1 ++ l2).
Proof.
  intros Hk Hu. rewrite !map_app. unfold without. rewrite List.filter_app. simpl.
  rewrite bool_decide_eq_true_2 by done. simpl.
  fold (without k (map (entry its) l1)). fold (without k (map (entry its) l2)).
  rewrite !without_keep; [done | |].
  - intros j Hj. apply Hu, elem_of_app. by right.
  - intros j Hj. apply Hu, elem_of_app. by left.
Qed.

Lemma entry_alter_value v i its j :
  entry (alter (with_value v) i its) j
  = if decide (i = j) then ((entry its j).1, match its !! j with Some _ => v | None => VUndefined end)
    else entry its j.
Proof.
  unfold entry. destruct (decide (i = j)) as [->|Hj].
  - rewrite list_lookup_alter_eq. by destruct (its !! j).
  - by rewrite list_lookup_alter_ne.
Qed.

Lemma update_entries its l i k v :
  is_Some (its !! i) → (entry its i).1 = k →
  (∀ j, j ∈ l → (entry its j).1 = k → j = i) →
  update k v (map (entry its) l) = map (entry (alter (with_value v) i its)) l.
Proof.
  intros [it E] Hk Hu. induction l as [|j l IH]; [done|]. unfold update in *. simpl.
  rewrite IH by (intros j' Hj'; apply Hu; by right). f_equal.
  rewrite entry_alter_value. destruct (decide (i = j)) as [<-|Hj].
  - rewrite Hk, E. by rewrite decide_True.
  - rewrite decide_False; [done|]. intros Hkj. apply Hj. symmetry. apply Hu; [by left | done].
Qed.

Lemma linked_alter_value v j its b l a :
  linked its b l a → linked (alter (with_value v) j its) b l a.
Proof.
  revert b. induction l as [|i l IH]; intros b; [done|].
  intros [(it & E & P & N) Hl]. split; [|by apply IH].
  destruct (decide (j = i)) as [->|Hj].
  - exists (with_value v it). by rewrite list_lookup_alter_eq, E.
  - exists it. by rewrite list_lookup_alter_ne.
Qed.

Lemma entries_relinked n lm lm1 l :
  relinked n lm lm1 → map (entry (items lm1)) l = map (entry (items lm)) l.
Proof. intros (_ & _ & _ & _ & He). apply map_ext. intros i. apply He. Qed.

Lemma represents_relinked n lm lm1 l l' :
  represents lm l → relinked n lm lm1 → chained lm1 l' → l' ≡ₚ l → represents lm1 l'.
Proof.
  intros (_ & Hs & Hk & Hm) (Em & Es & _ & _ & He) Hc Hp.
  split; [done|]. rewrite Em, Es. split; [|split; [done|]].
  - by rewrite Hp.
  - intros k i. rewrite Hm, He. by rewrite Hp.
Qed.

(** The item [i] of the map is moved as [touch] says. *)
Lemma touch_spec lm l i touch :
  represents lm l → i ∈ l →
  ∃ lm1 l' n,
    (match touch with TouchNone => ret tt | _ => _touch i touch end) lm = (lm1, Normal tt)
    ∧ represents lm1 l' ∧ relinked n lm lm1 ∧ 0 <= n ∧ (n = 0 → l' = l)
    ∧ map (entry (items lm1)) l'
      = touched touch (entry (items lm) i).1 (entry (items lm) i).2
          (map (entry (items lm)) l).
Proof.
  intros Hr Hi. apply list_elem_of_split in Hi as (l1 & l2 & ->).
  assert (Hc : chained lm (l1 ++ i :: l2)) by apply Hr.
  assert (Hu : ∀ j, j ∈ l1 ++ l2 → (entry (items lm) j).1 ≠ (entry (items lm) i).1).
  { intros j Hj Hk. destruct Hc as (Hn & _).
    destruct (NoDup_middle _ _ _ Hn) as (Hi1 & Hi2 & _).
    assert (j = i) as ->.
    { apply (keys_unique lm (l1 ++ i :: l2)); [done | | | done].
      - apply elem_of_app in Hj as [Hj|Hj]; apply elem_of_app; [by left | right; by right].
      - apply elem_of_app. right. by left. }
    apply elem_of_app in Hj as [Hj|Hj]; done. }
  destruct touch.
  - exists lm, (l1 ++ i :: l2), 0. split; [done|]. split; [done|].
    split; [apply relinked_refl|]. done.
  - destruct (touch_AsOld _ _ _ _ Hc) as (lm1 & E & Hc1 & Hrel).
    exists lm1, (i :: l1 ++ l2), (if l1 is [] then 0 else 1).
    split; [done|]. split; [|split; [done|split; [by destruct l1|split]]].
    + eapply represents_relinked; [exact Hr | exact Hrel | exact Hc1 |].
      by rewrite Permutation_middle.
    + destruct l1; [done|]. discriminate.
    + rewrite (entries_relinked _ _ _ _ Hrel). simpl.
      rewrite without_entries by done. by destruct (entry (items lm) i).
  - destruct (touch_AsNew _ _ _ _ Hc) as (lm1 & E & Hc1 & Hrel).
    exists lm1, ((l1 ++ l2) ++ [i]), (if l2 is [] then 0 else 1).
    split; [done|]. split; [|split; [done|split; [by destruct l2|split]]].
    + eapply represents_relinked; [exact Hr | exact Hrel | exact Hc1 |].
      etrans; [|apply Permutation_middle]. symmetry. apply Permutation_cons_append.
    + destruct l2; [|discriminate]. intros _. by rewrite app_nil_r.
    + rewrite (entries_relinked _ _ _ _ Hrel). simpl.
      rewrite without_entries by done. rewrite map_app. simpl.
      by destruct (entry (items lm) i).
Qed.

(** *** The operations *)

Lemma entry_Some its i it : its !! i = Some it → entry its i = (key it, value it).
Proof. unfold entry. by intros ->. Qed.

(** What [_map] finds is the item that holds the key. *)
Lemma represents_get lm l k :
  represents lm l →
  match Map_get k (_map lm) with
  | Some i =>
      i ∈ l ∧ (entry (items lm) i).1 = k
      ∧ (∃ it, items lm !! i = Some it)
      ∧ lookup k (map (entry (items lm)) l) = Some (entry (items lm) i).2
  | None =>
      lookup k (map (entry (items lm)) l) = None
      ∧ ∀ j, j ∈ l → (entry (items lm) j).1 ≠ k
  end.
Proof.
  intros Hr. destruct (Map_get k (_map lm)) as [i|] eqn:Eg.
  - destruct Hr as (Hc & Hs & Hk & Hm). apply Hm in Eg as Hg. destruct Hg as [Hi Hki].
    split; [done|]. split; [done|]. split.
    + destruct Hc as (_ & Hl & _). by eapply linked_is_Some.
    + apply lookup_entries; [done | done |]. intros j Hj Hkj.
      assert (Map_get k (_map lm) = Some j) by by apply Hm. congruence.
  - assert (Hno : ∀ j, j ∈ l → (entry (items lm) j).1 ≠ k).
    { intros j Hj Hkj. destruct Hr as (_ & _ & _ & Hm).
      assert (Map_get k (_map lm) = Some j) by by apply Hm. congruence. }
    split; [|done]. by apply lookup_entries_None.
Qed.

(** [map.get(key, touch)] *)
Lemma get_spec lm es k touch :
  holds lm es →
  ∃ lm1, get k touch lm = (lm1, Normal (default VUndefined (lookup k es)))
         ∧ holds lm1 (model_op es (OpGet k touch))
         ∧ _currentState lm <= _currentState lm1
         ∧ (_currentState lm1 = _currentState lm → model_op es (OpGet k touch) = es)
         ∧ (touch = TouchNone → lm1 = lm).
Proof.
  intros (l & Hr & <-). pose proof (represents_get lm l k Hr) as Hg.
  unfold get, bind, this. simpl model_op.
  destruct (Map_get k (_map lm)) as [i|].
  - destruct Hg as (Hi & Hk & [it E] & Hlk). rewrite Hlk.
    destruct (touch_spec lm l i touch Hr Hi) as (lm1 & l' & n & Et & Hr1 & Hrel & Hn & Hn0 & He).
    rewrite Et. unfold read.
    assert (Hent : entry (items lm1) i = entry (items lm) i) by apply Hrel.
    assert (is_Some (items lm1 !! i)) as [it1 E1].
    { apply lookup_lt_is_Some. destruct Hrel as (_ & _ & _ & -> & _).
      by apply lookup_lt_is_Some. }
    rewrite E1. unfold ret. rewrite (entry_Some _ _ _ E1) in Hent.
    exists lm1. split; [by rewrite <- Hent|]. rewrite Hk in He. split; [by exists l'|].
    pose proof Hrel as (_ & _ & Hst & _). split; [lia|]. split.
    + intros Heq. assert (n = 0) as Hz by lia. rewrite <- He, (Hn0 Hz).
      by eapply entries_relinked.
    + intros ->. by injection Et as <-.
  - destruct Hg as [Hlk _]. rewrite Hlk. exists lm. split; [done|].
    split; [by exists l|]. split; [lia|]. done.
Qed.

Lemma keys_update k v es : map fst (update k v es) = map fst es.
Proof.
  induction es as [|[k0 v0] es IH]; [done|]. unfold update in *. simpl. rewrite IH.
  by destruct (decide (k0 = k)) as [->|].
Qed.

(** [item.value = value] *)
Lemma represents_set_value lm l i v :
  represents lm l → represents (set_items (alter (with_value v) i (items lm)) lm) l.
Proof.
  intros ((Hn & Hl & Hh & Ht) & Hs & Hk & Hm).
  split; [|split; [done|split; [done|]]].
  - split; [done|]. split; [|done]. by apply linked_alter_value.
  - intros k j. simpl. rewrite entry_alter_value. rewrite Hm.
    by destruct (decide (i = j)).
Qed.

(** A new item has been put first or last. *)
Lemma represents_added lm l lm1 l' k v :
  represents lm l → Map_get k (_map lm) = None →
  chained lm1 l' →
  relinked 1
    (set_items (items lm ++ [{| previous := None; next := None; key := k; value := v |}]) lm)
    lm1 →
  l' ≡ₚ length (items lm) :: l →
  represents (set_size (_size lm1 + 1) (set_map (Map_set k (length (items lm)) (_map lm1)) lm1)) l'
  ∧ entry (items lm1) (length (items lm)) = (k, v)
  ∧ ∀ j, j ∈ l → entry (items lm1) j = entry (items lm) j.
Proof.
  intros Hr Eg Hc1 (Em & Es & _ & _ & He) Hp. simpl in Em, Es.
  assert (Hnew : entry (items lm1) (length (items lm)) = (k, v)).
  { rewrite He. simpl. unfold entry. by rewrite list_lookup_middle. }
  assert (Hold : ∀ j, j ∈ l → entry (items lm1) j = entry (items lm) j).
  { intros j Hj. rewrite He. simpl. unfold entry. rewrite lookup_app_l; [done|].
    eapply chained_lt; [apply Hr | done]. }
  split; [|done].
  pose proof (represents_get lm l k Hr) as Hg. rewrite Eg in Hg. destruct Hg as [_ Hno].
  destruct Hr as (Hc & Hs & Hk & Hm).
  split; [done|]. simpl. rewrite Em, Es. split; [|split].
  - rewrite Hp, Hs. simpl length. lia.
  - rewrite index_keys_set by done. apply NoDup_app. split; [done|].
    split; [|apply NoDup_singleton]. intros x Hx ->%list_elem_of_singleton.
    by apply index_get_None in Eg.
  - intros k' j. rewrite Hp. destruct (decide (k' = k)) as [->|Hk'].
    + rewrite index_get_set_eq. split.
      * intros [= <-]. split; [by left | by rewrite Hnew].
      * intros [[->|Hj]%elem_of_cons Hkj]; [done|]. rewrite Hold in Hkj by done.
        by destruct (Hno j Hj).
    + rewrite index_get_set_ne by done. rewrite Hm. split.
      * intros [Hj Hkj]. split; [by right | by rewrite Hold].
      * intros [[->|Hj]%elem_of_cons Hkj].
        -- rewrite Hnew in Hkj. by destruct Hk'.
        -- split; [done | by rewrite <- Hold].
Qed.

(** [map.set(key, value, touch)] *)
Lemma set_spec lm es k v touch :
  holds lm es →
  ∃ lm1, set k v touch lm = (lm1, Normal tt)
         ∧ holds lm1 (model_op es (OpSet k v touch))
         ∧ _currentState lm <= _currentState lm1
         ∧ (_currentState lm1 = _currentState lm →
            map fst (model_op es (OpSet k v touch)) = map fst es).
Proof.
  intros (l & Hr & <-). pose proof (represents_get lm l k Hr) as Hg.
  unfold set, bind, this. simpl model_op.
  destruct (Map_get k (_map lm)) as [i|] eqn:Eg.
  - destruct Hg as (Hi & Hk & [it E] & Hlk). rewrite Hlk. unfold assign.
    pose proof (represents_set_value lm l i v Hr) as Hr'.
    destruct (touch_spec _ l i touch Hr' Hi) as (lm1 & l' & n & Et & Hr1 & Hrel & Hn & Hn0 & He).
    rewrite Et. exists lm1. split; [done|].
    assert (Hup : map (entry (alter (with_value v) i (items lm))) l
                  = update k v (map (entry (items lm)) l)).
    { symmetry. apply update_entries; [by exists it | done |].
      intros j Hj Hkj. eapply keys_unique; [exact Hr | done | done | congruence]. }
    simpl in He. rewrite entry_alter_value, decide_True, E, Hk in He by done.
    simpl in He. rewrite Hup in He.
    split; [by exists l'|]. pose proof Hrel as (_ & _ & Hst & _). simpl in Hst.
    split; [lia|]. intros Heq. assert (n = 0) as Hz by lia. rewrite <- He, (Hn0 Hz).
    rewrite (entries_relinked _ _ _ _ Hrel). simpl. by rewrite Hup, keys_update.
  - destruct Hg as [Hlk Hno]. rewrite Hlk. unfold new_item.
    set (lm0 := set_items _ lm).
    assert (Hc0 : chained lm0 l).
    { destruct Hr as ((Hn & Hl & Hh & Ht) & _). split; [done|]. split; [|done].
      apply linked_frame with (its := items lm); [|done]. intros j Hj. simpl.
      apply lookup_app_l. apply lookup_lt_is_Some. by eapply linked_is_Some. }
    assert (Hi : length (items lm) ∉ l).
    { intros Hi. apply (chained_lt lm) in Hi; [lia | apply Hr]. }
    assert (Hit : ∃ it, items lm0 !! length (items lm) = Some it
                        ∧ previous it = None ∧ next it = None).
    { eexists. simpl. by rewrite list_lookup_middle. }
    assert (∃ lm1 l',
              (match touch with
               | AsOld => _addItemFirst (length (items lm))
               | _ => _addItemLast (length (items lm))
               end) lm0 = (lm1, Normal tt)
              ∧ chained lm1 l' ∧ relinked 1 lm0 lm1
              ∧ l' ≡ₚ length (items lm) :: l
              ∧ map (entry (items lm1)) l'
                = match touch with
                  | AsOld => entry (items lm1) (length (items lm)) :: map (entry (items lm1)) l
                  | _ => map (entry (items lm1)) l ++ [entry (items lm1) (length (items lm))]
                  end)
      as (lm1 & l' & Ea & Hc1 & Hrel & Hp & He).
    { destruct touch.
      - destruct (addItemLast_spec lm0 l _ Hc0 Hi Hit) as (lm1 & Ea & Hc1 & Hrel).
        exists lm1, (l ++ [length (items lm)]). do 3 (split; [done|]).
        split; [symmetry; apply Permutation_cons_append | by rewrite map_app].
      - destruct (addItemFirst_spec lm0 l _ Hc0 Hi Hit) as (lm1 & Ea & Hc1 & Hrel).
        exists lm1, (length (items lm) :: l). by do 3 (split; [done|]).
      - destruct (addItemLast_spec lm0 l _ Hc0 Hi Hit) as (lm1 & Ea & Hc1 & Hrel).
        exists lm1, (l ++ [length (items lm)]). do 3 (split; [done|]).
        split; [symmetry; apply Permutation_cons_append | by rewrite map_app]. }
    rewrite Ea. unfold assign. eexists. split; [reflexivity|].
    destruct (represents_added lm l lm1 l' k v Hr Eg Hc1 Hrel Hp) as (Hr2 & Hnew & Hold).
    assert (Hes : map (entry (items lm1)) l = map (entry (items lm)) l).
    { apply map_ext_in. intros j Hj. apply Hold. by apply list_elem_of_In. }
    rewrite Hnew, Hes in He. split.
    + exists l'. split; [done|]. simpl. rewrite He. by destruct touch.
    + pose proof Hrel as (_ & _ & Hst & _). simpl in Hst. simpl. split; lia.
Qed.

(** The item [i], which holds the key [k], has been taken out of the
    list and out of [_map]. *)
Lemma represents_removed n lm l1 i l2 lm1 k :
  represents lm (l1 ++ i :: l2) → (entry (items lm) i).1 = k →
  chained lm1 (l1 ++ l2) →
  relinked n (set_map (Map_delete k (_map lm)) lm) lm1 →
  represents (set_size (_size lm1 - 1) lm1) (l1 ++ l2).
Proof.
  intros Hr Hk Hc1 (Em & Es & _ & _ & He). simpl in Em, Es, He.
  assert (Hu : ∀ j, j ∈ l1 ++ l2 → (entry (items lm) j).1 ≠ k).
  { intros j Hj Hkj. assert (Hn : NoDup (l1 ++ i :: l2)) by apply Hr.
    destruct (NoDup_middle _ _ _ Hn) as (Hi1 & Hi2 & _).
    assert (j = i) as ->.
    { apply (keys_unique lm (l1 ++ i :: l2)); [done | | | congruence].
      - apply elem_of_app in Hj as [Hj|Hj]; apply elem_of_app; [by left | right; by right].
      - apply elem_of_app. right. by left. }
    apply elem_of_app in Hj as [Hj|Hj]; done. }
  destruct Hr as (Hc & Hs & Hkeys & Hm).
  split; [done|]. simpl. rewrite Em, Es. split; [|split].
  - rewrite Hs, !length_app. simpl. lia.
  - by apply index_NoDup_delete.
  - intros k' j. rewrite He. destruct (decide (k' = k)) as [->|Hk'].
    + rewrite index_get_delete_eq by done. split; [done|]. intros [Hj Hkj].
      by destruct (Hu j Hj).
    + rewrite index_get_delete_ne by done. rewrite Hm. split.
      * intros [Hj Hkj]. split; [|done].
        apply elem_of_app in Hj as [Hj|[->|Hj]%elem_of_cons]; apply elem_of_app;
          [by left | congruence | by right].
      * intros [Hj Hkj]. split; [|done].
        apply elem_of_app in Hj as [Hj|Hj]; apply elem_of_app; [by left | right; by right].
Qed.

Lemma head_entries its (l : list nat) : head (map (entry its) l) = entry its <$> head l.
Proof. by destruct l. Qed.

Lemma last_entries its (l : list nat) :
  list.last (map (entry its) l) = entry its <$> list.last l.
Proof.
  induction l as [|i l IH]; [done|]. destruct l as [|j l]; [done|].
  change (list.last (map (entry its) (i :: j :: l)))
    with (list.last (map (entry its) (j :: l))).
  by rewrite IH.
Qed.

(** A key at an end of the dictionary is held by the first or by the
    last item. *)
Lemma at_an_end_split lm l1 i l2 k :
  represents lm (l1 ++ i :: l2) → (entry (items lm) i).1 = k →
  at_an_end k (map (entry (items lm)) (l1 ++ i :: l2)) = true →
  l1 = [] ∨ l2 = [].
Proof.
  intros Hr Hk. unfold at_an_end.
  pose proof (represents_get lm _ k Hr) as Hg.
  assert (Hin : i ∈ l1 ++ i :: l2) by (apply elem_of_app; right; by left).
  assert (Hn : NoDup (l1 ++ i :: l2)) by apply Hr.
  destruct (NoDup_middle _ _ _ Hn) as (Hi1 & Hi2 & _).
  assert (Hlk : lookup k (map (entry (items lm)) (l1 ++ i :: l2))
                = Some (entry (items lm) i).2).
  { apply lookup_entries; [done | done |]. intros j Hj Hkj.
    eapply keys_unique; [exact Hr | done | done | congruence]. }
  rewrite Hlk, head_entries, last_entries.
  intros [H|H]%orb_true_iff; apply bool_decide_eq_true in H.
  - left. destruct l1 as [|h l1]; [done|]. simpl in H. injection H as H.
    assert (h = i) as ->.
    { eapply keys_unique; [exact Hr | by left | done | congruence]. }
    destruct Hi1. by left.
  - right. rewrite last_app in H. destruct l2 as [|n l2]; [done|].
    change (list.last (i :: n :: l2)) with (list.last (n :: l2)) in H.
    destruct (list.last (n :: l2)) as [t|] eqn:Et; [|by apply last_None in Et].
    simpl in H. injection H as H. assert (t = i) as ->.
    { eapply keys_unique; [exact Hr | | done | congruence].
      apply elem_of_app. right. right. by apply last_Some_elem_of. }
    destruct Hi2. by apply last_Some_elem_of.
Qed.

Lemma chained_set_map m lm l : chained lm l → chained (set_map m lm) l.
Proof. done. Qed.

(** [map.remove(key)] of a key that is not strictly inside. *)
Lemma remove_spec lm es k :
  holds lm es → at_an_end k es = true →
  ∃ lm1, remove k lm = (lm1, Normal (default VUndefined (lookup k es)))
         ∧ holds lm1 (without k es)
         ∧ _currentState lm <= _currentState lm1
         ∧ (_currentState lm1 = _currentState lm → without k es = es).
Proof.
  intros (l & Hr & <-) Hend. pose proof (represents_get lm l k Hr) as Hg.
  unfold remove, bind, this.
  destruct (Map_get k (_map lm)) as [i|] eqn:Eg.
  - destruct Hg as (Hi & Hk & [it E] & Hlk). rewrite Hlk.
    apply list_elem_of_split in Hi as (l1 & l2 & ->).
    pose proof (at_an_end_split _ _ _ _ _ Hr Hk Hend) as Hends.
    unfold assign.
    assert (Hc : chained (set_map (Map_delete k (_map lm)) lm) (l1 ++ i :: l2)) by apply Hr.
    destruct (removeItem_outer _ _ _ _ Hc Hends) as (lm1 & Er & Hc1 & Hrel).
    rewrite Er. unfold read. simpl items.
    assert (Hent : entry (items lm1) i = entry (items lm) i) by apply Hrel.
    assert (is_Some (items lm1 !! i)) as [it1 E1].
    { apply lookup_lt_is_Some. destruct Hrel as (_ & _ & _ & -> & _).
      by apply lookup_lt_is_Some. }
    rewrite E1. unfold ret. rewrite (entry_Some _ _ _ E1) in Hent.
    eexists. split; [by rewrite <- Hent|].
    pose proof (represents_removed _ _ _ _ _ _ _ Hr Hk Hc1 Hrel) as Hr1.
    split; [|pose proof Hrel as (_ & _ & Hst & _); simpl in *; split; lia].
    exists (l1 ++ l2). split; [done|]. simpl. rewrite (entries_relinked _ _ _ _ Hrel).
    simpl. symmetry. apply without_entries; [done|].
    intros j Hj Hkj. assert (Hn : NoDup (l1 ++ i :: l2)) by apply Hr.
    destruct (NoDup_middle _ _ _ Hn) as (Hi1 & Hi2 & _).
    assert (j = i) as ->.
    { apply (keys_unique lm (l1 ++ i :: l2)); [done | | | congruence].
      - apply elem_of_app in Hj as [Hj|Hj]; apply elem_of_app; [by left | right; by right].
      - apply elem_of_app. right. by left. }
    apply elem_of_app in Hj as [Hj|Hj]; done.
  - destruct Hg as [Hlk Hno]. rewrite Hlk. exists lm. split; [done|].
    rewrite (without_keep _ _ _ Hno). split; [by exists l|]. split; [lia|done].
Qed.

(** [map.shift()] *)
Lemma shift_spec lm es :
  holds lm es →
  ∃ lm1, shift lm = (lm1, Normal (default VUndefined (snd <$> head es)))
         ∧ holds lm1 (tail es)
         ∧ _currentState lm <= _currentState lm1
         ∧ (_currentState lm1 = _currentState lm → tail es = es).
Proof.
  intros (l & Hr & <-). unfold shift, bind, this.
  assert (Hh : _head lm = head l) by apply Hr.
  assert (Ht : _tail lm = list.last l) by apply Hr.
  rewrite Hh, Ht. destruct l as [|i l].
  - exists lm. split; [done|]. split; [by exists []|]. split; [lia|done].
  - change (head (i :: l)) with (Some i).
    destruct (list.last (i :: l)) as [t|] eqn:Et; [|by apply last_None in Et].
    assert (Hr' : represents lm ([] ++ i :: l)) by done.
    assert (Hc : chained lm ([] ++ i :: l)) by apply Hr.
    destruct (chained_at _ _ _ _ Hc) as (it & E & _). cbv beta iota. unfold read.
    cbv beta iota. rewrite E. unfold assign.
    assert (Hk : (entry (items lm) i).1 = key it) by by rewrite (entry_Some _ _ _ E).
    assert (Hc' : chained (set_map (Map_delete (key it) (_map lm)) lm) ([] ++ i :: l))
      by apply Hr.
    destruct (removeItem_outer _ _ _ _ Hc' (or_introl eq_refl)) as (lm1 & Er & Hc1 & Hrel).
    rewrite Er. simpl items.
    assert (Hent : entry (items lm1) i = entry (items lm) i) by apply Hrel.
    assert (is_Some (items lm1 !! i)) as [it1 E1].
    { apply lookup_lt_is_Some. destruct Hrel as (_ & _ & _ & -> & _).
      by apply lookup_lt_is_Some. }
    rewrite E1. unfold ret. rewrite (entry_Some _ _ _ E1) in Hent.
    eexists. split; [simpl; by rewrite <- Hent|].
    pose proof (represents_removed _ _ _ _ _ _ _ Hr' Hk Hc1 Hrel) as Hr1.
    split; [|pose proof Hrel as (_ & _ & Hst & _); simpl in *; split; lia].
    exists l. split; [done|]. simpl. by rewrite (entries_relinked _ _ _ _ Hrel).
Qed.

(** [map.clear()] *)
Lemma clear_spec lm :
  ∃ lm1, clear lm = (lm1, Normal tt) ∧ holds lm1 []
         ∧ _currentState lm < _currentState lm1.
Proof.
  eexists. split; [reflexivity|]. split; [|simpl; lia].
  exists []. split; [|done]. split; [|split; [done|split; [apply NoDup_nil_2|]]].
  - split; [apply NoDup_nil_2 | done].
  - intros k i. simpl. split; [done|]. by intros [?%elem_of_nil _].
Qed.

Lemma holds_new : holds new_LinkedMap [].
Proof.
  exists []. split; [|done]. split; [|split; [done|split; [apply NoDup_nil_2|]]].
  - split; [apply NoDup_nil_2 | done].
  - intros k i. simpl. split; [done|]. by intros [?%elem_of_nil _].
Qed.

Lemma keys_without_same k es : map fst (without k es) = map fst es → without k es = es.
Proof.
  intros H. assert (Hl : length (without k es) = length es).
  { by rewrite <- (length_map fst), H, length_map. }
  clear H. induction es as [|e es IH]; [done|]. unfold without in *. simpl in *.
  destruct (negb (bool_decide (e.1 = k))); simpl in *.
  - f_equal. apply IH. lia.
  - pose proof (List.filter_length_le (λ e, negb (bool_decide (e.1 = k))) es). lia.
Qed.

(** One operation on a map that holds [es]. *)
Lemma exec_spec lm es op :
  holds lm es →
  match op with OpRemove k | OpDelete k => at_an_end k es | _ => true end = true →
  ∃ lm1, exec op lm = (lm1, Normal tt)
         ∧ holds lm1 (model_op es op)
         ∧ _currentState lm <= _currentState lm1
         ∧ (_currentState lm1 = _currentState lm →
            map fst (model_op es op) = map fst es).
Proof.
  intros Hh Hop. destruct op as [k v touch|k touch|k|k| |]; simpl exec.
  - by apply set_spec.
  - destruct (get_spec lm es k touch Hh) as (lm1 & E & Hh1 & Hle & Heq & _).
    exists lm1. unfold bind. rewrite E. split; [done|]. split; [done|].
    split; [done|]. intros H. by rewrite Heq.
  - destruct (remove_spec lm es k Hh Hop) as (lm1 & E & Hh1 & Hle & Heq).
    exists lm1. unfold bind. rewrite E. split; [done|]. split; [done|].
    split; [done|]. intros H. simpl. by rewrite Heq.
  - destruct (remove_spec lm es k Hh Hop) as (lm1 & E & Hh1 & Hle & Heq).
    exists lm1. unfold delete, bind. rewrite E. split; [done|]. split; [done|].
    split; [done|]. intros H. simpl. by rewrite Heq.
  - destruct (shift_spec lm es Hh) as (lm1 & E & Hh1 & Hle & Heq).
    exists lm1. unfold bind. rewrite E. split; [done|]. split; [done|].
    split; [done|]. intros H. simpl. by rewrite Heq.
  - destruct (clear_spec lm) as (lm1 & E & Hh1 & Hlt).
    exists lm1. split; [done|]. split; [done|]. split; [lia|]. lia.
Qed.

(** A list of operations on a map that holds [es]. *)
Lemma run_spec ops : ∀ lm es,
  holds lm es → outer_removals es ops = true →
  ∃ lm1, run ops lm = (lm1, Normal tt)
         ∧ holds lm1 (fold_left model_op ops es)
         ∧ _currentState lm <= _currentState lm1
         ∧ (_currentState lm1 = _currentState lm →
            map fst (fold_left model_op ops es) = map fst es).
Proof.
  induction ops as [|op ops IH]; intros lm es Hh Hs.
  - exists lm. split; [done|]. split; [done|]. split; [lia|done].
  - simpl in Hs. apply andb_true_iff in Hs as [Hop Hs].
    destruct (exec_spec lm es op Hh Hop) as (lm1 & E & Hh1 & Hle & Heq).
    destruct (IH lm1 _ Hh1 Hs) as (lm2 & E2 & Hh2 & Hle2 & Heq2).
    exists lm2. simpl. unfold bind. rewrite E. split; [done|]. split; [done|].
    split; [lia|]. intros H. rewrite Heq2 by lia. apply Heq. lia.
Qed.

(** *** What the map shows *)

Lemma walk_linked its b l a f :
  linked its b l a →
  walk (length l + f) its (first_or l a) = (l ++.) <$> walk f its a.
Proof.
  revert b. induction l as [|i l IH]; intros b; simpl.
  - intros _. by destruct (walk f its a).
  - intros [(it & E & P & N) Hl]. rewrite E, N, (IH _ Hl).
    by destruct (walk f its a).
Qed.

Lemma walk_None f its : walk f its None = Some [].
Proof. by destruct f. Qed.

Lemma toJSON_holds lm es fuel :
  holds lm es → (length es ≤ fuel)%nat → toJSON fuel lm = Some es.
Proof.
  intros (l & ((Hn & Hl & Hh & Ht) & _) & <-) Hf. unfold toJSON.
  rewrite length_map in Hf. replace fuel with (length l + (fuel - length l))%nat by lia.
  rewrite Hh, <- first_or_None, (walk_linked _ _ _ _ _ Hl), walk_None. simpl.
  by rewrite app_nil_r.
Qed.

Lemma keys_NoDup lm es : holds lm es → NoDup (map fst es).
Proof.
  intros (l & Hr & <-). assert (Hn : NoDup l) by apply Hr.
  assert (Hu : ∀ i j, i ∈ l → j ∈ l →
               (entry (items lm) i).1 = (entry (items lm) j).1 → i = j).
  { intros i j. by apply keys_unique. }
  clear Hr. induction l as [|i l IH]; [apply NoDup_nil_2|].
  apply NoDup_cons in Hn as [Hi Hn]. simpl. apply NoDup_cons. split.
  - intros Hin. apply list_elem_of_fmap in Hin as ([k v] & Hk & Hin).
    apply list_elem_of_fmap in Hin as (j & Hj & Hin). simpl in Hk.
    assert (i = j) as ->; [|done]. apply Hu; [by left | by right |].
    by rewrite <- Hj.
  - apply IH; [done|]. intros a b Ha Hb. apply Hu; by right.
Qed.

Lemma observe_holds lm es :
  holds lm es →
  _size lm = Z.of_nat (length es)
  ∧ isEmpty lm = bool_decide (es = [])
  ∧ first lm = default VUndefined (snd <$> head es)
  ∧ last lm = default VUndefined (snd <$> list.last es)
  ∧ ∀ k, has k lm = bool_decide (is_Some (lookup k es)).
Proof.
  intros (l & Hr & <-).
  assert (Hc : chained lm l) by apply Hr. pose proof Hc as (Hn & Hl & Hh & Ht).
  split; [|split; [|split; [|split]]].
  - rewrite length_map. apply Hr.
  - unfold isEmpty. rewrite Hh, Ht. destruct l as [|i l]; [done|].
    by destruct (list.last (i :: l)).
  - unfold first. rewrite Hh, head_entries. destruct l as [|i l]; [done|]. simpl.
    destruct (linked_is_Some _ _ _ _ i Hl) as [it E]; [by left|].
    by rewrite E, (entry_Some _ _ _ E).
  - unfold last. rewrite Ht, last_entries.
    destruct (list.last l) as [t|] eqn:Et; [|done]. simpl.
    destruct (linked_is_Some _ _ _ _ t Hl) as [it E]; [by apply last_Some_elem_of|].
    by rewrite E, (entry_Some _ _ _ E).
  - intros k. unfold has. pose proof (represents_get lm l k Hr) as Hg.
    destruct (Map_get k (_map lm)) as [i|].
    + destruct Hg as (_ & _ & _ & ->). by rewrite bool_decide_eq_true_2.
    + destruct Hg as [-> _]. rewrite bool_decide_eq_false_2; [done|]. by intros [? ?].
Qed.

Lemma lookup_without_ne k k' es : k' ≠ k → lookup k' (without k es) = lookup k' es.
Proof.
  intros Hk. induction es as [|[k0 v0] es IH]; [done|]. unfold without in *. simpl.
  destruct (decide (k0 = k)) as [->|Hk0].
  - rewrite bool_decide_eq_true_2 by done. simpl. by rewrite decide_False.
  - rewrite bool_decide_eq_false_2 by done. simpl. by rewrite IH.
Qed.

(** [map.remove(key)] of a key strictly inside. *)
Lemma remove_inner_spec lm es1 k v es2 :
  holds lm (es1 ++ (k, v) :: es2) → es1 ≠ [] → es2 ≠ [] →
  ∃ lm1, remove k lm = (lm1, Normal v)
    ∧ has k lm1 = false
    ∧ _size lm1 = Z.of_nat (length (es1 ++ es2))
    ∧ _currentState lm1 = _currentState lm + 1
    ∧ (∀ fuel, (length es1 < fuel)%nat → toJSON fuel lm1 = Some (es1 ++ [(k, v)]))
    ∧ ∀ k', k' ≠ k →
        get k' TouchNone lm1
        = (lm1, Normal (default VUndefined (lookup k' (es1 ++ es2)))).
Proof.
  intros (l & Hr & He) H1 H2.
  apply map_eq_app in He as (l1 & l2' & -> & He1 & He2).
  apply map_eq_cons in He2 as (i & l2 & -> & Hi & He2).
  destruct l1 as [|p l1 _] using rev_ind; [by subst|].
  destruct l2 as [|n l2]; [by subst|].
  assert (Hk : (entry (items lm) i).1 = k) by by rewrite Hi.
  assert (Hin : i ∈ (l1 ++ [p]) ++ i :: n :: l2) by (apply elem_of_app; right; by left).
  assert (Eg : Map_get k (_map lm) = Some i) by by apply Hr.
  pose proof (represents_get lm _ k Hr) as Hg. rewrite Eg in Hg.
  destruct Hg as (_ & _ & [it E] & _).
  unfold remove, bind, this. rewrite Eg. unfold assign.
  assert (Hc : chained (set_map (Map_delete k (_map lm)) lm) (l1 ++ p :: i :: n :: l2)).
  { rewrite <- app_assoc in Hr. apply Hr. }
  destruct (removeItem_inner _ _ _ _ _ _ Hc) as (lm1 & Er & Hrel & Hh & Ht & Hl & Hit & _).
  rewrite Er. unfold read. simpl items.
  assert (Hent : ∀ j, entry (items lm1) j = entry (items lm) j) by apply Hrel.
  assert (Hlen : length (items lm1) = length (items lm)) by apply Hrel.
  assert (is_Some (items lm1 !! i)) as [it1 E1].
  { apply lookup_lt_is_Some. rewrite Hlen. by apply lookup_lt_is_Some. }
  rewrite E1. unfold ret. pose proof (Hent i) as Hei.
  rewrite (entry_Some _ _ _ E1), Hi in Hei. injection Hei as Hk1 Hv1.
  eexists. split; [by rewrite Hv1|].
  pose proof Hrel as (Em & Es & Hst & _). simpl in Em, Es, Hst.
  assert (Hkeys : NoDup (map fst (_map lm))) by apply Hr.
  split; [|split; [|split; [|split]]]; simpl.
  - unfold has. simpl. by rewrite Em, index_get_delete_eq.
  - rewrite Es. destruct Hr as (_ & -> & _). rewrite <- He1, <- He2.
    rewrite !length_app, ?length_map. simpl. rewrite ?length_app, ?length_map. simpl. lia.
  - done.
  - intros fuel Hf. unfold toJSON. simpl. rewrite Hh. simpl.
    assert (Hhd : _head lm = head (l1 ++ p :: i :: n :: l2)) by apply Hc. rewrite Hhd.
    assert (head (l1 ++ p :: i :: n :: l2) = first_or (l1 ++ [p]) (Some i)) as ->
      by by destruct l1.
    rewrite <- He1, length_map in Hf.
    replace fuel with (length (l1 ++ [p]) + S (fuel - S (length (l1 ++ [p]))))%nat by lia.
    rewrite (walk_linked _ _ _ _ _ Hl). simpl.
    destruct Hit as (it' & E' & N'). rewrite E', N', walk_None. simpl.
    rewrite map_app. simpl. rewrite (Hent i), Hi. f_equal. f_equal.
    rewrite <- He1. apply map_ext. intros j. apply Hent.
  - intros k' Hk'. unfold get, bind, this. simpl. rewrite Em.
    rewrite index_get_delete_ne by done.
    assert (Hes : es1 ++ es2 = without k (map (entry (items lm)) ((l1 ++ [p]) ++ i :: n :: l2))).
    { assert (Hn : NoDup ((l1 ++ [p]) ++ i :: n :: l2)) by apply Hr.
      destruct (NoDup_middle _ _ _ Hn) as (Hi1 & Hi2 & _).
      rewrite without_entries; [by rewrite map_app, He1, He2 | done |].
      intros j Hj Hkj. assert (j = i) as ->.
      { eapply keys_unique; [exact Hr | | exact Hin | congruence].
        apply elem_of_app in Hj as [Hj|Hj]; apply elem_of_app; [by left | right; by right]. }
      apply elem_of_app in Hj as [Hj|Hj]; done. }
    rewrite Hes, lookup_without_ne by done.
    pose proof (represents_get lm _ k' Hr) as Hg'.
    destruct (Map_get k' (_map lm)) as [j|].
    + destruct Hg' as (Hj & Hkj & [itj Ej] & ->). unfold ret, read. simpl.
      assert (is_Some (items lm1 !! j)) as [itj1 Ej1].
      { apply lookup_lt_is_Some. rewrite Hlen. by apply lookup_lt_is_Some. }
      rewrite Ej1. pose proof (Hent j) as Hej. rewrite (entry_Some _ _ _ Ej1) in Hej.
      by rewrite <- Hej.
    + destruct Hg' as [-> _]. done.
Qed.

(** *** The map as an ordered dictionary *)

Lemma reached_holds ops :
  outer_removals [] ops = true →
  ∃ lm, run ops new_LinkedMap = (lm, Normal tt) ∧ holds lm (model ops).
Proof.
  intros Hs. destruct (run_spec ops _ _ holds_new Hs) as (lm & E & Hh & _).
  by exists lm.
Qed.

(** X21: a [LinkedMap] is an ordered dictionary.  After any list of
    operations ([set], [get], [remove], [delete], [shift] and [clear],
    with any [Touch]) in which no removal takes a key strictly inside
    the order, the map holds what the dictionary [model] holds:
    [toJSON] lists its entries in its order, each key once; [size],
    [isEmpty], [first] and [last] agree with it; [has] and [get] find
    its keys and no other.  In [model] a new key goes to the end (to
    the front with [Touch.AsOld]), a key set again keeps its place, and
    a touched key moves to the end or to the front. *)
Theorem LinkedMap_is_an_ordered_dictionary (ops : list MapOp) :
  outer_removals [] ops = true →
  ∃ lm,
    run ops new_LinkedMap = (lm, Normal tt)
    ∧ (∀ fuel, (length (model ops) ≤ fuel)%nat → toJSON fuel lm = Some (model ops))
    ∧ NoDup (map fst (model ops))
    ∧ _size lm = Z.of_nat (length (model ops))
    ∧ isEmpty lm = bool_decide (model ops = [])
    ∧ first lm = default VUndefined (snd <$> head (model ops))
    ∧ last lm = default VUndefined (snd <$> list.last (model ops))
    ∧ ∀ k, has k lm = bool_decide (is_Some (lookup k (model ops)))
           ∧ get k TouchNone lm
             = (lm, Normal (default VUndefined (lookup k (model ops)))).
Proof.
  intros Hs. destruct (reached_holds ops Hs) as (lm & E & Hh).
  exists lm. split; [done|].
  destruct (observe_holds lm _ Hh) as (Hsize & Hempty & Hfirst & Hlast & Hhas).
  split; [intros fuel Hf; by apply toJSON_holds|].
  split; [by eapply keys_NoDup|].
  do 4 (split; [done|]). intros k. split; [done|].
  destruct (get_spec lm _ k TouchNone Hh) as (lm1 & Eg & _ & _ & _ & Hsame).
  by rewrite (Hsame eq_refl) in Eg.
Qed.

Lemma LinkedMap_is_an_ordered_dictionary_witness :
  let ops := [OpSet (VString "a") (VNumber 1) TouchNone;
              OpSet (VString "b") (VNumber 2) AsOld;
              OpSet (VString "c") (VNumber 3) TouchNone;
              OpGet (VString "b") AsNew;
              OpRemove (VString "b");
              OpSet (VString "a") (VNumber 4) TouchNone] in
  outer_removals [] ops = true
  ∧ ∃ lm,
      run ops new_LinkedMap = (lm, Normal tt)
      ∧ (∀ fuel, (length (model ops) ≤ fuel)%nat → toJSON fuel lm = Some (model ops))
      ∧ NoDup (map fst (model ops))
      ∧ _size lm = Z.of_nat (length (model ops))
      ∧ isEmpty lm = bool_decide (model ops = [])
      ∧ first lm = default VUndefined (snd <$> head (model ops))
      ∧ last lm = default VUndefined (snd <$> list.last (model ops))
      ∧ ∀ k, has k lm = bool_decide (is_Some (lookup k (model ops)))
             ∧ get k TouchNone lm
               = (lm, Normal (default VUndefined (lookup k (model ops)))).
Proof.
  split; [reflexivity|].
  apply (LinkedMap_is_an_ordered_dictionary
           [OpSet (VString "a") (VNumber 1) TouchNone;
            OpSet (VString "b") (VNumber 2) AsOld;
            OpSet (VString "c") (VNumber 3) TouchNone;
            OpGet (VString "b") AsNew;
            OpRemove (VString "b");
            OpSet (VString "a") (VNumber 4) TouchNone]).
  reflexivity.
Defined.

Lemma lookup_split k v es :
  lookup k es = Some v → ∃ es1 es2, es = es1 ++ (k, v) :: es2.
Proof.
  intros H. apply lookup_Some_elem in H. by apply list_elem_of_split.
Qed.

Lemma at_an_end_false k v es1 es2 :
  at_an_end k (es1 ++ (k, v) :: es2) = false → es1 ≠ [] ∧ es2 ≠ [].
Proof.
  unfold at_an_end. destruct (lookup k (es1 ++ (k, v) :: es2)); [|done].
  intros H. apply orb_false_iff in H as [H1 H2].
  apply bool_decide_eq_false in H1. apply bool_decide_eq_false in H2. split.
  - intros ->. by apply H1.
  - intros ->. apply H2. by rewrite last_snoc.
Qed.

(** X22: [delete(key)] answers with the truthiness of the value it
    removed, not with whether the key was there: the answer is [false]
    for a missing key, and also for a key that held [0], the empty
    string or [undefined], although that key is gone afterwards and
    the size is one less. *)
Theorem LinkedMap_delete_reports_the_value (ops : list MapOp) (k : Value) :
  outer_removals [] ops = true →
  ∃ lm lm1,
    run ops new_LinkedMap = (lm, Normal tt)
    ∧ delete k lm = (lm1, Normal (truthy (default VUndefined (lookup k (model ops)))))
    ∧ has k lm1 = false
    ∧ _size lm1
      = Z.of_nat (length (model ops)) - (if lookup k (model ops) is Some _ then 1 else 0).
Proof.
  intros Hs. destruct (reached_holds ops Hs) as (lm & E & Hh).
  exists lm. destruct (at_an_end k (model ops)) eqn:Hend.
  - destruct (remove_spec lm _ k Hh Hend) as (lm1 & Er & Hh1 & _).
    exists lm1. split; [done|]. unfold delete, bind. rewrite Er. split; [done|].
    destruct (observe_holds lm1 _ Hh1) as (Hsize & _ & _ & _ & Hhas).
    split.
    + rewrite Hhas. apply bool_decide_eq_false_2. intros [v Hv].
      apply lookup_Some_elem in Hv. unfold without in Hv.
      apply list_elem_of_In, List.filter_In in Hv as [_ Hv]. simpl in Hv.
      by rewrite bool_decide_eq_true_2 in Hv.
    + rewrite Hsize. pose proof (keys_NoDup _ _ Hh) as Hn.
      destruct (lookup k (model ops)) as [v|] eqn:Hl.
      * destruct (lookup_split _ _ _ Hl) as (es1 & es2 & Hes). rewrite Hes in *.
        rewrite map_app in Hn. simpl in Hn. apply NoDup_app in Hn as (_ & Hn1 & Hn2).
        apply NoDup_cons in Hn2 as [Hn2 _].
        unfold without. rewrite List.filter_app. simpl.
        rewrite bool_decide_eq_true_2 by done. simpl.
        assert (Hk1 : ∀ es, k ∉ map fst es → without k es = es).
        { clear. intros es. induction es as [|[k0 v0] es IH]; [done|]. simpl.
          intros Hk. unfold without in *. simpl.
          rewrite bool_decide_eq_false_2.
          - simpl. rewrite IH; [done|]. intros Hin. apply Hk. by right.
          - intros ->. apply Hk. by left. }
        fold (without k es1). fold (without k es2). rewrite !Hk1.
        -- rewrite !length_app. simpl. lia.
        -- done.
        -- intros Hin. apply (Hn1 k Hin). by left.
      * assert (Hk1 : without k (model ops) = model ops).
        { apply lookup_None_keys in Hl. clear -Hl. induction (model ops) as [|[k0 v0] es IH];
            [done|]. unfold without in *. simpl. rewrite bool_decide_eq_false_2.
          - simpl. rewrite IH; [done|]. intros Hin. apply Hl. by right.
          - intros ->. apply Hl. by left. }
        rewrite Hk1. lia.
  - assert (∃ v, lookup k (model ops) = Some v) as [v Hl].
    { unfold at_an_end in Hend. destruct (lookup k (model ops)); [by eexists | done]. }
    destruct (lookup_split _ _ _ Hl) as (es1 & es2 & Hes). rewrite Hes in Hend, Hh.
    destruct (at_an_end_false _ _ _ _ Hend) as [H1 H2].
    destruct (remove_inner_spec lm es1 k v es2 Hh H1 H2) as (lm1 & Er & Hhas & Hsize & _).
    exists lm1. split; [done|]. unfold delete, bind. rewrite Er, Hl. split; [done|].
    split; [done|]. rewrite Hsize, Hes, !length_app. simpl. lia.
Qed.

Lemma LinkedMap_delete_reports_the_value_witness :
  let ops := [OpSet (VString "a") (VNumber 0) TouchNone;
              OpSet (VString "b") (VNumber 2) TouchNone] in
  outer_removals [] ops = true
  ∧ ∃ lm lm1,
      run ops new_LinkedMap = (lm, Normal tt)
      ∧ delete (VString "a") lm
        = (lm1, Normal (truthy (default VUndefined (lookup (VString "a") (model ops)))))
      ∧ has (VString "a") lm1 = false
      ∧ _size lm1
        = Z.of_nat (length (model ops))
          - (if lookup (VString "a") (model ops) is Some _ then 1 else 0).
Proof.
  split; [reflexivity|].
  apply (LinkedMap_delete_reports_the_value
           [OpSet (VString "a") (VNumber 0) TouchNone;
            OpSet (VString "b") (VNumber 2) TouchNone] (VString "a")).
  reflexivity.
Defined.

(** X23: [remove(key)] of a key strictly inside the order, neither
    the first nor the last, returns the value, forgets the key and
    lowers the size, but leaves the list cut short: [toJSON] then
    lists the entries up to and including the removed one and none of
    the entries after it, although [get] still finds those. *)
Theorem remove_inside_cuts_the_list_short
    (ops : list MapOp) (es1 es2 : Entries) (k v : Value) :
  outer_removals [] ops = true →
  model ops = es1 ++ (k, v) :: es2 → es1 ≠ [] → es2 ≠ [] →
  ∃ lm lm1,
    run ops new_LinkedMap = (lm, Normal tt)
    ∧ remove k lm = (lm1, Normal v)
    ∧ has k lm1 = false
    ∧ _size lm1 = Z.of_nat (length (es1 ++ es2))
    ∧ (∀ fuel, (length es1 < fuel)%nat → toJSON fuel lm1 = Some (es1 ++ [(k, v)]))
    ∧ ∀ k', k' ≠ k →
        get k' TouchNone lm1
        = (lm1, Normal (default VUndefined (lookup k' (es1 ++ es2)))).
Proof.
  intros Hs Hes H1 H2. destruct (reached_holds ops Hs) as (lm & E & Hh).
  rewrite Hes in Hh.
  destruct (remove_inner_spec lm es1 k v es2 Hh H1 H2)
    as (lm1 & Er & Hhas & Hsize & _ & Hjson & Hget).
  by exists lm, lm1.
Qed.

Lemma remove_inside_cuts_the_list_short_witness :
  let ops := [OpSet (VString "a") (VNumber 1) TouchNone;
              OpSet (VString "b") (VNumber 2) TouchNone;
              OpSet (VString "c") (VNumber 3) TouchNone] in
  let es1 := [(VString "a", VNumber 1)] in
  let es2 := [(VString "c", VNumber 3)] in
  ∃ lm lm1,
    run ops new_LinkedMap = (lm, Normal tt)
    ∧ remove (VString "b") lm = (lm1, Normal (VNumber 2))
    ∧ has (VString "b") lm1 = false
    ∧ _size lm1 = Z.of_nat (length (es1 ++ es2))
    ∧ (∀ fuel, (length es1 < fuel)%nat
               → toJSON fuel lm1 = Some (es1 ++ [(VString "b", VNumber 2)]))
    ∧ ∀ k', k' ≠ VString "b" →
        get k' TouchNone lm1
        = (lm1, Normal (default VUndefined (lookup k' (es1 ++ es2)))).
Proof.
  apply (remove_inside_cuts_the_list_short
           [OpSet (VString "a") (VNumber 1) TouchNone;
            OpSet (VString "b") (VNumber 2) TouchNone;
            OpSet (VString "c") (VNumber 3) TouchNone]
           [(VString "a", VNumber 1)] [(VString "c", VNumber 3)]
           (VString "b") (VNumber 2)); [reflexivity | reflexivity | done | done].
Defined.

Lemma set_each_run entries lm :
  set_each entries lm = run (map (λ e, OpSet e.1 e.2 TouchNone) entries) lm.
Proof.
  revert lm. induction entries as [|[k v] entries IH]; intros lm; [done|].
  simpl. unfold bind. destruct (set k v TouchNone lm) as [lm1 [[]|t]]; [|done].
  apply IH.
Qed.

Lemma outer_removals_sets entries : ∀ es,
  outer_removals es (map (λ e, OpSet e.1 e.2 TouchNone) entries) = true.
Proof. induction entries as [|[k v] entries IH]; intros es; [done|]. simpl. apply IH. Qed.

Lemma model_sets entries : ∀ es,
  NoDup (map fst (es ++ entries)) →
  fold_left model_op (map (λ e, OpSet e.1 e.2 TouchNone) entries) es = es ++ entries.
Proof.
  induction entries as [|[k v] entries IH]; intros es Hn; simpl.
  - by rewrite app_nil_r.
  - assert (Hl : lookup k es = None).
    { apply lookup_None_keys. rewrite map_app in Hn. simpl in Hn.
      apply NoDup_app in Hn as (_ & Hn & _). intros Hin. apply (Hn k Hin). by left. }
    rewrite Hl. rewrite IH; [by rewrite <- app_assoc|]. by rewrite <- app_assoc.
Qed.

(** X24: [new LinkedMap(entries)] followed by [toJSON()] gives the
    entries back, in their order, when no key occurs twice; [size] is
    their number, [get] finds each value, and [undefined] for a key
    that is not among them. *)
Theorem LinkedMap_constructor_round_trip (entries : list (Value * Value)) :
  NoDup (map fst entries) →
  ∃ lm,
    construct entries = (lm, Normal tt)
    ∧ (∀ fuel, (length entries ≤ fuel)%nat → toJSON fuel lm = Some entries)
    ∧ _size lm = Z.of_nat (length entries)
    ∧ (∀ k v, (k, v) ∈ entries → get k TouchNone lm = (lm, Normal v))
    ∧ ∀ k, k ∉ map fst entries → get k TouchNone lm = (lm, Normal VUndefined).
Proof.
  intros Hn. unfold construct. rewrite set_each_run.
  destruct (run_spec _ _ _ holds_new (outer_removals_sets entries []))
    as (lm & E & Hh & _).
  rewrite (model_sets entries [] Hn) in Hh. simpl in Hh.
  exists lm. split; [done|]. split; [intros fuel Hf; by apply toJSON_holds|].
  destruct (observe_holds lm _ Hh) as (Hsize & _). split; [done|].
  assert (Hget : ∀ k, get k TouchNone lm
                      = (lm, Normal (default VUndefined (lookup k entries)))).
  { intros k. destruct (get_spec lm _ k TouchNone Hh) as (lm1 & Eg & _ & _ & _ & Hsame).
    by rewrite (Hsame eq_refl) in Eg. }
  split.
  - intros k v Hin. rewrite Hget. clear -Hn Hin.
    induction entries as [|[k0 v0] entries IH]; [by apply elem_of_nil in Hin|].
    simpl in *. apply NoDup_cons in Hn as [Hk Hn].
    apply elem_of_cons in Hin as [[= -> ->]|Hin].
    + by rewrite decide_True.
    + rewrite decide_False; [by apply IH|]. intros ->. apply Hk.
      apply list_elem_of_fmap. by exists (k, v).
  - intros k Hk. rewrite Hget. apply lookup_None_keys in Hk. by rewrite Hk.
Qed.

Lemma LinkedMap_constructor_round_trip_witness :
  let entries := [(VString "a", VNumber 1); (VNumber 0, VString "zero")] in
  ∃ lm,
    construct entries = (lm, Normal tt)
    ∧ (∀ fuel, (length entries ≤ fuel)%nat → toJSON fuel lm = Some entries)
    ∧ _size lm = Z.of_nat (length entries)
    ∧ (∀ k v, (k, v) ∈ entries → get k TouchNone lm = (lm, Normal v))
    ∧ ∀ k, k ∉ map fst entries → get k TouchNone lm = (lm, Normal VUndefined).
Proof.
  apply (LinkedMap_constructor_round_trip
           [(VString "a", VNumber 1); (VNumber 0, VString "zero")]).
  vm_compute. apply NoDup_cons. split; [|apply NoDup_singleton].
  intros H%list_elem_of_singleton. discriminate H.
Defined.

Lemma from_each_truthy entries lm :
  forallb (λ e, truthy e.1) entries = true → from_each entries lm = set_each entries lm.
Proof.
  revert lm. induction entries as [|[k v] entries IH]; intros lm; [done|]. simpl.
  intros [Hk Hr]%andb_true_iff. rewrite Hk. unfold bind.
  destruct (set k v TouchNone lm) as [lm1 [[]|t]]; [|done]. by apply IH.
Qed.

Lemma lookup_update_keep k k' v es :
  is_Some (lookup k es) → is_Some (lookup k (update k' v es)).
Proof.
  induction es as [|[k1 v1] es IH]; [done|]. unfold update in *. simpl.
  destruct (decide (k1 = k')) as [->|Hk1]; simpl.
  - destruct (decide (k' = k)); [by eexists | done].
  - destruct (decide (k1 = k)); [by eexists | done].
Qed.

Lemma lookup_app_keep k es es' : is_Some (lookup k es) → is_Some (lookup k (es ++ es')).
Proof.
  induction es as [|[k1 v1] es IH]; [by intros [? ?]|]. simpl.
  by destruct (decide (k1 = k)).
Qed.

Lemma lookup_set_new k v es : is_Some (lookup k (model_op es (OpSet k v TouchNone))).
Proof.
  simpl. destruct (lookup k es) as [v0|] eqn:El; simpl.
  - apply lookup_update_keep. by rewrite El.
  - clear. induction es as [|[k1 v1] es IH]; simpl.
    + by rewrite decide_True.
    + by destruct (decide (k1 = k)).
Qed.

Lemma lookup_sets_keep k entries : ∀ es,
  is_Some (lookup k es) →
  is_Some (lookup k (fold_left model_op (map (λ e, OpSet e.1 e.2 TouchNone) entries) es)).
Proof.
  induction entries as [|[k2 v2] entries IH]; intros es Hin; [done|]. simpl. apply IH.
  destruct (lookup k2 es); simpl; [by apply lookup_update_keep | by apply lookup_app_keep].
Qed.

(** X25: [LinkedMap.from(iterable)] sets the pairs in order and
    throws [ERR_INVALID_TYPE] at the first pair whose key is falsy
    ([0], the empty string, [undefined]); the pairs before it have been
    set.  The constructor accepts the same pairs, the falsy key
    included. *)
Theorem LinkedMap_from_refuses_a_falsy_key
    (pre post : list (Value * Value)) (k v : Value) :
  forallb (λ e, truthy e.1) pre = true → truthy k = false →
  ∃ lm,
    construct pre = (lm, Normal tt)
    ∧ from pre = (lm, Normal tt)
    ∧ from (pre ++ (k, v) :: post) = (lm, Throw no_object_entry)
    ∧ thrown_is no_object_entry ERR_INVALID_TYPE = true
    ∧ ∃ lm1, construct (pre ++ (k, v) :: post) = (lm1, Normal tt)
             ∧ has k lm1 = true.
Proof.
  intros Hpre Hk.
  assert (Hc : ∀ entries, ∃ lm, construct entries = (lm, Normal tt)
                                ∧ holds lm (model (map (λ e, OpSet e.1 e.2 TouchNone) entries))).
  { intros entries. unfold construct. rewrite set_each_run.
    destruct (run_spec _ _ _ holds_new (outer_removals_sets entries []))
      as (lm & E & Hh & _). by exists lm. }
  destruct (Hc pre) as (lm & E & Hh). exists lm. split; [done|].
  unfold from. rewrite from_each_truthy by done. split; [done|]. split.
  - unfold construct in E. clear Hh Hc. revert E. generalize new_LinkedMap.
    induction pre as [|[k0 v0] pre IH]; intros lm0.
    + simpl. intros [= ->]. by rewrite Hk.
    + simpl in *. apply andb_true_iff in Hpre as [Hk0 Hpre]. rewrite Hk0. unfold bind.
      destruct (set k0 v0 TouchNone lm0) as [lm1 [[]|t]]; [|done]. by apply IH.
  - split; [done|]. destruct (Hc (pre ++ (k, v) :: post)) as (lm1 & E1 & Hh1).
    exists lm1. split; [done|].
    destruct (observe_holds lm1 _ Hh1) as (_ & _ & _ & _ & Hhas). rewrite Hhas.
    apply bool_decide_eq_true_2. unfold model. rewrite map_app, fold_left_app.
    simpl fold_left at 1. apply lookup_sets_keep, lookup_set_new.
Qed.

Lemma LinkedMap_from_refuses_a_falsy_key_witness :
  ∃ lm,
    construct [(VString "a", VNumber 1)] = (lm, Normal tt)
    ∧ from [(VString "a", VNumber 1)] = (lm, Normal tt)
    ∧ from ([(VString "a", VNumber 1)] ++ (VNumber 0, VString "zero") :: [])
      = (lm, Throw no_object_entry)
    ∧ thrown_is no_object_entry ERR_INVALID_TYPE = true
    ∧ ∃ lm1, construct ([(VString "a", VNumber 1)] ++ (VNumber 0, VString "zero") :: [])
             = (lm1, Normal tt)
             ∧ has (VNumber 0) lm1 = true.
Proof.
  apply (LinkedMap_from_refuses_a_falsy_key
           [(VString "a", VNumber 1)] [] (VNumber 0) (VString "zero"));
    reflexivity.
Defined.

(** *** Iterators and touches *)

Lemma iterate_linked lm b l a st m :
  linked (items lm) b l a → st = _currentState lm →
  iterate (length l + m) lm {| state := st; current := first_or l a |}
  = map (λ i, Normal (Some (entry (items lm) i))) l
    ++ iterate m lm {| state := st; current := a |}.
Proof.
  intros Hl ->. revert b Hl. induction l as [|i l IH]; intros b Hl; [done|].
  destruct Hl as [(it & E & P & N) Hl]. simpl. unfold iterator_next. simpl.
  rewrite Z.eqb_refl, E. simpl. rewrite N, (IH _ Hl). by rewrite (entry_Some _ _ _ E).
Qed.

Lemma iterate_done lm m :
  iterate m lm {| state := _currentState lm; current := None |}
  = replicate m (Normal None).
Proof.
  induction m as [|m IH]; [done|]. simpl. unfold iterator_next. simpl.
  rewrite Z.eqb_refl. simpl. by rewrite IH.
Qed.

Lemma outer_removals_app ops ops2 : ∀ es,
  outer_removals es (ops ++ ops2) = true →
  outer_removals es ops = true ∧ outer_removals (fold_left model_op ops es) ops2 = true.
Proof.
  induction ops as [|op ops IH]; intros es; [done|]. simpl.
  intros [Hop Hr]%andb_true_iff. destruct (IH _ Hr) as [H1 H2].
  split; [|done]. by rewrite Hop, H1.
Qed.

(** X26: an iterator of the map yields the entries in order and
    then reports that it is done, for as long as nothing is done to
    the map.  Once operations have changed the keys or their order,
    [next()] of every iterator made before them throws "LinkedMap got
    modified during iteration". *)
Theorem iterator_yields_the_entries_until_the_order_changes (ops ops2 : list MapOp) :
  outer_removals [] (ops ++ ops2) = true →
  ∃ lm lm2,
    run ops new_LinkedMap = (lm, Normal tt)
    ∧ run ops2 lm = (lm2, Normal tt)
    ∧ (∀ m, iterate (length (model ops) + m) lm (iterator lm)
            = map (λ e, Normal (Some e)) (model ops) ++ replicate m (Normal None))
    ∧ (map fst (model (ops ++ ops2)) ≠ map fst (model ops) →
       ∀ it, state it = _currentState lm →
             iterator_next lm2 it = (it, Throw modified_during_iteration)).
Proof.
  intros Hs. apply outer_removals_app in Hs as [Hs1 Hs2].
  destruct (reached_holds ops Hs1) as (lm & E & Hh).
  destruct (run_spec ops2 lm _ Hh Hs2) as (lm2 & E2 & Hh2 & Hle & Heq).
  exists lm, lm2. split; [done|]. split; [done|]. split.
  - intros m. destruct Hh as (l & ((Hn & Hl & Hhd & Ht) & _) & <-).
    unfold iterator. rewrite Hhd, <- first_or_None, length_map.
    rewrite (iterate_linked _ _ _ _ _ _ Hl eq_refl), iterate_done.
    by rewrite map_map.
  - intros Hkeys it Hst. unfold iterator_next.
    assert (Hne : _currentState lm2 ≠ state it).
    { rewrite Hst. intros Hsame. apply Hkeys. unfold model. rewrite fold_left_app.
      by apply Heq. }
    apply Z.eqb_neq in Hne. by rewrite Hne.
Qed.

Lemma iterator_yields_the_entries_until_the_order_changes_witness :
  let ops := [OpSet (VString "a") (VNumber 1) TouchNone;
              OpSet (VString "b") (VNumber 2) TouchNone] in
  let ops2 := [OpGet (VString "a") AsNew] in
  ∃ lm lm2,
    run ops new_LinkedMap = (lm, Normal tt)
    ∧ run ops2 lm = (lm2, Normal tt)
    ∧ iterate 3 lm (iterator lm)
      = [Normal (Some (VString "a", VNumber 1)); Normal (Some (VString "b", VNumber 2));
         Normal None]
    ∧ iterator_next lm2 (iterator lm) = (iterator lm, Throw modified_during_iteration).
Proof.
  destruct (iterator_yields_the_entries_until_the_order_changes
              [OpSet (VString "a") (VNumber 1) TouchNone;
               OpSet (VString "b") (VNumber 2) TouchNone]
              [OpGet (VString "a") AsNew] eq_refl)
    as (lm & lm2 & E & E2 & Hit & Hinv).
  exists lm, lm2. split; [exact E|]. split; [exact E2|]. split.
  - exact (Hit 1%nat).
  - apply Hinv; [|reflexivity]. vm_compute. discriminate.
Defined.

Lemma without_absent k es : k ∉ map fst es → without k es = es.
Proof.
  induction es as [|[k0 v0] es IH]; [done|]. simpl.
  intros Hk. unfold without in *. simpl. rewrite bool_decide_eq_false_2.
  - simpl. rewrite IH; [done|]. intros Hin. apply Hk. by right.
  - intros ->. apply Hk. by left.
Qed.

Lemma without_split k v es1 es2 :
  NoDup (map fst (es1 ++ (k, v) :: es2)) → without k (es1 ++ (k, v) :: es2) = es1 ++ es2.
Proof.
  rewrite map_app. simpl. intros (_ & Hn1 & Hn2)%NoDup_app.
  apply NoDup_cons in Hn2 as [Hn2 _].
  unfold without. rewrite List.filter_app. simpl.
  rewrite bool_decide_eq_true_2 by done. simpl.
  fold (without k es1). fold (without k es2). rewrite !without_absent; [done | done |].
  intros Hin. apply (Hn1 k Hin). by left.
Qed.

Lemma lookup_app k es1 es2 :
  lookup k (es1 ++ es2)
  = match lookup k es1 with Some x => Some x | None => lookup k es2 end.
Proof.
  induction es1 as [|[k0 v0] es1 IH]; [done|]. simpl. by destruct (decide (k0 = k)).
Qed.

Lemma lookup_without_eq k es : lookup k (without k es) = None.
Proof.
  induction es as [|[k0 v0] es IH]; [done|]. unfold without in *. simpl.
  destruct (decide (k0 = k)) as [->|Hk0].
  - by rewrite bool_decide_eq_true_2.
  - rewrite bool_decide_eq_false_2 by done. simpl. by rewrite decide_False.
Qed.

Lemma lookup_touched touch k v k' es :
  lookup k es = Some v → lookup k' (touched touch k v es) = lookup k' es.
Proof.
  intros Hl. destruct touch; simpl; [done | |].
  - destruct (decide (k = k')) as [<-|Hk]; [done|]. by apply lookup_without_ne.
  - rewrite lookup_app. destruct (decide (k' = k)) as [->|Hk].
    + rewrite lookup_without_eq. simpl. by rewrite decide_True.
    + rewrite lookup_without_ne by done. simpl. rewrite decide_False by done.
      by destruct (lookup k' es).
Qed.

Lemma length_touched touch k v es :
  NoDup (map fst es) → lookup k es = Some v → length (touched touch k v es) = length es.
Proof.
  intros Hn Hl. destruct (lookup_split _ _ _ Hl) as (es1 & es2 & ->).
  destruct touch; simpl; rewrite ?without_split by done; rewrite ?length_app; simpl; lia.
Qed.

(** X27: [get(key, touch)] of a key the map holds returns its value
    and moves the entry to the end with [Touch.AsNew] and to the front
    with [Touch.AsOld], so that [last], respectively [first], is that
    value.  The size and what [get] finds stay as they were, and with
    [Touch.None] nothing changes. *)
Theorem get_with_touch_moves_the_entry
    (ops : list MapOp) (k v : Value) (touch : Touch) :
  outer_removals [] ops = true →
  lookup k (model ops) = Some v →
  ∃ lm lm1,
    run ops new_LinkedMap = (lm, Normal tt)
    ∧ get k touch lm = (lm1, Normal v)
    ∧ (∀ fuel, (length (model ops) ≤ fuel)%nat →
         toJSON fuel lm1 = Some (touched touch k v (model ops)))
    ∧ _size lm1 = _size lm
    ∧ match touch with
      | TouchNone => lm1 = lm
      | AsOld => first lm1 = v
      | AsNew => last lm1 = v
      end
    ∧ ∀ k', get k' TouchNone lm1
            = (lm1, Normal (default VUndefined (lookup k' (model ops)))).
Proof.
  intros Hs Hl. destruct (reached_holds ops Hs) as (lm & E & Hh).
  destruct (get_spec lm _ k touch Hh) as (lm1 & Eg & Hh1 & _ & _ & Hsame).
  simpl in Hh1. rewrite Hl in Eg, Hh1. exists lm, lm1. split; [done|]. split; [done|].
  destruct (observe_holds lm _ Hh) as (Hsize & _).
  destruct (observe_holds lm1 _ Hh1) as (Hsize1 & _ & Hfirst & Hlast & _).
  pose proof (length_touched touch k v _ (keys_NoDup _ _ Hh) Hl) as Hlen.
  split; [intros fuel Hf; apply toJSON_holds; [done | by rewrite Hlen]|].
  split; [rewrite Hsize1, Hsize; by rewrite Hlen|]. split.
  - destruct touch; [by apply Hsame | by rewrite Hfirst | rewrite Hlast; simpl].
    by rewrite last_snoc.
  - intros k'. destruct (get_spec lm1 _ k' TouchNone Hh1) as (lm2 & Eg2 & _ & _ & _ & Hsame2).
    rewrite (Hsame2 eq_refl) in Eg2. rewrite Eg2. by rewrite lookup_touched.
Qed.

Lemma get_with_touch_moves_the_entry_witness :
  let ops := [OpSet (VString "a") (VNumber 1) TouchNone;
              OpSet (VString "b") (VNumber 2) TouchNone;
              OpSet (VString "c") (VNumber 3) TouchNone] in
  ∃ lm lm1,
    run ops new_LinkedMap = (lm, Normal tt)
    ∧ get (VString "b") AsNew lm = (lm1, Normal (VNumber 2))
    ∧ (∀ fuel, (length (model ops) ≤ fuel)%nat →
         toJSON fuel lm1 = Some (touched AsNew (VString "b") (VNumber 2) (model ops)))
    ∧ _size lm1 = _size lm
    ∧ last lm1 = VNumber 2
    ∧ ∀ k', get k' TouchNone lm1
            = (lm1, Normal (default VUndefined (lookup k' (model ops)))).
Proof.
  apply (get_with_touch_moves_the_entry
           [OpSet (VString "a") (VNumber 1) TouchNone;
            OpSet (VString "b") (VNumber 2) TouchNone;
            OpSet (VString "c") (VNumber 3) TouchNone]
           (VString "b") (VNumber 2) AsNew); reflexivity.
Defined.

(** X28: [remove(key)] of a key at an end of the order, or of a key
    the map does not hold, returns the value ([undefined] for a missing
    key) and leaves the other entries in their order.  [shift()]
    removes the first entry and returns its value, [undefined] on an
    empty map. *)
Theorem removal_at_an_end_returns_the_value (ops : list MapOp) (k : Value) :
  outer_removals [] ops = true →
  at_an_end k (model ops) = true →
  ∃ lm lm1 lm2,
    run ops new_LinkedMap = (lm, Normal tt)
    ∧ remove k lm = (lm1, Normal (default VUndefined (lookup k (model ops))))
    ∧ (∀ fuel, (length (model ops) ≤ fuel)%nat →
         toJSON fuel lm1 = Some (without k (model ops)))
    ∧ has k lm1 = false
    ∧ shift lm = (lm2, Normal (default VUndefined (snd <$> head (model ops))))
    ∧ (∀ fuel, (length (model ops) ≤ fuel)%nat → toJSON fuel lm2 = Some (tail (model ops)))
    ∧ _size lm2 = Z.of_nat (length (model ops) - 1).
Proof.
  intros Hs Hend. destruct (reached_holds ops Hs) as (lm & E & Hh).
  destruct (remove_spec lm _ k Hh Hend) as (lm1 & Er & Hh1 & _).
  destruct (shift_spec lm _ Hh) as (lm2 & Es & Hh2 & _).
  exists lm, lm1, lm2. do 2 (split; [done|]).
  destruct (observe_holds lm1 _ Hh1) as (_ & _ & _ & _ & Hhas).
  destruct (observe_holds lm2 _ Hh2) as (Hsize2 & _).
  split; [|split; [|split; [done|split]]].
  - intros fuel Hf. apply toJSON_holds; [done|].
    pose proof (List.filter_length_le (λ e, negb (bool_decide (e.1 = k))) (model ops)).
    unfold without. lia.
  - rewrite Hhas. apply bool_decide_eq_false_2. intros [v Hv].
    by rewrite lookup_without_eq in Hv.
  - intros fuel Hf. apply toJSON_holds; [done|]. destruct (model ops); simpl in *; lia.
  - rewrite Hsize2. destruct (model ops); simpl; lia.
Qed.

Lemma removal_at_an_end_returns_the_value_witness :
  let ops := [OpSet (VString "a") (VNumber 1) TouchNone;
              OpSet (VString "b") (VNumber 2) TouchNone;
              OpSet (VString "c") (VNumber 3) TouchNone] in
  ∃ lm lm1 lm2,
    run ops new_LinkedMap = (lm, Normal tt)
    ∧ remove (VString "c") lm
      = (lm1, Normal (default VUndefined (lookup (VString "c") (model ops))))
    ∧ (∀ fuel, (length (model ops) ≤ fuel)%nat →
         toJSON fuel lm1 = Some (without (VString "c") (model ops)))
    ∧ has (VString "c") lm1 = false
    ∧ shift lm = (lm2, Normal (default VUndefined (snd <$> head (model ops))))
    ∧ (∀ fuel, (length (model ops) ≤ fuel)%nat → toJSON fuel lm2 = Some (tail (model ops)))
    ∧ _size lm2 = Z.of_nat (length (model ops) - 1).
Proof.
  apply (removal_at_an_end_returns_the_value
           [OpSet (VString "a") (VNumber 1) TouchNone;
            OpSet (VString "b") (VNumber 2) TouchNone;
            OpSet (VString "c") (VNumber 3) TouchNone]
           (VString "c")); reflexivity.
Defined.

End LinkedMapLaws.

(** ** events.ts: the registry of an emitter *)

Section RegistryShape.

Lemma packed_refl w : packed w w.
Proof. by intros ?. Qed.

Lemma packed_trans w w1 w2 : packed w w1 → packed w1 w2 → packed w w2.
Proof. intros H1 H2 H. by apply H2, H1. Qed.

Lemma packed_emit e : keeps packed (emit e).
Proof. intros w Hc. exact Hc. Qed.

Lemma packed_assign f :
  (∀ e, _listeners (f e) = _listeners e) → keeps packed (assign f).
Proof. intros H w Hc. simpl. by rewrite H. Qed.

Lemma packed_dispose_Event i : keeps packed (dispose_Event i).
Proof.
  intros w Hc. unfold dispose_Event. destruct (events w !! i) as [e|]; [|exact Hc].
  by destruct (Events.Event_dispose e (trace w)) as [[e1 tr1] r].
Qed.

Lemma packed_call_Event i args : keeps packed (call_Event i args).
Proof.
  intros w Hc. unfold call_Event. destruct (events w !! i) as [e|]; [|exact Hc].
  destruct (call args e (trace w)) as [[e1 tr1] r]. exact Hc.
Qed.

Lemma packed_cancel_Event i : keeps packed (cancel_Event i).
Proof. intros w Hc. unfold cancel_Event. destruct (events w !! i) as [e|]; exact Hc. Qed.

Lemma packed_construct_Event e : keeps packed (construct_Event e).
Proof. intros w Hc. exact Hc. Qed.

Lemma packed_construct_UniqueContainer v : keeps packed (construct_UniqueContainer v).
Proof. intros w Hc. exact Hc. Qed.

#[local] Hint Resolve packed_refl packed_trans packed_emit packed_dispose_Event
  packed_call_Event packed_cancel_Event packed_construct_Event
  packed_construct_UniqueContainer : keeps.

Ltac packed :=
  repeat first
    [ progress eauto with keeps
    | apply keeps_bind; [solve [eauto with keeps] | | intros ?]
    | apply keeps_try_catch; [solve [eauto with keeps] | | intros ?]
    | apply packed_assign; intros ?; done
    | match goal with
      | |- keeps _ (if ?b then _ else _) => destruct b
      | |- keeps _ (match ?x with _ => _ end) => destruct x
      | |- keeps _ (let '(_, _) := ?x in _) => destruct x
      end ].

Lemma packed_hook h : keeps packed (call_hook h).
Proof. unfold call_hook. packed. Qed.

Lemma packed_debug_dump : keeps packed debug_dump.
Proof. intros w Hc. by rewrite debug_dump_emitter. Qed.

#[local] Hint Resolve packed_hook packed_debug_dump : keeps.

Lemma packed_dispose_each vs : keeps packed (dispose_each vs).
Proof. induction vs; simpl; packed. Qed.

#[local] Hint Resolve packed_dispose_each : keeps.

Lemma compact_delete_first c ks : ∀ m, compact m → compact (delete_first c ks m).1.
Proof.
  induction ks as [|k ks IH]; intros m Hm; simpl; [done|].
  pose proof (compact_delete k c m Hm) as Hd.
  destruct (delete k c m) as [m1 []]; simpl in *; [done|]. by apply IH.
Qed.

Lemma packed_removeUniqueListener c event : keeps packed (_removeUniqueListener c event).
Proof.
  intros w Hc. unfold _removeUniqueListener. rewrite bind_this.
  destruct (disposed (emitter w)); [done|].
  assert (Hm : compact (removal c event (_listeners (emitter w))).1).
  { unfold removal. destruct (truthy event) as [k|].
    - by apply compact_delete.
    - by apply compact_delete_first. }
  unfold removal in Hm.
  assert (H : keeps packed
    (call_hook onWillRemoveListener ;;
     if size (emitter w) =? 0 then ret tt
     else
       (match truthy event with
        | None =>
            let '(m1, r) := delete_first c (keys (_listeners (emitter w))) (_listeners (emitter w)) in
            assign (set_listeners m1) ;;
            if r then ret tt else debug_dump ;; throw unknown_listener_no_event
        | Some k =>
            let '(m1, r) := delete k c (_listeners (emitter w)) in
            assign (set_listeners m1) ;;
            if r then ret tt else debug_dump ;; throw unknown_listener
        end) ;;
       dispose_Event (value c) ;;
       assign (set_size (size (emitter w) - 1)) ;;
       when (size (emitter w) - 1 =? 0) (call_hook onDidRemoveLastListener))).
  { apply keeps_bind; [apply packed_trans | apply packed_hook | intros _].
    destruct (size (emitter w) =? 0); [packed|].
    apply keeps_bind; [apply packed_trans | | intros _; packed; unfold when; packed].
    destruct (truthy event) as [k|].
    - destruct (delete k c (_listeners (emitter w))) as [m1 r]. simpl in Hm.
      apply keeps_bind; [apply packed_trans | by intros w' _ | intros _; packed].
    - destruct (delete_first c _ _) as [m1 r]. simpl in Hm.
      apply keeps_bind; [apply packed_trans | by intros w' _ | intros _; packed]. }
  by apply H.
Qed.

#[local] Hint Resolve packed_removeUniqueListener : keeps.

Lemma packed_Handle_dispose h : keeps packed (Handle_dispose h).
Proof. unfold Handle_dispose. packed. Qed.

Lemma packed_deliver l args : keeps packed (_deliver l args).
Proof. unfold _deliver. packed. Qed.

#[local] Hint Resolve packed_deliver : keeps.

Lemma packed_deliver_each pending event args : keeps packed (deliver_each pending event args).
Proof. induction pending; simpl; packed. Qed.

#[local] Hint Resolve packed_deliver_each : keeps.

Lemma packed_addListener event listener thisArg once options callSite :
  keeps packed (_addListener event listener thisArg once options callSite).
Proof.
  unfold _addListener, _checkLeakageBeforeAdd. packed.
  all: intros w Hc; simpl; first [exact Hc | by apply compact_add].
Qed.

Lemma packed_off event listener : keeps packed (off event listener).
Proof.
  unfold off. packed. intros w. destruct (events w !! _); [|apply packed_refl].
  destruct (find_listener _ _ _); [|apply packed_refl]. apply packed_removeUniqueListener.
Qed.

Lemma packed_clear event : keeps packed (clear event).
Proof.
  intros w Hc. unfold clear. rewrite bind_this.
  destruct (disposed (emitter w)); [done|].
  assert (H : keeps packed
    (call_hook onWillRemoveListener ;;
     match truthy event with
     | None =>
         dispose_each (forEach_values (_listeners (emitter w))) ;;
         assign (set_listeners (Maps.clear (_listeners (emitter w)))) ;;
         assign (set_size 0) ;;
         call_hook onDidRemoveLastListener
     | Some k =>
         let set := get k (_listeners (emitter w)) in
         let size_ := Z.of_nat (length set) in
         dispose_each set ;;
         assign (set_listeners (remove k (_listeners (emitter w)))) ;;
         assign (set_size (size (emitter w) - size_)) ;;
         when (size (emitter w) - size_ =? 0) (call_hook onDidRemoveLastListener)
     end)).
  { packed.
    - intros w' _. simpl. unfold remove. by apply compact_Map_delete.
    - intros w' _. apply compact_nil. }
  by apply H.
Qed.

Lemma packed_fire event args elapsed : keeps packed (fire event args elapsed).
Proof. unfold fire. packed. all: unfold when; packed. Qed.

Lemma packed_dispose : keeps packed dispose.
Proof.
  unfold dispose. packed.
  - intros w Hc. by destruct (Disposable.DisposableStore_dispose _ _) as [[d tr1] r].
  - intros w' _. apply compact_nil.
Qed.

Lemma packed_exec w op : packed w (exec w op).
Proof.
  destruct op; simpl.
  - destruct (exists_listener _ _); [|apply packed_refl]. apply packed_addListener.
  - destruct (exists_listener _ _); [|apply packed_refl]. apply packed_addListener.
  - destruct (exists_listener _ _); [|apply packed_refl]. apply packed_off.
  - apply packed_Handle_dispose.
  - apply packed_clear.
  - apply packed_fire.
  - apply packed_dispose.
  - apply packed_construct_Event.
  - apply packed_call_Event.
  - apply packed_cancel_Event.
  - apply packed_dispose_Event.
Qed.

Lemma registry_compact o ops : compact (_listeners (emitter (run ops (new_World o)))).
Proof.
  induction ops as [|op ops IH] using rev_ind; [apply compact_nil|].
  unfold run in *. rewrite fold_left_app. simpl. by apply packed_exec.
Qed.

Lemma keys_get k m : compact m → k ∈ keys m ↔ get k m ≠ [].
Proof.
  intros [Hk Hv]. unfold get. split.
  - intros Hin. apply list_elem_of_fmap in Hin as ([k' vs] & -> & Hin). simpl.
    rewrite (elem_Map_get _ _ _ Hk Hin). simpl. by apply (Hv k').
  - destruct (Map_get k m) as [vs|] eqn:E; [|done]. intros _. by eapply Map_get_keys.
Qed.

Lemma length_values m :
  NoDup (keys m) →
  length (forEach_values m) = length (flat_map (λ k, get k m) (keys m)).
Proof.
  induction m as [|[k vs] m IH]; [done|]. simpl. intros [Hk Hn]%NoDup_cons.
  unfold forEach_values in *. simpl. rewrite !length_app. rewrite (IH Hn). f_equal.
  - unfold get. simpl. by rewrite EventKey_eqb_refl.
  - f_equal. apply flat_map_ext_elem. intros k' Hk'. unfold get. simpl.
    rewrite EventKey_eqb_ne; [done|]. by intros ->.
Qed.



End RegistryShape.

(** ** streams/writable.ts: [UniversalWritableStream] *)

Section StreamLaws.
#[local] Set Warnings "-notation-overridden".
Import Streams.

Lemma attached_deliver c f d w :
  attached c f w → stays (cb_run f [d] TokenNone) →
  ∃ w1 tr,
    _deliver (Some c) [d] w = (w1, Normal tt)
    ∧ emitter w1 = emitter w
    ∧ attached c f w1
    ∧ trace w1 = trace w ++ Invoked (cb_id f) None [d] TokenNone :: tr
    ∧ forallb (λ e, negb (is_Invoked e)) tr = true.
Proof.
  intros (Hd & Hs & Hl & n & He) Hstay. unfold _deliver.
  rewrite bind_this, Hd. unfold try_catch, bind at 1, call_Event. rewrite He.
  unfold call. simpl. unfold stays in Hstay.
  destruct (cb_run f [d] TokenNone) as [v|t]; simpl.
  - eexists _, []. split; [reflexivity|]. split; [done|]. split; [|by split].
    split; [done|]. split; [done|]. split; [done|]. exists (S n). simpl.
    apply list_lookup_insert_eq. by eapply lookup_lt_Some.
  - unfold removes_listener in Hstay. apply orb_false_iff in Hstay as [-> ->].
    eexists _, [_]. split; [reflexivity|]. split; [done|]. split; [|split].
    + split; [done|]. split; [done|]. split; [done|]. exists (S n). simpl.
      apply list_lookup_insert_eq. by eapply lookup_lt_Some.
    + simpl. by rewrite <- app_assoc.
    + simpl. by destruct (custom_handler _).
Qed.

Lemma attached_fire c f d el w :
  attached c f w → stays (cb_run f [d] TokenNone) →
  ∃ w1 tr,
    Emitter.fire (KString "data") [d] el w = (w1, Normal tt)
    ∧ attached c f w1
    ∧ trace w1 = trace w ++ Invoked (cb_id f) None [d] TokenNone :: tr
    ∧ forallb (λ e, negb (is_Invoked e)) tr = true.
Proof.
  intros Ha Hstay. pose proof Ha as (Hd & Hs & Hl & n & He). unfold Emitter.fire.
  rewrite bind_this, Hd, bind_assign, Hs, Hl.
  change (0 <? 1) with true.
  change (get (KString "data") [(KString "data", [c])]) with [c].
  set (w0 := Build_World _ _ _ _).
  assert (Ha0 : attached c f w0).
  { split; [done|]. split; [done|]. split; [done|]. by exists n. }
  destruct (attached_deliver c f d w0 Ha0 Hstay) as (w1 & tr & Hr & He1 & Ha1 & Ht & Hf).
  unfold when. simpl deliver_each. unfold bind at 1. rewrite bind_this.
  assert (Hhas : Set_has c (get (KString "data") (_listeners (emitter w0))) = true).
  { subst w0. simpl. rewrite Hl. simpl. by rewrite Nat.eqb_refl. }
  rewrite Hhas. unfold when, bind at 1. rewrite Hr. simpl.
  eexists _, tr. split; [reflexivity|]. simpl. destruct Ha1 as (Hd1 & Hs1 & Hl1 & n1 & He1').
  split; [|by split].
  split; [done|]. split; [done|]. split; [done|]. by exists n1.
Qed.

(** [fire] for a key that has no listener. *)
Lemma attached_fire_other c f k args el w :
  attached c f w → k ≠ KString "data" →
  ∃ w1,
    Emitter.fire k args el w = (w1, Normal tt)
    ∧ attached c f w1 ∧ trace w1 = trace w.
Proof.
  intros Ha Hk. pose proof Ha as (Hd & Hs & Hl & n & He). unfold Emitter.fire.
  rewrite bind_this, Hd, bind_assign, Hs, Hl.
  assert (get k [(KString "data", [c])] = []) as ->.
  { unfold get, Map_get. by rewrite (EventKey_eqb_ne (KString "data") k). }
  eexists. split; [reflexivity|]. simpl. split; [|done].
  split; [done|]. split; [done|]. split; [done|]. by exists n.
Qed.

Lemma attached_count c f k w :
  attached c f w → k ≠ KString "data" → k ≠ KString EmptyString →
  listenersCount (Some k) (emitter w) = 0.
Proof.
  intros (Hd & Hs & Hl & _) Hk Hk'. unfold listenersCount. rewrite Hd, Hl.
  assert (truthy (Some k) = Some k) as ->.
  { unfold truthy, falsy. destruct k as [s|i]; [|done].
    destruct (String.eqb_spec s EmptyString) as [->|]; [by destruct Hk'|done]. }
  unfold get, Map_get. by rewrite (EventKey_eqb_ne (KString "data") k).
Qed.

Lemma filter_quiet (tr : Trace) :
  forallb (λ e, negb (is_Invoked e)) tr = true → List.filter is_Invoked tr = [].
Proof.
  induction tr as [|e tr IH]; [done|]. simpl. intros [He Ht]%andb_true_iff.
  destruct (is_Invoked e); [done | by apply IH].
Qed.

Lemma emitData_attached c f d sw :
  attached c f (world sw) → stays (cb_run f [d] TokenNone) →
  ∃ sw1,
    _emitData d sw = (sw1, Normal tt)
    ∧ stream sw1 = stream sw
    ∧ attached c f (world sw1)
    ∧ List.filter is_Invoked (trace (world sw1))
      = List.filter is_Invoked (trace (world sw)) ++ [Invoked (cb_id f) None [d] TokenNone].
Proof.
  intros Ha Hstay.
  destruct (attached_fire c f d (hd 0%Q (readings sw)) (world sw) Ha Hstay)
    as (w1 & tr & Hr & Ha1 & Ht & Hf).
  unfold _emitData, emitter_fire. rewrite Hr. eexists. split; [reflexivity|]. simpl.
  split; [done|]. split; [done|]. rewrite Ht, List.filter_app. simpl.
  by rewrite (filter_quiet _ Hf).
Qed.

Lemma emit_each_data_attached c f ds : ∀ sw,
  attached c f (world sw) → (∀ d, stays (cb_run f [d] TokenNone)) →
  ∃ sw1,
    emit_each_data ds sw = (sw1, Normal tt)
    ∧ stream sw1 = stream sw
    ∧ attached c f (world sw1)
    ∧ List.filter is_Invoked (trace (world sw1))
      = List.filter is_Invoked (trace (world sw))
        ++ map (λ d, Invoked (cb_id f) None [d] TokenNone) ds.
Proof.
  induction ds as [|d ds IH]; intros sw Ha Hstay; simpl.
  - exists sw. by rewrite app_nil_r.
  - destruct (emitData_attached c f d sw Ha (Hstay d)) as (sw1 & Hr & Hs1 & Ha1 & Ht1).
    destruct (IH sw1 Ha1 Hstay) as (sw2 & Hr2 & Hs2 & Ha2 & Ht2).
    exists sw2. unfold sbind. rewrite Hr. split; [done|]. split; [congruence|].
    split; [done|]. rewrite Ht2, Ht1, <- app_assoc. done.
Qed.

(** [_flowData()] on a stream whose emitter has the one listener. *)
Lemma flowData_attached c f sw :
  attached c f (world sw) → (∀ d, stays (cb_run f [d] TokenNone)) →
  ∃ sw1,
    _flowData sw = (sw1, Normal tt)
    ∧ attached c f (world sw1)
    ∧ List.filter is_Invoked (trace (world sw1))
      = List.filter is_Invoked (trace (world sw))
        ++ map (λ d, Invoked (cb_id f) None [d] TokenNone)
             (flushed (_reducer (stream sw)) (data (stream sw)))
    ∧ data (stream sw1) = []
    ∧ _pendingPromises (stream sw1)
      = (if data (stream sw) is [] then _pendingPromises (stream sw) else [])
    ∧ resolved (stream sw1)
      = resolved (stream sw)
        ++ (if data (stream sw) is [] then [] else _pendingPromises (stream sw))
    ∧ (data (stream sw) = [] → sw1 = sw)
    ∧ folowing (stream sw1) = folowing (stream sw)
    ∧ destroyed (stream sw1) = destroyed (stream sw)
    ∧ ended (stream sw1) = ended (stream sw)
    ∧ error_buffer (stream sw1) = error_buffer (stream sw).
Proof.
  intros Ha Hstay. unfold _flowData, sbind at 1, self.
  destruct (data (stream sw)) as [|d0 ds0] eqn:Hdata.
  { exists sw. rewrite !app_nil_r. by repeat (split; [done|]). }
  assert (Hflush : ∃ sw1,
    match _reducer (stream sw) with
    | Some reducer => _emitData (reducer (d0 :: ds0))
    | None => emit_each_data (d0 :: ds0)
    end sw = (sw1, Normal tt)
    ∧ stream sw1 = stream sw
    ∧ attached c f (world sw1)
    ∧ List.filter is_Invoked (trace (world sw1))
      = List.filter is_Invoked (trace (world sw))
        ++ map (λ d, Invoked (cb_id f) None [d] TokenNone)
             (flushed (_reducer (stream sw)) (d0 :: ds0))).
  { unfold flushed. destruct (_reducer (stream sw)) as [r|].
    - by apply emitData_attached.
    - by apply emit_each_data_attached. }
  destruct Hflush as (sw1 & Hr & Hs1 & Ha1 & Ht1).
  unfold sbind at 1. rewrite Hr. unfold sbind at 1, update. unfold sbind at 1, self.
  cbn [stream]. unfold sbind at 1, update. unfold sbind at 1, resolve_each, update.
  cbn [stream world readings]. rewrite Hs1. cbn [_pendingPromises set_data].
  destruct (_pendingPromises (stream sw)) as [|p ps] eqn:Hp.
  - eexists. split; [reflexivity|]. cbn. rewrite app_nil_r. by repeat (split; [done|]).
  - set (sw2 := Build_StreamWorld _ _ _).
    assert (Ha2 : attached c f (world sw2)) by done.
    destruct (attached_fire_other c f (KString "drain") [VUndefined]
                (hd 0%Q (readings sw2)) (world sw2) Ha2) as (w3 & Hr3 & Ha3 & Ht3); [done|].
    unfold _emitDrain, emitter_fire. rewrite Hr3. eexists. split; [reflexivity|].
    cbn. rewrite Ht3. by repeat (split; [done|]).
Qed.

(** [resume()] of a paused stream whose emitter has the one listener. *)
Lemma resume_attached c f sw :
  destroyed (stream sw) = false → folowing (stream sw) = false →
  attached c f (world sw) → (∀ d, stays (cb_run f [d] TokenNone)) →
  ∃ sw1,
    resume sw = (sw1, Normal tt)
    ∧ attached c f (world sw1)
    ∧ List.filter is_Invoked (trace (world sw1))
      = List.filter is_Invoked (trace (world sw))
        ++ map (λ d, Invoked (cb_id f) None [d] TokenNone)
             (flushed (_reducer (stream sw)) (data (stream sw)))
    ∧ data (stream sw1) = []
    ∧ folowing (stream sw1) = true
    ∧ destroyed (stream sw1) = false
    ∧ resolved (stream sw1)
      = resolved (stream sw)
        ++ (if data (stream sw) is [] then [] else _pendingPromises (stream sw))
    ∧ _pendingPromises (stream sw1)
      = (if data (stream sw) is [] then _pendingPromises (stream sw) else []).
Proof.
  intros Hd Hf Ha Hstay. unfold resume, sbind at 1, self. rewrite Hd, Hf.
  cbn [negb]. unfold sbind at 1, update.
  set (sw0 := Build_StreamWorld _ _ _).
  destruct (flowData_attached c f sw0 Ha Hstay)
    as (sw1 & Hr & Ha1 & Ht1 & Hdata & Hpen & Hres & _ & Hf1 & Hd1 & He1 & _).
  unfold sbind at 1. rewrite Hr.
  unfold sbind at 1, _flowErrors, sbind at 1, emitter_listenersCount.
  rewrite (attached_count c f (KString "error") _ Ha1) by done.
  cbn [Z.ltb Z.compare]. unfold sret at 1.
  unfold sbind at 1, _flowEnd, sbind at 1, self.
  destruct (ended (stream sw1)) eqn:Hended.
  - destruct (attached_fire_other c f (KString "end") [VUndefined]
                (hd 0%Q (readings sw1)) (world sw1) Ha1) as (w2 & Hr2 & Ha2 & Ht2); [done|].
    unfold sbind at 1, _emitEnd, emitter_fire. rewrite Hr2.
    unfold sbind at 1, emitter_listenersCount. cbn [world].
    eexists. split; [reflexivity|]. cbn [world stream]. rewrite Ht2.
    split; [done|]. split; [exact Ht1|]. split; [done|]. split; [by rewrite Hf1|].
    split; [by rewrite Hd1|]. split; [exact Hres|exact Hpen].
  - eexists. split; [reflexivity|].
    split; [done|]. split; [exact Ht1|]. split; [done|]. split; [by rewrite Hf1|].
    split; [by rewrite Hd1|]. split; [exact Hres|exact Hpen].
Qed.

(** [write(d)] on a paused stream. *)
Lemma write_paused d sw :
  destroyed (stream sw) = false → folowing (stream sw) = false →
  ∃ sw1 r,
    write d sw = (sw1, Normal r)
    ∧ world sw1 = world sw ∧ readings sw1 = readings sw
    ∧ data (stream sw1) = data (stream sw) ++ [d]
    ∧ destroyed (stream sw1) = false ∧ folowing (stream sw1) = false
    ∧ _reducer (stream sw1) = _reducer (stream sw)
    ∧ closures (stream sw1) = closures (stream sw)
    ∧ resolved (stream sw1) = resolved (stream sw).
Proof.
  intros Hd Hf. unfold write, sbind at 1, self. rewrite Hd, Hf.
  unfold sbind at 1, update. unfold sbind at 1, self. cbn [stream].
  destruct (above_mark _); eexists _, _; (split; [reflexivity|]); cbn;
    by repeat (split; [done|]).
Qed.

Lemma write_each_paused ds : ∀ sw,
  destroyed (stream sw) = false → folowing (stream sw) = false →
  ∃ sw1,
    write_each ds sw = (sw1, Normal tt)
    ∧ world sw1 = world sw ∧ readings sw1 = readings sw
    ∧ data (stream sw1) = data (stream sw) ++ ds
    ∧ destroyed (stream sw1) = false ∧ folowing (stream sw1) = false
    ∧ _reducer (stream sw1) = _reducer (stream sw)
    ∧ closures (stream sw1) = closures (stream sw)
    ∧ resolved (stream sw1) = resolved (stream sw)
    ∧ (ds = [] → sw1 = sw).
Proof.
  induction ds as [|d ds IH]; intros sw Hd Hf; simpl.
  - exists sw. rewrite app_nil_r. by repeat (split; [done|]).
  - destruct (write_paused d sw Hd Hf)
      as (sw1 & r & Hr & Hw1 & Hr1 & Hdata1 & Hd1 & Hf1 & Hred1 & Hc1 & Hres1).
    destruct (IH sw1 Hd1 Hf1)
      as (sw2 & Hr2 & Hw2 & Hrd2 & Hdata2 & Hd2 & Hf2 & Hred2 & Hc2 & Hres2 & _).
    exists sw2. unfold sbind. rewrite Hr. split; [done|].
    rewrite Hw2, Hrd2, Hdata2, Hdata1, Hred2, Hc2, Hres2, <- app_assoc.
    by repeat (split; [done|]).
Qed.

(** [write(d)] on a flowing stream whose emitter has the one listener. *)
Lemma write_attached c f d sw :
  destroyed (stream sw) = false → folowing (stream sw) = true →
  attached c f (world sw) → stays (cb_run f [d] TokenNone) →
  ∃ sw1,
    write d sw = (sw1, Normal None)
    ∧ List.filter is_Invoked (trace (world sw1))
      = List.filter is_Invoked (trace (world sw)) ++ [Invoked (cb_id f) None [d] TokenNone]
    ∧ stream sw1 = stream sw.
Proof.
  intros Hd Hf Ha Hstay. unfold write, sbind at 1, self. rewrite Hd, Hf.
  destruct (emitData_attached c f d sw Ha Hstay) as (sw1 & Hr & Hs1 & _ & Ht1).
  unfold sbind. rewrite Hr. by exists sw1.
Qed.

(** [on("data", callback)] on a paused stream with a new emitter. *)
Lemma on_data_new o callback callSite sw :
  destroyed (stream sw) = false → folowing (stream sw) = false →
  world sw = new_World (Some (emitter_options o)) →
  (∀ d, stays (consume callback d)) →
  let f := arrow (closures (stream sw)) callback in
  ∃ sw1 c,
    on (OnData callback) callSite sw = (sw1, Normal tt)
    ∧ attached c f (world sw1)
    ∧ List.filter is_Invoked (trace (world sw1))
      = map (λ d, Invoked (cb_id f) None [d] TokenNone)
          (flushed (_reducer (stream sw)) (data (stream sw)))
    ∧ data (stream sw1) = []
    ∧ folowing (stream sw1) = true
    ∧ destroyed (stream sw1) = false
    ∧ resolved (stream sw1)
      = resolved (stream sw)
        ++ (if data (stream sw) is [] then [] else _pendingPromises (stream sw))
    ∧ _pendingPromises (stream sw1)
      = (if data (stream sw) is [] then _pendingPromises (stream sw) else []).
Proof.
  intros Hd Hf Hw Hstay f. unfold on, sbind at 1, self. rewrite Hd.
  unfold sbind at 1, listener_of, new_arrow.
  unfold sbind at 1, lift. cbn [world stream event_of]. fold f.
  destruct (addListener_spec (KString "data") (Function f) None false None callSite (world sw))
    as (w1 & rmonitor & c & lm & Hr & Hid & Hval & Hem & Hev & Huci & Hno).
  { done. }
  { by rewrite Hw. }
  unfold Emitter.on. rewrite Hr. cbn [listening].
  set (sw0 := Build_StreamWorld _ _ _).
  assert (Ha : attached c f (world sw0)).
  { unfold attached. cbn [world sw0]. rewrite Hem, Hw. cbn.
    do 3 (split; [done|]). exists 0%nat. rewrite Hev, Hval, Hw. done. }
  assert (Ht : List.filter is_Invoked (trace (world sw0)) = []).
  { destruct Hno as (tr & Ht & Hq). cbn [world sw0]. rewrite Ht, Hw. cbn.
    by apply filter_quiet. }
  destruct (resume_attached c f sw0) as (sw1 & Hres & Ha1 & Ht1 & Hrest); try done.
  exists sw1, c. split; [exact Hres|]. split; [exact Ha1|].
  split; [by rewrite Ht1, Ht|]. exact Hrest.
Qed.

(** X30: a stream made without a cancelled token buffers what is
    written before its first ["data"] listener: the writes leave the
    emitter as it was and the data in [_buffer.data], in the order
    written.  [on("data", callback)] then calls the callback with each
    buffered datum in that order (with a reducer: once, with what the
    reducer makes of them, and not at all when nothing was written),
    empties the buffer and resolves every promise the writes are
    waiting on.  Each later [write(d)] calls the callback with [d] at
    once and buffers nothing.  The callback is supposed not to use
    the stream itself, and not to throw an [Exception] of code
    [ERR_ONCE_WAS_CALLED_AGAIN] or [ERR_RESOURCE_DISPOSED], for which
    the emitter removes the listener. *)
Theorem buffered_data_reach_the_first_data_listener
    (reducer : option (list Value → Value)) (o : option WriteableStreamOptions)
    (rs : list Q) (ds : list Value) (callback : Consumer) (callSite : string) :
  o ≫= token ≠ Some true →
  (∀ d, stays (consume callback d)) →
  let f := arrow 0 callback in
  ∃ sw0 sw1 sw2,
    construct reducer o rs = (sw0, Normal tt)
    ∧ write_each ds sw0 = (sw1, Normal tt)
    ∧ world sw1 = world sw0
    ∧ data (stream sw1) = ds
    ∧ on (OnData callback) callSite sw1 = (sw2, Normal tt)
    ∧ List.filter is_Invoked (trace (world sw2))
      = map (λ d, Invoked (cb_id f) None [d] TokenNone) (flushed reducer ds)
    ∧ data (stream sw2) = []
    ∧ resolved (stream sw2) = _pendingPromises (stream sw1)
    ∧ _pendingPromises (stream sw2) = []
    ∧ ∀ d, ∃ sw3,
        write d sw2 = (sw3, Normal None)
        ∧ List.filter is_Invoked (trace (world sw3))
          = List.filter is_Invoked (trace (world sw2))
            ++ [Invoked (cb_id f) None [d] TokenNone]
        ∧ data (stream sw3) = [].
Proof.
  intros Htoken Hstay f.
  set (sw0 := {| stream := new_Stream reducer o;
                 world := new_World (Some (emitter_options o));
                 readings := rs |}).
  assert (Hc : construct reducer o rs = (sw0, Normal tt)).
  { unfold construct. fold sw0. destruct (o ≫= token) as [[|]|]; done. }
  destruct (write_each_paused ds sw0)
    as (sw1 & Hr1 & Hw1 & _ & Hdata1 & Hd1 & Hf1 & Hred1 & Hc1 & Hres1 & Hnil); [done..|].
  destruct (on_data_new o callback callSite sw1)
    as (sw2 & c & Hr2 & Ha2 & Ht2 & Hdata2 & Hf2 & Hd2 & Hres2 & Hpen2); [done..|].
  rewrite Hc1, Hred1, Hdata1 in *. cbn [stream sw0 new_Stream closures _reducer data app] in *.
  exists sw0, sw1, sw2. do 5 (split; [done|]). split; [exact Ht2|]. split; [done|].
  split; [|split].
  - rewrite Hres2, Hres1. destruct ds; [|done]. by rewrite (Hnil eq_refl).
  - rewrite Hpen2. destruct ds; [|done]. by rewrite (Hnil eq_refl).
  - intros d. destruct (write_attached c f d sw2) as (sw3 & Hr3 & Ht3 & Hs3); try done.
    { apply Hstay. }
    exists sw3. by rewrite Hs3.
Qed.

Lemma buffered_data_reach_the_first_data_listener_witness :
  let callback := {| consumer_id := 0; consume := λ _, Returns VUndefined |} in
  let f := arrow 0 callback in
  ∃ sw0 sw1 sw2,
    construct None None [] = (sw0, Normal tt)
    ∧ write_each [VNumber 1; VString "two"] sw0 = (sw1, Normal tt)
    ∧ world sw1 = world sw0
    ∧ data (stream sw1) = [VNumber 1; VString "two"]
    ∧ on (OnData callback) "site" sw1 = (sw2, Normal tt)
    ∧ List.filter is_Invoked (trace (world sw2))
      = map (λ d, Invoked (cb_id f) None [d] TokenNone)
          (flushed None [VNumber 1; VString "two"])
    ∧ data (stream sw2) = []
    ∧ resolved (stream sw2) = _pendingPromises (stream sw1)
    ∧ _pendingPromises (stream sw2) = []
    ∧ ∀ d, ∃ sw3,
        write d sw2 = (sw3, Normal None)
        ∧ List.filter is_Invoked (trace (world sw3))
          = List.filter is_Invoked (trace (world sw2))
            ++ [Invoked (cb_id f) None [d] TokenNone]
        ∧ data (stream sw3) = [].
Proof.
  apply (buffered_data_reach_the_first_data_listener None None []
           [VNumber 1; VString "two"]
           {| consumer_id := 0; consume := λ _, Returns VUndefined |} "site").
  - simpl. discriminate.
  - intros d. simpl. exact I.
Defined.

End StreamLaws.
